(* ===== verification/_CoqProject ===== *)
-Q . S2P
Prelude.v
Layout.v
GoText.v
ACEvent.v
EventText.v
GoNum.v
Json.v
Backoff.v
Machine.v
GoChan.v
Windows.v
IPC.v
WSServer.v
HydraWS.v
Injector.v
DLLScanner.v
ETWConsumer.v
Receiver.v
EndToEnd.v
BackendMain.v
AgentMain.v
System.v
