(* ===== verification/Prelude.v ===== *)
(** * Medusa AntiCheat: the user-mode agent and the backend

    A model of the Go code of the repository and its correctness.  A driver reports kernel
    events to an agent, a Go program on the same Windows machine, which adds events of its
    own and sends them over a WebSocket to the backend; the backend logs them as JSON and
    broadcasts text commands to the agents.

    ** The program and its model

    An event is the struct [ACEvent], the same declaration on both sides, mirroring a C
    struct of the driver; it travels as its memory.

    - [Layout], [ACEvent]: memory layout of structs, and [MedusaUserlandAgent/Event.go],
      [MedusaBackend/Event.go] with the raw copies ([evToBytes] of [WebSocketWorker.go], the
      [copy] through [unsafe.Pointer] of [main.go], [IPC.go] and [WSServer.go]).
    - [GoText], [EventText]: UTF-8 and UTF-16 as Go has them; the fixed text fields, written
      by [StringZInto] ([structs.go]) and by the driver, read by the two pairs of readers of
      the two [Event.go].
    - [GoNum], [Json]: decimal numbers, [Sscanf] with %d, and [ToJSON] of the two [Event.go],
      with a parser written from the JSON grammar.
    - [Backoff]: [nextBackoff] of [WebSocketWorker.go], on binary64 numbers.
    - [Machine], [GoChan]: labelled machines and their runs; buffered Go channels.
    - [Windows]: programs that are sequences of calls, as interaction trees.  [does t tr r]
      and [begins t tr] say which calls, with which answers, a whole execution makes, or one
      that may go on; [balanced] is the discipline of handles.
    - [IPC]: [IPC.go], the named pipe by which programs hand events to the agent.  [Pipe] is
      the interface between [readLoop] and Windows, [MessagePipe] its documented behaviour.
    - [Receiver]: the driver's port, [Connect], [Close], [hresultText] of [structs.go] and
      [Loop] of [main.go].
    - [DLLScanner], [Injector], [ETWConsumer]: the files of the same names.
    - [HydraWS]: [WebSocketWorker.go], the agent's client.  One [label] per step of one of its
      goroutines (event pump, connection loop, the read, write and ping loops of every
      connection, the callers of [Close] and [SendJSON]); [step] is the code between two
      points where a goroutine may wait.
    - [WSServer]: [WSServer.go], the backend's server, in the same way (handlers,
      broadcaster, [Close]); [h.conns] changes under [h.mu] only.
    - [AgentMain], [BackendMain]: the two [main] functions, the callback of the client and
      the consumer of the backend.
    - [EndToEnd]: [HydraWS] and [WSServer] as one machine, joined by the messages on their
      connections.  [System]: that machine with [Loop], [main] and the consumer around it.

    Goroutines share state through the records [client] and [server]; a run is any
    interleaving of their steps.  What is asynchronous or up to the environment (what is
    read, whether a call fails, which entry of a map comes next, the clock) is in the label
    or in the recorded answer, so that the theorems hold for all of it.

    ** What the theorems show

    - The whole path: [System.driver_to_log], what the backend prints are events the driver
      and the agent's other sources reported, at most as often, and in order on the first
      connection;
      [EndToEnd.pipeline_refines], client and server refine a lossy bag, and a lossy queue on
      the first connection; [System.main_only_scans], [EndToEnd.commands_reach_callback], the
      way back.
    - Events as data: [event_roundtrip] and [message_roundtrip] (memory), [ToJSON_parses] and
      [ToJSON_one_line] (JSON), [utf16_text_roundtrip], [int32_text_faithful_iff_bmp],
      [utf16_text_truncation], [StringZInto_correct], [utf16_readers_agree_iff_paired],
      [kernel_path_loses_every_second_unit] (texts), [dll_event_readable].
    - The sources of events: [readLoop_delivers] and [readLoop_recovers_events] (pipe, with
      its termination), [server_handles], [Loop_delivers], [Connect_Close],
      [scan_reports_modules].
    - The client: [frames_at_most_once], [pump_forwards_events], [close_joins],
      [close_completes], [backoff_schedule], [nextBackoff_exact], and the defects
      [client_panics], [stale_writer_loses_frame] and [concurrent_writers_reachable].
    - The server: [recv_fifo], [registry], [broadcast_complete], [broadcast_terminates], and
      the defect [send_after_close_panics].
    - Windows calls and programs: [inject_calls], [ensure_enabled], [main_serves],
      [pid_argument], [main_runs_forever].

    ** Bounds and fuel

    [readLoop] and [drain] take fuel; [readLoop_delivers] gives, for the messages pending, an
    amount with which it ends.  [parse_object], the reference parser, takes as fuel the
    length of its input, of which a member uses at least one character.  The loops over
    Windows calls are [ITree.iter], without a bound; the numbers of nodes in [does] and
    [begins] are existentially quantified.  Integers are [Z] with [wrap_u] and [wrap_s] where
    the code converts; buffers have the code's sizes (an event has 3648 bytes on amd64, the
    agent's send channel 1024 places).

    ** Not modelled

    - The driver, the injected DLL and the Python script: not Go.  Of the driver the event
      struct and its writes to [ImageFileName] are, as what the Go code relies on.
    - The WebSocket library, [net/http] and [golang.org/x/sys/windows]: their calls are
      labels or answers.  A connection delivers what was written to it, in order, up to its
      end; the two functions that convert strings are parameters.  That the calls the agent
      finds by name exist in the system's DLLs is assumed.
    - What overlapping [WriteMessage] calls do to the bytes: a call that met another one on
      its connection may panic, as the library's does when it notices ([LWritePanic],
      [LPingPanic], [LClosePanic]), fail, or return, and one that returns is taken to have
      written its frame whole.  A panic of a handler of [net/http] is recovered.
    - Deadlines, ping and pong bookkeeping, the HTTP upgrade, log lines of the client and the
      server: they do not change what the models keep.  A connection that times out is one
      whose read fails.
    - [context.Context] beyond its being cancelled, and the garbage collector.
    - Several agents at one backend: [WSServer] allows any number of connections, the
      composition in [EndToEnd] has one agent. *)

From stdpp Require Export base tactics numbers list gmap strings relations.
From Stdlib Require Export ZArith.

Declare Scope medusa_scope.
Delimit Scope medusa_scope with medusa.

#[global] Open Scope Z_scope.

Create HintDb medusa.
Create Rewrite HintDb medusa_len.

(** ** Tactics of the development *)

(** Split every [if] or [match] of the goal, closing the absurd branches. *)
Ltac split_cases := repeat (case_match || case_decide); simplify_eq/=.

(** Normalise list lengths, then do arithmetic. *)
Ltac len := autorewrite with medusa_len in *; try lia.

(** Prove a decidable closed proposition by evaluating its decision procedure. *)
Ltac decide_vm := apply (bool_decide_eq_true_1 _); vm_compute; reflexivity.

(** Linear arithmetic with [/] and [mod] by constants. *)
Ltac zdm := Z.to_euclidean_division_equations; lia.

#[export] Hint Rewrite @length_app @length_replicate @length_take @length_drop
  @length_cons @length_nil @length_fmap @length_seq : medusa_len.

(** ** Machine integers

    A [w]-bit integer is a [Z]; Go's conversions wrap.  [wrap_u w] is the conversion to
    the unsigned type of [w] bits, [wrap_s w] the one to the signed type. *)

Definition wrap_u (w z : Z) : Z := z mod 2 ^ w.
Definition wrap_s (w z : Z) : Z := (z + 2 ^ (w - 1)) mod 2 ^ w - 2 ^ (w - 1).
Definition in_u (w z : Z) : Prop := 0 <= z < 2 ^ w.
Definition in_s (w z : Z) : Prop := - 2 ^ (w - 1) <= z < 2 ^ (w - 1).

#[global] Instance in_u_dec w z : Decision (in_u w z) := _.
#[global] Instance in_s_dec w z : Decision (in_s w z) := _.

Section machine_ints.
Context (w : Z) (Hw : 0 < w).

Lemma pow2_half : 2 ^ w = 2 * 2 ^ (w - 1).
Proof using Hw. rewrite <- Z.pow_succ_r by lia. f_equal. lia. Qed.

Lemma pow2_half_pos : 0 < 2 ^ (w - 1).
Proof using Hw. apply Z.pow_pos_nonneg; lia. Qed.

Lemma wrap_u_range z : in_u w (wrap_u w z).
Proof using Hw.
  unfold in_u, wrap_u. apply Z.mod_pos_bound. apply Z.pow_pos_nonneg; lia.
Qed.

Lemma wrap_s_range z : in_s w (wrap_s w z).
Proof using Hw.
  unfold in_s, wrap_s. pose proof pow2_half as E. pose proof pow2_half_pos as P.
  pose proof (Z.mod_pos_bound (z + 2 ^ (w - 1)) (2 ^ w) ltac:(lia)). lia.
Qed.

Lemma wrap_u_small z : in_u w z -> wrap_u w z = z.
Proof using Hw. apply Z.mod_small. Qed.

Lemma wrap_s_small z : in_s w z -> wrap_s w z = z.
Proof using Hw.
  unfold in_s, wrap_s. intros H. pose proof pow2_half. rewrite Z.mod_small; lia.
Qed.

Lemma wrap_s_wrap_u z : wrap_s w (wrap_u w z) = wrap_s w z.
Proof using Hw.
  unfold wrap_s, wrap_u. rewrite Zplus_mod_idemp_l. done.
Qed.

Lemma wrap_u_wrap_s z : wrap_u w (wrap_s w z) = wrap_u w z.
Proof using Hw.
  unfold wrap_s, wrap_u. rewrite Zminus_mod_idemp_l. f_equal. lia.
Qed.
End machine_ints.

(** ** Zero-terminated buffers *)

(** The prefix of a buffer before its first zero cell. *)
Fixpoint until_zero (l : list Z) : list Z :=
  match l with
  | [] => []
  | x :: l' => if decide (x = 0) then [] else x :: until_zero l'
  end.

Definition nonzero (z : Z) : Prop := z <> 0.
#[global] Instance nonzero_dec z : Decision (nonzero z) := _.

Lemma until_zero_nonzero l : Forall nonzero (until_zero l).
Proof. induction l as [|x l IH]; simpl; [constructor|]. case_decide; constructor; auto. Qed.

Lemma until_zero_id l : Forall nonzero l -> until_zero l = l.
Proof. induction 1 as [|x l Hx _ IH]; simpl; [done|]. rewrite decide_False by done. by f_equal. Qed.

Lemma until_zero_app_nonzero l r :
  Forall nonzero l -> until_zero (l ++ r) = l ++ until_zero r.
Proof. induction 1 as [|x l Hx _ IH]; simpl; [done|]. rewrite decide_False by done. by f_equal. Qed.

Lemma until_zero_app_zero l r : Forall nonzero l -> until_zero (l ++ 0 :: r) = l.
Proof. intros H. rewrite until_zero_app_nonzero by done. simpl. by rewrite app_nil_r. Qed.

Lemma until_zero_terminated l k : Forall nonzero l -> until_zero (l ++ replicate k 0) = l.
Proof.
  intros H. destruct k; simpl; [by rewrite app_nil_r, until_zero_id|].
  by apply until_zero_app_zero.
Qed.

#[export] Hint Resolve until_zero_nonzero : medusa.

(** ** Go's [copy] builtin: the first [min (len dst) (len src)] cells are overwritten. *)
Definition go_copy {A} (dst src : list A) : list A :=
  take (length dst) src ++ drop (length src) dst.

Lemma go_copy_length {A} (dst src : list A) : length (go_copy dst src) = length dst.
Proof. unfold go_copy. len. Qed.

Lemma go_copy_full {A} (dst src : list A) : length src = length dst -> go_copy dst src = src.
Proof.
  intros E. unfold go_copy. rewrite <- E, firstn_all, drop_ge by lia. by rewrite app_nil_r.
Qed.

#[export] Hint Rewrite @go_copy_length : medusa_len.

(** ** Concatenation *)
Lemma mjoin_cons {A} (l : list A) ls : mjoin (l :: ls) = l ++ mjoin ls.
Proof. done. Qed.

Lemma mjoin_single {A} (l : list A) : mjoin [l] = l.
Proof. apply app_nil_r. Qed.

(** ** Sums over a list *)
Definition total {A} (f : A -> Z) (ls : list A) : Z := foldr (fun x n => f x + n) 0 ls.

Lemma total_app {A} (f : A -> Z) l1 l2 : total f (l1 ++ l2) = total f l1 + total f l2.
Proof. induction l1 as [|x l1 IH]; simpl; lia. Qed.

Lemma total_insert {A} (f : A -> Z) ls g x y :
  ls !! g = Some x -> total f (<[g := y]> ls) = total f ls - f x + f y.
Proof.
  intros Hg. pose proof (lookup_lt_Some _ _ _ Hg) as Hlt.
  rewrite insert_take_drop by done. rewrite <- (take_drop_middle ls g x Hg) at 3.
  rewrite !total_app. simpl. lia.
Qed.

Lemma total_nonneg {A} (f : A -> Z) ls : (forall x, 0 <= f x) -> 0 <= total f ls.
Proof. intros Hf. induction ls as [|x ls IH]; simpl; [lia|]. specialize (Hf x). lia. Qed.

Lemma total_lookup {A} (f : A -> Z) : (forall x, 0 <= f x) ->
  forall ls g x, ls !! g = Some x -> f x <= total f ls.
Proof.
  intros Hf ls. induction ls as [|x ls IH]; intros [|g] y H; simplify_eq/=.
  - pose proof (total_nonneg f ls Hf). lia.
  - specialize (IH g y H). specialize (Hf x). lia.
Qed.

Lemma total_pos {A} (f : A -> Z) ls : (forall x, 0 <= f x) -> 0 < total f ls -> exists g x, ls !! g = Some x /\ 0 < f x.
Proof.
  intros Hf. induction ls as [|x ls IH]; simpl; [lia|]. intros H.
  destruct (decide (0 < f x)) as [Hx|Hx]; [by exists 0%nat, x|].
  destruct IH as (g & y & Hg & Hy); [specialize (Hf x); lia|]. by exists (S g), y.
Qed.

(** ** Multisets *)

Lemma filter_key {A} g (l : list (nat * A)) : filter (fun p => p.1 = g) l = pair g <$> (filter (fun p => p.1 = g) l).*2.
Proof.
  induction l as [|[d x] l IH]; [done|]. rewrite !filter_cons. simpl. case_decide; [subst; simpl; by f_equal|done].
Qed.

Lemma filter_only {A} (f : A -> nat) d (l : list A) : (forall x, x ∈ l -> f x = d) -> filter (fun x => f x = d) l = l.
Proof.
  induction l as [|x l IH]; intros H; [done|]. rewrite filter_cons, decide_True by (apply H, list_elem_of_here).
  f_equal. apply IH. intros y Hy. apply H. by apply list_elem_of_further.
Qed.

Lemma in_filter_key {A B} (f : A -> nat) (h : A -> B) (l : list A) x :
  x ∈ l -> h <$> filter (fun y => f y = f x) l <> [].
Proof.
  intros Hx Hn%fmap_nil_inv. assert (Hin : x ∈ filter (fun y => f y = f x) l) by (by apply list_elem_of_filter).
  rewrite Hn in Hin. by apply elem_of_nil in Hin.
Qed.

(** A list is contained in another, as a multiset, when it is so for every key. *)
Lemma submseteq_by_key {A} `{EqDecision A} (l1 l2 : list (nat * A)) :
  (forall g, filter (fun p => p.1 = g) l1 ⊆+ filter (fun p => p.1 = g) l2) -> l1 ⊆+ l2.
Proof.
  revert l2. induction l1 as [|[g x] l1 IH]; intros l2 H; [apply submseteq_nil_l|].
  assert (Hin : (g, x) ∈ l2).
  { pose proof (H g) as Hg. rewrite filter_cons_True in Hg by done.
    eapply (list_elem_of_filter (fun p => p.1 = g)), elem_of_submseteq; [|exact Hg]. apply list_elem_of_here. }
  apply elem_of_Permutation in Hin as [l2' Hl2]. rewrite Hl2. apply submseteq_skip, IH. intros g'.
  specialize (H g'). rewrite Hl2 in H. rewrite !filter_cons in H. simpl in H. case_decide; [|done].
  by apply (submseteq_app_inv_l _ _ [(g, x)]).
Qed.

(** All but at most one of [l1] is [l2], in order. *)
Definition all_but_one {A} (l1 l2 : list A) : Prop := exists lost, (length lost <= 1)%nat /\ l1 = l2 ++ lost.

Lemma all_but_one_refl {A} (l : list A) : all_but_one l l.
Proof. exists []. split; [simpl; lia|by rewrite app_nil_r]. Qed.

Lemma all_but_one_snoc {A} (l : list A) x : all_but_one (l ++ [x]) l.
Proof. exists [x]. split; [simpl; lia|done]. Qed.

Lemma all_but_one_app {A} (k l1 l2 : list A) : all_but_one l1 l2 -> all_but_one (k ++ l1) (k ++ l2).
Proof. intros (lost & Hl & ->). exists lost. by rewrite app_assoc. Qed.

Lemma all_but_one_prefix {A} (l1 l2 : list A) : all_but_one l1 l2 -> l2 `prefix_of` l1.
Proof. intros (lost & _ & ->). by exists lost. Qed.
#[export] Hint Resolve all_but_one_refl all_but_one_snoc all_but_one_app : medusa.

(** ** Updates of a list *)
(** [l] is [l1] and [l2], each in its order. *)
Inductive interleaving {A} : list A -> list A -> list A -> Prop :=
  | interleaving_nil : interleaving [] [] []
  | interleaving_left x l1 l2 l : interleaving l1 l2 l -> interleaving (x :: l1) l2 (x :: l)
  | interleaving_right x l1 l2 l : interleaving l1 l2 l -> interleaving l1 (x :: l2) (x :: l).

#[export] Hint Constructors interleaving : medusa.

Lemma interleaving_perm {A} (l1 l2 l : list A) : interleaving l1 l2 l -> l ≡ₚ l1 ++ l2.
Proof. induction 1 as [|x l1 l2 l _ IH|x l1 l2 l _ IH]; [done|by rewrite IH|]. rewrite IH. apply Permutation_middle. Qed.

Lemma interleaving_prefix {A} (l1 l2 l k : list A) :
  interleaving l1 l2 l -> k `prefix_of` l -> exists k1 k2, interleaving k1 k2 k /\ k1 `prefix_of` l1 /\ k2 `prefix_of` l2.
Proof.
  intros HI. revert k. induction HI as [|x l1 l2 l _ IH|x l1 l2 l _ IH]; intros [|y k] Hk;
    try (exists [], []; split_and!; [constructor|apply prefix_nil|apply prefix_nil]).
  - by apply prefix_nil_inv in Hk.
  - apply prefix_cons_inv_1 in Hk as Hx. subst y. apply prefix_cons_inv_2 in Hk.
    destruct (IH k Hk) as (k1 & k2 & ? & ? & ?). exists (x :: k1), k2. split_and!; [by constructor|by apply prefix_cons|done].
  - apply prefix_cons_inv_1 in Hk as Hx. subst y. apply prefix_cons_inv_2 in Hk.
    destruct (IH k Hk) as (k1 & k2 & ? & ? & ?). exists k1, (x :: k2). split_and!; [by constructor|done|by apply prefix_cons].
Qed.

Lemma lookup_update {A} (ls : list A) g x y g' :
  ls !! g = Some x -> <[g := y]> ls !! g' = if decide (g = g') then Some y else ls !! g'.
Proof.
  intros Hg%lookup_lt_Some. rewrite list_lookup_insert. repeat case_decide; try done; naive_solver.
Qed.

(** ** Bytes *)
Definition is_byte (z : Z) : Prop := in_u 8 z.
#[global] Instance is_byte_dec z : Decision (is_byte z) := _.

(** The bytes of a Go string literal. *)
Definition lit (s : string) : list Z :=
  (fun a => Z.of_N (Ascii.N_of_ascii a)) <$> String.list_ascii_of_string s.

Lemma Forall_replicate_of {A} (P : A -> Prop) n x : P x -> Forall P (replicate n x).
Proof. intros H. induction n; simpl; auto. Qed.
#[export] Hint Resolve Forall_replicate_of : medusa.

Lemma go_copy_Forall {A} (P : A -> Prop) (dst src : list A) :
  Forall P dst -> Forall P src -> Forall P (go_copy dst src).
Proof. intros Hd Hs. unfold go_copy. apply Forall_app; split; [by apply Forall_take|by apply Forall_drop]. Qed.
#[export] Hint Resolve go_copy_Forall : medusa.
