(* ===== verification/Layout.v ===== *)
(** * Memory layout of Go structs

    The byte image of a fixed-size struct as Go lays it out (and as the C compiler lays
    out the struct it mirrors): every field at an offset that is a multiple of its
    alignment, the whole rounded up to the largest alignment, integers little-endian.
    Nothing here is specific to one struct; [ACEvent.v] and [Receiver.v] instantiate it. *)

From S2P Require Import Prelude.

(** ** Little-endian integers *)

Fixpoint le_bytes (n : nat) (z : Z) : list Z :=
  match n with
  | O => []
  | S n' => z mod 256 :: le_bytes n' (z / 256)
  end.

Fixpoint le_val (bs : list Z) : Z :=
  match bs with
  | [] => 0
  | b :: bs' => b + 256 * le_val bs'
  end.

Definition bits (n : nat) : Z := 8 * Z.of_nat n.

Lemma le_bytes_length n z : length (le_bytes n z) = n.
Proof. revert z. induction n; intros; simpl; auto. Qed.

Lemma le_bytes_byte n z : Forall is_byte (le_bytes n z).
Proof.
  revert z. induction n; intros; simpl; constructor; auto.
  unfold is_byte, in_u. change (2 ^ 8) with 256. apply Z.mod_pos_bound. lia.
Qed.

Lemma pow2_bits_S n : 2 ^ bits (S n) = 256 * 2 ^ bits n.
Proof.
  unfold bits. rewrite Nat2Z.inj_succ, Z.mul_succ_r, Z.pow_add_r by lia.
  change (2 ^ 8) with 256. lia.
Qed.

Lemma pow2_bits_pos n : 0 < 2 ^ bits n.
Proof. apply Z.pow_pos_nonneg; unfold bits; lia. Qed.

Lemma le_val_bytes n z : le_val (le_bytes n z) = wrap_u (bits n) z.
Proof.
  unfold wrap_u. revert z. induction n as [|n IH]; intros z; simpl.
  - unfold bits; simpl. by rewrite Z.mod_1_r.
  - rewrite IH, pow2_bits_S. pose proof (pow2_bits_pos n).
    rewrite Z.rem_mul_r by lia. reflexivity.
Qed.

Lemma le_val_range bs : Forall is_byte bs -> in_u (bits (length bs)) (le_val bs).
Proof.
  unfold in_u. induction 1 as [|b bs Hb _ IH]; simpl.
  - unfold bits; simpl; lia.
  - rewrite pow2_bits_S. unfold is_byte, in_u in Hb. change (2 ^ 8) with 256 in Hb. lia.
Qed.

Lemma le_bytes_val bs : Forall is_byte bs -> le_bytes (length bs) (le_val bs) = bs.
Proof.
  induction 1 as [|b bs Hb _ IH]; simpl; [done|].
  unfold is_byte, in_u in Hb. change (2 ^ 8) with 256 in Hb.
  f_equal.
  - rewrite (Z.mul_comm 256), Z_mod_plus_full. by apply Z.mod_small.
  - by replace ((b + 256 * le_val bs) / 256) with (le_val bs) by zdm.
Qed.

Lemma le_bytes_mod n z : le_bytes n (wrap_u (bits n) z) = le_bytes n z.
Proof.
  rewrite <- le_val_bytes. rewrite <- (le_bytes_length n z) at 1.
  apply le_bytes_val, le_bytes_byte.
Qed.

#[export] Hint Rewrite le_bytes_length : medusa_len.
#[export] Hint Resolve le_bytes_byte : medusa.

(** ** Scalars *)

Record scalar := Scalar { sc_size : nat; sc_signed : bool }.

Definition scalar_ok (sc : scalar) (z : Z) : Prop :=
  if sc_signed sc then in_s (bits (sc_size sc)) z else in_u (bits (sc_size sc)) z.

#[global] Instance scalar_ok_dec sc z : Decision (scalar_ok sc z).
Proof. unfold scalar_ok. destruct (sc_signed sc); apply _. Defined.

Definition enc_scalar (sc : scalar) (z : Z) : list Z := le_bytes (sc_size sc) z.

Definition dec_scalar (sc : scalar) (bs : list Z) : Z :=
  if sc_signed sc then wrap_s (bits (sc_size sc)) (le_val bs) else le_val bs.

(** ** Fields: an array of [fd_count] scalars, or one scalar when the count is 1 *)

Record field := Field { fd_elem : scalar; fd_count : nat }.

Definition fd_align (f : field) : nat := sc_size (fd_elem f).
Definition fd_size (f : field) : nat := (fd_count f * sc_size (fd_elem f))%nat.

Definition field_ok (f : field) (vs : list Z) : Prop :=
  length vs = fd_count f /\ Forall (scalar_ok (fd_elem f)) vs.

#[global] Instance field_ok_dec f vs : Decision (field_ok f vs) := _.

Definition enc_field (f : field) (vs : list Z) : list Z :=
  mjoin (enc_scalar (fd_elem f) <$> vs).

Fixpoint chunks {A} (k n : nat) (l : list A) : list (list A) :=
  match n with
  | O => []
  | S n' => take k l :: chunks k n' (drop k l)
  end.

Definition dec_field (f : field) (bs : list Z) : list Z :=
  dec_scalar (fd_elem f) <$> chunks (sc_size (fd_elem f)) (fd_count f) bs.

(** ** Structs *)

(** Bytes of padding needed at offset [off] to reach a multiple of [a]. *)
Definition pad_len (off a : nat) : nat := ((a - off mod a) mod a)%nat.

Definition struct_align (fs : list field) : nat := max_list (fd_align <$> fs).

Fixpoint end_from (off : nat) (fs : list field) : nat :=
  match fs with
  | [] => off
  | f :: fs' => end_from (off + pad_len off (fd_align f) + fd_size f)%nat fs'
  end.

(** [unsafe.Sizeof] *)
Definition sizeof (fs : list field) : nat :=
  let e := end_from 0 fs in (e + pad_len e (struct_align fs))%nat.

(** [unsafe.Offsetof], field by field *)
Fixpoint offsets (off : nat) (fs : list field) : list nat :=
  match fs with
  | [] => []
  | f :: fs' =>
      let o := (off + pad_len off (fd_align f))%nat in
      o :: offsets (o + fd_size f)%nat fs'
  end.

(** The image of a struct.  Go leaves the padding bytes unspecified: [pad] gives the byte
    at each padding offset. *)
Fixpoint enc_from (pad : nat -> Z) (tail off : nat) (fs : list field) (vs : list (list Z)) : list Z :=
  match fs, vs with
  | f :: fs', v :: vs' =>
      let p := pad_len off (fd_align f) in
      (pad <$> seq off p) ++ enc_field f v ++ enc_from pad tail (off + p + fd_size f)%nat fs' vs'
  | _, _ => pad <$> seq off (pad_len off tail)
  end.

Fixpoint dec_from (off : nat) (fs : list field) (bs : list Z) : list (list Z) :=
  match fs with
  | [] => []
  | f :: fs' =>
      let p := pad_len off (fd_align f) in
      dec_field f (take (fd_size f) (drop p bs))
        :: dec_from (off + p + fd_size f)%nat fs' (drop (p + fd_size f)%nat bs)
  end.

Definition enc_struct (pad : nat -> Z) (fs : list field) (vs : list (list Z)) : list Z :=
  enc_from pad (struct_align fs) 0 fs vs.
Definition dec_struct (fs : list field) (bs : list Z) : list (list Z) := dec_from 0 fs bs.

(** ** Round trips *)

Lemma scalar_roundtrip sc z : scalar_ok sc z -> dec_scalar sc (enc_scalar sc z) = z.
Proof.
  unfold scalar_ok, dec_scalar, enc_scalar. rewrite le_val_bytes.
  destruct (sc_size sc) as [|n] eqn:En.
  - destruct (sc_signed sc); change (bits 0) with 0; unfold in_s, in_u; simpl; [lia|].
    unfold wrap_u. intros. change (2 ^ 0) with 1. zdm.
  - destruct (sc_signed sc); intros H.
    + rewrite wrap_s_wrap_u by (unfold bits; lia). apply wrap_s_small; [unfold bits; lia|done].
    + apply wrap_u_small; [unfold bits; lia|done].
Qed.

Lemma scalar_unroundtrip sc bs :
  length bs = sc_size sc -> Forall is_byte bs -> enc_scalar sc (dec_scalar sc bs) = bs.
Proof.
  unfold enc_scalar, dec_scalar. intros <- Hb. destruct (sc_signed sc); [|by apply le_bytes_val].
  destruct bs as [|b bs]; [done|]. rewrite <- le_bytes_mod, wrap_u_wrap_s by (unfold bits; simpl; lia).
  rewrite le_bytes_mod. by apply le_bytes_val.
Qed.

Lemma dec_scalar_ok sc bs :
  length bs = sc_size sc -> Forall is_byte bs -> (0 < sc_size sc)%nat ->
  scalar_ok sc (dec_scalar sc bs).
Proof.
  unfold scalar_ok, dec_scalar. intros E Hb Hp. destruct (sc_signed sc).
  - apply wrap_s_range. unfold bits. lia.
  - rewrite <- E. by apply le_val_range.
Qed.

Lemma enc_field_length f vs :
  length vs = fd_count f -> length (enc_field f vs) = fd_size f.
Proof.
  unfold enc_field, fd_size. intros <-. induction vs as [|v vs IH]; [done|].
  rewrite fmap_cons, mjoin_cons, length_app, IH. simpl. unfold enc_scalar. by rewrite le_bytes_length.
Qed.

Lemma chunks_mjoin {A} k (ls : list (list A)) r :
  Forall (fun l => length l = k) ls -> chunks k (length ls) (mjoin ls ++ r) = ls.
Proof.
  induction 1 as [|l ls <- _ IH]; [done|].
  rewrite mjoin_cons. simpl. rewrite <- app_assoc, take_app_length, drop_app_length. by f_equal.
Qed.

Lemma mjoin_chunks {A} k n (l : list A) :
  length l = (n * k)%nat -> mjoin (chunks k n l) = l.
Proof.
  revert l. induction n as [|n IH]; intros l E; simpl chunks.
  - by apply nil_length_inv in E.
  - rewrite mjoin_cons, IH by (simpl in E; len). apply take_drop.
Qed.

Lemma chunks_Forall {A} (P : A -> Prop) k n (l : list A) :
  length l = (n * k)%nat -> Forall P l ->
  Forall (fun c => length c = k /\ Forall P c) (chunks k n l).
Proof.
  revert l. induction n as [|n IH]; intros l E H; simpl in *; [constructor|].
  constructor.
  - split; [len|by apply Forall_take].
  - apply IH; [len|by apply Forall_drop].
Qed.

Lemma chunks_length {A} k n (l : list A) : length (chunks k n l) = n.
Proof. revert l. induction n; intros; simpl; auto. Qed.

Lemma field_roundtrip f vs r : field_ok f vs -> dec_field f (enc_field f vs ++ r) = vs.
Proof.
  unfold dec_field, enc_field. intros [<- Hok].
  rewrite <- (length_fmap (enc_scalar (fd_elem f)) vs), chunks_mjoin.
  - rewrite <- list_fmap_compose. rewrite <- (list_fmap_id vs) at 2.
    apply list_fmap_ext. intros i x Hx. simpl. apply scalar_roundtrip.
    by eapply Forall_lookup_1.
  - apply Forall_fmap, Forall_true. intros x. apply le_bytes_length.
Qed.

Lemma field_unroundtrip f bs :
  length bs = fd_size f -> Forall is_byte bs -> enc_field f (dec_field f bs) = bs.
Proof.
  unfold dec_field, enc_field, fd_size. intros E Hb.
  rewrite <- list_fmap_compose.
  rewrite <- (mjoin_chunks (sc_size (fd_elem f)) (fd_count f) bs E) at 2. f_equal.
  pose proof (chunks_Forall is_byte _ _ bs E Hb) as HF.
  rewrite <- (list_fmap_id (chunks _ _ bs)) at 2. apply list_fmap_ext.
  intros i c Hc. simpl. rewrite Forall_lookup in HF. destruct (HF _ _ Hc).
  by apply scalar_unroundtrip.
Qed.

Lemma dec_field_ok f bs :
  length bs = fd_size f -> Forall is_byte bs -> (0 < fd_align f)%nat -> field_ok f (dec_field f bs).
Proof.
  unfold dec_field, field_ok, fd_size, fd_align. intros E Hb Hp. split.
  - by rewrite length_fmap, chunks_length.
  - apply Forall_fmap. eapply Forall_impl; [by eapply chunks_Forall|].
    intros c [? ?]. simpl. by apply dec_scalar_ok.
Qed.

Lemma end_from_ge off fs : (off <= end_from off fs)%nat.
Proof.
  revert off. induction fs as [|f fs IH]; intros off; simpl; [done|].
  etrans; [|apply IH]. lia.
Qed.

Lemma enc_from_length pad tail off fs vs :
  Forall2 field_ok fs vs ->
  (off + length (enc_from pad tail off fs vs) = end_from off fs + pad_len (end_from off fs) tail)%nat.
Proof.
  intros H. revert off. induction H as [|f v fs vs [Hl _] _ IH]; intros off; simpl; [len|].
  rewrite <- IH. rewrite !length_app, length_fmap, length_seq, enc_field_length by done. lia.
Qed.

Lemma dec_enc_from pad tail off fs vs :
  Forall2 field_ok fs vs -> dec_from off fs (enc_from pad tail off fs vs) = vs.
Proof.
  intros H. revert off. induction H as [|f v fs vs Hf _ IH]; intros off; simpl; [done|].
  set (p := pad_len off (fd_align f)).
  assert (Lp : length (pad <$> seq off p) = p) by len.
  pose proof (enc_field_length f v (proj1 Hf)) as Lf.
  rewrite drop_app_length' by done. rewrite <- drop_drop, drop_app_length' by done.
  rewrite take_app_length', drop_app_length' by done. f_equal; [|apply IH].
  rewrite <- (app_nil_r (enc_field f v)). by apply field_roundtrip.
Qed.

Lemma pad_block pad off p (bs : list Z) :
  (p <= length bs)%nat -> (forall i, (i < p)%nat -> pad (off + i)%nat = nth i bs 0) ->
  pad <$> seq off p = take p bs.
Proof.
  intros Hp Hpad. apply (list_eq_same_length _ _ p); [len|len|].
  intros i x y Hi Hx Hy. apply list_lookup_fmap_Some in Hx as (j & -> & Hj).
  apply lookup_seq in Hj as [-> _]. rewrite Hpad by done.
  rewrite lookup_take_lt in Hy by done. by apply (nth_lookup_Some _ _ 0) in Hy.
Qed.

(** The image of a decoded struct is the bytes it was decoded from, when the padding
    bytes are kept. *)
Lemma enc_dec_from pad tail off fs bs :
  (forall i, (i < length bs)%nat -> pad (off + i)%nat = nth i bs 0) ->
  (off + length bs = end_from off fs + pad_len (end_from off fs) tail)%nat -> Forall is_byte bs ->
  enc_from pad tail off fs (dec_from off fs bs) = bs.
Proof.
  revert off bs. induction fs as [|f fs IH]; intros off bs Hpad E Hb; simpl in *.
  - rewrite (pad_block _ _ _ bs), take_ge by (auto with lia; lia). done.
  - set (p := pad_len off (fd_align f)) in *.
    pose proof (end_from_ge (off + p + fd_size f) fs) as Hge.
    rewrite field_unroundtrip; [|len|by apply Forall_take, Forall_drop].
    rewrite IH; [| |len|by apply Forall_drop].
    + rewrite (pad_block _ _ _ bs) by (auto with lia; lia).
      rewrite <- (drop_drop bs), take_drop. apply take_drop.
    + intros i Hi. rewrite length_drop in Hi. rewrite nth_skipn, <- Hpad by lia. f_equal. lia.
Qed.

(** *** The three facts the structs of the program use *)

Section struct.
Context (fs : list field).

Lemma enc_struct_length pad vs :
  Forall2 field_ok fs vs -> length (enc_struct pad fs vs) = sizeof fs.
Proof using Type. intros H. pose proof (enc_from_length pad (struct_align fs) 0 fs vs H). unfold sizeof. done. Qed.

Lemma dec_enc_struct pad vs : Forall2 field_ok fs vs -> dec_struct fs (enc_struct pad fs vs) = vs.
Proof using Type. apply dec_enc_from. Qed.

Lemma enc_dec_struct bs :
  length bs = sizeof fs -> Forall is_byte bs ->
  enc_struct (fun i => nth i bs 0) fs (dec_struct fs bs) = bs.
Proof using Type. intros E Hb. apply enc_dec_from; [done| |done]. done. Qed.

Lemma dec_from_ok off bs :
  Forall (fun f => (0 < fd_align f)%nat) fs ->
  (end_from off fs <= off + length bs)%nat -> Forall is_byte bs ->
  Forall2 field_ok fs (dec_from off fs bs).
Proof using Type.
  intros Ha. revert off bs. induction Ha as [|f fs' Hf _ IH]; intros off bs E Hb; simpl in *; constructor.
  - pose proof (end_from_ge (off + pad_len off (fd_align f) + fd_size f) fs').
    apply dec_field_ok; [len| |done]. by apply Forall_take, Forall_drop.
  - apply IH; [len|by apply Forall_drop].
Qed.

Lemma dec_struct_ok bs :
  Forall (fun f => (0 < fd_align f)%nat) fs ->
  length bs = sizeof fs -> Forall is_byte bs -> Forall2 field_ok fs (dec_struct fs bs).
Proof using Type. unfold sizeof. intros Ha E Hb. apply dec_from_ok; [done|lia|done]. Qed.
End struct.

(** *** Random access: the sequential decoder reads each field at its offset *)

Lemma dec_from_lookup off fs bs i f :
  fs !! i = Some f ->
  exists o, offsets off fs !! i = Some (off + o)%nat /\
       dec_from off fs bs !! i = Some (dec_field f (take (fd_size f) (drop o bs))).
Proof.
  revert off bs i. induction fs as [|g fs IH]; intros off bs [|i] Hi; simplify_eq/=.
  - exists (pad_len off (fd_align f)). done.
  - destruct (IH (off + pad_len off (fd_align g) + fd_size g)%nat
                (drop (pad_len off (fd_align g) + fd_size g)%nat bs) i Hi) as (o & Ho & Hd).
    exists (pad_len off (fd_align g) + fd_size g + o)%nat. split.
    + rewrite Ho. f_equal. lia.
    + rewrite Hd, drop_drop. done.
Qed.

Lemma dec_struct_lookup fs bs i f o :
  fs !! i = Some f -> offsets 0 fs !! i = Some o ->
  dec_struct fs bs !! i = Some (dec_field f (take (fd_size f) (drop o bs))).
Proof.
  intros Hf Ho. destruct (dec_from_lookup 0 fs bs i f Hf) as (o' & Ho' & Hd).
  rewrite Ho in Ho'. simplify_eq/=. done.
Qed.
