(* ===== verification/GoText.v ===== *)
(** * Go strings: UTF-8 and UTF-16

    A Go [string] is its list of bytes, a rune a [Z].  This file models what the program
    uses of Go's [unicode/utf8], [unicode/utf16], of [range] over a string, of the
    conversions between [string] and [[]rune], and of [syscall.UTF16ToString] on Windows,
    which writes an unpaired surrogate in WTF-8 where [utf16.Decode] writes U+FFFD. *)

From S2P Require Import Prelude.

Definition rune_error : Z := 0xFFFD.

Definition is_surrogate (r : Z) : Prop := 0xD800 <= r < 0xE000.
Definition in_runes (r : Z) : Prop := 0 <= r <= 0x10FFFF.
Definition valid_rune (r : Z) : Prop := in_runes r /\ ~ is_surrogate r.
Definition bmp_rune (r : Z) : Prop := valid_rune r /\ r < 0x10000.

#[global] Instance is_surrogate_dec r : Decision (is_surrogate r) := _.
#[global] Instance in_runes_dec r : Decision (in_runes r) := _.
#[global] Instance valid_rune_dec r : Decision (valid_rune r) := _.
#[global] Instance bmp_rune_dec r : Decision (bmp_rune r) := _.

(** ** UTF-8 *)

(** The generalised encoding of a code point: UTF-8, and WTF-8 for the surrogates. *)
Definition wtf8_rune (r : Z) : list Z :=
  if decide (r < 0x80) then [r]
  else if decide (r < 0x800) then [0xC0 + r / 64; 0x80 + r mod 64]
  else if decide (r < 0x10000) then
    [0xE0 + r / 4096; 0x80 + (r / 64) mod 64; 0x80 + r mod 64]
  else [0xF0 + r / 262144; 0x80 + (r / 4096) mod 64; 0x80 + (r / 64) mod 64; 0x80 + r mod 64].

(** [utf8.AppendRune]: an invalid rune is written as U+FFFD. *)
Definition utf8_rune (r : Z) : list Z :=
  if decide (valid_rune r) then wtf8_rune r else wtf8_rune rune_error.

(** [string(runes)] *)
Definition string_of_runes (rs : list Z) : list Z := mjoin (utf8_rune <$> rs).

Definition cont (b : Z) : bool := bool_decide (0x80 <= b <= 0xBF).

(** The range the second byte must be in, by the first byte (utf8.acceptRanges). *)
Definition accept2 (b0 b1 : Z) : bool :=
  if decide (b0 = 0xE0) then bool_decide (0xA0 <= b1 <= 0xBF)
  else if decide (b0 = 0xED) then bool_decide (0x80 <= b1 <= 0x9F)
  else if decide (b0 = 0xF0) then bool_decide (0x90 <= b1 <= 0xBF)
  else if decide (b0 = 0xF4) then bool_decide (0x80 <= b1 <= 0x8F)
  else cont b1.

Definition two_ok (b0 b1 : Z) : bool := bool_decide (0xC2 <= b0 <= 0xDF) && cont b1.
Definition three_ok (b0 b1 b2 : Z) : bool :=
  bool_decide (0xE0 <= b0 <= 0xEF) && accept2 b0 b1 && cont b2.
Definition four_ok (b0 b1 b2 b3 : Z) : bool :=
  bool_decide (0xF0 <= b0 <= 0xF4) && accept2 b0 b1 && cont b2 && cont b3.

(** [range] over a string: each rune with its width in bytes; an invalid byte yields
    U+FFFD with width 1. *)
Fixpoint utf8_scan (s : list Z) : list (Z * nat) :=
  match s with
  | [] => []
  | b0 :: t0 =>
      if decide (b0 < 0x80) then (b0, 1%nat) :: utf8_scan t0 else
      match t0 with
      | [] => (rune_error, 1%nat) :: utf8_scan t0
      | b1 :: t1 =>
          if two_ok b0 b1 then ((b0 - 0xC0) * 64 + (b1 - 0x80), 2%nat) :: utf8_scan t1 else
          match t1 with
          | [] => (rune_error, 1%nat) :: utf8_scan t0
          | b2 :: t2 =>
              if three_ok b0 b1 b2
              then ((b0 - 0xE0) * 4096 + (b1 - 0x80) * 64 + (b2 - 0x80), 3%nat) :: utf8_scan t2 else
              match t2 with
              | [] => (rune_error, 1%nat) :: utf8_scan t0
              | b3 :: t3 =>
                  if four_ok b0 b1 b2 b3
                  then ((b0 - 0xF0) * 262144 + (b1 - 0x80) * 4096 + (b2 - 0x80) * 64 + (b3 - 0x80), 4%nat)
                         :: utf8_scan t3
                  else (rune_error, 1%nat) :: utf8_scan t0
              end
          end
      end
  end.

(** [[]rune(s)] *)
Definition runes_of_string (s : list Z) : list Z := (utf8_scan s).*1.

Definition valid_utf8 (s : list Z) : Prop := string_of_runes (runes_of_string s) = s.
#[global] Instance valid_utf8_dec s : Decision (valid_utf8 s) := _.

(** ** UTF-16 *)

Definition hi_surr (r : Z) : Z := 0xD800 + (r - 0x10000) / 1024.
Definition lo_surr (r : Z) : Z := 0xDC00 + (r - 0x10000) mod 1024.
Definition join_surr (u v : Z) : Z := (u - 0xD800) * 1024 + (v - 0xDC00) + 0x10000.

Definition utf16_rune (r : Z) : list Z :=
  if decide (valid_rune r) then if decide (r < 0x10000) then [r] else [hi_surr r; lo_surr r]
  else [rune_error].

(** [utf16.Encode] *)
Definition utf16_encode (rs : list Z) : list Z := mjoin (utf16_rune <$> rs).

Definition is_hi (u : Z) : bool := bool_decide (0xD800 <= u < 0xDC00).
Definition is_lo (u : Z) : bool := bool_decide (0xDC00 <= u < 0xE000).

(** Decoding with a choice of what an unpaired surrogate becomes. *)
Fixpoint utf16_decode_with (bad : Z -> Z) (us : list Z) : list Z :=
  match us with
  | [] => []
  | u :: us' =>
      if decide (is_surrogate u) then
        match us' with
        | v :: us'' =>
            if is_hi u && is_lo v then join_surr u v :: utf16_decode_with bad us''
            else bad u :: utf16_decode_with bad us'
        | [] => [bad u]
        end
      else u :: utf16_decode_with bad us'
  end.

(** [utf16.Decode] *)
Definition utf16_Decode : list Z -> list Z := utf16_decode_with (fun _ => rune_error).

(** [syscall.UTF16ToString] of the Windows port: stops at a NUL, and writes an unpaired
    surrogate as the three bytes of WTF-8. *)
Definition syscall_UTF16ToString (us : list Z) : list Z :=
  mjoin (wtf8_rune <$> utf16_decode_with id (until_zero us)).

(** A sequence of code units without an unpaired surrogate. *)
Definition paired (us : list Z) : Prop := Forall valid_rune (utf16_decode_with id us).
#[global] Instance paired_dec us : Decision (paired us) := _.

(** ** UTF-8 round trips *)

Lemma valid_rune_error : valid_rune rune_error.
Proof. by apply (bool_decide_unpack _). Qed.

Lemma utf8_rune_valid r : valid_rune r -> utf8_rune r = wtf8_rune r.
Proof. intros H. unfold utf8_rune. by rewrite decide_True. Qed.

(** The base-64 digits of a rune, as variables with linear equations. *)
Lemma digits64 r : exists a b c d,
  r = 262144 * a + 4096 * b + 64 * c + d /\ 0 <= b < 64 /\ 0 <= c < 64 /\ 0 <= d < 64 /\
  r / 262144 = a /\ (r / 4096) mod 64 = b /\ (r / 64) mod 64 = c /\ r mod 64 = d /\
  r / 64 = 4096 * a + 64 * b + c /\ r / 4096 = 64 * a + b.
Proof.
  exists (r / 262144), ((r / 4096) mod 64), ((r / 64) mod 64), (r mod 64).
  repeat split; zdm.
Qed.

Ltac split64 r :=
  let a := fresh "a" in let b := fresh "b" in let c := fresh "c" in let d := fresh "d" in
  destruct (digits64 r) as (a & b & c & d & Hr & ? & ? & ? & E1 & E2 & E3 & E4 & E5 & E6);
  rewrite ?E1, ?E2, ?E3, ?E4; rewrite ?E5, ?E6; clear E1 E2 E3 E4 E5 E6; subst r.

(** The boolean tests of the decoder as inequalities. *)
Lemma cont_spec b : cont b = true <-> 0x80 <= b <= 0xBF.
Proof. apply bool_decide_eq_true. Qed.

Lemma accept2_spec b0 b1 :
  accept2 b0 b1 = true <->
  0x80 <= b1 <= 0xBF /\ (b0 = 0xE0 -> 0xA0 <= b1) /\ (b0 = 0xED -> b1 <= 0x9F) /\
  (b0 = 0xF0 -> 0x90 <= b1) /\ (b0 = 0xF4 -> b1 <= 0x8F).
Proof. unfold accept2, cont. repeat case_decide; rewrite bool_decide_eq_true; lia. Qed.

Lemma two_ok_spec b0 b1 : two_ok b0 b1 = true <-> 0xC2 <= b0 <= 0xDF /\ cont b1 = true.
Proof. unfold two_ok. by rewrite andb_true_iff, bool_decide_eq_true. Qed.

Lemma three_ok_spec b0 b1 b2 :
  three_ok b0 b1 b2 = true <-> 0xE0 <= b0 <= 0xEF /\ accept2 b0 b1 = true /\ cont b2 = true.
Proof. unfold three_ok. rewrite !andb_true_iff, bool_decide_eq_true. tauto. Qed.

Lemma four_ok_spec b0 b1 b2 b3 :
  four_ok b0 b1 b2 b3 = true <->
  0xF0 <= b0 <= 0xF4 /\ accept2 b0 b1 = true /\ cont b2 = true /\ cont b3 = true.
Proof. unfold four_ok. rewrite !andb_true_iff, bool_decide_eq_true. tauto. Qed.

Ltac text_tests :=
  rewrite ?two_ok_spec, ?three_ok_spec, ?four_ok_spec in *; rewrite ?accept2_spec, ?cont_spec in *.

Lemma two_ok_false b0 b1 : 0xDF < b0 -> two_ok b0 b1 = false.
Proof. intros H. apply not_true_iff_false. rewrite two_ok_spec. lia. Qed.

Lemma three_ok_false b0 b1 b2 : 0xEF < b0 -> three_ok b0 b1 b2 = false.
Proof. intros H. apply not_true_iff_false. rewrite three_ok_spec. lia. Qed.

Lemma scan_two b0 b1 t :
  two_ok b0 b1 = true ->
  utf8_scan (b0 :: b1 :: t) = ((b0 - 0xC0) * 64 + (b1 - 0x80), 2%nat) :: utf8_scan t.
Proof.
  intros H. simpl. rewrite H. apply two_ok_spec in H as [? _]. by rewrite decide_False by lia.
Qed.

Lemma scan_three b0 b1 b2 t :
  three_ok b0 b1 b2 = true ->
  utf8_scan (b0 :: b1 :: b2 :: t)
  = ((b0 - 0xE0) * 4096 + (b1 - 0x80) * 64 + (b2 - 0x80), 3%nat) :: utf8_scan t.
Proof.
  intros H. simpl. rewrite H. apply three_ok_spec in H as [? _].
  by rewrite decide_False, two_ok_false by lia.
Qed.

Lemma scan_four b0 b1 b2 b3 t :
  four_ok b0 b1 b2 b3 = true ->
  utf8_scan (b0 :: b1 :: b2 :: b3 :: t)
  = ((b0 - 0xF0) * 262144 + (b1 - 0x80) * 4096 + (b2 - 0x80) * 64 + (b3 - 0x80), 4%nat) :: utf8_scan t.
Proof.
  intros H. simpl. rewrite H. apply four_ok_spec in H as [? _].
  by rewrite decide_False, two_ok_false, three_ok_false by lia.
Qed.

Lemma utf8_scan_rune r s :
  valid_rune r -> utf8_scan (utf8_rune r ++ s) = (r, length (utf8_rune r)) :: utf8_scan s.
Proof.
  intros H. rewrite utf8_rune_valid by done. unfold wtf8_rune.
  repeat case_decide; [simpl; by rewrite decide_True|..];
    unfold valid_rune, in_runes, is_surrogate in H; split64 r; cbn [app length].
  - rewrite scan_two by (text_tests; lia). do 2 f_equal. lia.
  - rewrite scan_three by (text_tests; lia). do 2 f_equal. lia.
  - rewrite scan_four by (text_tests; lia). do 2 f_equal. lia.
Qed.

Lemma string_of_runes_cons r rs : string_of_runes (r :: rs) = utf8_rune r ++ string_of_runes rs.
Proof. done. Qed.

Lemma string_of_runes_app rs1 rs2 :
  string_of_runes (rs1 ++ rs2) = string_of_runes rs1 ++ string_of_runes rs2.
Proof. unfold string_of_runes. by rewrite fmap_app, join_app. Qed.

Lemma runes_of_string_of_runes rs :
  Forall valid_rune rs -> runes_of_string (string_of_runes rs) = rs.
Proof.
  unfold runes_of_string. induction 1 as [|r rs Hr _ IH]; [done|].
  rewrite string_of_runes_cons, utf8_scan_rune by done. rewrite fmap_cons, IH. done.
Qed.

Lemma valid_utf8_of_runes rs : Forall valid_rune rs -> valid_utf8 (string_of_runes rs).
Proof. intros H. unfold valid_utf8. by rewrite runes_of_string_of_runes. Qed.

(** The decoder only yields valid runes. *)
Lemma utf8_scan_valid s :
  Forall is_byte s -> Forall (fun p => valid_rune p.1) (utf8_scan s).
Proof.
  pose proof valid_rune_error as Herr.
  remember (length s) as n eqn:En. revert s En. induction n as [n IH] using lt_wf_ind.
  intros s -> Hs.
  assert (Hrec : forall t, (length t < length s)%nat -> Forall is_byte t ->
            Forall (fun p => valid_rune p.1) (utf8_scan t)) by (intros; eapply IH; eauto).
  clear IH. destruct Hs as [|b0 t0 H0 Ht0]; simpl; [constructor|].
  unfold is_byte, in_u in H0. change (2 ^ 8) with 256 in H0.
  case_decide; [constructor; [unfold valid_rune, in_runes, is_surrogate; simpl; lia|apply Hrec; simpl; auto with lia]|].
  destruct Ht0 as [|b1 t1 H1 Ht1]; [constructor; [done|apply Forall_nil_2]|].
  destruct (two_ok b0 b1) eqn:E2; [constructor; [|apply Hrec; simpl; auto with lia]|].
  { text_tests. unfold valid_rune, in_runes, is_surrogate; simpl; lia. }
  destruct Ht1 as [|b2 t2 H2 Ht2]; [constructor; [done|apply Hrec; simpl; auto with lia]|].
  destruct (three_ok b0 b1 b2) eqn:E3; [constructor; [|apply Hrec; simpl; auto with lia]|].
  { text_tests. unfold valid_rune, in_runes, is_surrogate; simpl; lia. }
  destruct Ht2 as [|b3 t3 H3 Ht3]; [constructor; [done|apply Hrec; simpl; auto with lia]|].
  destruct (four_ok b0 b1 b2 b3) eqn:E4; (constructor; [|apply Hrec; simpl; auto with lia]); [|done].
  text_tests. unfold valid_rune, in_runes, is_surrogate; simpl; lia.
Qed.

Lemma runes_of_string_valid s : Forall is_byte s -> Forall valid_rune (runes_of_string s).
Proof. intros H. apply Forall_fmap. by apply utf8_scan_valid. Qed.

(** ** UTF-16 round trips *)

Definition unit16 (u : Z) : Prop := in_u 16 u.
#[global] Instance unit16_dec u : Decision (unit16 u) := _.

Ltac unit_unfold :=
  unfold unit16, in_u, valid_rune, in_runes, is_surrogate, bmp_rune, is_hi, is_lo, hi_surr, lo_surr,
    join_surr, rune_error in *; change (2 ^ 16) with 65536 in *.

Lemma surr_pair r :
  valid_rune r -> 0x10000 <= r ->
  is_surrogate (hi_surr r) /\ is_surrogate (lo_surr r) /\
  is_hi (hi_surr r) = true /\ is_lo (lo_surr r) = true /\ join_surr (hi_surr r) (lo_surr r) = r.
Proof. intros H Hr. unit_unfold. rewrite !bool_decide_eq_true. zdm. Qed.

Lemma utf16_rune_bmp r : bmp_rune r -> utf16_rune r = [r].
Proof. intros [H Hr]. unfold utf16_rune. by rewrite !decide_True. Qed.

Lemma utf16_rune_supp r : valid_rune r -> 0x10000 <= r -> utf16_rune r = [hi_surr r; lo_surr r].
Proof. intros H Hr. unfold utf16_rune. by rewrite decide_True, decide_False by (done || lia). Qed.

Lemma bmp_or_supp r : valid_rune r -> bmp_rune r \/ 0x10000 <= r.
Proof. intros. destruct (decide (r < 0x10000)); [left; done|right; lia]. Qed.

Lemma utf16_encode_cons r rs : utf16_encode (r :: rs) = utf16_rune r ++ utf16_encode rs.
Proof. done. Qed.

Lemma utf16_encode_bmp rs : Forall bmp_rune rs -> utf16_encode rs = rs.
Proof.
  induction 1 as [|r rs Hr _ IH]; [done|].
  rewrite utf16_encode_cons, IH, utf16_rune_bmp by done. done.
Qed.

Section decode.
Context (bad : Z -> Z).

Lemma decode_unit u us : ~ is_surrogate u -> utf16_decode_with bad (u :: us) = u :: utf16_decode_with bad us.
Proof using Type. intros H. simpl. by rewrite decide_False. Qed.

Lemma decode_pair u v us :
  is_surrogate u -> is_hi u = true -> is_lo v = true ->
  utf16_decode_with bad (u :: v :: us) = join_surr u v :: utf16_decode_with bad us.
Proof using Type. intros Hs Hu Hv. simpl. by rewrite decide_True, Hu, Hv. Qed.

Lemma decode_rune_app r us :
  valid_rune r -> utf16_decode_with bad (utf16_rune r ++ us) = r :: utf16_decode_with bad us.
Proof using Type.
  intros H. destruct (bmp_or_supp r H) as [Hb|Hs].
  - rewrite utf16_rune_bmp by done. apply decode_unit, H.
  - rewrite utf16_rune_supp by done. destruct (surr_pair r H Hs) as (? & ? & ? & ? & E).
    cbn [app]. rewrite decode_pair by done. by rewrite E.
Qed.

Lemma decode_encode_app rs us :
  Forall valid_rune rs ->
  utf16_decode_with bad (utf16_encode rs ++ us) = rs ++ utf16_decode_with bad us.
Proof using Type.
  induction 1 as [|r rs Hr _ IH]; [done|].
  rewrite utf16_encode_cons, <- app_assoc, decode_rune_app, IH by done. done.
Qed.

Lemma decode_encode rs : Forall valid_rune rs -> utf16_decode_with bad (utf16_encode rs) = rs.
Proof using Type.
  intros H. rewrite <- (app_nil_r (utf16_encode rs)), decode_encode_app by done. apply app_nil_r.
Qed.
End decode.

Lemma utf16_rune_units r : Forall unit16 (utf16_rune r).
Proof.
  unfold utf16_rune. repeat case_decide; repeat constructor; unit_unfold; zdm.
Qed.

Lemma utf16_encode_units rs : Forall unit16 (utf16_encode rs).
Proof.
  induction rs as [|r rs IH]; [constructor|]. rewrite utf16_encode_cons.
  apply Forall_app; split; [apply utf16_rune_units|done].
Qed.

Lemma utf16_encode_nonzero rs :
  Forall valid_rune rs -> Forall nonzero rs -> Forall nonzero (utf16_encode rs).
Proof.
  induction 1 as [|r rs Hr _ IH]; intros Hz; [constructor|]. inv Hz.
  rewrite utf16_encode_cons. apply Forall_app; split; [|by apply IH].
  unfold nonzero in *. unfold utf16_rune.
  repeat case_decide; repeat constructor; auto; unit_unfold; zdm.
Qed.

(** Cutting an encoded text after [n] units keeps the longest prefix of whole runes that
    fits, and at worst the first half of one more surrogate pair. *)
Definition cut_at (rs : list Z) (n k : nat) : Prop :=
  (length (utf16_encode (take k rs)) <= n)%nat /\
  ((length rs <= k)%nat \/ (n < length (utf16_encode (take (S k) rs)))%nat) /\
  (take n (utf16_encode rs) = utf16_encode (take k rs) \/
   exists r, rs !! k = Some r /\ 0x10000 <= r /\
        take n (utf16_encode rs) = utf16_encode (take k rs) ++ [hi_surr r]).

Lemma take_encode rs n : Forall valid_rune rs -> exists k, cut_at rs n k.
Proof.
  intros H. revert n. unfold cut_at. induction H as [|r rs Hr _ IH]; intros n.
  { exists 0%nat. simpl. split; [lia|split; [by left|left; by destruct n]]. }
  destruct (bmp_or_supp r Hr) as [Hb|Hs].
  - destruct n as [|n].
    { exists 0%nat. cbn [take]. rewrite utf16_encode_cons, utf16_rune_bmp by done.
      split; [done|split; [right; simpl; lia|by left]]. }
    destruct (IH n) as (k & Hle & Hmax & Hk). exists (S k). cbn [take lookup list_lookup].
    rewrite !utf16_encode_cons, utf16_rune_bmp by done. cbn [app take length].
    split; [lia|split; [destruct Hmax; [left|right]; lia|]].
    destruct Hk as [->|(r' & ? & ? & ->)]; [by left|right; by eauto].
  - destruct n as [|[|n]].
    1,2: exists 0%nat; cbn [take]; rewrite utf16_encode_cons, utf16_rune_supp by done;
      (split; [simpl; lia|split; [right; simpl; lia|]]).
    + by left.
    + right. exists r. by rewrite utf16_encode_cons, utf16_rune_supp.
    + destruct (IH n) as (k & Hle & Hmax & Hk). exists (S k). cbn [take lookup list_lookup].
      rewrite !utf16_encode_cons, utf16_rune_supp by done. cbn [app take length].
      split; [lia|split; [destruct Hmax; [left|right]; lia|]].
      destruct Hk as [->|(r' & ? & ? & ->)]; [by left|right; by eauto].
Qed.

(** ** The two string conversions agree exactly on paired text *)

(** Corresponding elements of the two decodings: the same valid rune, or a surrogate kept
    by one and replaced by the other. *)
Definition dec_rel (a b : Z) : Prop := (a = b /\ valid_rune a) \/ (is_surrogate a /\ b = rune_error).

Lemma join_surr_valid u v : is_hi u = true -> is_lo v = true -> valid_rune (join_surr u v).
Proof. intros Hu Hv. unit_unfold. rewrite bool_decide_eq_true in *. lia. Qed.

Lemma decode_rel us :
  Forall unit16 us ->
  Forall2 dec_rel (utf16_decode_with id us) (utf16_decode_with (fun _ => rune_error) us).
Proof.
  intros H. remember (length us) as n eqn:En. revert us En H.
  induction n as [n IH] using lt_wf_ind. intros us -> H.
  destruct H as [|u us Hu Hus]; [constructor|]. simpl.
  case_decide as Hs.
  - destruct Hus as [|v us Hv Hus]; [constructor; [by right|constructor]|].
    destruct (is_hi u) eqn:E1; simpl; [destruct (is_lo v) eqn:E2|].
    + constructor; [left; split; [done|by apply join_surr_valid]|]. by eapply IH; [|reflexivity|]; [simpl; lia|].
    + constructor; [by right|]. refine (IH (length (v :: us)) _ (v :: us) eq_refl _); [simpl; lia|by constructor].
    + constructor; [by right|]. refine (IH (length (v :: us)) _ (v :: us) eq_refl _); [simpl; lia|by constructor].
  - constructor; [|eapply IH; [|done|done]; simpl; lia]. left. split; [done|].
    unit_unfold. lia.
Qed.

Lemma Decode_valid us : Forall unit16 us -> Forall valid_rune (utf16_Decode us).
Proof.
  intros Hu. pose proof (decode_rel us Hu) as HR. unfold utf16_Decode.
  induction HR as [|a b la lb Hab _ IH]; constructor; [|done].
  destruct Hab as [[<- ?]|[_ ->]]; [done|apply valid_rune_error].
Qed.

Lemma until_zero_units us : Forall unit16 us -> Forall unit16 (until_zero us).
Proof. induction 1 as [|u us Hu _ IH]; simpl; [constructor|]. case_decide; constructor; auto. Qed.

Lemma wtf8_surrogate_ne a : is_surrogate a -> wtf8_rune a <> utf8_rune rune_error.
Proof.
  unfold is_surrogate. intros H E.
  change (utf8_rune rune_error) with [0xEF; 0xBF; 0xBD] in E.
  unfold wtf8_rune in E. rewrite !decide_False, decide_True in E by lia. injection E. zdm.
Qed.

Lemma wtf8_surrogate_length a : is_surrogate a -> length (wtf8_rune a) = 3%nat.
Proof. unfold is_surrogate, wtf8_rune. intros. by rewrite !decide_False, decide_True by lia. Qed.

Lemma dec_rel_length a b : dec_rel a b -> length (wtf8_rune a) = length (utf8_rune b).
Proof.
  intros [[-> Hv]|[Hs ->]]; [by rewrite utf8_rune_valid|]. by rewrite wtf8_surrogate_length.
Qed.

Lemma decoded_text_eq la lb :
  Forall2 dec_rel la lb ->
  mjoin (wtf8_rune <$> la) = string_of_runes lb <-> Forall valid_rune la.
Proof.
  induction 1 as [|a b la lb Hab _ IH]; [by split|].
  rewrite fmap_cons, mjoin_cons, string_of_runes_cons, Forall_cons, <- IH. split.
  - intros E. apply app_inj_1 in E as [E1 E2]; [|by apply dec_rel_length]. split; [|done].
    destruct Hab as [[_ ?]|[Hs ->]]; [done|]. by apply wtf8_surrogate_ne in E1.
  - intros [Hv ->]. f_equal. destruct Hab as [[<- _]|[Hs _]]; [by rewrite utf8_rune_valid|].
    unfold valid_rune in Hv. tauto.
Qed.

(** [syscall.UTF16ToString] on text without NULs. *)
Lemma syscall_text us :
  Forall nonzero us -> syscall_UTF16ToString us = mjoin (wtf8_rune <$> utf16_decode_with id us).
Proof. intros H. unfold syscall_UTF16ToString. by rewrite until_zero_id. Qed.

Lemma wtf8_valid rs : Forall valid_rune rs -> mjoin (wtf8_rune <$> rs) = string_of_runes rs.
Proof.
  induction 1 as [|r rs Hr _ IH]; [done|].
  by rewrite fmap_cons, mjoin_cons, IH, string_of_runes_cons, utf8_rune_valid.
Qed.

(** ** Texts: valid UTF-8 without NULs *)

Definition text (s : list Z) : Prop := Forall is_byte s /\ valid_utf8 s /\ Forall nonzero s.
#[global] Instance text_dec s : Decision (text s).
Proof. unfold text. apply _. Defined.

Lemma text_runes s :
  text s ->
  Forall valid_rune (runes_of_string s) /\ Forall nonzero (runes_of_string s) /\
  string_of_runes (runes_of_string s) = s.
Proof.
  intros (Hb & Hv & Hz). pose proof (runes_of_string_valid s Hb) as Hr. split; [done|split; [|done]].
  rewrite <- Hv in Hz. revert Hz. clear -Hr.
  induction Hr as [|r rs Hr _ IH]; [done|]. rewrite string_of_runes_cons, Forall_app.
  intros [H1 H2]. constructor; [|by apply IH]. unfold nonzero. intros ->.
  change (utf8_rune 0) with [0] in H1. inv H1. done.
Qed.

Lemma string_of_runes_inj rs1 rs2 :
  Forall valid_rune rs1 -> Forall valid_rune rs2 ->
  string_of_runes rs1 = string_of_runes rs2 -> rs1 = rs2.
Proof. intros H1 H2 E. rewrite <- (runes_of_string_of_runes rs1), E by done. by apply runes_of_string_of_runes. Qed.

(** A decoding that is as long as its input joined no surrogate pair. *)
Lemma decode_length_le bad us : (length (utf16_decode_with bad us) <= length us)%nat.
Proof.
  induction us as [us IH] using (induction_ltof1 _ length). unfold ltof in IH.
  destruct us as [|u us]; [done|]. destruct (decide (is_surrogate u)) as [Hs|Hs].
  - destruct us as [|v us]; simpl; rewrite decide_True by done; [simpl; lia|].
    destruct (is_hi u && is_lo v); cbn [length].
    + pose proof (IH us ltac:(simpl; lia)). lia.
    + apply le_n_S. refine (IH (v :: us) _). simpl. lia.
  - rewrite decode_unit by done. cbn [length]. apply le_n_S, IH. simpl. lia.
Qed.

Lemma decode_same_length_bmp bad us :
  (forall u, bad u < 0x10000) -> Forall unit16 us ->
  length (utf16_decode_with bad us) = length us ->
  Forall (fun r => r < 0x10000) (utf16_decode_with bad us).
Proof.
  intros Hbad. induction us as [us IH] using (induction_ltof1 _ length). unfold ltof in IH.
  intros Hu. destruct Hu as [|u us Hu Hus]; [constructor|].
  destruct (decide (is_surrogate u)) as [Hs|Hs].
  - destruct us as [|v us].
    + simpl. rewrite decide_True by done. by constructor.
    + simpl. rewrite decide_True by done. destruct (is_hi u && is_lo v).
      * pose proof (decode_length_le bad us). simpl. lia.
      * intros E. constructor; [done|].
        apply (IH (v :: us)); [simpl; lia|done|]. injection E. done.
  - rewrite decode_unit by done. intros E. injection E as E.
    constructor; [unit_unfold; lia|]. apply IH; [simpl; lia|done|done].
Qed.
