(* ===== verification/ACEvent.v ===== *)
(** * The event record and its byte image

    [ACEvent] of [MedusaUserlandAgent/Event.go] and [MedusaBackend/Event.go] (the two
    declarations are the same), the struct of [MedusaKernelDriver/ComsEvents.h] it mirrors,
    and the raw copies between the struct and byte slices that the kernel port, the named
    pipe and the WebSocket link rely on: [evToBytes] of [WebSocketWorker.go] and the
    [copy] through [unsafe.Pointer] of [handleWS], [readLoop] and [Loop].

    [ptr] is the size of a [uintptr]: 8 on amd64, which [IPC.go] requires of the agent, and
    4 on a 32-bit build of the backend.  Go does not specify padding bytes, so the image of
    a struct takes them as an argument. *)

From S2P Require Import Prelude Layout.

(** [type EventSource int32] and its constants *)
Definition EventSource : Type := Z.
Definition KM : EventSource := 0.
Definition UM : EventSource := 1.
Definition DLL : EventSource := 2.

Record ACEvent := mkACEvent {
  Src : EventSource;
  EventType : list Z;      (* [260]uint16 *)
  CallerPID : Z;           (* int32 *)
  TargetPID : Z;           (* int32 *)
  ThreadID : Z;            (* int32 *)
  ImageFileName : list Z;  (* [260]int32 *)
  CommandLine : list Z;    (* [1024]uint16 *)
  IsCreate : Z;            (* int32 *)
  ImageBase : Z;           (* uintptr *)
  ImageSize : Z            (* uint32 *)
}.

#[global] Instance ACEvent_eq_dec : EqDecision ACEvent.
Proof. solve_decision. Defined.

Definition i32 : scalar := Scalar 4 true.
Definition u16 : scalar := Scalar 2 false.
Definition u32 : scalar := Scalar 4 false.
Definition u64 : scalar := Scalar 8 false.
Definition uptr (ptr : nat) : scalar := Scalar ptr false.

(** The Go declaration, field by field. *)
Definition acevent_fields (ptr : nat) : list field :=
  [ Field i32 1; Field u16 260; Field i32 1; Field i32 1; Field i32 1;
    Field i32 260; Field u16 1024; Field i32 1; Field (uptr ptr) 1; Field u32 1 ].

(** The C declaration under the Windows x64 ABI: an [enum] and an [int] are 4 signed
    bytes, [wchar_t] is 2, [PVOID] 8, [ULONG] 4. *)
Definition c_acevent_fields : list field :=
  [ Field (Scalar 4 true) 1;        (* enum EventSource src *)
    Field (Scalar 2 false) 260;     (* wchar_t EventType[260] *)
    Field (Scalar 4 true) 1;        (* int CallerPID *)
    Field (Scalar 4 true) 1;        (* int TargetPID *)
    Field (Scalar 4 true) 1;        (* int ThreadID *)
    Field (Scalar 4 true) 260;      (* int ImageFileName[260] *)
    Field (Scalar 2 false) 1024;    (* wchar_t CommandLine[1024] *)
    Field (Scalar 4 true) 1;        (* int IsCreate *)
    Field (Scalar 8 false) 1;       (* PVOID ImageBase *)
    Field (Scalar 4 false) 1 ].     (* ULONG ImageSize *)

Definition to_vals (ev : ACEvent) : list (list Z) :=
  [ [Src ev]; EventType ev; [CallerPID ev]; [TargetPID ev]; [ThreadID ev];
    ImageFileName ev; CommandLine ev; [IsCreate ev]; [ImageBase ev]; [ImageSize ev] ].

(** The scalar a one-cell field holds. *)
Definition scalar_of (l : list Z) : Z := default 0 (head l).
Definition field_of (i : nat) (vs : list (list Z)) : list Z := default [] (vs !! i).

Definition of_vals (vs : list (list Z)) : ACEvent :=
  {| Src := scalar_of (field_of 0 vs); EventType := field_of 1 vs;
     CallerPID := scalar_of (field_of 2 vs); TargetPID := scalar_of (field_of 3 vs);
     ThreadID := scalar_of (field_of 4 vs); ImageFileName := field_of 5 vs;
     CommandLine := field_of 6 vs; IsCreate := scalar_of (field_of 7 vs);
     ImageBase := scalar_of (field_of 8 vs); ImageSize := scalar_of (field_of 9 vs) |}.

(** Every Go value of the struct type satisfies this: arrays have their declared length and
    every cell is in the range of its type. *)
Definition wf_event (ptr : nat) (ev : ACEvent) : Prop :=
  Forall2 field_ok (acevent_fields ptr) (to_vals ev).

#[global] Instance wf_event_dec ptr ev : Decision (wf_event ptr ev).
Proof. unfold wf_event. apply _. Defined.

(** [unsafe.Sizeof(ACEvent{})] *)
Definition evtSz (ptr : nat) : nat := sizeof (acevent_fields ptr).

(** The memory of an [ACEvent] variable. *)
Definition event_image (ptr : nat) (pad : nat -> Z) (ev : ACEvent) : list Z :=
  enc_struct pad (acevent_fields ptr) (to_vals ev).

(** The value of an [ACEvent] variable whose memory is [mem]. *)
Definition event_of_image (ptr : nat) (mem : list Z) : ACEvent :=
  of_vals (dec_struct (acevent_fields ptr) mem).

(** The agent is built for amd64. *)
Definition agent_ptr : nat := 8.

(** [evToBytes]: [out := make([]byte, sz)] and [copy(out, src)] from the struct's memory. *)
Definition evToBytes (ptr : nat) (pad : nat -> Z) (ev : ACEvent) : list Z :=
  let sz := evtSz ptr in
  let out := replicate sz 0 in
  go_copy out (event_image ptr pad ev).

(** [var ev ACEvent], then [copy] of [msg] onto the [evtSz] bytes at [unsafe.Pointer(&ev)]:
    the zeroed memory of [ev], overwritten by [msg]. *)
Definition copy_to_event (ptr : nat) (msg : list Z) : ACEvent :=
  event_of_image ptr (go_copy (replicate (evtSz ptr) 0) msg).

(** ** Size and offsets *)

Lemma acevent_aligned ptr : (0 < ptr)%nat -> Forall (fun f => (0 < fd_align f)%nat) (acevent_fields ptr).
Proof. intros H. unfold acevent_fields. repeat (apply Forall_cons_2; [unfold fd_align; cbn; lia|]). apply Forall_nil_2. Qed.

(** What well-formedness says of the arrays. *)
Lemma wf_event_arrays ptr ev :
  wf_event ptr ev ->
  (length (EventType ev) = 260%nat /\ Forall (in_u 16) (EventType ev)) /\
  (length (ImageFileName ev) = 260%nat /\ Forall (in_s 32) (ImageFileName ev)) /\
  (length (CommandLine ev) = 1024%nat /\ Forall (in_u 16) (CommandLine ev)).
Proof.
  unfold wf_event, acevent_fields, to_vals. intros H.
  repeat match goal with H : Forall2 _ (_ :: _) (_ :: _) |- _ => apply Forall2_cons in H as [? ?] end.
  split; [|split]; assumption.
Qed.

(** ** Codec lemmas *)

Lemma of_to_vals ev : of_vals (to_vals ev) = ev.
Proof. by destruct ev. Qed.

Lemma to_of_vals ptr vs : Forall2 field_ok (acevent_fields ptr) vs -> to_vals (of_vals vs) = vs.
Proof.
  unfold acevent_fields. intros H.
  repeat match goal with H : Forall2 _ _ _ |- _ => inv H end.
  repeat match goal with
    | H : field_ok (Field _ 1) ?y |- _ =>
        destruct H as [H _]; destruct y as [|? [|? ?]]; try discriminate H; clear H
    end.
  done.
Qed.

Lemma event_image_length ptr pad ev : wf_event ptr ev -> length (event_image ptr pad ev) = evtSz ptr.
Proof. apply enc_struct_length. Qed.

Lemma evToBytes_image ptr pad ev : wf_event ptr ev -> evToBytes ptr pad ev = event_image ptr pad ev.
Proof. intros H. unfold evToBytes. apply go_copy_full. by rewrite event_image_length, length_replicate. Qed.

Lemma evToBytes_length ptr pad ev : length (evToBytes ptr pad ev) = evtSz ptr.
Proof. unfold evToBytes. len. Qed.

Lemma copy_to_event_full ptr msg :
  length msg = evtSz ptr -> copy_to_event ptr msg = event_of_image ptr msg.
Proof. intros E. unfold copy_to_event. rewrite go_copy_full; [done|]. by rewrite length_replicate. Qed.

Lemma event_of_image_wf ptr msg :
  (0 < ptr)%nat -> length msg = evtSz ptr -> Forall is_byte msg -> wf_event ptr (event_of_image ptr msg).
Proof.
  intros Hp E Hb. unfold wf_event, event_of_image.
  pose proof (dec_struct_ok (acevent_fields ptr) msg (acevent_aligned _ Hp) E Hb) as H.
  by rewrite (to_of_vals ptr).
Qed.

Lemma zero_image_byte ptr : Forall is_byte (replicate (evtSz ptr) 0).
Proof. apply Forall_replicate_of. unfold is_byte, in_u. done. Qed.
#[export] Hint Resolve zero_image_byte : medusa.

(** Whatever bytes arrive, the copied variable is a well-formed Go value. *)
Lemma copy_to_event_wf ptr msg :
  (0 < ptr)%nat -> Forall is_byte msg -> wf_event ptr (copy_to_event ptr msg).
Proof. intros Hp Hb. apply event_of_image_wf; [done|len|auto with medusa]. Qed.

Lemma copy_evToBytes ptr pad ev : wf_event ptr ev -> copy_to_event ptr (evToBytes ptr pad ev) = ev.
Proof.
  intros H. rewrite copy_to_event_full by apply evToBytes_length.
  rewrite evToBytes_image by done. unfold event_of_image, event_image.
  rewrite dec_enc_struct by done. apply of_to_vals.
Qed.

Lemma evToBytes_copy ptr msg :
  (0 < ptr)%nat -> length msg = evtSz ptr -> Forall is_byte msg ->
  evToBytes ptr (fun i => nth i msg 0) (copy_to_event ptr msg) = msg.
Proof.
  intros Hp E Hb. rewrite copy_to_event_full by done.
  rewrite evToBytes_image by (by apply event_of_image_wf).
  unfold event_image, event_of_image. rewrite (to_of_vals ptr).
  - by apply enc_dec_struct.
  - by apply dec_struct_ok; [apply acevent_aligned| |].
Qed.

(** ** Properties *)

(** C4: a well-formed event that the agent serialises with [evToBytes] is recovered
    exactly by the receivers' copy, whatever the padding bytes are. *)
Theorem event_roundtrip (ptr : nat) (pad : nat -> Z) (ev : ACEvent) (Hwf : wf_event ptr ev) :
  length (evToBytes ptr pad ev) = evtSz ptr /\ copy_to_event ptr (evToBytes ptr pad ev) = ev.
Proof. split; [apply evToBytes_length|by apply copy_evToBytes]. Qed.

(** C23: every message of the right size is the image of exactly one well-formed event: the
    receiver's copy followed by [evToBytes] gives the message back, byte for byte when the
    padding bytes are kept. *)
Theorem message_roundtrip (ptr : nat) (msg : list Z)
    (Hptr : (0 < ptr)%nat) (Hlen : length msg = evtSz ptr) (Hbyte : Forall is_byte msg) :
  wf_event ptr (copy_to_event ptr msg) /\
  evToBytes ptr (fun i => nth i msg 0) (copy_to_event ptr msg) = msg.
Proof. split; [by apply copy_to_event_wf|by apply evToBytes_copy]. Qed.

(** On amd64 the Go struct has the layout of the C struct it mirrors: the same element
    widths and signs, the offsets 0, 4, 524, 528, 532, 536, 1576, 3624, 3632 and 3640, and
    the size 3648; a 32-bit build has size 3636 instead, which the receivers' size test
    tells apart. *)
Theorem layout_mirrors_c :
  acevent_fields 8 = c_acevent_fields /\
  offsets 0 (acevent_fields 8) = [0; 4; 524; 528; 532; 536; 1576; 3624; 3632; 3640]%nat /\
  evtSz 8 = 3648%nat /\ evtSz 4 = 3636%nat.
Proof. by vm_compute. Qed.

(** The copy reads every field at its offset: field [i] of the event is decoded from
    the bytes at [offsets], so the sequential decoder is the C view of the struct. *)
Theorem fields_at_offsets (msg : list Z) (Hlen : length msg = evtSz 8) :
  let ev := copy_to_event 8 msg in
  let at_ o n := take n (drop o msg) in
  [Src ev] = dec_field (Field i32 1) (at_ 0%nat 4%nat) /\
  EventType ev = dec_field (Field u16 260) (at_ 4%nat 520%nat) /\
  [CallerPID ev] = dec_field (Field i32 1) (at_ 524%nat 4%nat) /\
  [TargetPID ev] = dec_field (Field i32 1) (at_ 528%nat 4%nat) /\
  [ThreadID ev] = dec_field (Field i32 1) (at_ 532%nat 4%nat) /\
  ImageFileName ev = dec_field (Field i32 260) (at_ 536%nat 1040%nat) /\
  CommandLine ev = dec_field (Field u16 1024) (at_ 1576%nat 2048%nat) /\
  [IsCreate ev] = dec_field (Field i32 1) (at_ 3624%nat 4%nat) /\
  [ImageBase ev] = dec_field (Field (uptr 8) 1) (at_ 3632%nat 8%nat) /\
  [ImageSize ev] = dec_field (Field u32 1) (at_ 3640%nat 4%nat).
Proof.
  cbv zeta. rewrite copy_to_event_full by done. unfold event_of_image.
  assert (L : forall i f o, acevent_fields 8 !! i = Some f -> offsets 0 (acevent_fields 8) !! i = Some o ->
    field_of i (dec_struct (acevent_fields 8) msg) = dec_field f (take (fd_size f) (drop o msg))).
  { intros i f o Hf Ho. unfold field_of. by rewrite (dec_struct_lookup _ _ _ _ _ Hf Ho). }
  unfold of_vals; cbn [Src EventType CallerPID TargetPID ThreadID ImageFileName CommandLine IsCreate ImageBase ImageSize].
  repeat split; erewrite L by reflexivity; reflexivity.
Qed.

(** A concrete event, used by the witnesses. *)
Definition sample_event : ACEvent :=
  {| Src := DLL; EventType := [84; 101; 115; 116] ++ replicate 256 0; CallerPID := 7; TargetPID := -1;
     ThreadID := 12; ImageFileName := [67; 58] ++ replicate 258 0; CommandLine := [101] ++ replicate 1023 0;
     IsCreate := 1; ImageBase := 0xDEADBEEF; ImageSize := 1234 |}.

Lemma sample_event_wf : wf_event 8 sample_event.
Proof. decide_vm. Qed.

Definition sample_msg : list Z := replicate 3648 1.

Lemma sample_msg_byte : Forall is_byte sample_msg.
Proof. apply Forall_replicate_of. unfold is_byte, in_u. done. Qed.

Lemma event_roundtrip_witness :
  length (evToBytes 8 (fun _ => 0xCC) sample_event) = evtSz 8 /\
  copy_to_event 8 (evToBytes 8 (fun _ => 0xCC) sample_event) = sample_event.
Proof. apply (event_roundtrip 8 (fun _ => 0xCC) sample_event sample_event_wf). Defined.

Lemma message_roundtrip_witness :
  wf_event 8 (copy_to_event 8 sample_msg) /\
  evToBytes 8 (fun i => nth i sample_msg 0) (copy_to_event 8 sample_msg) = sample_msg.
Proof.
  apply (message_roundtrip 8 sample_msg); [lia|vm_compute; reflexivity|exact sample_msg_byte].
Defined.

