(* ===== verification/EventText.v ===== *)
(** * The text fields of an event

    [StringZInto] and its fixed-size wrappers ([MedusaUserlandAgent/structs.go]) write a Go
    string into a zero-terminated array of code units; [utf16ToString] and [int32ToString]
    read one back.  The readers exist twice: the agent's ([MedusaUserlandAgent/Event.go])
    go through [syscall.UTF16ToString], the backend's ([MedusaBackend/Event.go]) through
    [utf16.Decode].  The last part is the driver's way of filling [ImageFileName]
    ([MedusaKernelDriver/NotifyRoutine.c]), which stores two code units per cell. *)

From S2P Require Import Prelude GoText ACEvent.

(** ** Writers *)

(** [type RuneLike interface{ ~int32 | ~uint16 }]: the element types the generic code may be
    instantiated with.  The type switch of [StringZInto] sees the dynamic type, so a defined
    type over [int32] or [uint16] takes neither case. *)
Inductive RuneLike := T_int32 | T_uint16 | T_named_int32 | T_named_uint16.

#[global] Instance RuneLike_eq_dec : EqDecision RuneLike.
Proof. solve_decision. Defined.

(** [for i := range dst { dst[i] = 0 }] *)
Definition clear_cells (dst : list Z) : list Z := (fun _ => 0) <$> dst.

(** [for _, r := range s { if i >= len(dst)-1 { break }; dst[i] = T(r); i++ }] *)
Fixpoint put_runes (dst : list Z) (i : nat) (rs : list Z) : list Z :=
  match rs with
  | [] => dst
  | r :: rs' =>
      if decide (length dst - 1 <= i)%nat then dst
      else put_runes (<[i := wrap_s 32 r]> dst) (S i) rs'
  end.

(** [for i := range cu { dst[i] = T(cu[i]) }] *)
Fixpoint put_units (dst : list Z) (i : nat) (cu : list Z) : list Z :=
  match cu with
  | [] => dst
  | u :: cu' => put_units (<[i := wrap_u 16 u]> dst) (S i) cu'
  end.

Definition StringZInto (T : RuneLike) (dst : list Z) (s : list Z) : list Z :=
  let dst := clear_cells dst in
  if decide (length dst <= 1)%nat then dst else
  match T with
  | T_int32 => put_runes dst 0 (runes_of_string s)
  | T_uint16 =>
      let cu := utf16_encode (runes_of_string s) in
      let cu := if decide (length dst - 1 < length cu)%nat then take (length dst - 1) cu else cu in
      put_units dst 0 cu
  | _ => dst
  end.

Definition StringZ260I32 (s : list Z) : list Z := StringZInto T_int32 (replicate 260 0) s.
Definition StringZ260U16 (s : list Z) : list Z := StringZInto T_uint16 (replicate 260 0) s.
Definition StringZ1024U16 (s : list Z) : list Z := StringZInto T_uint16 (replicate 1024 0) s.

(** ** Readers *)

(** [n := 0; for n < len(buf) && buf[n] != 0 { n++ }], from position [n] on the rest of
    the buffer. *)
Fixpoint nul_index (n : nat) (rest : list Z) : nat :=
  match rest with
  | [] => n
  | x :: rest' => if decide (x = 0) then n else nul_index (S n) rest'
  end.

(** [for _, v := range buf { if v == 0 { break }; u16 = append(u16, uint16(v)) }] *)
Fixpoint narrow_units (buf : list Z) : list Z :=
  match buf with
  | [] => []
  | v :: buf' => if decide (v = 0) then [] else wrap_u 16 v :: narrow_units buf'
  end.

Module Agent.
Definition utf16ToString (buf : list Z) : list Z :=
  syscall_UTF16ToString (take (nul_index 0 buf) buf).
Definition int32ToString (buf : list Z) : list Z := syscall_UTF16ToString (narrow_units buf).
End Agent.

Module Backend.
Definition utf16BufToString (buf : list Z) : list Z := string_of_runes (utf16_Decode buf).
Definition utf16ToString (buf : list Z) : list Z :=
  utf16BufToString (take (nul_index 0 buf) buf).
Definition int32ToString (buf : list Z) : list Z := utf16BufToString (narrow_units buf).
End Backend.

(** ** Closed forms *)

Definition pad_to (n : nat) (l : list Z) : list Z := l ++ replicate (n - length l) 0.

(** The cells [StringZInto] stores before the terminator. *)
Definition stored (T : RuneLike) (n : nat) (s : list Z) : list Z :=
  match T with
  | T_int32 => take (n - 1) (wrap_s 32 <$> runes_of_string s)
  | T_uint16 => take (n - 1) (wrap_u 16 <$> utf16_encode (runes_of_string s))
  | _ => []
  end.

Lemma clear_cells_replicate dst : clear_cells dst = replicate (length dst) 0.
Proof. unfold clear_cells. induction dst; simpl; [done|]. by f_equal. Qed.

Lemma insert_pad pre n x :
  (length pre < n)%nat -> <[length pre := x]> (pad_to n pre) = pad_to n (pre ++ [x]).
Proof.
  intros H. unfold pad_to. destruct (n - length pre)%nat as [|k] eqn:Ek; [lia|].
  rewrite insert_app_r_alt, Nat.sub_diag by lia. cbn.
  rewrite <- app_assoc, length_app. do 3 f_equal. simpl. lia.
Qed.

Lemma pad_to_length n l : (length l <= n)%nat -> length (pad_to n l) = n.
Proof. unfold pad_to. len. Qed.

Lemma put_runes_pad n rs pre :
  (length pre <= n - 1)%nat -> (1 < n)%nat ->
  put_runes (pad_to n pre) (length pre) rs
  = pad_to n (pre ++ take (n - 1 - length pre) (wrap_s 32 <$> rs)).
Proof.
  intros Hp Hn. revert pre Hp. induction rs as [|r rs IH]; intros pre Hp; simpl.
  - by rewrite take_nil, app_nil_r.
  - rewrite pad_to_length by lia. case_decide as Hd.
    + replace (n - 1 - length pre)%nat with 0%nat by lia. simpl. by rewrite app_nil_r.
    + rewrite insert_pad by lia.
      replace (S (length pre)) with (length (pre ++ [wrap_s 32 r])) by (rewrite length_app; simpl; lia).
      rewrite IH by (rewrite length_app; simpl; lia).
      destruct (n - 1 - length pre)%nat as [|k] eqn:Ek; [lia|]. cbn [take].
      rewrite <- app_assoc, length_app. cbn [length].
      replace (n - 1 - (length pre + 1))%nat with k by lia. done.
Qed.

Lemma put_units_pad n cu pre :
  (length pre + length cu <= n)%nat ->
  put_units (pad_to n pre) (length pre) cu = pad_to n (pre ++ (wrap_u 16 <$> cu)).
Proof.
  revert pre. induction cu as [|u cu IH]; intros pre Hp; simpl in *.
  - by rewrite app_nil_r.
  - rewrite insert_pad by lia.
    replace (S (length pre)) with (length (pre ++ [wrap_u 16 u])) by (rewrite length_app; simpl; lia).
    rewrite IH by (rewrite length_app; simpl; lia). by rewrite <- app_assoc.
Qed.

Lemma StringZInto_closed T dst s :
  StringZInto T dst s
  = if decide (length dst <= 1)%nat then replicate (length dst) 0
    else pad_to (length dst) (stored T (length dst) s).
Proof.
  unfold StringZInto. rewrite clear_cells_replicate, length_replicate.
  set (n := length dst). case_decide as Hn; [done|].
  assert (E0 : replicate n 0 = pad_to n []) by (unfold pad_to; simpl; by rewrite Nat.sub_0_r).
  rewrite E0. destruct T; simpl; [| |done|done].
  - rewrite (put_runes_pad n _ []) by (simpl; lia). cbn [app length]. by rewrite Nat.sub_0_r.
  - rewrite (put_units_pad n _ []) by (simpl; case_decide; len). cbn [app]. f_equal.
    case_decide; [by rewrite fmap_take|]. rewrite take_ge; [done|len].
Qed.

Lemma stored_length T n s : (length (stored T n s) <= n - 1)%nat.
Proof. destruct T; simpl; len. Qed.

Lemma nul_index_take pre rest :
  take (nul_index (length pre) rest) (pre ++ rest) = pre ++ until_zero rest.
Proof.
  revert pre. induction rest as [|x rest IH]; intros pre; simpl.
  - rewrite app_nil_r. apply firstn_all.
  - case_decide; [by rewrite take_app_length, app_nil_r|].
    replace (S (length pre)) with (length (pre ++ [x])) by (rewrite length_app; simpl; lia).
    replace (pre ++ x :: rest) with ((pre ++ [x]) ++ rest) by (by rewrite <- app_assoc).
    rewrite IH. by rewrite <- app_assoc.
Qed.

Lemma nul_index_until buf : take (nul_index 0 buf) buf = until_zero buf.
Proof. apply (nul_index_take []). Qed.

Lemma narrow_units_closed buf : narrow_units buf = wrap_u 16 <$> until_zero buf.
Proof. induction buf as [|v buf IH]; simpl; [done|]. case_decide; simpl; [done|]. by rewrite IH. Qed.

Lemma agent_utf16_closed buf :
  Agent.utf16ToString buf = mjoin (wtf8_rune <$> utf16_decode_with id (until_zero buf)).
Proof. unfold Agent.utf16ToString. rewrite nul_index_until. apply syscall_text, until_zero_nonzero. Qed.

Lemma backend_utf16_closed buf :
  Backend.utf16ToString buf = string_of_runes (utf16_Decode (until_zero buf)).
Proof. unfold Backend.utf16ToString. by rewrite nul_index_until. Qed.

(** ** The driver's [ImageFileName]

    [wcsncpy_s(event.ImageFileName, 260, path, _TRUNCATE)] writes 16-bit units into the
    [int[260]] array: cell [i] holds units [2i] and [2i+1].  The event is zeroed first. *)

Fixpoint pack_ints (us : list Z) : list Z :=
  match us with
  | lo :: hi :: us' => wrap_s 32 (lo + 65536 * hi) :: pack_ints us'
  | _ => []
  end.

Definition wcsncpy_s_trunc (cells : nat) (w : list Z) : list Z := take (cells - 1) (until_zero w).

Definition kernel_ImageFileName (path : list Z) : list Z :=
  pack_ints (pad_to 520 (wcsncpy_s_trunc 260 path)).

(** Every second unit, starting with the first. *)
Fixpoint evens (us : list Z) : list Z :=
  match us with
  | u :: _ :: us' => u :: evens us'
  | _ => us
  end.

Lemma pack_cell lo hi : unit16 lo -> unit16 hi -> wrap_u 16 (wrap_s 32 (lo + 65536 * hi)) = lo.
Proof.
  unfold unit16, in_u, wrap_u, wrap_s. change (2 ^ 16) with 65536.
  change (2 ^ (32 - 1)) with 2147483648. change (2 ^ 32) with 4294967296. intros. zdm.
Qed.

Lemma pack_cell_nonzero lo hi :
  unit16 lo -> unit16 hi -> lo <> 0 -> wrap_s 32 (lo + 65536 * hi) <> 0.
Proof. intros Hl Hh Hz E. pose proof (pack_cell lo hi Hl Hh) as P. rewrite E in P. by rewrite <- P in Hz. Qed.

Lemma unit16_zero : unit16 0.
Proof. done. Qed.

Lemma narrow_pack_zeros m : narrow_units (pack_ints (replicate m 0)) = [].
Proof. by destruct m as [|[|m]]. Qed.

Lemma narrow_pack us m :
  Forall unit16 us -> Forall nonzero us -> (1 <= m)%nat ->
  narrow_units (pack_ints (us ++ replicate m 0)) = evens us.
Proof.
  intros Hu Hz Hm. induction us as [us IH] using (induction_ltof1 _ length). unfold ltof in IH.
  destruct us as [|lo [|hi us]].
  - apply narrow_pack_zeros.
  - destruct m as [|m]; [lia|]. cbn [replicate app pack_ints narrow_units evens].
    inv Hu. inv Hz. rewrite decide_False by (by apply pack_cell_nonzero; [|apply unit16_zero|]).
    rewrite pack_cell by (done || apply unit16_zero). by rewrite narrow_pack_zeros.
  - apply Forall_cons in Hu as [Hlo [Hhi Hu]%Forall_cons].
    apply Forall_cons in Hz as [Hzlo [_ Hz]%Forall_cons].
    cbn [app pack_ints narrow_units evens]. rewrite decide_False by (by apply pack_cell_nonzero).
    rewrite pack_cell, IH by (done || simpl; lia). done.
Qed.

(** ** Reading back what was written *)

Lemma stored_uint16 n s : stored T_uint16 n s = take (n - 1) (utf16_encode (runes_of_string s)).
Proof.
  simpl. f_equal. rewrite <- (list_fmap_id (utf16_encode _)) at 2. apply list_fmap_ext.
  intros i u Hu. apply wrap_u_small; [lia|].
  pose proof (utf16_encode_units (runes_of_string s)) as HF. by apply (Forall_lookup_1 _ _ _ _ HF Hu).
Qed.

Lemma wrap_s_rune r : valid_rune r -> wrap_s 32 r = r.
Proof. intros [? _]. apply wrap_s_small; [lia|]. unfold in_runes, in_s in *. simpl. lia. Qed.

Lemma fmap_id_Forall (f : Z -> Z) (P : Z -> Prop) l : (forall x, P x -> f x = x) -> Forall P l -> f <$> l = l.
Proof. intros Hf. induction 1 as [|x l Hx _ IH]; [done|]. rewrite fmap_cons, IH. by rewrite Hf. Qed.

Lemma stored_int32 n s : Forall is_byte s -> stored T_int32 n s = take (n - 1) (runes_of_string s).
Proof.
  intros Hb. simpl. f_equal. apply (fmap_id_Forall _ valid_rune); [apply wrap_s_rune|].
  by apply runes_of_string_valid.
Qed.

Lemma until_zero_pad n l : Forall nonzero l -> until_zero (pad_to n l) = l.
Proof. apply until_zero_terminated. Qed.

(** The zero-terminated contents of a written buffer. *)
Lemma written_uint16 dst s :
  text s -> (1 < length dst)%nat ->
  until_zero (StringZInto T_uint16 dst s)
  = take (length dst - 1) (utf16_encode (runes_of_string s)).
Proof.
  intros Ht Hn. destruct (text_runes s Ht) as (Hv & Hz & _).
  rewrite StringZInto_closed, decide_False by lia. rewrite stored_uint16.
  apply until_zero_pad, Forall_take. by apply utf16_encode_nonzero.
Qed.

Lemma written_int32 dst s :
  text s -> (1 < length dst)%nat ->
  until_zero (StringZInto T_int32 dst s) = take (length dst - 1) (runes_of_string s).
Proof.
  intros Ht Hn. destruct (text_runes s Ht) as (Hv & Hz & _).
  rewrite StringZInto_closed, decide_False by lia. rewrite stored_int32 by apply Ht.
  by apply until_zero_pad, Forall_take.
Qed.

Lemma narrow_runes_bmp rs : Forall bmp_rune rs -> wrap_u 16 <$> rs = rs.
Proof.
  apply fmap_id_Forall. intros r [[? _] ?]. apply wrap_u_small; [lia|].
  unfold in_runes, in_u in *. change (2 ^ 16) with 65536. lia.
Qed.

(** A fitting text of the basic plane is read back from an [int32] buffer. *)
Lemma bmp_text_read_back dst s :
  text s -> (length (runes_of_string s) < length dst)%nat -> (1 < length dst)%nat ->
  Forall bmp_rune (runes_of_string s) ->
  Backend.int32ToString (StringZInto T_int32 dst s) = s /\ Agent.int32ToString (StringZInto T_int32 dst s) = s.
Proof.
  intros Ht Hfit Hdst Hb. destruct (text_runes s Ht) as (Hv & Hz & E).
  unfold Backend.int32ToString, Agent.int32ToString, Backend.utf16BufToString.
  rewrite narrow_units_closed, written_int32, take_ge, narrow_runes_bmp by (done || lia).
  rewrite syscall_text by done. rewrite <- (utf16_encode_bmp (runes_of_string s)) by done.
  unfold utf16_Decode. rewrite !decode_encode by done. by rewrite wtf8_valid, E.
Qed.

Lemma bmp_faithful dst s :
  text s -> (length (runes_of_string s) < length dst)%nat -> (1 < length dst)%nat ->
  (Backend.int32ToString (StringZInto T_int32 dst s) = s <-> Forall bmp_rune (runes_of_string s)) /\
  (Forall bmp_rune (runes_of_string s) -> Agent.int32ToString (StringZInto T_int32 dst s) = s).
Proof.
  intros Ht Hfit Hdst.
  destruct (text_runes s Ht) as (Hv & Hz & E).
  split; [split|]; [|intros Hb; by apply bmp_text_read_back..].
  unfold Backend.int32ToString, Backend.utf16BufToString.
  rewrite narrow_units_closed, written_int32, take_ge by (done || lia).
  set (rs := runes_of_string s) in *. intros Hs. rewrite <- E in Hs at 1.
  assert (Hu : Forall unit16 (wrap_u 16 <$> rs)).
  { apply Forall_fmap, Forall_true. intros x. by apply wrap_u_range. }
  pose proof (Decode_valid _ Hu) as Hd.
  apply string_of_runes_inj in Hs; [|done|done].
  assert (Hl : length (utf16_Decode (wrap_u 16 <$> rs)) = length (wrap_u 16 <$> rs)).
  { by rewrite Hs, length_fmap. }
  pose proof (decode_same_length_bmp (fun _ => rune_error) _ ltac:(done) Hu Hl) as HB.
  unfold utf16_Decode in Hs. rewrite Hs in HB. apply Forall_and. by split.
Qed.

(** ** Properties *)

Definition cell_ok (T : RuneLike) (z : Z) : Prop :=
  match T with
  | T_int32 | T_named_int32 => in_s 32 z
  | T_uint16 | T_named_uint16 => in_u 16 z
  end.

Lemma cell_ok_zero T : cell_ok T 0.
Proof. by destruct T. Qed.

Lemma stored_cells T n s : Forall (cell_ok T) (stored T n s).
Proof.
  destruct T; simpl; [apply Forall_take, Forall_fmap, Forall_true..|constructor|constructor].
  - intros r. simpl. by apply wrap_s_range.
  - intros r. simpl. by apply wrap_u_range.
Qed.

Lemma pad_to_last n l : (length l < n)%nat -> last (pad_to n l) = Some 0.
Proof.
  intros H. unfold pad_to. destruct (n - length l)%nat as [|k] eqn:E; [lia|].
  replace (replicate (S k) 0) with (replicate k 0 ++ [0]) by (by rewrite <- replicate_cons_app).
  by rewrite app_assoc, last_snoc.
Qed.

Lemma StringZInto_cells T dst s :
  length (StringZInto T dst s) = length dst /\ Forall (cell_ok T) (StringZInto T dst s).
Proof.
  rewrite StringZInto_closed. pose proof (stored_length T (length dst) s) as HL. case_decide.
  - split; [len|]. apply Forall_replicate_of, cell_ok_zero.
  - split; [apply pad_to_length; lia|]. apply Forall_app; split; [apply stored_cells|].
    apply Forall_replicate_of, cell_ok_zero.
Qed.

(** C25: [StringZInto] for every element type, buffer and string: its loops compute the
    closed form (the encoded text cut to one cell less than the buffer, then zeros), which
    depends only on the buffer's length, keeps that length, ends in a zero cell and stays in
    the range of the element type. *)
Theorem StringZInto_correct (T : RuneLike) (dst s : list Z) :
  let out := StringZInto T dst s in
  out = (if decide (length dst <= 1)%nat then replicate (length dst) 0
         else pad_to (length dst) (stored T (length dst) s)) /\
  out = StringZInto T (replicate (length dst) 0) s /\
  length out = length dst /\
  last out = (if decide (length dst = 0)%nat then None else Some 0) /\
  Forall (cell_ok T) out.
Proof.
  cbv zeta. destruct (StringZInto_cells T dst s) as [Hlen Hcells].
  split_and!; [apply StringZInto_closed| |done| |done].
  - by rewrite !StringZInto_closed, length_replicate.
  - rewrite StringZInto_closed. pose proof (stored_length T (length dst) s) as HL.
    destruct (decide (length dst <= 1)%nat) as [Hn|Hn].
    + destruct dst as [|x [|y dst]]; simpl in *; [done|done|lia].
    + rewrite decide_False by lia. apply pad_to_last. lia.
Qed.

(** C24: a NUL-free UTF-8 text whose UTF-16 form fits before the terminator is read back
    unchanged from a [uint16] buffer, by the agent's reader and by the backend's. *)
Theorem utf16_text_roundtrip (dst s : list Z)
    (Ht : text s) (Hfit : (length (utf16_encode (runes_of_string s)) < length dst)%nat)
    (Hdst : (1 < length dst)%nat) :
  Agent.utf16ToString (StringZInto T_uint16 dst s) = s /\
  Backend.utf16ToString (StringZInto T_uint16 dst s) = s.
Proof.
  destruct (text_runes s Ht) as (Hv & _ & E).
  rewrite agent_utf16_closed, backend_utf16_closed, written_uint16, take_ge by (done || lia).
  unfold utf16_Decode. rewrite !decode_encode by done. by rewrite wtf8_valid, E.
Qed.

(** C22: the [int32] buffer of [ImageFileName] is read back through a cast to [uint16], so
    the backend recovers a fitting path exactly when every rune is in the basic plane; on
    such paths the agent's reader recovers it too. *)
Theorem int32_text_faithful_iff_bmp (dst s : list Z)
    (Ht : text s) (Hfit : (length (runes_of_string s) < length dst)%nat) (Hdst : (1 < length dst)%nat) :
  (Backend.int32ToString (StringZInto T_int32 dst s) = s <-> Forall bmp_rune (runes_of_string s)) /\
  (Forall bmp_rune (runes_of_string s) -> Agent.int32ToString (StringZInto T_int32 dst s) = s).
Proof. by apply bmp_faithful. Qed.

(** C31: a text too long for a [uint16] buffer is cut to the longest prefix of whole
    characters that fits; when the cut falls inside a surrogate pair the first half stays,
    which the agent reads as a WTF-8 surrogate and the backend as U+FFFD. *)
Theorem utf16_text_truncation (dst s : list Z) (Ht : text s) (Hdst : (1 < length dst)%nat) :
  exists k, cut_at (runes_of_string s) (length dst - 1) k /\
    let kept := string_of_runes (take k (runes_of_string s)) in
    let buf := StringZInto T_uint16 dst s in
    (Agent.utf16ToString buf = kept /\ Backend.utf16ToString buf = kept \/
     exists r, runes_of_string s !! k = Some r /\ 0x10000 <= r /\
       Agent.utf16ToString buf = kept ++ wtf8_rune (hi_surr r) /\
       Backend.utf16ToString buf = kept ++ utf8_rune rune_error).
Proof.
  destruct (text_runes s Ht) as (Hv & _ & E).
  destruct (take_encode (runes_of_string s) (length dst - 1) Hv) as (k & Hcut).
  exists k. split; [done|]. cbv zeta.
  rewrite agent_utf16_closed, backend_utf16_closed, written_uint16 by done.
  destruct Hcut as (_ & _ & [->|(r & Hk & Hr & ->)]).
  - left. unfold utf16_Decode. rewrite !decode_encode by (by apply Forall_take).
    by rewrite wtf8_valid by (by apply Forall_take).
  - right. exists r. assert (Hvr : valid_rune r) by (by apply (Forall_lookup_1 _ _ _ _ Hv Hk)).
    destruct (surr_pair r Hvr Hr) as (Hs & _).
    unfold utf16_Decode. rewrite !decode_encode_app by (by apply Forall_take).
    cbn [utf16_decode_with]. rewrite !decide_True by done.
    rewrite fmap_app, join_app, wtf8_valid by (by apply Forall_take).
    change (wtf8_rune <$> [id (hi_surr r)]) with [wtf8_rune (hi_surr r)].
    rewrite mjoin_single, string_of_runes_app. done.
Qed.

(** C32: on a buffer of code units the two readers return the same string exactly when the
    zero-terminated part has no unpaired surrogate. *)
Theorem utf16_readers_agree_iff_paired (buf : list Z) (Hu : Forall unit16 buf) :
  Agent.utf16ToString buf = Backend.utf16ToString buf <-> paired (until_zero buf).
Proof.
  rewrite agent_utf16_closed, backend_utf16_closed. unfold utf16_Decode, paired.
  by apply decoded_text_eq, decode_rel, until_zero_units.
Qed.

(** C30: the driver packs two code units into each cell of [ImageFileName], and both
    readers take one unit per cell: of a path the driver reports, every second character
    is lost. *)
Theorem kernel_path_loses_every_second_unit (path : list Z) (Hu : Forall unit16 path) :
  let w := wcsncpy_s_trunc 260 path in
  narrow_units (kernel_ImageFileName path) = evens w /\
  Backend.int32ToString (kernel_ImageFileName path) = string_of_runes (utf16_Decode (evens w)) /\
  Agent.int32ToString (kernel_ImageFileName path) = syscall_UTF16ToString (evens w).
Proof.
  cbv zeta.
  assert (E : narrow_units (kernel_ImageFileName path) = evens (wcsncpy_s_trunc 260 path)).
  { unfold kernel_ImageFileName, pad_to. apply narrow_pack; unfold wcsncpy_s_trunc.
    - by apply Forall_take, until_zero_units.
    - apply Forall_take, until_zero_nonzero.
    - len. }
  unfold Backend.int32ToString, Agent.int32ToString, Backend.utf16BufToString. by rewrite E.
Qed.

(** ** Witnesses *)

(** "C:\日" in UTF-8, and U+1F600 in UTF-8. *)
Definition sample_path : list Z := [67; 58; 92; 0xE6; 0x97; 0xA5].
Definition sample_supp : list Z := [0xF0; 0x9F; 0x98; 0x80].

Lemma utf16_text_roundtrip_witness :
  Agent.utf16ToString (StringZ260U16 (sample_path ++ sample_supp)) = sample_path ++ sample_supp /\
  Backend.utf16ToString (StringZ260U16 (sample_path ++ sample_supp)) = sample_path ++ sample_supp.
Proof.
  apply (utf16_text_roundtrip (replicate 260 0) (sample_path ++ sample_supp)); [decide_vm|vm_compute; lia|vm_compute; lia].
Defined.

Lemma int32_text_faithful_iff_bmp_witness :
  Backend.int32ToString (StringZ260I32 sample_path) = sample_path /\
  Backend.int32ToString (StringZ260I32 sample_supp) <> sample_supp.
Proof.
  split.
  - apply (int32_text_faithful_iff_bmp (replicate 260 0) sample_path); [decide_vm|vm_compute; lia|vm_compute; lia|].
    decide_vm.
  - intros E. apply (int32_text_faithful_iff_bmp (replicate 260 0) sample_supp) in E;
      [|decide_vm|vm_compute; lia|vm_compute; lia].
    revert E. apply (bool_decide_eq_false_1 _). vm_compute. reflexivity.
Defined.

Lemma utf16_text_truncation_witness :
  exists k, cut_at (runes_of_string (65 :: sample_supp)) 2 k /\
    let kept := string_of_runes (take k (runes_of_string (65 :: sample_supp))) in
    let buf := StringZInto T_uint16 [9; 9; 9] (65 :: sample_supp) in
    (Agent.utf16ToString buf = kept /\ Backend.utf16ToString buf = kept \/
     exists r, runes_of_string (65 :: sample_supp) !! k = Some r /\ 0x10000 <= r /\
       Agent.utf16ToString buf = kept ++ wtf8_rune (hi_surr r) /\
       Backend.utf16ToString buf = kept ++ utf8_rune rune_error).
Proof. apply (utf16_text_truncation [9; 9; 9] (65 :: sample_supp)); [decide_vm|simpl; lia]. Defined.

Lemma utf16_readers_agree_iff_paired_witness :
  Agent.utf16ToString [65; 0xD83D; 0] <> Backend.utf16ToString [65; 0xD83D; 0].
Proof.
  intros E. apply utf16_readers_agree_iff_paired in E; [|decide_vm].
  revert E. apply (bool_decide_eq_false_1 _). vm_compute. reflexivity.
Defined.

(** "C:\x" as the driver stores it reads back as "C\". *)
Lemma kernel_path_loses_every_second_unit_witness :
  Backend.int32ToString (kernel_ImageFileName [67; 58; 92; 120]) = [67; 92].
Proof.
  pose proof (kernel_path_loses_every_second_unit [67; 58; 92; 120] ltac:(decide_vm)) as (_ & E & _).
  etransitivity; [exact E|]. vm_compute. reflexivity.
Defined.
