(* ===== verification/GoNum.v ===== *)
(** * Decimal numbers

    What the sources use of [strconv] and [fmt] on integers: printing one in base 10, and
    [fmt.Sscanf(s, "%d", &x)].  A string is scanned as its code points. *)

From S2P Require Import Prelude GoText.
From Stdlib Require Import DecimalZ.

(** [strconv.AppendInt] *)
Fixpoint digits (u : Decimal.uint) : list Z :=
  match u with
  | Decimal.Nil => []
  | Decimal.D0 u => 48 :: digits u | Decimal.D1 u => 49 :: digits u
  | Decimal.D2 u => 50 :: digits u | Decimal.D3 u => 51 :: digits u
  | Decimal.D4 u => 52 :: digits u | Decimal.D5 u => 53 :: digits u
  | Decimal.D6 u => 54 :: digits u | Decimal.D7 u => 55 :: digits u
  | Decimal.D8 u => 56 :: digits u | Decimal.D9 u => 57 :: digits u
  end.

Definition decimal (z : Z) : list Z :=
  match Z.to_int z with
  | Decimal.Pos u => digits u
  | Decimal.Neg u => 45 :: digits u
  end.

(** The longest run of digits. *)
Fixpoint parse_uint (rs : list Z) : Decimal.uint * list Z :=
  match rs with
  | [] => (Decimal.Nil, [])
  | c :: t =>
      let continue f := let '(u, r) := parse_uint t in (f u, r) in
      if decide (c = 48) then continue Decimal.D0 else if decide (c = 49) then continue Decimal.D1
      else if decide (c = 50) then continue Decimal.D2 else if decide (c = 51) then continue Decimal.D3
      else if decide (c = 52) then continue Decimal.D4 else if decide (c = 53) then continue Decimal.D5
      else if decide (c = 54) then continue Decimal.D6 else if decide (c = 55) then continue Decimal.D7
      else if decide (c = 56) then continue Decimal.D8 else if decide (c = 57) then continue Decimal.D9
      else (Decimal.Nil, rs)
  end.

#[global] Instance uint_eq_dec : EqDecision Decimal.uint.
Proof. solve_decision. Defined.

(** ** [Sscanf] with "%d" *)

(** [isSpace] of [fmt]. *)
Definition is_space (r : Z) : bool :=
  bool_decide (9 <= r <= 13 \/ r = 32 \/ r = 0x85 \/ r = 0xa0 \/ r = 0x1680 \/ 0x2000 <= r <= 0x200a \/
    r = 0x2028 \/ r = 0x2029 \/ r = 0x202f \/ r = 0x205f \/ r = 0x3000).

(** [SkipSpace]; a newline is an error. *)
Fixpoint skip_space (rs : list Z) : option (list Z) :=
  match rs with
  | [] => Some []
  | r :: rs' => if decide (r = 10) then None else if is_space r then skip_space rs' else Some rs
  end.

(** [s.accept("+-")]: whether a minus sign was read, and the rest. *)
Definition accept_sign (rs : list Z) : bool * list Z :=
  match rs with
  | r :: rs' => if decide (r = 45) then (true, rs') else if decide (r = 43) then (false, rs') else (false, rs)
  | [] => (false, [])
  end.

Definition signed (neg : bool) (u : Decimal.uint) : Decimal.int := if neg then Decimal.Neg u else Decimal.Pos u.

(** The value stored in an [int], or [None] for an error: no digits, or out of range.  What
    follows the number is ignored. *)
Definition Sscanf_d (s : list Z) : option Z :=
  rs ← skip_space (runes_of_string s);
  let '(neg, rs) := accept_sign rs in
  let '(u, _) := parse_uint rs in
  let z := Z.of_int (signed neg u) in
  if decide (u <> Decimal.Nil /\ in_s 64 z) then Some z else None.

(** A character that ends a number. *)
Definition no_digit (rs : list Z) : Prop := match rs with [] => True | c :: _ => c < 48 \/ 57 < c end.

Lemma parse_uint_digits u t : no_digit t -> parse_uint (digits u ++ t) = (u, t).
Proof.
  intros Ht. induction u; cbn [digits app]; [|cbn [parse_uint]; rewrite IHu; by repeat case_decide..].
  destruct t as [|c t]; [done|]. simpl in *. rewrite !decide_False by lia. done.
Qed.

Lemma digits_head u t : u <> Decimal.Nil -> exists c t', digits u ++ t = c :: t' /\ 48 <= c <= 57.
Proof. intros H. destruct u; [done|..]; eexists _, _; (split; [reflexivity|lia]). Qed.

Lemma to_int_nonnil z : match Z.to_int z with Decimal.Pos u | Decimal.Neg u => u <> Decimal.Nil end.
Proof.
  destruct z as [|p|p]; simpl; [done|..]; apply DecimalPos.Unsigned.to_uint_nonnil.
Qed.

Lemma parse_uint_split rs u r : parse_uint rs = (u, r) -> rs = digits u ++ r /\ no_digit r.
Proof.
  revert u r. induction rs as [|c rs IH]; intros u r H; simpl in H; [by simplify_eq|].
  destruct (parse_uint rs) as [u' r'] eqn:E. destruct (IH u' r' eq_refl) as [-> Hr].
  repeat case_decide; simplify_eq; split; try done. simpl. lia.
Qed.

Lemma skip_space_spec rs r :
  skip_space rs = Some r <->
  exists sp, rs = sp ++ r /\ Forall (fun c => is_space c = true /\ c <> 10) sp /\
    match r with c :: _ => is_space c = false | [] => True end.
Proof.
  revert r. induction rs as [|c rs IH]; intros r; simpl.
  - split; [intros [= <-]; by exists []|]. intros (sp & E & _). symmetry in E. by apply app_eq_nil in E as [-> ->].
  - case_decide as H10; [subst|destruct (is_space c) eqn:Ec].
    + split; [done|]. intros ([|c' sp] & E & HF & Hr); simplify_eq/=. by apply Forall_cons in HF as [[_ ?] _].
    + rewrite IH. split.
      * intros (sp & -> & HF & Hr). exists (c :: sp). split_and!; [done|by constructor|done].
      * intros ([|c' sp] & E & HF & Hr); simplify_eq/=; [congruence|]. apply Forall_cons in HF as [_ HF]. by exists sp.
    + split.
      * intros [= <-]. exists []. by split_and!.
      * intros ([|c' sp] & E & HF & Hr); simplify_eq/=; [done|]. apply Forall_cons in HF as [[? _] _]. congruence.
Qed.

Definition sign_runes (neg : bool) (sg : list Z) : Prop := if neg then sg = [45] else sg = [] \/ sg = [43].

Lemma digit_not_space c : 48 <= c <= 57 \/ c = 45 \/ c = 43 -> is_space c = false.
Proof. intros H. unfold is_space. apply bool_decide_eq_false_2. lia. Qed.

(** On a number after white space, whatever follows. *)
Lemma Sscanf_d_number s sp neg sg u rest :
  runes_of_string s = sp ++ sg ++ digits u ++ rest ->
  Forall (fun c => is_space c = true /\ c <> 10) sp -> sign_runes neg sg -> u <> Decimal.Nil -> no_digit rest ->
  Sscanf_d s = let z := Z.of_int (signed neg u) in if decide (in_s 64 z) then Some z else None.
Proof.
  intros E HF Hsg Hn Hr. unfold Sscanf_d. destruct (digits_head u rest Hn) as (c & t & Ec & Hc).
  assert (Hskip : skip_space (runes_of_string s) = Some (sg ++ digits u ++ rest)).
  { apply skip_space_spec. exists sp. split_and!; [done|done|]. rewrite Ec.
    destruct neg; simpl in Hsg; [subst sg|destruct Hsg as [->| ->]]; simpl; apply digit_not_space; lia. }
  assert (Hsign : accept_sign (sg ++ digits u ++ rest) = (neg, digits u ++ rest)).
  { rewrite Ec. destruct neg; simpl in Hsg; [subst sg|destruct Hsg as [->| ->]]; try done.
    simpl. by rewrite !decide_False by lia. }
  rewrite Hskip. simpl. rewrite Hsign, parse_uint_digits by done. cbv zeta. repeat case_decide; tauto.
Qed.

(** The numbers it accepts: white space other than newlines, a sign, digits, whatever
    follows them, of a value that fits. *)
Lemma Sscanf_d_spec s z :
  Sscanf_d s = Some z <->
  exists sp neg sg u rest, runes_of_string s = sp ++ sg ++ digits u ++ rest /\
    Forall (fun c => is_space c = true /\ c <> 10) sp /\ sign_runes neg sg /\ u <> Decimal.Nil /\ no_digit rest /\
    z = Z.of_int (signed neg u) /\ in_s 64 z.
Proof.
  split.
  - unfold Sscanf_d. intros (rs & (sp & -> & HF & _)%skip_space_spec & H)%bind_Some.
    destruct (accept_sign rs) as [neg rs'] eqn:Es. destruct (parse_uint rs') as [u rest] eqn:Eu.
    apply parse_uint_split in Eu as [-> Hr]. case_decide as Hd; [|done]. destruct Hd as [Hn Hz]. injection H as <-.
    assert (exists sg, rs = sg ++ digits u ++ rest /\ sign_runes neg sg) as (sg & -> & Hsg).
    { destruct rs as [|c rs]; simpl in Es; repeat case_decide; simplify_eq; unfold sign_runes.
      - exists []. split; [done|by left].
      - by exists [45].
      - exists [43]. split; [done|by right].
      - exists []. split; [done|by left]. }
    exists sp, neg, sg, u, rest. by split_and!.
  - intros (sp & neg & sg & u & rest & E & HF & Hsg & Hn & Hr & -> & Hz).
    rewrite (Sscanf_d_number s sp neg sg u rest) by done. by apply decide_True.
Qed.

(** It reads back what is printed. *)
Lemma Sscanf_d_decimal s z rest :
  runes_of_string s = decimal z ++ rest -> no_digit rest -> Sscanf_d s = if decide (in_s 64 z) then Some z else None.
Proof.
  intros E Hr. unfold decimal in E. pose proof (to_int_nonnil z) as Hn. pose proof (DecimalZ.of_to z) as Hz.
  destruct (Z.to_int z) as [u|u].
  - rewrite (Sscanf_d_number s [] false [] u rest) by (done || by left). simpl signed. by rewrite Hz.
  - rewrite (Sscanf_d_number s [] true [45] u rest) by done. simpl signed. by rewrite Hz.
Qed.
