(* ===== verification/Json.v ===== *)
(** * Events as JSON

    [ToJSON] of [MedusaBackend/Event.go] and [MedusaUserlandAgent/Event.go]: the same code
    over the two pairs of string readers.  [json_Marshal] is what Go's [encoding/json] does
    with a [map[string]interface{}] of integers and strings: keys sorted by bytes, decimal
    integers, strings escaped with HTML escaping on.  A reference parser, written from the
    JSON grammar and not from the encoder, states what the output means. *)

From S2P Require Import Prelude GoText GoNum ACEvent EventText.
From stdpp Require Import sorting.
From Stdlib Require Import DecimalZ.

Open Scope Z_scope.

(** ** [encoding/json] *)

(** An [interface{}] value of the map: an integer of any width or a string. *)
Inductive jval := JInt (z : Z) | JStr (s : list Z).

#[global] Instance jval_eq_dec : EqDecision jval.
Proof. solve_decision. Defined.

Definition hex_digit (d : Z) : Z := if decide (d < 10) then 48 + d else 87 + d.

Definition quote : Z := 34.
Definition backslash : Z := 92.

(** The one-letter escapes the encoder uses. *)
Definition short_escape (c : Z) : option Z :=
  if decide (c = 34) then Some 34
  else if decide (c = 92) then Some 92
  else if decide (c = 8) then Some 98
  else if decide (c = 12) then Some 102
  else if decide (c = 10) then Some 110
  else if decide (c = 13) then Some 114
  else if decide (c = 9) then Some 116
  else None.

(** Characters that [htmlSafeSet] does not list, short escapes apart. *)
Definition html_unsafe (c : Z) : bool :=
  bool_decide (c < 32) || bool_decide (c = 60) || bool_decide (c = 62) || bool_decide (c = 38).

(** [appendString] on one scanned rune: its escape, or the rune itself.  An invalid byte
    (scanned as U+FFFD with width 1) and the line separators are written as [\uXXXX]. *)
Definition json_char (p : Z * nat) : list Z :=
  let (c, size) := p in
  match short_escape c with
  | Some e => [backslash; e]
  | None =>
      if html_unsafe c then [backslash; 117; 48; 48; hex_digit (c / 16); hex_digit (c mod 16)]
      else if decide (c = rune_error /\ size = 1%nat) then backslash :: lit "ufffd"
      else if decide (c = 0x2028 \/ c = 0x2029) then backslash :: lit "u202" ++ [hex_digit (c mod 16)]
      else [c]
  end.

Definition json_string_runes (s : list Z) : list Z :=
  quote :: mjoin (json_char <$> utf8_scan s) ++ [quote].

Definition json_value (v : jval) : list Z :=
  match v with
  | JInt z => decimal z
  | JStr s => json_string_runes s
  end.

(** A member [key ":" value]; the members are separated by commas. *)
Definition json_member (kv : string * jval) : list Z :=
  json_string_runes (lit kv.1) ++ [58] ++ json_value kv.2.

Fixpoint json_members (kvs : list (string * jval)) : list Z :=
  match kvs with
  | [] => []
  | [kv] => json_member kv
  | kv :: kvs' => json_member kv ++ [44] ++ json_members kvs'
  end.

Definition key_le (p q : string * jval) : Prop := String.le p.1 q.1.
#[global] Instance key_le_dec p q : Decision (key_le p q) := String.le_dec p.1 q.1.

Definition json_object_runes (kvs : list (string * jval)) : list Z :=
  123 :: json_members (merge_sort key_le kvs) ++ [125].

(** [json.Marshal(out)]; the error case is for values this map cannot hold. *)
Definition json_Marshal (kvs : list (string * jval)) : option (list Z) :=
  Some (string_of_runes (json_object_runes kvs)).

(** ** [ToJSON] *)

Section ToJSON.
Context (utf16ToString int32ToString : list Z -> list Z).

(** [out := map[string]interface{}{...}] *)
Definition json_map (e : ACEvent) : list (string * jval) :=
  [ ("Src", JInt (Src e));
  ("EventType", JStr (utf16ToString (EventType e)));
  ("CallerPID", JInt (CallerPID e));
  ("TargetPID", JInt (TargetPID e));
  ("ThreadID", JInt (ThreadID e));
  ("ImageFileName", JStr (int32ToString (ImageFileName e)));
  ("CommandLine", JStr (utf16ToString (CommandLine e)));
  ("IsCreate", JInt (IsCreate e));
  ("ImageBase", JInt (ImageBase e));
  ("ImageSize", JInt (ImageSize e)) ]%string.

(** [return string(data), nil], or the error of [json.Marshal]. *)
Definition to_json (e : ACEvent) : option (list Z) :=
  match json_Marshal (json_map e) with
  | None => None
  | Some data => Some data
  end.
End ToJSON.

Module AgentJSON.
Definition ToJSON : ACEvent -> option (list Z) := to_json Agent.utf16ToString Agent.int32ToString.
End AgentJSON.

Module BackendJSON.
Definition ToJSON : ACEvent -> option (list Z) := to_json Backend.utf16ToString Backend.int32ToString.
End BackendJSON.

(** ** A reference parser for flat JSON objects *)

Definition hex_val (c : Z) : option Z :=
  if decide (48 <= c <= 57) then Some (c - 48)
  else if decide (97 <= c <= 102) then Some (c - 87)
  else if decide (65 <= c <= 70) then Some (c - 55)
  else None.

Definition unescape (e : Z) : option Z :=
  if decide (e = 34) then Some 34 else if decide (e = 92) then Some 92
  else if decide (e = 47) then Some 47 else if decide (e = 98) then Some 8
  else if decide (e = 102) then Some 12 else if decide (e = 110) then Some 10
  else if decide (e = 114) then Some 13 else if decide (e = 116) then Some 9
  else None.

(** The characters of a string literal up to its closing quote, and the rest. *)
Fixpoint parse_chars (rs : list Z) : option (list Z * list Z) :=
  match rs with
  | [] => None
  | c :: t =>
      if decide (c = 34) then Some ([], t)
      else if decide (c = 92) then
        match t with
        | [] => None
        | e :: t1 =>
            if decide (e = 117) then
              match t1 with
              | h1 :: h2 :: h3 :: h4 :: t2 =>
                  a ← hex_val h1; b ← hex_val h2; c ← hex_val h3; d ← hex_val h4;
                  '(cs, r) ← parse_chars t2; Some (4096 * a + 256 * b + 16 * c + d :: cs, r)
              | _ => None
              end
            else x ← unescape e; '(cs, r) ← parse_chars t1; Some (x :: cs, r)
        end
      else if decide (c < 32) then None
      else '(cs, r) ← parse_chars t; Some (c :: cs, r)
  end.

Inductive pval := PInt (z : Z) | PStr (rs : list Z).

Definition parse_value (rs : list Z) : option (pval * list Z) :=
  match rs with
  | [] => None
  | c :: t =>
      if decide (c = 34) then '(cs, r) ← parse_chars t; Some (PStr cs, r)
      else if decide (c = 45) then
        let '(u, r) := parse_uint t in
        if decide (u = Decimal.Nil) then None else Some (PInt (Z.of_int (Decimal.Neg u)), r)
      else
        let '(u, r) := parse_uint rs in
        if decide (u = Decimal.Nil) then None else Some (PInt (Z.of_int (Decimal.Pos u)), r)
  end.

Definition expect (c : Z) (rs : list Z) : option (list Z) :=
  match rs with
  | x :: t => if decide (x = c) then Some t else None
  | [] => None
  end.

(** Members up to the closing brace; [fuel] bounds their number. *)
Fixpoint parse_members (fuel : nat) (rs : list Z) : option (list (list Z * pval) * list Z) :=
  match fuel with
  | O => None
  | S fuel' =>
      t ← expect 34 rs; '(k, r) ← parse_chars t; r1 ← expect 58 r; '(v, r2) ← parse_value r1;
      match expect 44 r2 with
      | Some r3 => '(kvs, r4) ← parse_members fuel' r3; Some ((k, v) :: kvs, r4)
      | None => r3 ← expect 125 r2; Some ([(k, v)], r3)
      end
  end.

Definition parse_object (rs : list Z) : option (list (list Z * pval)) :=
  t ← expect 123 rs; '(kvs, r) ← parse_members (length t) t;
  if decide (r = []) then Some kvs else None.

(** ** The parser inverts the encoder *)

Lemma hex_digit_val d : 0 <= d < 16 -> hex_val (hex_digit d) = Some d.
Proof.
  intros H. unfold hex_digit, hex_val. destruct (decide (d < 10)).
  - rewrite decide_True by lia. f_equal. lia.
  - rewrite decide_False, decide_True by lia. f_equal. lia.
Qed.

Lemma short_escape_spec c e :
  short_escape c = Some e -> unescape e = Some c /\ e <> 117.
Proof.
  unfold short_escape. intros H. repeat case_decide; simplify_eq; split; done || reflexivity.
Qed.

Lemma html_unsafe_spec c : html_unsafe c = true <-> c < 32 \/ c = 60 \/ c = 62 \/ c = 38.
Proof. unfold html_unsafe. rewrite !orb_true_iff, !bool_decide_eq_true. tauto. Qed.

Lemma short_escape_none c :
  short_escape c = None -> c <> 34 /\ c <> 92.
Proof. unfold short_escape. intros H. repeat case_decide; simplify_eq; lia. Qed.

Definition cons_fst (c : Z) (p : list Z * list Z) : list Z * list Z := (c :: p.1, p.2).

Lemma parse_chars_u d1 d2 d3 d4 a b c d t :
  hex_val d1 = Some a -> hex_val d2 = Some b -> hex_val d3 = Some c -> hex_val d4 = Some d ->
  parse_chars ([backslash; 117; d1; d2; d3; d4] ++ t)
  = cons_fst (4096 * a + 256 * b + 16 * c + d) <$> parse_chars t.
Proof.
  intros Ha Hb Hc Hd. cbn [app parse_chars]. unfold backslash.
  rewrite decide_False, !decide_True by done. rewrite Ha, Hb, Hc, Hd. simpl.
  by destruct (parse_chars t) as [[cs r]|].
Qed.

Lemma parse_json_char c size t :
  valid_rune c -> parse_chars (json_char (c, size) ++ t) = cons_fst c <$> parse_chars t.
Proof.
  intros Hv. unfold json_char. destruct (short_escape c) as [e|] eqn:Es.
  - apply short_escape_spec in Es as [He Hne]. cbn [app parse_chars]. unfold backslash.
    rewrite decide_False, decide_True, decide_False, He by done. simpl.
    by destruct (parse_chars t) as [[cs r]|].
  - destruct (html_unsafe c) eqn:Eh.
    { apply html_unsafe_spec in Eh. unfold valid_rune, in_runes in Hv.
      rewrite (parse_chars_u 48 48 _ _ 0 0 (c / 16) (c mod 16)) by (done || apply hex_digit_val; zdm).
      do 2 f_equal. zdm. }
    case_decide as Hfffd.
    { destruct Hfffd as [-> _]. change (backslash :: lit "ufffd") with [backslash; 117; 102; 102; 102; 100].
      by rewrite (parse_chars_u _ _ _ _ 15 15 15 13). }
    case_decide as Hsep.
    { change (backslash :: lit "u202" ++ [hex_digit (c mod 16)])
        with [backslash; 117; 50; 48; 50; hex_digit (c mod 16)].
      rewrite (parse_chars_u _ _ _ _ 2 0 2 (c mod 16)) by (done || apply hex_digit_val; zdm).
      do 2 f_equal. destruct Hsep as [->| ->]; done. }
    apply short_escape_none in Es as [H1 H2].
    assert (~ c < 32) by (intros ?; assert (html_unsafe c = true) by (apply html_unsafe_spec; tauto); congruence).
    cbn [app parse_chars]. rewrite !decide_False by done.
    by destruct (parse_chars t) as [[cs r]|].
Qed.

Lemma parse_json_chars ps t :
  Forall (fun p => valid_rune p.1) ps ->
  parse_chars (mjoin (json_char <$> ps) ++ quote :: t) = Some (ps.*1, t).
Proof.
  induction 1 as [|[c size] ps Hc _ IH]; [done|].
  rewrite !fmap_cons, mjoin_cons, <- app_assoc, parse_json_char, IH by done. done.
Qed.

Lemma parse_json_string s t :
  Forall is_byte s -> parse_chars (mjoin (json_char <$> utf8_scan s) ++ quote :: t)
  = Some (runes_of_string s, t).
Proof. intros H. by apply parse_json_chars, utf8_scan_valid. Qed.

Lemma parse_decimal z t : no_digit t -> parse_value (decimal z ++ t) = Some (PInt z, t).
Proof.
  intros Ht. unfold decimal. pose proof (to_int_nonnil z) as Hn.
  pose proof (DecimalZ.of_to z) as Hz. destruct (Z.to_int z) as [u|u].
  - destruct (digits_head u t Hn) as (c & t' & E & Hc). unfold parse_value. rewrite E.
    rewrite !decide_False by lia. rewrite <- E, parse_uint_digits, decide_False by done. by rewrite Hz.
  - cbn [app parse_value]. rewrite decide_False, decide_True by done.
    rewrite parse_uint_digits, decide_False by done. by rewrite Hz.
Qed.

(** What the parser should find in the place of a value. *)
Definition denote (v : jval) : pval :=
  match v with JInt z => PInt z | JStr s => PStr (runes_of_string s) end.

Definition jval_ok (v : jval) : Prop := match v with JInt _ => True | JStr s => Forall is_byte s end.

Lemma parse_json_value v t :
  jval_ok v -> no_digit t -> parse_value (json_value v ++ t) = Some (denote v, t).
Proof.
  intros Hv Ht. destruct v as [z|s]; [by apply parse_decimal|].
  cbn [json_value json_string_runes app parse_value]. unfold quote at 1. rewrite decide_True by done.
  rewrite <- app_assoc. change ([quote] ++ t) with (quote :: t). by rewrite parse_json_string.
Qed.

Lemma lit_byte k : Forall is_byte (lit k).
Proof.
  unfold lit. apply Forall_fmap, Forall_true. intros a. unfold is_byte, in_u. simpl.
  pose proof (Ascii.N_ascii_bounded a). lia.
Qed.

Lemma parse_members_correct kvs fuel r :
  kvs <> [] -> (length kvs <= fuel)%nat -> Forall (fun kv => jval_ok kv.2) kvs ->
  parse_members fuel (json_members kvs ++ 125 :: r)
  = Some ((fun kv => (runes_of_string (lit kv.1), denote kv.2)) <$> kvs, r).
Proof.
  intros Hne Hf Hok. revert fuel Hf Hne.
  induction Hok as [|[k v] kvs Hv Hok IH]; intros fuel Hf Hne; [done|].
  destruct fuel as [|fuel]; [simpl in Hf; lia|]. simpl in Hv.
  assert (HM : forall t, no_digit t ->
    (t0 ← expect 34 (json_member (k, v) ++ t); '(k', r) ← parse_chars t0; r1 ← expect 58 r;
     '(v', r2) ← parse_value r1; Some (k', v', r2))
    = Some (runes_of_string (lit k), denote v, t)).
  { intros t Ht. unfold json_member, json_string_runes. cbn [app expect fst snd].
    unfold quote at 1. rewrite decide_True by done. cbn [mbind option_bind].
    rewrite <- !app_assoc. change ([quote] ++ ?x) with (quote :: x).
    rewrite parse_json_string by apply lit_byte. cbn [mbind option_bind app expect].
    rewrite decide_True by done. cbn [mbind option_bind]. by rewrite parse_json_value. }
  assert (HS : forall t, no_digit t -> exists t0 r0 r1,
     expect 34 (json_member (k, v) ++ t) = Some t0 /\ parse_chars t0 = Some (runes_of_string (lit k), r0) /\
     expect 58 r0 = Some r1 /\ parse_value r1 = Some (denote v, t)).
  { intros t Ht. specialize (HM t Ht). destruct (expect 34 _) as [t0|]; [|done]. simpl in HM.
    destruct (parse_chars t0) as [[k' r0]|] eqn:E1; [|done]. simpl in HM.
    destruct (expect 58 r0) as [r1|] eqn:E2; [|done]. simpl in HM.
    destruct (parse_value r1) as [[v' r2]|] eqn:E3; [|done]. simplify_eq/=. by exists t0, r0, r1. }
  destruct kvs as [|kv kvs].
  - destruct (HS (125 :: r)) as (t0 & r0 & r1 & E0 & E1 & E2 & E3); [simpl; lia|].
    cbn [json_members parse_members]. rewrite E0. simpl. rewrite E1. simpl. rewrite E2. simpl. by rewrite E3.
  - change (json_members ((k, v) :: kv :: kvs)) with (json_member (k, v) ++ [44] ++ json_members (kv :: kvs)).
    rewrite <- !app_assoc.
    destruct (HS ([44] ++ json_members (kv :: kvs) ++ 125 :: r)) as (t0 & r0 & r1 & E0 & E1 & E2 & E3); [simpl; lia|].
    cbn [parse_members]. rewrite E0. cbn [mbind option_bind]. rewrite E1. cbn [mbind option_bind].
    rewrite E2. cbn [mbind option_bind]. rewrite E3. cbn [mbind option_bind app expect].
    rewrite decide_True by done. rewrite IH by (done || simpl in *; lia). done.
Qed.

Lemma json_members_length kvs : (length kvs <= length (json_members kvs))%nat.
Proof.
  induction kvs as [|kv [|kv' kvs] IH]; [done|simpl; lia|].
  change (json_members (kv :: kv' :: kvs)) with (json_member kv ++ [44] ++ json_members (kv' :: kvs)).
  rewrite !length_app. cbn [length] in *. lia.
Qed.

Lemma parse_object_correct kvs :
  merge_sort key_le kvs <> [] -> Forall (fun kv => jval_ok kv.2) (merge_sort key_le kvs) ->
  parse_object (json_object_runes kvs)
  = Some ((fun kv => (runes_of_string (lit kv.1), denote kv.2)) <$> merge_sort key_le kvs).
Proof.
  intros Hne Hok. unfold json_object_runes, parse_object. set (l := merge_sort key_le kvs) in *.
  cbn [expect]. rewrite decide_True by done. cbn [mbind option_bind].
  rewrite parse_members_correct; [|done| |done].
  - cbn [mbind option_bind]. by rewrite decide_True.
  - rewrite length_app. pose proof (json_members_length l). simpl. lia.
Qed.

(** ** The characters of the output *)

(** Not an ASCII control below U+0020, and none of the characters HTML escaping removes. *)
Definition safe_char (r : Z) : Prop :=
  valid_rune r /\ 32 <= r /\ r <> 60 /\ r <> 62 /\ r <> 38 /\ r <> 0x2028 /\ r <> 0x2029.
#[global] Instance safe_char_dec r : Decision (safe_char r).
Proof. unfold safe_char. apply _. Defined.

Lemma ascii_safe r : 32 <= r < 127 -> r <> 60 -> r <> 62 -> r <> 38 -> safe_char r.
Proof. unfold safe_char, valid_rune, in_runes, is_surrogate. lia. Qed.
#[local] Hint Resolve ascii_safe : medusa.

Lemma hex_digit_safe d : 0 <= d < 16 -> safe_char (hex_digit d).
Proof. intros H. unfold hex_digit. case_decide; apply ascii_safe; lia. Qed.

Lemma Forall_lit_safe s : forallb (fun z => bool_decide (safe_char z)) (lit s) = true -> Forall safe_char (lit s).
Proof. intros H. apply Forall_forall. intros x Hx. apply list_elem_of_In in Hx. rewrite forallb_forall in H. specialize (H x Hx). by apply bool_decide_eq_true in H. Qed.

Lemma short_escape_safe c e : short_escape c = Some e -> safe_char e.
Proof. unfold short_escape. intros H. repeat case_decide; simplify_eq; apply ascii_safe; lia. Qed.

Lemma json_char_safe c size : valid_rune c -> Forall safe_char (json_char (c, size)).
Proof.
  intros Hv. unfold json_char. assert (Hbs : safe_char backslash) by (apply ascii_safe; unfold backslash; lia).
  destruct (short_escape c) as [e|] eqn:Es.
  { apply Forall_cons; split; [done|]. apply Forall_singleton. by eapply short_escape_safe. }
  destruct (html_unsafe c) eqn:Eh.
  { apply html_unsafe_spec in Eh. unfold valid_rune, in_runes in Hv.
    assert (0 <= c / 16 < 16 /\ 0 <= c mod 16 < 16) as [H1 H2] by zdm.
    repeat (apply Forall_cons; split; [first [done|by apply hex_digit_safe|apply ascii_safe; lia]|]). constructor. }
  case_decide as Hfffd; [apply Forall_cons; split; [done|by apply Forall_lit_safe]|].
  case_decide as Hsep.
  { apply Forall_cons; split; [done|]. apply Forall_app; split; [by apply Forall_lit_safe|].
    apply Forall_singleton, hex_digit_safe. zdm. }
  apply Forall_singleton. unfold safe_char.
  assert (~ (c < 32 \/ c = 60 \/ c = 62 \/ c = 38)) by (rewrite <- html_unsafe_spec; congruence).
  split; [done|lia].
Qed.

Lemma json_string_safe s : Forall is_byte s -> Forall safe_char (json_string_runes s).
Proof.
  intros H. unfold json_string_runes. apply Forall_cons; split; [apply ascii_safe; unfold quote; lia|].
  apply Forall_app; split; [|apply Forall_singleton, ascii_safe; unfold quote; lia].
  apply utf8_scan_valid in H. induction H as [|[c size] ps Hc _ IH]; [constructor|].
  rewrite fmap_cons, mjoin_cons. apply Forall_app; split; [by apply json_char_safe|done].
Qed.

Lemma decimal_safe z : Forall safe_char (decimal z).
Proof.
  assert (H : forall u, Forall safe_char (digits u)).
  { induction u; simpl; [constructor|..]; (apply Forall_cons; split; [apply ascii_safe; lia|done]). }
  unfold decimal. case_match; [done|]. apply Forall_cons; split; [apply ascii_safe; lia|done].
Qed.

Lemma json_members_safe kvs :
  Forall (fun kv => jval_ok kv.2) kvs -> Forall safe_char (json_members kvs).
Proof.
  assert (HM : forall kv, jval_ok kv.2 -> Forall safe_char (json_member kv)).
  { intros [k v] Hv. unfold json_member. cbn [fst snd] in *.
    apply Forall_app; split; [apply json_string_safe, lit_byte|].
    apply Forall_cons; split; [apply ascii_safe; lia|].
    destruct v; [apply decimal_safe|by apply json_string_safe]. }
  induction 1 as [|kv kvs Hkv _ IH]; [constructor|]. cbn [json_members]. destruct kvs as [|kv' kvs]; [by apply HM|].
  apply Forall_app; split; [by apply HM|]. apply Forall_cons; split; [apply ascii_safe; lia|done].
Qed.

Lemma json_object_safe kvs :
  Forall (fun kv => jval_ok kv.2) (merge_sort key_le kvs) -> Forall safe_char (json_object_runes kvs).
Proof.
  intros H. unfold json_object_runes. apply Forall_cons; split; [apply ascii_safe; lia|].
  apply Forall_app; split; [by apply json_members_safe|]. apply Forall_singleton, ascii_safe; lia.
Qed.

(** ** Properties *)

(** The members in the order of their keys, which is the order they are written in. *)
Definition json_sorted (u i : list Z -> list Z) (e : ACEvent) : list (string * jval) :=
  [ ("CallerPID", JInt (CallerPID e));
    ("CommandLine", JStr (u (CommandLine e)));
    ("EventType", JStr (u (EventType e)));
    ("ImageBase", JInt (ImageBase e));
    ("ImageFileName", JStr (i (ImageFileName e)));
    ("ImageSize", JInt (ImageSize e));
    ("IsCreate", JInt (IsCreate e));
    ("Src", JInt (Src e));
    ("TargetPID", JInt (TargetPID e));
    ("ThreadID", JInt (ThreadID e)) ]%string.

Lemma json_map_sorted u i e : merge_sort key_le (json_map u i e) = json_sorted u i e.
Proof. vm_compute. reflexivity. Qed.

Lemma utf8_rune_byte r : Forall is_byte (utf8_rune r).
Proof.
  assert (H : forall c, in_runes c -> Forall is_byte (wtf8_rune c)).
  { intros c. unfold in_runes, wtf8_rune, is_byte, in_u. change (2 ^ 8) with 256.
    repeat case_decide; intros; repeat constructor; zdm. }
  unfold utf8_rune. case_decide as Hv; apply H; [apply Hv|done].
Qed.

Lemma string_of_runes_byte rs : Forall is_byte (string_of_runes rs).
Proof.
  induction rs as [|r rs IH]; [constructor|]. rewrite string_of_runes_cons.
  apply Forall_app; split; [apply utf8_rune_byte|done].
Qed.

Lemma json_map_ok e :
  Forall (fun kv => jval_ok kv.2) (merge_sort key_le (json_map Backend.utf16ToString Backend.int32ToString e)).
Proof.
  rewrite json_map_sorted. unfold json_sorted.
  repeat (apply Forall_cons; split; [simpl; done || apply string_of_runes_byte|]). constructor.
Qed.

Lemma safe_valid rs : Forall safe_char rs -> Forall valid_rune rs.
Proof. intros H. eapply Forall_impl; [exact H|]. by intros x [? _]. Qed.

Lemma safe_bytes rs : Forall safe_char rs -> Forall (fun b => 32 <= b) (string_of_runes rs).
Proof.
  induction 1 as [|r rs [Hv [Hr _]] _ IH]; [constructor|]. rewrite string_of_runes_cons.
  apply Forall_app. split; [|exact IH]. rewrite utf8_rune_valid by done.
  unfold wtf8_rune, valid_rune, in_runes in *. repeat case_decide; repeat constructor; zdm.
Qed.

(** An event with the character [r] in a text, and that it is in the event's line. *)
Definition titled (r : Z) : ACEvent :=
  {| Src := UM; EventType := r :: replicate 259 0; CallerPID := 0; TargetPID := 0; ThreadID := 0;
     ImageFileName := replicate 260 0; CommandLine := replicate 1024 0; IsCreate := 0; ImageBase := 0; ImageSize := 0 |}.

Definition passes (r : Z) : Prop :=
  wf_event 8 (titled r) /\ exists js, BackendJSON.ToJSON (titled r) = Some js /\ r ∈ runes_of_string js.

Definition passesb (r : Z) : bool :=
  bool_decide (wf_event 8 (titled r)) &&
  match BackendJSON.ToJSON (titled r) with Some js => bool_decide (r ∈ runes_of_string js) | None => false end.

Lemma passesb_ok r : passesb r = true -> passes r.
Proof.
  unfold passesb, passes. intros [H1%bool_decide_eq_true H2]%andb_true_iff. split; [done|].
  destruct (BackendJSON.ToJSON (titled r)) as [js|]; [|done]. exists js. split; [done|by apply bool_decide_eq_true in H2].
Qed.

(** DEL and U+0080 to U+009F. *)
Lemma titled_passes : Forall passes ((fun n => 0x7F + Z.of_nat n) <$> seq 0 33).
Proof.
  assert (H : forallb passesb ((fun n => 0x7F + Z.of_nat n) <$> seq 0 33) = true) by (vm_compute; reflexivity).
  rewrite forallb_forall in H. apply Forall_forall. intros r Hr. apply passesb_ok, H. by apply list_elem_of_In.
Qed.

Lemma backend_json_runes e :
  runes_of_string (string_of_runes (json_object_runes (json_map Backend.utf16ToString Backend.int32ToString e)))
  = json_object_runes (json_map Backend.utf16ToString Backend.int32ToString e).
Proof. apply runes_of_string_of_runes, safe_valid, json_object_safe, json_map_ok. Qed.

Lemma narrow_units_units buf : Forall unit16 (narrow_units buf).
Proof. rewrite narrow_units_closed. apply Forall_fmap, Forall_true. intros x. by apply wrap_u_range. Qed.

(** C21: the backend's [ToJSON] never fails, and its output is a JSON object that a parser
    of the grammar reads back as exactly the ten fields of the event, in the order of their
    keys, every integer exact and every string the decoded contents of its buffer. *)
Theorem ToJSON_parses (ptr : nat) (e : ACEvent) (Hwf : wf_event ptr e) :
  exists js, BackendJSON.ToJSON e = Some js /\
    parse_object (runes_of_string js) =
      Some [ (runes_of_string (lit "CallerPID"), PInt (CallerPID e));
             (runes_of_string (lit "CommandLine"), PStr (utf16_Decode (until_zero (CommandLine e))));
             (runes_of_string (lit "EventType"), PStr (utf16_Decode (until_zero (EventType e))));
             (runes_of_string (lit "ImageBase"), PInt (ImageBase e));
             (runes_of_string (lit "ImageFileName"), PStr (utf16_Decode (narrow_units (ImageFileName e))));
             (runes_of_string (lit "ImageSize"), PInt (ImageSize e));
             (runes_of_string (lit "IsCreate"), PInt (IsCreate e));
             (runes_of_string (lit "Src"), PInt (Src e));
             (runes_of_string (lit "TargetPID"), PInt (TargetPID e));
             (runes_of_string (lit "ThreadID"), PInt (ThreadID e)) ].
Proof.
  eexists; split; [reflexivity|]. rewrite backend_json_runes.
  destruct (wf_event_arrays _ _ Hwf) as ([_ HE] & _ & [_ HC]).
  pose proof (json_map_ok e) as Hok. pose proof (json_map_sorted Backend.utf16ToString Backend.int32ToString e) as Es.
  rewrite parse_object_correct by (rewrite Es in *; done). rewrite Es. unfold json_sorted.
  cbn [fmap list_fmap fst snd denote]. rewrite !backend_utf16_closed. unfold Backend.int32ToString, Backend.utf16BufToString.
  rewrite !runes_of_string_of_runes by auto using Decode_valid, until_zero_units, narrow_units_units.
  reflexivity.
Qed.

(** C29: whatever an event holds, the backend's JSON is valid UTF-8 in which no character is
    an ASCII control below U+0020, in particular no line feed or carriage return, an angle
    bracket, an ampersand, U+2028 or U+2029.  Other controls pass: each of DEL and U+0080 to
    U+009F is written as it is for a well-formed event that has it in a text. *)
Theorem ToJSON_one_line :
  (forall e, exists js, BackendJSON.ToJSON e = Some js /\ valid_utf8 js /\ Forall safe_char (runes_of_string js) /\
     Forall (fun b => 32 <= b) js) /\
  (forall r, 0x7F <= r <= 0x9F -> wf_event 8 (titled r) /\
     exists js, BackendJSON.ToJSON (titled r) = Some js /\ r ∈ runes_of_string js).
Proof.
  split.
  - intros e. eexists; split; [reflexivity|]. pose proof (json_object_safe _ (json_map_ok e)) as Hs.
    split; [by apply valid_utf8_of_runes, safe_valid|]. split; [by rewrite backend_json_runes|].
    by apply safe_bytes.
  - intros r Hr. pose proof titled_passes as HT. unfold passes in HT.
    rewrite Forall_forall in HT. apply HT. apply list_elem_of_fmap. exists (Z.to_nat (r - 0x7F)).
    split; [lia|]. apply elem_of_seq. lia.
Qed.

Lemma ToJSON_parses_witness :
  exists js, BackendJSON.ToJSON sample_event = Some js /\ parse_object (runes_of_string js) <> None.
Proof.
  destruct (ToJSON_parses 8 sample_event sample_event_wf) as (js & E & P). exists js.
  split; [exact E|]. rewrite P. discriminate.
Defined.

(** The line separator U+0085 in a title. *)
Lemma ToJSON_one_line_witness :
  exists js, BackendJSON.ToJSON (titled 0x85) = Some js /\ 0x85 ∈ runes_of_string js.
Proof. apply (proj2 ToJSON_one_line 0x85). lia. Defined.
