(* ===== verification/Backoff.v ===== *)
(** * Reconnection delays

    [nextBackoff] of [MedusaUserlandAgent/WebSocketWorker.go], with its float64 arithmetic:
    binary64 values are Stdlib's [spec_float], multiplication is the correctly rounded
    [SFmul], and the conversions and [math.Min] are Go's.  [math.Pow(2, n)] is exact for a
    natural exponent: a power of two up to 2^1023, and +Inf beyond. *)

From S2P Require Import Prelude.
From Stdlib Require Import SpecFloat.

(** ** float64 *)

Definition float64 : Type := spec_float.

Definition of_int (z : Z) : float64 := binary_normalize 53 1024 z 0 false.
Definition fmul : float64 -> float64 -> float64 := SFmul 53 1024.

(** [math.Pow(2, float64(n))] *)
Definition pow2 (n : nat) : float64 :=
  if decide (n < 1024)%nat then S754_finite false (2 ^ 52)%positive (Z.of_nat n - 52)
  else S754_infinity false.

(** [math.Min] *)
Definition fmin (x y : float64) : float64 :=
  match x, y with
  | S754_infinity true, _ | _, S754_infinity true => S754_infinity true
  | S754_nan, _ | _, S754_nan => S754_nan
  | S754_zero sx, S754_zero sy => if sx then x else y
  | _, _ => if SFltb x y then x else y
  end.

(** The conversion [int64(f)]: truncation; out of range, Go leaves the result to the
    implementation. *)
Definition to_int64 (f : float64) : option Z :=
  match f with
  | S754_zero _ => Some 0
  | S754_finite s m e =>
      let a := if decide (0 <= e) then Zpos m * 2 ^ e else Zpos m / 2 ^ (- e) in
      let z := if s then - a else a in
      if decide (in_s 64 z) then Some z else None
  | _ => None
  end.

(** ** The code *)

(** Durations are [int64] nanoseconds. *)
Definition Millisecond : Z := 1000000.
Definition Second : Z := 1000 * Millisecond.

Record backoff := mkBackoff { initial : Z; max : Z; jitter : Z }.

(** The values [NewHydraWS] sets. *)
Definition default_backoff : backoff :=
  {| initial := 500 * Millisecond; max := 30 * Second; jitter := 250 * Millisecond |}.

(** [nextBackoff(n)] when [time.Now().UnixNano()] is [now]; [None] stands for a conversion
    whose result Go does not define. *)
Definition nextBackoff (b : backoff) (n : nat) (now : Z) : option Z :=
  let base := of_int (initial b) in
  let base := if SFeqb base (S754_zero false) then of_int (500 * Millisecond) else base in
  let max := of_int (max b) in
  let max := if SFeqb max (S754_zero false) then of_int (30 * Second) else max in
  d ← to_int64 (fmin (fmul base (pow2 n)) max);
  let j := jitter b in
  if decide (0 < j) then Some (wrap_s 64 (d + Z.rem now j)) else Some d.

(** ** The delay without jitter *)

Definition base_delay (n : nat) : Z := Z.min (500 * Millisecond * 2 ^ Z.of_nat n) (30 * Second).

Definition float_delay (n : nat) : option Z :=
  to_int64 (fmin (fmul (of_int (500 * Millisecond)) (pow2 n)) (of_int (30 * Second))).

Lemma float_delay_small :
  forallb (fun n => bool_decide (float_delay n = Some (base_delay n))) (seq 0 1024) = true.
Proof. vm_compute. reflexivity. Qed.

Lemma base_delay_saturated n : (6 <= n)%nat -> base_delay n = 30 * Second.
Proof.
  intros H. unfold base_delay, Second, Millisecond. apply Z.min_r.
  assert (2 ^ 6 <= 2 ^ Z.of_nat n) by (apply Z.pow_le_mono_r; lia). lia.
Qed.

Lemma float_delay_large n : (1024 <= n)%nat -> float_delay n = Some (30 * Second).
Proof. intros H. unfold float_delay, pow2. rewrite decide_False by lia. vm_compute. reflexivity. Qed.

(** The floating-point computation is exact for every attempt number. *)
Lemma float_delay_exact n : float_delay n = Some (base_delay n).
Proof.
  destruct (decide (n < 1024)%nat) as [H|H].
  - pose proof float_delay_small as HF. rewrite forallb_forall in HF.
    specialize (HF n). rewrite in_seq in HF. apply (bool_decide_eq_true _), HF. lia.
  - rewrite float_delay_large, base_delay_saturated by lia. done.
Qed.

Lemma base_delay_bounds n : 500 * Millisecond <= base_delay n <= 30 * Second.
Proof.
  unfold base_delay, Second, Millisecond.
  assert (0 < 2 ^ Z.of_nat n) by (apply Z.pow_pos_nonneg; lia). lia.
Qed.

Lemma base_delay_mono n m : (n <= m)%nat -> base_delay n <= base_delay m.
Proof.
  intros H. unfold base_delay. apply Z.min_le_compat_r, Z.mul_le_mono_nonneg_l; [unfold Millisecond; lia|].
  apply Z.pow_le_mono_r; lia.
Qed.

Lemma nextBackoff_default_eq n now :
  nextBackoff default_backoff n now = Some (wrap_s 64 (base_delay n + Z.rem now (250 * Millisecond))).
Proof.
  unfold nextBackoff.
  replace (if SFeqb (of_int (initial default_backoff)) (S754_zero false)
           then of_int (500 * Millisecond) else of_int (initial default_backoff))
    with (of_int (500 * Millisecond)) by (vm_compute; reflexivity).
  replace (if SFeqb (of_int (max default_backoff)) (S754_zero false)
           then of_int (30 * Second) else of_int (max default_backoff))
    with (of_int (30 * Second)) by (vm_compute; reflexivity).
  cbv zeta. fold (float_delay n). rewrite float_delay_exact.
  cbn [mbind option_bind]. by rewrite decide_True.
Qed.

(** ** Properties *)

(** C26: with the delays the client sets, the float64 computation is exact for every attempt
    number: the delay is [min(500ms * 2^n, 30s)] plus a jitter below 250ms, so it lies
    between 500ms and 30.25s, never decreases (jitter apart) and is constant from the sixth
    retry on; no attempt number overflows. *)
Theorem nextBackoff_exact (n : nat) (now : Z) (Hnow : 0 <= now) :
  nextBackoff default_backoff n now = Some (base_delay n + now mod (250 * Millisecond)) /\
  500 * Millisecond <= base_delay n + now mod (250 * Millisecond) < 30 * Second + 250 * Millisecond /\
  base_delay n <= base_delay (S n) /\ ((6 <= n)%nat -> base_delay n = 30 * Second).
Proof.
  pose proof (base_delay_bounds n) as HB.
  pose proof (Z.mod_pos_bound now (250 * Millisecond) ltac:(done)) as HM.
  rewrite nextBackoff_default_eq, Z.rem_mod_nonneg by done.
  split; [|split; [lia|split; [apply base_delay_mono; lia|apply base_delay_saturated]]].
  f_equal. apply wrap_s_small; [lia|]. unfold in_s, Second, Millisecond in *. simpl. lia.
Qed.

(** A zero field of the configuration stands for its default, and without jitter the
    delay does not depend on the clock. *)
Theorem nextBackoff_zero_config (n : nat) (now : Z) :
  nextBackoff {| initial := 0; max := 0; jitter := 0 |} n now = Some (base_delay n).
Proof.
  unfold nextBackoff. cbn [initial max jitter]. cbv zeta.
  replace (if SFeqb (of_int 0) (S754_zero false) then of_int (500 * Millisecond) else of_int 0)
    with (of_int (500 * Millisecond)) by (vm_compute; reflexivity).
  replace (if SFeqb (of_int 0) (S754_zero false) then of_int (30 * Second) else of_int 0)
    with (of_int (30 * Second)) by (vm_compute; reflexivity).
  fold (float_delay n). rewrite float_delay_exact.
  cbn [mbind option_bind]. by rewrite decide_False.
Qed.

Lemma nextBackoff_exact_witness :
  nextBackoff default_backoff 3 1000000123 = Some (4 * Second + 123).
Proof.
  pose proof (nextBackoff_exact 3 1000000123 ltac:(lia)) as [E _]. etransitivity; [exact E|].
  vm_compute. reflexivity.
Defined.
