(* ===== verification/Machine.v ===== *)
(** * Labelled machines and WebSocket connections

    What the state machines of the development share.  A machine is a partial step function
    on states and labels; a run is a sequence of labels each of which is enabled where it
    comes.  Connections and message types are those of the WebSocket library. *)

From S2P Require Import Prelude.

Section machine.
Context {St L : Type} (step : St -> L -> option St).

Fixpoint run (s : St) (ls : list L) : option St :=
  match ls with
  | [] => Some s
  | l :: ls' => s ← step s l; run s ls'
  end.

Lemma run_app s ls1 ls2 : run s (ls1 ++ ls2) = (s1 ← run s ls1; run s1 ls2).
Proof using Type.
  revert s. induction ls1 as [|l ls1 IH]; intros s; [done|]. simpl.
  destruct (step s l) as [s'|]; simpl; [apply IH|done].
Qed.

(** Induction along a run of steps with certain labels; the invariant may speak of the
    labels executed so far. *)
Lemma run_induction (P : L -> Prop) (I : list L -> St -> Prop) :
  (forall ls s l s', P l -> I ls s -> step s l = Some s' -> I (ls ++ [l]) s') ->
  forall ls ls0 s s', Forall P ls -> I ls0 s -> run s ls = Some s' -> I (ls0 ++ ls) s'.
Proof using Type.
  intros Hstep. induction ls as [|l ls IH]; intros ls0 s s' HP HI Hr; simpl in Hr.
  { simplify_eq. by rewrite app_nil_r. }
  apply Forall_cons in HP as [Hl HP].
  destruct (step s l) as [s1|] eqn:E; [|done]. simpl in Hr.
  rewrite (cons_middle l ls0 ls), app_assoc. eauto.
Qed.

Lemma run_invariant_on (P : L -> Prop) (I : St -> Prop) :
  (forall s l s', P l -> I s -> step s l = Some s' -> I s') ->
  forall ls s s', Forall P ls -> I s -> run s ls = Some s' -> I s'.
Proof using Type.
  intros Hstep ls s s' HP HI Hr. apply (run_induction P (fun _ => I) ltac:(eauto) ls [] s s'); done.
Qed.

(** An invariant of [step] holds along every run. *)
Lemma run_invariant (I : St -> Prop) :
  (forall s l s', I s -> step s l = Some s' -> I s') ->
  forall ls s s', I s -> run s ls = Some s' -> I s'.
Proof using Type.
  intros Hstep ls s s'. apply (run_invariant_on (fun _ => True)); [eauto|]. by apply Forall_true.
Qed.

(** A measure that every step of a kind decreases bounds the runs of such steps. *)
Lemma run_measure (P : L -> Prop) (m : St -> nat) :
  (forall s l s', P l -> step s l = Some s' -> (m s' < m s)%nat) ->
  forall ls s s', Forall P ls -> run s ls = Some s' -> (length ls + m s' <= m s)%nat.
Proof using Type.
  intros Hstep. induction ls as [|l ls IH]; intros s s' HF Hr; simpl in *; [simplify_eq; lia|].
  apply Forall_cons in HF as [Hl HF]. destruct (step s l) as [s1|] eqn:E; [|done].
  pose proof (Hstep _ _ _ Hl E). specialize (IH s1 s' HF Hr). lia.
Qed.

(** When every state of [I] that is not [done] has a step that stays in [I] and decreases a
    measure, a run leads to [done]. *)
Lemma run_progress (I done : St -> Prop) (m : St -> nat) :
  (forall s, I s -> done s \/ exists l s', step s l = Some s' /\ I s' /\ (m s' < m s)%nat) ->
  forall s, I s -> exists ls s', run s ls = Some s' /\ I s' /\ done s' /\ (length ls <= m s)%nat.
Proof using Type.
  intros Hstep s. remember (m s) as k eqn:Hk. revert s Hk.
  induction (lt_wf k) as [k _ IH]. intros s -> HI.
  destruct (Hstep s HI) as [Hd|(l & s1 & Hl & HI1 & Hm)].
  - exists [], s. simpl. split_and!; (done || lia).
  - destruct (IH (m s1) Hm s1 eq_refl HI1) as (ls & s' & Hr & HI' & Hd & Hlen).
    exists (l :: ls), s'. simpl. rewrite Hl. simpl. split_and!; (done || lia).
Qed.

(** A concrete run, with its final state, for the witnesses. *)
Definition runs (s : St) (ls : list L) : bool := match run s ls with Some _ => true | None => false end.
Definition after (s : St) (ls : list L) : St := default s (run s ls).

Lemma run_after s ls : runs s ls = true -> run s ls = Some (after s ls).
Proof using Type. unfold runs, after. by destruct (run s ls). Qed.

Lemma run_after_app s ls1 ls2 :
  runs s (ls1 ++ ls2) = true -> run (after s ls1) ls2 = Some (after s (ls1 ++ ls2)).
Proof using Type.
  unfold runs, after. rewrite run_app. destruct (run s ls1) as [s1|]; [|done].
  simpl. by destruct (run s1 ls2).
Qed.
End machine.

(** Take a successful step [H] apart into its cases. *)
Ltac split_option H :=
  lazymatch type of H with
  | None = Some _ => discriminate H
  | Some _ = Some _ => injection H as H
  | (_ ≫= _) = Some _ =>
      let E := fresh "E" in
      apply bind_Some in H as (? & E & H); split_option E; split_option H
  | (if decide ?P then _ else _) = Some _ =>
      let D := fresh "D" in let D' := fresh "D" in
      destruct (decide P) as [D|D];
      [try match type of D with _ /\ _ => destruct D as [D D'] end|]; split_option H
  | (match ?x with _ => _ end) = Some _ =>
      let E := fresh "E" in destruct x eqn:E; split_option H
  | _ => idtac
  end.

(** ** Connections *)

(** Connections are numbered as they are made. *)
Definition conn : Type := nat.

(** Message types of the WebSocket protocol. *)
Definition TextMessage : Z := 1.
Definition BinaryMessage : Z := 2.
Definition CloseMessage : Z := 8.
Definition PingMessage : Z := 9.
