(* ===== verification/GoChan.v ===== *)
(** * Go channels

    Buffered channels as the program uses them: a capacity, the values in flight, and
    whether [close] was called.  An operation succeeds, blocks, or panics.  A [select] takes
    one of its ready cases; in the state machines of this development each case is a step of
    its own, enabled when the operation does not block. *)

From S2P Require Import Prelude.

Record chan (A : Type) := Chan { ch_cap : nat; ch_buf : list A; ch_closed : bool }.
Arguments Chan {A} _ _ _.
Arguments ch_cap {A} _.
Arguments ch_buf {A} _.
Arguments ch_closed {A} _.

Inductive outcome (R : Type) := Ok (r : R) | Blocks | Panics.
Arguments Ok {R} _.
Arguments Blocks {R}.
Arguments Panics {R}.

(** [make(chan A, n)] *)
Definition make_chan {A} (n : nat) : chan A := Chan n [] false.

(** [ch <- v] *)
Definition chan_send {A} (c : chan A) (v : A) : outcome (chan A) :=
  if ch_closed c then Panics
  else if decide (length (ch_buf c) < ch_cap c)%nat
       then Ok (Chan (ch_cap c) (ch_buf c ++ [v]) false)
       else Blocks.

(** [v, ok := <-ch]: [None] is the zero value a closed and empty channel yields. *)
Definition chan_recv {A} (c : chan A) : outcome (option A * chan A) :=
  match ch_buf c with
  | v :: rest => Ok (Some v, Chan (ch_cap c) rest (ch_closed c))
  | [] => if ch_closed c then Ok (None, c) else Blocks
  end.

(** [close(ch)] *)
Definition chan_close {A} (c : chan A) : outcome (chan A) :=
  if ch_closed c then Panics else Ok (Chan (ch_cap c) (ch_buf c) true).

Definition chan_ok {A} (c : chan A) : Prop := (length (ch_buf c) <= ch_cap c)%nat.

Lemma make_chan_ok {A} n : chan_ok (A := A) (make_chan n).
Proof. unfold chan_ok. simpl. lia. Qed.

Lemma chan_send_Ok {A} (c c' : chan A) v :
  chan_send c v = Ok c' ->
  ch_closed c = false /\ (length (ch_buf c) < ch_cap c)%nat /\ c' = Chan (ch_cap c) (ch_buf c ++ [v]) false.
Proof. unfold chan_send. intros. repeat case_match; simplify_eq. done. Qed.

Lemma chan_send_Panics {A} (c : chan A) v : chan_send c v = Panics <-> ch_closed c = true.
Proof. unfold chan_send. split; intros; repeat case_match; simplify_eq; done. Qed.

Lemma chan_recv_Ok {A} (c c' : chan A) v :
  chan_recv c = Ok (Some v, c') -> ch_buf c = v :: ch_buf c' /\ c' = Chan (ch_cap c) (ch_buf c') (ch_closed c).
Proof. unfold chan_recv. intros. repeat case_match; simplify_eq/=. done. Qed.

Lemma chan_recv_None {A} (c c' : chan A) :
  chan_recv c = Ok (None, c') -> ch_buf c = [] /\ ch_closed c = true /\ c' = c.
Proof. unfold chan_recv. intros. repeat case_match; simplify_eq/=. done. Qed.

Lemma chan_close_Ok {A} (c c' : chan A) :
  chan_close c = Ok c' -> ch_closed c = false /\ c' = Chan (ch_cap c) (ch_buf c) true.
Proof. unfold chan_close. intros. repeat case_match; simplify_eq/=. done. Qed.

Lemma chan_close_Panics {A} (c : chan A) : chan_close c = Panics -> ch_closed c = true.
Proof. unfold chan_close. intros. by case_match. Qed.

Lemma chan_close_never_blocks {A} (c : chan A) : chan_close c <> Blocks.
Proof. unfold chan_close. by case_match. Qed.

(** Turn the outcome of a channel operation into facts about the channel. *)
Ltac chan_facts :=
  repeat match goal with
  | E : chan_send _ _ = Ok _ |- _ => apply chan_send_Ok in E as (? & ? & ->)
  | E : chan_send _ _ = Panics |- _ => apply chan_send_Panics in E
  | E : chan_recv _ = Ok (Some _, _) |- _ => apply chan_recv_Ok in E as [? ->]
  | E : chan_recv _ = Ok (None, _) |- _ => apply chan_recv_None in E as (? & ? & ->)
  | E : chan_close _ = Ok _ |- _ => apply chan_close_Ok in E as [? ->]
  | E : chan_close _ = Panics |- _ => apply chan_close_Panics in E
  | E : chan_close _ = Blocks |- _ => by apply chan_close_never_blocks in E
  end.

Lemma chan_send_ok {A} (c c' : chan A) v : chan_ok c -> chan_send c v = Ok c' -> chan_ok c'.
Proof. unfold chan_ok. intros _ (_ & H & ->)%chan_send_Ok. simpl. len. Qed.

Lemma chan_recv_ok {A} (c c' : chan A) v : chan_ok c -> chan_recv c = Ok (v, c') -> chan_ok c'.
Proof.
  unfold chan_ok. destruct v as [v|].
  - intros H [E ->]%chan_recv_Ok. rewrite E in H. simpl in *. lia.
  - by intros H (_ & _ & ->)%chan_recv_None.
Qed.

Lemma chan_close_ok {A} (c c' : chan A) : chan_ok c -> chan_close c = Ok c' -> chan_ok c'.
Proof. by intros ? [_ ->]%chan_close_Ok. Qed.

#[export] Hint Resolve make_chan_ok chan_send_ok chan_recv_ok chan_close_ok : medusa.
