(* ===== verification/Windows.v ===== *)
(** * Windows calls

    The components that are sequences of Windows calls are interaction trees: a call is an
    event, its answer is the environment's.  [does t tr r] says that [t] can make the calls
    of [tr], each with the answer recorded there, and return [r]; loops are [ITree.iter].
    [track] watches the handles of a trace: they are closed in the reverse order of their
    opening, each exactly once, and used only in between. *)

From S2P Require Import Prelude.
From ITree Require Export ITree.

Notation "'let*' x := t 'in' k" := (ITree.bind t (fun x => k))
  (at level 200, x pattern, t at level 100, k at level 200, right associativity) : medusa_scope.
Notation "'call*' e" := (ITree.trigger e) (at level 10, e at level 9) : medusa_scope.
#[global] Open Scope medusa_scope.

(** ** Errors and handles *)

(** An [error]: a [syscall.Errno], or another type. *)
Inductive werr := Errno (e : Z) | OtherError.

#[global] Instance werr_eq_dec : EqDecision werr.
Proof. solve_decision. Defined.

Definition ERROR_BROKEN_PIPE : Z := 109.
Definition ERROR_PIPE_NOT_CONNECTED : Z := 233.
Definition ERROR_MORE_DATA : Z := 234.
Definition ERROR_PIPE_CONNECTED : Z := 535.
Definition ERROR_IO_PENDING : Z := 997.

Definition handle : Type := Z.
Definition InvalidHandle : handle := 2 ^ 64 - 1.

(** ** Traces *)

Inductive call (E : Type -> Type) : Type :=
  | Call (X : Type) (e : E X) (x : X).
Arguments Call {E X} _ _.

Section traces.
Context {E : Type -> Type}.

(** What an observation of single calls shows of a trace. *)
Definition collect {B} (f : forall X, E X -> X -> list B) (tr : list (call E)) : list B :=
  mjoin ((fun '(Call e x) => f _ e x) <$> tr).

Lemma collect_cons {B} (f : forall X, E X -> X -> list B) {X} (e : E X) x tr :
  collect f (Call e x :: tr) = f _ e x ++ collect f tr.
Proof using Type. done. Qed.

Lemma collect_app {B} (f : forall X, E X -> X -> list B) tr1 tr2 :
  collect f (tr1 ++ tr2) = collect f tr1 ++ collect f tr2.
Proof using Type. unfold collect. by rewrite fmap_app, join_app. Qed.

(** [n] bounds the nodes of the tree on the way. *)
Fixpoint does_ob {R} (n : nat) (ot : itree' E R) (tr : list (call E)) (r : R) : Prop :=
  match n with
  | O => False
  | S n =>
      match ot with
      | RetF r' => tr = [] /\ r = r'
      | TauF t => does_ob n (observe t) tr r
      | VisF e k => exists x tr', tr = Call e x :: tr' /\ does_ob n (observe (k x)) tr' r
      end
  end.

Definition does {R} (t : itree E R) (tr : list (call E)) (r : R) : Prop := exists n, does_ob n (observe t) tr r.

Lemma observe_bind {X R} (t : itree E X) (k : X -> itree E R) :
  observe (ITree.bind t k) =
  match observe t with
  | RetF x => observe (k x)
  | TauF t => TauF (ITree.bind t k)
  | VisF e h => VisF e (fun x => ITree.bind (h x) k)
  end.
Proof using Type. unfold ITree.bind, ITree.subst. simpl. by destruct (observe t). Qed.

Lemma does_ret {R} (r r' : R) tr : does (Ret r) tr r' <-> tr = [] /\ r' = r.
Proof using Type.
  split.
  - intros [[|n] H]; [done|]. exact H.
  - intros H. by exists 1%nat.
Qed.

Lemma does_vis {X R} (e : E X) (k : X -> itree E R) tr r :
  does (Vis e k) tr r <-> exists x tr', tr = Call e x :: tr' /\ does (k x) tr' r.
Proof using Type.
  split.
  - intros [[|n] H]; [done|]. destruct H as (x & tr' & -> & H). exists x, tr'. split; [done|by exists n].
  - intros (x & tr' & -> & [n H]). exists (S n). by exists x, tr'.
Qed.

Lemma does_tau {R} (t : itree E R) tr r : does (Tau t) tr r <-> does t tr r.
Proof using Type.
  split; [intros [[|n] H]; [done|by exists n]|]. intros [n H]. by exists (S n).
Qed.

Lemma does_bind {X R} (t : itree E X) (k : X -> itree E R) tr r :
  does (ITree.bind t k) tr r <-> exists tr1 x tr2, tr = tr1 ++ tr2 /\ does t tr1 x /\ does (k x) tr2 r.
Proof using Type.
  split.
  - intros [n H]. revert t tr H. induction n as [|n IH]; intros t tr H; [done|].
    rewrite observe_bind in H. unfold does at 1. destruct (observe t) as [x|t'|Y e h] eqn:Et.
    + exists [], x, tr. split_and!; [done|by exists 1%nat|by exists (S n)].
    + destruct (IH t' tr H) as (tr1 & x & tr2 & -> & [m H1] & H2). exists tr1, x, tr2.
      split_and!; [done|by exists (S m)|done].
    + destruct H as (y & tr' & -> & H). destruct (IH (h y) tr' H) as (tr1 & x & tr2 & -> & [m H1] & H2).
      exists (Call e y :: tr1), x, tr2. split_and!; [done| |done]. exists (S m). by exists y, tr1.
  - intros (tr1 & x & tr2 & -> & [n H] & H2). revert t tr1 H. induction n as [|n IH]; intros t tr1 H; [done|].
    unfold does. rewrite observe_bind. simpl in H. destruct (observe t) as [x'|t'|Y e h].
    + destruct H as [-> ->]. exact H2.
    + destruct (IH t' tr1 H) as [m Hm]. by exists (S m).
    + destruct H as (y & tr' & -> & H). destruct (IH (h y) tr' H) as [m Hm].
      exists (S m). by exists y, (tr' ++ tr2).
Qed.

Lemma does_call {X R} (e : E X) (k : X -> itree E R) tr r :
  does (ITree.bind (ITree.trigger e) k) tr r <-> exists x tr', tr = Call e x :: tr' /\ does (k x) tr' r.
Proof using Type.
  rewrite does_bind. unfold ITree.trigger. split.
  - intros (tr1 & x & tr2 & -> & H1 & H2). apply does_vis in H1 as (y & tr' & -> & H1).
    apply does_ret in H1 as [-> ->]. by exists y, tr2.
  - intros (x & tr' & -> & H). exists [Call e x], x, tr'. split_and!; [done| |done].
    apply does_vis. exists x, []. split; [done|by apply does_ret].
Qed.

(** One round of a loop. *)
Lemma does_iter {I R} (body : I -> itree E (I + R)) i tr r :
  does (ITree.iter body i) tr r <->
  exists tr1 ir tr2, tr = tr1 ++ tr2 /\ does (body i) tr1 ir /\
    match ir with inl i' => does (ITree.iter body i') tr2 r | inr r' => tr2 = [] /\ r = r' end.
Proof using Type.
  assert (H : does (ITree.iter body i) tr r <->
    does (ITree.bind (body i) (fun lr => match lr with inl l => Tau (ITree.iter body l) | inr r => Ret r end)) tr r) by done.
  rewrite H, does_bind. split; intros (tr1 & ir & tr2 & -> & H1 & H2); exists tr1, ir, tr2; split_and!; try done.
  - destruct ir; [by apply does_tau|by apply does_ret].
  - destruct ir; [by apply does_tau|by apply does_ret].
Qed.

(** [defer fin], around the rest of a function. *)
Definition deferring {R} (fin : itree E unit) (body : itree E R) : itree E R :=
  let* r := body in let* _ := fin in Ret r.

Lemma does_deferring {R} (e : E unit) (body : itree E R) tr r :
  does (deferring (call* e) body) tr r <-> exists tr', tr = tr' ++ [Call e tt] /\ does body tr' r.
Proof using Type.
  unfold deferring. rewrite does_bind. split.
  - intros (tr1 & x & tr2 & -> & H1 & H2). apply does_call in H2 as ([] & tr' & -> & H2).
    apply does_ret in H2 as [-> ->]. by exists tr1.
  - intros (tr' & -> & H). exists tr', r, [Call e tt]. split_and!; [done|done|].
    apply does_call. exists tt, []. split; [done|by apply does_ret].
Qed.

(** [begins t tr]: the calls of [tr] can be the first of an execution of [t], which need not
    end. *)
Fixpoint begins_ob {R} (n : nat) (ot : itree' E R) (tr : list (call E)) : Prop :=
  tr = [] \/
    match n with
    | O => False
    | S n =>
        match ot with
        | RetF _ => False
        | TauF t => begins_ob n (observe t) tr
        | VisF e k => exists x tr', tr = Call e x :: tr' /\ begins_ob n (observe (k x)) tr'
        end
    end.

Definition begins {R} (t : itree E R) (tr : list (call E)) : Prop := exists n, begins_ob n (observe t) tr.

Lemma begins_nil {R} (t : itree E R) : begins t [].
Proof using Type. exists 0%nat. by left. Qed.

Lemma begins_ret {R} (r : R) tr : begins (Ret r) tr -> tr = [].
Proof using Type. intros [[|n] [->|H]]; done. Qed.

Lemma begins_vis {X R} (e : E X) (k : X -> itree E R) tr :
  begins (Vis e k) tr -> tr = [] \/ exists x tr', tr = Call e x :: tr' /\ begins (k x) tr'.
Proof using Type.
  intros [[|n] [->|H]]; auto; [done|]. right. destruct H as (x & tr' & -> & H). exists x, tr'. split; [done|by exists n].
Qed.

Lemma begins_tau {R} (t : itree E R) tr : begins (Tau t) tr -> begins t tr.
Proof using Type. intros [[|n] [->|H]]; try apply begins_nil; [done|by exists n]. Qed.

Lemma begins_bind {X R} (t : itree E X) (k : X -> itree E R) tr :
  begins (ITree.bind t k) tr ->
  begins t tr \/ exists tr1 x tr2, tr = tr1 ++ tr2 /\ does t tr1 x /\ begins (k x) tr2.
Proof using Type.
  intros [n H]. revert t tr H. induction n as [|n IH]; intros t tr H.
  { destruct H as [->|[]]. left. apply begins_nil. }
  destruct H as [->|H]; [left; apply begins_nil|].
  rewrite observe_bind in H. unfold begins at 1, does. destruct (observe t) as [x|t'|Y e h] eqn:Et.
  - right. exists [], x, tr. split_and!; [done|by exists 1%nat|]. exists (S n). by destruct n; right.
  - destruct (IH t' tr H) as [[m Hm]|(tr1 & x & tr2 & -> & [m H1] & H2)].
    + left. exists (S m). by right.
    + right. exists tr1, x, tr2. split_and!; [done|by exists (S m)|done].
  - destruct H as (y & tr' & -> & H). destruct (IH (h y) tr' H) as [[m Hm]|(tr1 & x & tr2 & -> & [m H1] & H2)].
    + left. exists (S m). right. by exists y, tr'.
    + right. exists (Call e y :: tr1), x, tr2. split_and!; [done| |done]. exists (S m). by exists y, tr1.
Qed.

Lemma begins_call {X R} (e : E X) (k : X -> itree E R) tr :
  begins (ITree.bind (ITree.trigger e) k) tr ->
  tr = [] \/ exists x tr', tr = Call e x :: tr' /\ begins (k x) tr'.
Proof using Type.
  intros [H|(tr1 & x & tr2 & -> & H1 & H2)]%begins_bind.
  - apply begins_vis in H as [->|(x & tr' & -> & H)]; [by left|]. right. exists x, tr'.
    apply begins_ret in H as ->. split; [done|apply begins_nil].
  - right. apply does_vis in H1 as (y & tr' & -> & H1). apply does_ret in H1 as [-> ->]. by exists y, tr2.
Qed.

Lemma begins_iter {I R} (body : I -> itree E (I + R)) i tr :
  begins (ITree.iter body i) tr ->
  begins (body i) tr \/
  exists tr1 ir tr2, tr = tr1 ++ tr2 /\ does (body i) tr1 ir /\
    match ir with inl i' => begins (ITree.iter body i') tr2 | inr r' => tr2 = [] end.
Proof using Type.
  intros H. change (begins (ITree.bind (body i)
    (fun lr => match lr with inl l => Tau (ITree.iter body l) | inr r => Ret r end)) tr) in H.
  apply begins_bind in H as [H|(tr1 & [i'|r] & tr2 & -> & H1 & H2)]; [by left|right..].
  - exists tr1, (inl i'), tr2. split_and!; [done|done|by apply begins_tau].
  - exists tr1, (inr r), tr2. split_and!; [done|done|by eapply begins_ret].
Qed.

Lemma does_begins {R} (t : itree E R) tr r : does t tr r -> begins t tr.
Proof using Type.
  intros [n H]. exists n. revert t tr H. induction n as [|n IH]; intros t tr H; [done|]. simpl in *.
  destruct (observe t) as [x|t'|Y e h].
  - left. apply H.
  - right. by apply IH.
  - destruct H as (y & tr' & -> & H). right. exists y, tr'. split; [done|by apply IH].
Qed.

(** Induction along a loop each of whose turns makes a call. *)
Lemma does_iter_ind {I R} (body : I -> itree E (I + R)) (P : I -> list (call E) -> R -> Prop) :
  (forall i tr1 i', does (body i) tr1 (inl i') ->
     tr1 <> [] /\ forall tr2 r, P i' tr2 r -> P i (tr1 ++ tr2) r) ->
  (forall i tr r, does (body i) tr (inr r) -> P i tr r) ->
  forall i tr r, does (ITree.iter body i) tr r -> P i tr r.
Proof using Type.
  intros Hturn Hlast i tr r. remember (length tr) as n eqn:Hn. revert i tr Hn.
  induction (lt_wf n) as [n _ IH]. intros i tr Hn H.
  apply does_iter in H as (tr1 & [i'|r'] & tr2 & -> & H1 & H2).
  - apply Hturn in H1 as [Hne H1]. apply H1, (IH (length tr2)); [|done|done].
    subst n. rewrite length_app. destruct tr1; [done|simpl; lia].
  - destruct H2 as [-> ->]. rewrite app_nil_r. by apply Hlast.
Qed.

Lemma begins_iter_ind {I R} (body : I -> itree E (I + R)) (P : I -> list (call E) -> Prop) :
  (forall i tr, begins (body i) tr -> P i tr) ->
  (forall i tr1 i', does (body i) tr1 (inl i') ->
     tr1 <> [] /\ forall tr2, P i' tr2 -> P i (tr1 ++ tr2)) ->
  forall i tr, begins (ITree.iter body i) tr -> P i tr.
Proof using Type.
  intros Hpart Hturn i tr. remember (length tr) as n eqn:Hn. revert i tr Hn.
  induction (lt_wf n) as [n _ IH]. intros i tr Hn H.
  apply begins_iter in H as [H|(tr1 & [i'|r] & tr2 & -> & H1 & H2)]; [by apply Hpart| |].
  - apply Hturn in H1 as [Hne H1]. apply H1, (IH (length tr2)); [|done|done].
    subst n. rewrite length_app. destruct tr1; [done|simpl; lia].
  - subst tr2. rewrite app_nil_r. by eapply Hpart, does_begins.
Qed.

(** How to begin an execution. *)
Lemma begins_bind_after {X R} (t : itree E X) (k : X -> itree E R) tr1 x tr2 :
  does t tr1 x -> begins (k x) tr2 -> begins (ITree.bind t k) (tr1 ++ tr2).
Proof using Type.
  intros [n H] H2. revert t tr1 H. induction n as [|n IH]; intros t tr1 H; [done|].
  unfold begins. rewrite observe_bind. simpl in H. destruct (observe t) as [x'|t'|Y e h].
  - destruct H as [-> ->]. exact H2.
  - destruct (IH t' tr1 H) as [m Hm]. exists (S m). by right.
  - destruct H as (y & tr' & -> & H). destruct (IH (h y) tr' H) as [m Hm].
    exists (S m). right. by exists y, (tr' ++ tr2).
Qed.

Lemma begins_call_after {X R} (e : E X) (k : X -> itree E R) x tr :
  begins (k x) tr -> begins (ITree.bind (ITree.trigger e) k) (Call e x :: tr).
Proof using Type.
  apply (begins_bind_after _ _ [Call e x]). unfold ITree.trigger. apply does_vis. exists x, [].
  split; [done|by apply does_ret].
Qed.

Lemma begins_bind_within {X R} (t : itree E X) (k : X -> itree E R) tr :
  begins t tr -> begins (ITree.bind t k) tr.
Proof using Type.
  intros [n H]. revert t tr H. induction n as [|n IH]; intros t tr H.
  { destruct H as [->|[]]. apply begins_nil. }
  destruct H as [->|H]; [apply begins_nil|]. unfold begins. rewrite observe_bind.
  destruct (observe t) as [x|t'|Y e h]; [done| |].
  - destruct (IH t' tr H) as [m Hm]. exists (S m). by right.
  - destruct H as (y & tr' & -> & H). destruct (IH (h y) tr' H) as [m Hm]. exists (S m). right. by exists y, tr'.
Qed.

Lemma begins_iter_within {I R} (body : I -> itree E (I + R)) i tr :
  begins (body i) tr -> begins (ITree.iter body i) tr.
Proof using Type.
  exact (begins_bind_within (body i)
    (fun lr => match lr with inl l => Tau (ITree.iter body l) | inr r => Ret r end) tr).
Qed.

Lemma begins_iter_after {I R} (body : I -> itree E (I + R)) i tr1 i' tr2 :
  does (body i) tr1 (inl i') -> begins (ITree.iter body i') tr2 -> begins (ITree.iter body i) (tr1 ++ tr2).
Proof using Type.
  intros H1 [n H2]. apply (begins_bind_after (body i)
    (fun lr => match lr with inl l => Tau (ITree.iter body l) | inr r => Ret r end) _ (inl i')); [done|].
  exists (S n). by right.
Qed.
End traces.

(** ** A program among others

    [translate h t] is [t] with its calls as calls of a larger program. *)

Section translate.
Context {E F : Type -> Type} (h : E ~> F).

Definition map_call (c : call E) : call F := match c with Call e x => Call (h _ e) x end.

Lemma collect_map {B} (f : forall X, F X -> X -> list B) tr :
  collect f (map_call <$> tr) = collect (fun X e => f X (h X e)) tr.
Proof using Type. induction tr as [|[X e x] tr IH]; [done|]. rewrite fmap_cons, collect_cons, <- IH. done. Qed.

Lemma observe_translate {R} (t : itree E R) :
  observe (translate h t) =
  match observe t with
  | RetF r => RetF r
  | TauF t => TauF (translate h t)
  | VisF e k => VisF (h _ e) (fun x => translate h (k x))
  end.
Proof using Type. unfold observe at 1. simpl. by destruct (observe t). Qed.

Lemma does_translate {R} (t : itree E R) tr r :
  does (translate h t) tr r <-> exists tr', tr = map_call <$> tr' /\ does t tr' r.
Proof using Type.
  split.
  - intros [n H]. revert t tr H. induction n as [|n IH]; intros t tr H; [done|].
    rewrite observe_translate in H. unfold does. destruct (observe t) as [x|t'|Y e k] eqn:Et.
    + destruct H as [-> ->]. exists []. split; [done|]. by exists 1%nat; simpl.
    + destruct (IH t' tr H) as (tr' & -> & [m Hm]). exists tr'. split; [done|by exists (S m)].
    + destruct H as (y & tr' & -> & H). destruct (IH (k y) tr' H) as (tr2 & -> & [m Hm]).
      exists (Call e y :: tr2). split; [done|]. exists (S m). by exists y, tr2.
  - intros (tr' & -> & [n H]). revert t tr' H. induction n as [|n IH]; intros t tr H; [done|].
    unfold does. rewrite observe_translate. simpl in H. destruct (observe t) as [x|t'|Y e k].
    + destruct H as [-> ->]. by exists 1%nat.
    + destruct (IH t' tr H) as [m Hm]. by exists (S m).
    + destruct H as (y & tr' & -> & H). destruct (IH (k y) tr' H) as [m Hm].
      exists (S m). by exists y, (map_call <$> tr').
Qed.

Lemma begins_translate {R} (t : itree E R) tr :
  begins (translate h t) tr <-> exists tr', tr = map_call <$> tr' /\ begins t tr'.
Proof using Type.
  split.
  - intros [n H]. revert t tr H. induction n as [|n IH]; intros t tr H.
    { destruct H as [->|[]]. exists []. split; [done|apply begins_nil]. }
    destruct H as [->|H]; [exists []; split; [done|apply begins_nil]|].
    rewrite observe_translate in H. unfold begins. destruct (observe t) as [x|t'|Y e k] eqn:Et; [done| |].
    + destruct (IH t' tr H) as (tr' & -> & [m Hm]). exists tr'. split; [done|]. exists (S m). by right.
    + destruct H as (y & tr' & -> & H). destruct (IH (k y) tr' H) as (tr2 & -> & [m Hm]).
      exists (Call e y :: tr2). split; [done|]. exists (S m). right. by exists y, tr2.
  - intros (tr' & -> & [n H]). revert t tr' H. induction n as [|n IH]; intros t tr H.
    { destruct H as [->|[]]. apply begins_nil. }
    destruct H as [->|H]; [apply begins_nil|]. unfold begins. rewrite observe_translate.
    destruct (observe t) as [x|t'|Y e k]; [done| |].
    + destruct (IH t' tr H) as [m Hm]. exists (S m). by right.
    + destruct H as (y & tr' & -> & H). destruct (IH (k y) tr' H) as [m Hm].
      exists (S m). right. by exists y, (map_call <$> tr').
Qed.

(** A part that never returns. *)
Lemma begins_endless {R} (t : itree E void) (k : void -> itree F R) (fin : itree F unit) tr :
  begins (deferring fin (ITree.bind (translate h t) k)) tr -> exists tr', tr = map_call <$> tr' /\ begins t tr'.
Proof using Type.
  unfold deferring. intros [H|(tr1 & r & tr2 & -> & H & _)]%begins_bind.
  - apply begins_bind in H as [H|(? & [] & _)]. by apply begins_translate.
  - by apply does_bind in H as (? & [] & _).
Qed.

Lemma does_endless {R} (t : itree E void) (k : void -> itree F R) (fin : itree F unit) tr r :
  ~ does (deferring fin (ITree.bind (translate h t) k)) tr r.
Proof using Type. intros (? & ? & ? & _ & H & _)%does_bind. by apply does_bind in H as (? & [] & _). Qed.
End translate.

(** ** Handle discipline *)

(** What a call does to handles: the handles it works on, the one it opens, which depends
    on the answer, and the one it closes. *)
Class Handles (E : Type -> Type) := {
  uses X : E X -> list handle;
  opens X : E X -> X -> option handle;
  closes X : E X -> option handle
}.
Arguments uses {E _ X} _.
Arguments opens {E _ X} _ _.
Arguments closes {E _ X} _.

Section handles.
Context {E : Type -> Type} `{Handles E}.

(** The open handles after a trace, the last opened first; [None] when a call works on a
    handle that is not open, or closes another one than the last. *)
Fixpoint track (tr : list (call E)) (st : list handle) : option (list handle) :=
  match tr with
  | [] => Some st
  | Call e x :: tr =>
      if decide (Forall (fun h => h ∈ st) (uses e)) then
        match closes e, st with
        | Some h, h' :: st' => if decide (h = h') then track tr st' else None
        | Some _, [] => None
        | None, _ => track tr (option_list (opens e x) ++ st)
        end
      else None
  end.

Lemma track_app tr1 tr2 st : track (tr1 ++ tr2) st = (st' ← track tr1 st; track tr2 st').
Proof using Type.
  revert st. induction tr1 as [|[X e x] tr1 IH]; intros st; [done|]. simpl.
  repeat case_match; try done.
Qed.

(** With the handles of [hs] open, all others opened are closed, in reverse order, and
    handles are used only while open. *)
Definition balanced (hs : list handle) (tr : list (call E)) : Prop :=
  forall st, (forall h, h ∈ hs -> h ∈ st) -> track tr st = Some st.

Lemma balanced_nil hs : balanced hs [].
Proof using Type. by intros st _. Qed.

(** A call that opens and closes nothing. *)
Lemma balanced_use {X} hs (e : E X) x tr :
  opens e x = None -> closes e = None -> Forall (fun h => h ∈ hs) (uses e) -> balanced hs tr ->
  balanced hs (Call e x :: tr).
Proof using Type.
  intros Ho Hc Hu Ht st Hst. simpl. rewrite decide_True, Hc, Ho.
  - simpl. by apply Ht.
  - eapply Forall_impl; [exact Hu|]. simpl. auto.
Qed.

(** A call that opens a handle, which the end of the trace closes. *)
Lemma balanced_bracket {X Y} hs (e : E X) x h tr (e' : E Y) y :
  opens e x = Some h -> closes e = None -> Forall (fun h => h ∈ hs) (uses e) ->
  closes e' = Some h -> uses e' = [] -> balanced (h :: hs) tr -> balanced hs (Call e x :: tr ++ [Call e' y]).
Proof using Type.
  intros Ho Hc Hu Hc' Hu' Ht st Hst. simpl. rewrite decide_True, Hc, Ho.
  - simpl. rewrite track_app, Ht.
    + simpl. rewrite Hu', Hc'. rewrite decide_True by done. by rewrite decide_True.
    + intros h' Hh. apply elem_of_cons in Hh as [->|Hh]; apply elem_of_cons; auto.
  - eapply Forall_impl; [exact Hu|]. simpl. auto.
Qed.

Lemma balanced_app hs tr1 tr2 : balanced hs tr1 -> balanced hs tr2 -> balanced hs (tr1 ++ tr2).
Proof using Type. intros H1 H2 st Hst. rewrite track_app, H1 by done. by apply H2. Qed.
End handles.

(** Take the execution [H] of a program apart, call by call. *)
Ltac run_calls H :=
  lazymatch type of H with
  | does (ITree.bind (ITree.trigger ?e) _) _ _ =>
      let x := fresh "a" in let tr := fresh "tr" in
      apply does_call in H as (x & tr & -> & H); cbv beta in H; run_calls H
  | does (deferring (ITree.trigger _) _) _ _ =>
      let tr := fresh "tr" in apply does_deferring in H as (tr & -> & H); run_calls H
  | does (Ret _) _ _ => let Hr := fresh "Hr" in apply does_ret in H as [-> Hr]; try discriminate Hr; subst
  | does (match ?x with _ => _ end) _ _ => let E := fresh "E" in destruct x eqn:E; run_calls H
  | does (let '_ := ?x in _) _ _ => destruct x; run_calls H
  | _ => idtac
  end.

(** The same for the beginning [H] of an execution, with a case for each place it may stop. *)
Ltac run_begins H :=
  lazymatch type of H with
  | begins (ITree.bind (ITree.trigger ?e) _) _ =>
      let x := fresh "a" in let tr := fresh "tr" in
      apply begins_call in H as [->|(x & tr & -> & H)]; [|cbv beta in H; run_begins H]
  | begins (Ret _) _ => apply begins_ret in H as ->
  | _ => idtac
  end.

(** Show [balanced hs tr] for a trace of known calls. *)
Ltac balance :=
  repeat first
  [ apply balanced_nil
  | eapply balanced_bracket;
    [ solve [simpl; rewrite ?decide_False by done; reflexivity] | reflexivity
    | simpl; repeat constructor; set_solver | reflexivity | reflexivity | ]
  | apply balanced_use;
    [ solve [simpl; rewrite ?decide_True by done; reflexivity] | reflexivity
    | simpl; repeat constructor; set_solver | ] ].

(** Make the calls of a concrete trace. *)
Ltac make_calls :=
  repeat first
  [ rewrite decide_False by (done || tauto)
  | apply does_ret; split; reflexivity
  | apply does_call; eexists _, _; split; [reflexivity|]; cbv beta iota
  | lazymatch goal with |- does (deferring _ _) ?tr _ =>
      apply does_deferring; exists (removelast tr); split; [reflexivity|]; cbn [removelast] end ].
