(* ===== verification/IPC.v ===== *)
(** * The named pipe server

    [MedusaUserlandAgent/IPC.go].  [readLoop] and [drain] run against any message-mode pipe:
    [Pipe] is the one Windows call they use and [MessagePipe] its documented behaviour on a
    pipe created with [PIPE_TYPE_MESSAGE | PIPE_READMODE_MESSAGE], for a client that writes
    the messages [pending] and closes its end.  [server] is a transition function over the
    results of the Windows calls, with the set of handles that are open. *)

From S2P Require Import Prelude ACEvent Machine Windows.

(** ** The pipe interface *)

(** [windows.ReadFile(h, buf, &n, nil)]: the error and the bytes stored in [buf]; [n] is
    their number. *)
Class Pipe (St : Type) := ReadFile : St -> nat -> (option werr * list Z) * St.

Class MessagePipe (St : Type) `{Pipe St} := {
  (** the messages, or rests of messages, not yet read *)
  pending : St -> list (list Z);
  (** all read and the writer gone *)
  read_broken s n : pending s = [] ->
    (ReadFile s n).1 = (Some (Errno ERROR_BROKEN_PIPE), []) /\ pending (ReadFile s n).2 = [];
  (** a message that fits the buffer *)
  read_whole s n m ms : pending s = m :: ms -> (length m <= n)%nat ->
    (ReadFile s n).1 = (None, m) /\ pending (ReadFile s n).2 = ms;
  (** a message larger than the buffer: its first [n] bytes, and the rest stays *)
  read_more s n m ms : pending s = m :: ms -> (n < length m)%nat ->
    (ReadFile s n).1 = (Some (Errno ERROR_MORE_DATA), take n m) /\
    pending (ReadFile s n).2 = drop n m :: ms
}.

(** ** [readLoop] and [drain] *)

(** [tmp := make([]byte, 16*1024)] *)
Definition drain_len : nat := 16 * 1024.
#[global] Opaque drain_len.

Section code.
Context {St : Type} `{Pipe St}.

(** [drain]: read until a call does not answer [ERROR_MORE_DATA]. *)
Fixpoint drain (fuel : nat) (s : St) : option St :=
  match fuel with
  | O => None
  | S fuel' =>
      let '((err, _), s') := ReadFile s drain_len in
      if decide (err = Some (Errno ERROR_MORE_DATA)) then drain fuel' s' else Some s'
  end.

(** One iteration of [readLoop]: return, or continue with the pipe, the buffer and the
    event sent on [EventChannel], if any. *)
Inductive iteration := Return (s : St) | Continue (s : St) (buf : list Z) (sent : option ACEvent).

Definition read_iteration (fuel : nat) (s : St) (buf : list Z) : option iteration :=
  let '((err, data), s) := ReadFile s (length buf) in
  let buf := go_copy buf data in
  let n := length data in
  match err with
  | Some (Errno errno) =>
      if decide (errno = ERROR_BROKEN_PIPE \/ errno = ERROR_PIPE_NOT_CONNECTED) then Some (Return s)
      else if decide (errno = ERROR_MORE_DATA) then
        s ← drain fuel s; Some (Continue s buf None)
      else Some (Return s)
  | Some OtherError => Some (Return s)
  | None =>
      if decide (n = 0)%nat then Some (Return s)
      else if decide (n <> evtSz agent_ptr) then Some (Continue s buf None)
      else Some (Continue s buf (Some (copy_to_event agent_ptr (take (evtSz agent_ptr) buf))))
  end.

Fixpoint read_loop_from (fuel : nat) (s : St) (buf : list Z) : option (list ACEvent * St) :=
  match fuel with
  | O => None
  | S fuel' =>
      it ← read_iteration fuel' s buf;
      match it with
      | Return s => Some ([], s)
      | Continue s buf sent =>
          '(evs, s) ← read_loop_from fuel' s buf; Some (option_list sent ++ evs, s)
      end
  end.

(** [readLoop(h)]: the events sent on [EventChannel], in order. *)
Definition readLoop (fuel : nat) (s : St) : option (list ACEvent * St) :=
  read_loop_from fuel s (replicate (evtSz agent_ptr) 0).
End code.

Arguments iteration : clear implicits.

(** ** What the loop is to deliver *)

(** Messages of the size of an event are events, others are skipped, and an empty message
    ends the conversation. *)
Fixpoint deliver (ms : list (list Z)) : list ACEvent :=
  match ms with
  | [] => []
  | m :: ms' =>
      if decide (length m = 0)%nat then []
      else if decide (length m = evtSz agent_ptr) then copy_to_event agent_ptr m :: deliver ms'
      else deliver ms'
  end.

Fixpoint rest_after (ms : list (list Z)) : list (list Z) :=
  match ms with
  | [] => []
  | m :: ms' => if decide (length m = 0)%nat then ms' else rest_after ms'
  end.

(** A bound on the number of reads. *)
Definition cost (ms : list (list Z)) : nat := sum_list ((fun m => S (length m)) <$> ms).

Lemma cost_cons m ms : cost (m :: ms) = (S (length m) + cost ms)%nat.
Proof. done. Qed.

Section correct.
Context {St : Type} `{MessagePipe St}.

Lemma drain_len_pos : (0 < drain_len)%nat.
Proof using Type. Transparent drain_len. unfold drain_len. lia. Qed.
#[local] Opaque drain_len.

Lemma drain_rest fuel s m ms :
  pending s = m :: ms -> (length m < fuel)%nat ->
  exists s', drain fuel s = Some s' /\ pending s' = ms.
Proof using Type.
  revert s m. induction fuel as [|fuel IH]; intros s m Hp Hf; [lia|]. simpl.
  destruct (decide (length m <= drain_len)%nat) as [Hle|Hgt].
  - destruct (read_whole s drain_len m ms Hp Hle) as [E1 E2].
    destruct (ReadFile s drain_len) as [[err data] s']. cbn [fst snd] in E1, E2. injection E1 as -> ->. by exists s'.
  - destruct (read_more s drain_len m ms Hp ltac:(lia)) as [E1 E2].
    destruct (ReadFile s drain_len) as [[err data] s']. cbn [fst snd] in E1, E2. injection E1 as -> ->.
    rewrite decide_True by done. eapply IH; [exact E2|]. rewrite length_drop.
    pose proof drain_len_pos. lia.
Qed.

Lemma read_loop_deliver fuel s buf :
  (cost (pending s) < fuel)%nat -> length buf = evtSz agent_ptr ->
  exists s', read_loop_from fuel s buf = Some (deliver (pending s), s') /\
    pending s' = rest_after (pending s).
Proof using Type.
  revert s buf. induction fuel as [|fuel IH]; intros s buf Hf Hb; [lia|].
  cbn [read_loop_from]. unfold read_iteration. rewrite Hb.
  destruct (pending s) as [|m ms] eqn:Hp.
  { destruct (read_broken s (evtSz agent_ptr) Hp) as [E1 E2].
    destruct (ReadFile s _) as [[err data] s']. cbn [fst snd] in E1, E2. injection E1 as -> ->. by exists s'. }
  rewrite cost_cons in Hf. cbn [deliver rest_after].
  destruct (decide (length m <= evtSz agent_ptr)%nat) as [Hle|Hgt].
  - destruct (read_whole s _ m ms Hp Hle) as [E1 E2].
    destruct (ReadFile s _) as [[err data] s']. cbn [fst snd] in E1, E2. injection E1 as -> ->.
    destruct (decide (length m = 0)%nat) as [|Hm]; [by exists s'|].
    destruct (IH s' (go_copy buf m)) as (sf & Es & Ep);
      [rewrite E2; lia|by rewrite go_copy_length|]. rewrite E2 in Es, Ep.
    destruct (decide (length m = evtSz agent_ptr)) as [Hsz|Hsz].
    + rewrite (decide_False (P := length m <> evtSz agent_ptr)) by tauto.
      exists sf. cbn [mbind option_bind]. rewrite Es. cbn [mbind option_bind option_list app].
      rewrite go_copy_full by lia. by rewrite take_ge by lia.
    + rewrite (decide_True (P := length m <> evtSz agent_ptr)) by done.
      exists sf. cbn [mbind option_bind]. by rewrite Es.
  - destruct (read_more s (evtSz agent_ptr) m ms Hp ltac:(lia)) as [E1 E2].
    destruct (ReadFile s _) as [[err data] s']. cbn [fst snd] in E1, E2. injection E1 as -> ->.
    rewrite !decide_False, decide_True by (done || lia || (unfold ERROR_MORE_DATA, ERROR_BROKEN_PIPE, ERROR_PIPE_NOT_CONNECTED; lia)).
    destruct (drain_rest fuel s' _ ms E2) as (s2 & Ed & Hp2); [rewrite length_drop; lia|].
    rewrite Ed. cbn [mbind option_bind].
    destruct (IH s2 (go_copy buf (take (evtSz agent_ptr) m))) as (sf & Es & Ep);
      [rewrite Hp2; lia|by rewrite go_copy_length|]. rewrite Hp2 in Es, Ep.
    rewrite Es. exists sf. rewrite !decide_False by lia. by split.
Qed.
End correct.

(** ** A concrete message-mode pipe, the messages themselves being the state *)

Definition list_pipe_read (s : list (list Z)) (n : nat) : (option werr * list Z) * list (list Z) :=
  match s with
  | [] => ((Some (Errno ERROR_BROKEN_PIPE), []), [])
  | m :: ms =>
      if decide (length m <= n)%nat then ((None, m), ms)
      else ((Some (Errno ERROR_MORE_DATA), take n m), drop n m :: ms)
  end.

#[global] Instance list_pipe : Pipe (list (list Z)) := list_pipe_read.

#[global] Program Instance list_message_pipe : MessagePipe (list (list Z)) := {| pending := id |}.
Next Obligation. unfold id. by intros s n ->. Qed.
Next Obligation.
  unfold id. intros s n m ms -> Hle. unfold ReadFile, list_pipe, list_pipe_read. by rewrite decide_True.
Qed.
Next Obligation.
  unfold id. intros s n m ms -> Hlt. unfold ReadFile, list_pipe, list_pipe_read. by rewrite decide_False by lia.
Qed.

(** ** [server] *)

Definition defaultPipe : string := "\\.\pipe\MedusaPipe".

(** [Start(pipe)]: the name the server goroutine gets. *)
Definition Start_pipe (pipe : string) : string := if decide (pipe = ""%string) then defaultPipe else pipe.

(** Where the server loop is. *)
Inductive server_pc :=
  | AtCreate                  (* in [CreateNamedPipe] *)
  | AtConnect (h : handle)    (* in [ConnectNamedPipe] *)
  | AtOverlapped (h : handle) (* in [GetOverlappedResult] *).

(** Where the goroutine of a connected client is. *)
Inductive reader_pc := InReadLoop | InFlush | InDisconnect | InClose.

#[global] Instance server_pc_eq_dec : EqDecision server_pc.
Proof. solve_decision. Defined.
#[global] Instance reader_pc_eq_dec : EqDecision reader_pc.
Proof. solve_decision. Defined.

Record server_state := mkServer {
  sv_pc : server_pc;
  sv_readers : gmap handle reader_pc;  (* the goroutines, by their handle *)
  sv_open : gset handle;               (* the process's open pipe handles *)
  sv_bad_close : bool                  (* [CloseHandle] was called on a handle not open *)
}.

Definition server_init : server_state :=
  {| sv_pc := AtCreate; sv_readers := ∅; sv_open := ∅; sv_bad_close := false |}.

(** What the environment answers to the call the server or a reader is in. *)
Inductive server_input :=
  | CreateResult (h : handle) (err : option werr)
  | ConnectResult (err : option werr)
  | OverlappedResult
  | ReaderReturns (h : handle).

(** [windows.CloseHandle(h)] *)
Definition close_handle (h : handle) (s : server_state) : server_state :=
  {| sv_pc := sv_pc s; sv_readers := sv_readers s; sv_open := sv_open s ∖ {[h]};
     sv_bad_close := sv_bad_close s || negb (bool_decide (h ∈ sv_open s)) |}.

Definition set_pc (pc : server_pc) (s : server_state) : server_state :=
  {| sv_pc := pc; sv_readers := sv_readers s; sv_open := sv_open s; sv_bad_close := sv_bad_close s |}.

(** [go func(ph windows.Handle) {...}(h)], and back to the top of the loop. *)
Definition spawn_reader (h : handle) (s : server_state) : server_state :=
  {| sv_pc := AtCreate; sv_readers := <[h := InReadLoop]> (sv_readers s); sv_open := sv_open s;
     sv_bad_close := sv_bad_close s |}.

(** One answer; [None] when the input is not an answer to a call in progress, or when a new
    handle would have the value of an open one. *)
Definition server_step (s : server_state) (i : server_input) : option server_state :=
  match i, sv_pc s with
  | CreateResult h err, AtCreate =>
      if decide (err <> None \/ h = InvalidHandle) then Some s
      else if decide (h ∈ sv_open s) then None
      else Some {| sv_pc := AtConnect h; sv_readers := sv_readers s;
                   sv_open := {[h]} ∪ sv_open s; sv_bad_close := sv_bad_close s |}
  | ConnectResult err, AtConnect h =>
      if decide (err = Some (Errno ERROR_PIPE_CONNECTED)) then Some (spawn_reader h s)
      else if decide (err = Some (Errno ERROR_IO_PENDING)) then Some (set_pc (AtOverlapped h) s)
      else Some (set_pc AtCreate (close_handle h s))
  | OverlappedResult, AtOverlapped h => Some (spawn_reader h s)
  | ReaderReturns h, _ =>
      match sv_readers s !! h with
      | Some pc =>
          let set_reader pc' :=
            {| sv_pc := sv_pc s; sv_readers := <[h := pc']> (sv_readers s); sv_open := sv_open s;
               sv_bad_close := sv_bad_close s |} in
          match pc with
          | InReadLoop => Some (set_reader InFlush)
          | InFlush => Some (set_reader InDisconnect)
          | InDisconnect => Some (set_reader InClose)
          | InClose =>
              let s := close_handle h s in
              Some {| sv_pc := sv_pc s; sv_readers := delete h (sv_readers s);
                      sv_open := sv_open s; sv_bad_close := sv_bad_close s |}
          end
      | None => None
      end
  | _, _ => None
  end.

(** The handle the loop itself holds. *)
Definition listening (pc : server_pc) : gset handle :=
  match pc with AtCreate => ∅ | AtConnect h | AtOverlapped h => {[h]} end.

Definition server_inv (s : server_state) : Prop :=
  sv_open s = listening (sv_pc s) ∪ dom (sv_readers s) /\
  listening (sv_pc s) ## dom (sv_readers s) /\
  sv_bad_close s = false.

Lemma server_step_inv s i s' : server_inv s -> server_step s i = Some s' -> server_inv s'.
Proof.
  destruct s as [pc rs op bad]. unfold server_inv, server_step. simpl. intros (-> & HD & ->) Hs.
  destruct i as [h err|err| |h].
  - destruct pc; [|done..]. simpl in *. repeat case_decide; simplify_eq/=; set_solver.
  - destruct pc as [|h|]; [done| |done]. simpl in *. repeat case_decide; simplify_eq/=.
    + rewrite dom_insert_L. set_solver.
    + done.
    + rewrite bool_decide_eq_true_2 by set_solver. set_solver.
  - destruct pc as [| |h]; [done..|]. simplify_eq/=. rewrite dom_insert_L. set_solver.
  - assert (Hs' : match rs !! h with Some _ => True | None => False end) by (destruct pc, (rs !! h); done).
    destruct (rs !! h) as [rpc|] eqn:Er; [|done].
    assert (Hd : h ∈ dom rs) by (apply elem_of_dom; by exists rpc).
    assert (E : forall x, dom (<[h := x]> rs) = dom rs) by (intros; rewrite dom_insert_L; set_solver).
    destruct pc, rpc; simplify_eq/=; rewrite ?E, ?dom_delete_L;
      rewrite ?bool_decide_eq_true_2 by set_solver; try done; split; set_solver.
Qed.

(** ** Properties *)

(** C5: against any message-mode pipe, [readLoop] terminates and sends on [EventChannel]
    exactly the messages whose size is that of an event, in order and each decoded as
    itself; smaller and larger messages are skipped (larger ones drained to their end,
    without eating into the next message), and an empty message ends the loop. *)
Theorem readLoop_delivers `{MessagePipe St} (s : St) (fuel : nat) (Hfuel : (cost (pending s) < fuel)%nat) :
  exists s', readLoop fuel s = Some (deliver (pending s), s') /\ pending s' = rest_after (pending s).
Proof. apply read_loop_deliver; [done|len]. Qed.

(** C27: a client that writes events as [sizeof(ACEvent)] messages, with messages of any
    other non-zero size before each of them, has exactly its events delivered, in order. *)
Theorem readLoop_recovers_events `{MessagePipe St} (s : St) (fuel : nat)
    (msgs : list (list (list Z) * ACEvent))
    (Hwf : Forall (fun p => wf_event agent_ptr p.2) msgs)
    (Hnoise : Forall (fun p => Forall (fun m => length m <> 0%nat /\ length m <> evtSz agent_ptr) p.1) msgs)
    (Hpend : pending s = mjoin ((fun p => p.1 ++ [evToBytes agent_ptr (fun _ => 0) p.2]) <$> msgs))
    (Hfuel : (cost (pending s) < fuel)%nat) :
  exists s', readLoop fuel s = Some (msgs.*2, s') /\ pending s' = [].
Proof.
  destruct (read_loop_deliver fuel s (replicate (evtSz agent_ptr) 0) Hfuel ltac:(len)) as (s' & E & Ep).
  exists s'. unfold readLoop. rewrite E, Ep, Hpend. clear -Hwf Hnoise.
  assert (Hskip : forall ns ms, Forall (fun m : list Z => length m <> 0%nat /\ length m <> evtSz agent_ptr) ns ->
    deliver (ns ++ ms) = deliver ms /\ rest_after (ns ++ ms) = rest_after ms).
  { intros ns ms HN. induction HN as [|m ns [H0 H1] _ IH]; [done|]. cbn [app deliver rest_after].
    by rewrite !decide_False. }
  induction msgs as [|[ns ev] msgs IH]; [done|].
  apply Forall_cons in Hwf as [Hev Hwf]. apply Forall_cons in Hnoise as [Hns Hnoise].
  destruct IH as [IH1 IH2]; [done..|].
  rewrite !fmap_cons, mjoin_cons. cbn [fst snd] in *. rewrite <- app_assoc.
  destruct (Hskip ns ([evToBytes agent_ptr (fun _ => 0) ev] ++ mjoin ((fun p => p.1 ++ [evToBytes agent_ptr (fun _ => 0) p.2]) <$> msgs))) as [-> ->]; [done|].
  cbn [app deliver rest_after]. rewrite evToBytes_length.
  rewrite (decide_False (P := evtSz agent_ptr = 0%nat)) by (by vm_compute). rewrite decide_True by done.
  rewrite copy_evToBytes by done. split; [|exact IH2]. injection IH1 as ->. done.
Qed.

(** C28: in every run of the pipe server, whatever the Windows calls answer, a handle is
    open exactly when the accept loop or one reader goroutine holds it, never both, and
    [CloseHandle] is only ever called on an open handle: no leak and no double close. *)
Theorem server_handles (ins : list server_input) (s : server_state)
    (Hrun : run server_step server_init ins = Some s) :
  sv_open s = listening (sv_pc s) ∪ dom (sv_readers s) /\
  listening (sv_pc s) ## dom (sv_readers s) /\ sv_bad_close s = false.
Proof.
  eapply (run_invariant server_step server_inv server_step_inv ins server_init); [|done].
  split; [set_solver|split; [set_solver|done]].
Qed.

(** ** Witnesses *)

(** A large message, an event, a short message and a second event. *)
Definition sample_messages : list (list (list Z) * ACEvent) :=
  [([replicate 5000 1], sample_event); ([[1; 2; 3]], sample_event)].

Definition sample_pipe : list (list Z) :=
  mjoin ((fun p => p.1 ++ [evToBytes agent_ptr (fun _ => 0) p.2]) <$> sample_messages).

Lemma readLoop_delivers_witness :
  exists s', readLoop (S (cost (pending sample_pipe))) sample_pipe = Some (deliver (pending sample_pipe), s') /\
    pending s' = rest_after (pending sample_pipe).
Proof. exact (readLoop_delivers sample_pipe (S (cost (pending sample_pipe))) (Nat.lt_succ_diag_r _)). Defined.

Lemma readLoop_recovers_events_witness :
  exists s', readLoop (S (cost (pending sample_pipe))) sample_pipe = Some ([sample_event; sample_event], s') /\
    pending s' = [].
Proof.
  apply (readLoop_recovers_events sample_pipe (S (cost (pending sample_pipe))) sample_messages).
  - apply Forall_cons; split; [exact sample_event_wf|]. apply Forall_singleton. exact sample_event_wf.
  - decide_vm.
  - reflexivity.
  - apply Nat.lt_succ_diag_r.
Defined.

Lemma server_handles_witness :
  exists s, run server_step server_init
    [CreateResult 4 None; ConnectResult (Some (Errno ERROR_IO_PENDING)); OverlappedResult;
     CreateResult 8 None; ConnectResult (Some (Errno 5)); CreateResult InvalidHandle None;
     ReaderReturns 4; ReaderReturns 4; ReaderReturns 4; ReaderReturns 4; CreateResult 4 None] = Some s /\
    sv_open s = {[4]} /\ sv_bad_close s = false.
Proof.
  eexists. split; [vm_compute; reflexivity|].
  pose proof (server_handles
    [CreateResult 4 None; ConnectResult (Some (Errno ERROR_IO_PENDING)); OverlappedResult;
     CreateResult 8 None; ConnectResult (Some (Errno 5)); CreateResult InvalidHandle None;
     ReaderReturns 4; ReaderReturns 4; ReaderReturns 4; ReaderReturns 4; CreateResult 4 None] _
    ltac:(vm_compute; reflexivity)) as (E & _ & B).
  split; [etransitivity; [exact E|]; set_solver|exact B].
Defined.
