(* ===== verification/WSServer.v ===== *)
(** * The backend's WebSocket server

    [MedusaBackend/WSServer.go] as a state machine: one goroutine per connection
    ([handleWS]), the broadcaster and [Close], the two channels, the set [h.conns] under
    [h.mu], and the sockets.  [step] executes one labelled step; a label says which
    goroutine moves and carries what its environment decides (the message read, whether a
    write fails, which entry a map iteration visits).

    [handleWS] runs on a goroutine of [net/http], which recovers a panic of a handler, also
    after the upgrade: the deferred function runs, and the process goes on.  A panic on
    another goroutine ends the process.

    The write sections of [h.mu] are single steps: while one goroutine holds the write lock
    no other can touch [h.conns].  The read section of the broadcaster spans several steps,
    and no write section runs inside it.  Deadlines and log lines are left out. *)

From S2P Require Import Prelude Layout ACEvent GoChan Machine.

(** What [handleWS] does with a message: [None] is the [continue]. *)
Definition accept_message (ptr : nat) (mt : Z) (msg : list Z) : option ACEvent :=
  if decide (mt <> BinaryMessage \/ length msg <> evtSz ptr) then None
  else Some (copy_to_event ptr msg).

(** [handleWS], from the successful upgrade on. *)
Inductive handler_pc :=
  | HRegister                (* before [h.mu.Lock(); h.conns[conn] = struct{}{}] *)
  | HRead                    (* in [conn.ReadMessage()] *)
  | HSelect (ev : ACEvent)   (* in the [select] of [h.Recv <- ev] and [h.ctx.Done()] *)
  | HUnregister              (* in the deferred function, before its [h.mu.Lock()] *)
  | HHangup                  (* in the deferred function, before [conn.Close()] *)
  | HDone.

(** The broadcaster goroutine.  In the two iterations [seen] is the set of entries already
    visited and [must] the set of entries present when the iteration began, which a Go map
    iteration visits unless they are deleted first. *)
Inductive broadcaster_pc :=
  | BSelect
  | BVisit (cmd : list Z) (seen must : gset conn)             (* holding [h.mu.RLock()] *)
  | BDelete (cmd : list Z) (c : conn) (seen must : gset conn) (* before [h.mu.Lock()]; [delete] *)
  | BRelock (cmd : list Z) (seen must : gset conn)            (* before [h.mu.RLock()] *)
  | BPing (seen must : gset conn)                             (* holding [h.mu.RLock()] *)
  | BDone.

(** A call of [Close] in progress. *)
Inductive closer_pc := CIdle | CShutdown | CCloseRecv.

(** A socket: whether our side closed it, the text messages written, the messages read. *)
Record sock := mkSock { k_open : bool; k_wire : list (list Z); k_read : list (Z * list Z) }.

Record server := mkServer {
  s_recv : chan ACEvent;              (* h.Recv *)
  s_text : chan (list Z);             (* h.SendText *)
  s_ctx_done : bool;                  (* h.ctx *)
  s_listening : bool;                 (* h.srv accepts connections *)
  s_conns : gset conn;                (* h.conns *)
  s_handlers : gmap conn handler_pc;
  s_socks : gmap conn sock;
  s_bc : broadcaster_pc;
  s_closer : closer_pc;
  s_panicked : bool;
  s_pushed : list (conn * ACEvent);   (* ghost: the sends on h.Recv, in order *)
  s_out : list ACEvent;               (* ghost: what the consumer received *)
  s_taken : list (list Z);            (* ghost: the commands the broadcaster took *)
  s_recovered : list (conn * ACEvent) (* ghost: the sends that panicked *)
}.

(** [NewHydraWSServer(addr, path, buf)] followed by [Start]. *)
Definition server_init (buf : nat) : server :=
  {| s_recv := make_chan buf; s_text := make_chan buf; s_ctx_done := false; s_listening := true;
     s_conns := ∅; s_handlers := ∅; s_socks := ∅; s_bc := BSelect; s_closer := CIdle;
     s_panicked := false; s_pushed := []; s_out := [];
     s_taken := []; s_recovered := [] |}.

(** ** Updates of one component *)

Definition set_recv x s := mkServer x (s_text s) (s_ctx_done s) (s_listening s) (s_conns s) (s_handlers s)
  (s_socks s) (s_bc s) (s_closer s) (s_panicked s) (s_pushed s) (s_out s) (s_taken s) (s_recovered s).
Definition set_text x s := mkServer (s_recv s) x (s_ctx_done s) (s_listening s) (s_conns s) (s_handlers s)
  (s_socks s) (s_bc s) (s_closer s) (s_panicked s) (s_pushed s) (s_out s) (s_taken s) (s_recovered s).
Definition set_ctx_done s := mkServer (s_recv s) (s_text s) true (s_listening s) (s_conns s) (s_handlers s)
  (s_socks s) (s_bc s) (s_closer s) (s_panicked s) (s_pushed s) (s_out s) (s_taken s) (s_recovered s).
Definition set_listening x s := mkServer (s_recv s) (s_text s) (s_ctx_done s) x (s_conns s) (s_handlers s)
  (s_socks s) (s_bc s) (s_closer s) (s_panicked s) (s_pushed s) (s_out s) (s_taken s) (s_recovered s).
Definition set_conns x s := mkServer (s_recv s) (s_text s) (s_ctx_done s) (s_listening s) x (s_handlers s)
  (s_socks s) (s_bc s) (s_closer s) (s_panicked s) (s_pushed s) (s_out s) (s_taken s) (s_recovered s).
Definition set_handler c pc s := mkServer (s_recv s) (s_text s) (s_ctx_done s) (s_listening s) (s_conns s)
  (<[c := pc]> (s_handlers s)) (s_socks s) (s_bc s) (s_closer s) (s_panicked s) (s_pushed s) (s_out s) (s_taken s) (s_recovered s).
Definition set_sock c k s := mkServer (s_recv s) (s_text s) (s_ctx_done s) (s_listening s) (s_conns s) (s_handlers s)
  (<[c := k]> (s_socks s)) (s_bc s) (s_closer s) (s_panicked s) (s_pushed s) (s_out s) (s_taken s) (s_recovered s).
Definition set_bc x s := mkServer (s_recv s) (s_text s) (s_ctx_done s) (s_listening s) (s_conns s) (s_handlers s)
  (s_socks s) x (s_closer s) (s_panicked s) (s_pushed s) (s_out s) (s_taken s) (s_recovered s).
Definition set_closer x s := mkServer (s_recv s) (s_text s) (s_ctx_done s) (s_listening s) (s_conns s) (s_handlers s)
  (s_socks s) (s_bc s) x (s_panicked s) (s_pushed s) (s_out s) (s_taken s) (s_recovered s).
Definition set_panicked s := mkServer (s_recv s) (s_text s) (s_ctx_done s) (s_listening s) (s_conns s) (s_handlers s)
  (s_socks s) (s_bc s) (s_closer s) true (s_pushed s) (s_out s) (s_taken s) (s_recovered s).
Definition log_push c ev s := mkServer (s_recv s) (s_text s) (s_ctx_done s) (s_listening s) (s_conns s) (s_handlers s)
  (s_socks s) (s_bc s) (s_closer s) (s_panicked s) (s_pushed s ++ [(c, ev)]) (s_out s) (s_taken s) (s_recovered s).
Definition log_out ev s := mkServer (s_recv s) (s_text s) (s_ctx_done s) (s_listening s) (s_conns s) (s_handlers s)
  (s_socks s) (s_bc s) (s_closer s) (s_panicked s) (s_pushed s) (s_out s ++ [ev]) (s_taken s) (s_recovered s).
Definition log_taken cmd s := mkServer (s_recv s) (s_text s) (s_ctx_done s) (s_listening s) (s_conns s) (s_handlers s)
  (s_socks s) (s_bc s) (s_closer s) (s_panicked s) (s_pushed s) (s_out s) (s_taken s ++ [cmd]) (s_recovered s).
Definition log_recovered c ev s := mkServer (s_recv s) (s_text s) (s_ctx_done s) (s_listening s) (s_conns s) (s_handlers s)
  (s_socks s) (s_bc s) (s_closer s) (s_panicked s) (s_pushed s) (s_out s) (s_taken s) (s_recovered s ++ [(c, ev)]).

Definition sock_close (k : sock) : sock := mkSock false (k_wire k) (k_read k).
Definition sock_write (m : list Z) (k : sock) : sock := mkSock (k_open k) (k_wire k ++ [m]) (k_read k).
Definition sock_read (p : Z * list Z) (k : sock) : sock := mkSock (k_open k) (k_wire k) (k_read k ++ [p]).

(** [c.Close()] *)
Definition close_sock (c : conn) (s : server) : server :=
  match s_socks s !! c with Some k => set_sock c (sock_close k) s | None => s end.

#[global] Instance handler_pc_eq_dec : EqDecision handler_pc.
Proof. solve_decision. Defined.
#[global] Instance closer_pc_eq_dec : EqDecision closer_pc.
Proof. solve_decision. Defined.

(** ** Steps *)

Inductive label :=
  | LAccept (c : conn)                        (* a client connects and the upgrade succeeds *)
  | LRegister (c : conn)
  | LReadError (c : conn)                     (* [ReadMessage] fails: close, deadline, limit *)
  | LRead (c : conn) (mt : Z) (msg : list Z)  (* [ReadMessage] returns a message *)
  | LPush (c : conn)                          (* the case [h.Recv <- ev] *)
  | LCtxDone (c : conn)                       (* the case [<-h.ctx.Done()] *)
  | LUnregister (c : conn)
  | LHangup (c : conn)
  | LCommand (cmd : list Z)                   (* the program sends on [h.SendText] *)
  | LTake                                     (* the broadcaster takes a command *)
  | LVisit (c : conn) (ok : bool)             (* and writes it to [c]; [ok] is the outcome *)
  | LDelete
  | LRelock
  | LFinish
  | LTick                                     (* the ticker fires *)
  | LPing (c : conn)
  | LPingFinish
  | LBroadcasterDone
  | LConsume                                  (* the program receives from [h.Recv] *)
  | LServeFail                                (* [ListenAndServe] fails: [h.cancel()] *)
  | LClose                                    (* [Close]: [h.cancel()] *)
  | LShutdown                                 (* [h.srv.Shutdown(ctx)] *)
  | LCloseRecv.                               (* [close(h.Recv)] *)

(** The broadcaster holds the read lock. *)
Definition read_locked (s : server) : bool :=
  match s_bc s with BVisit _ _ _ | BPing _ _ => true | _ => false end.

(** Go map iteration may end when every entry present at its start was visited or deleted. *)
Definition may_finish (seen must : gset conn) (s : server) : Prop := must ∩ s_conns s ⊆ seen.
#[global] Instance may_finish_dec seen must s : Decision (may_finish seen must s).
Proof. unfold may_finish. apply _. Defined.

Section handleWS.
Context (ptr : nat).

(** A step of the goroutine of connection [c], at [pc]. *)
Definition handler_step (s : server) (l : label) (c : conn) (pc : handler_pc) : option server :=
  match l, pc with
  | LRegister _, HRegister =>
      if read_locked s then None
      else Some (set_handler c HRead (set_conns ({[c]} ∪ s_conns s) s))
  | LReadError _, HRead => Some (set_handler c HUnregister s)
  | LRead _ mt msg, HRead =>
      k ← s_socks s !! c;
      if k_open k then
        let s := set_sock c (sock_read (mt, msg) k) s in
        match accept_message ptr mt msg with
        | None => Some s
        | Some ev => Some (set_handler c (HSelect ev) s)
        end
      else None
  | LPush _, HSelect ev =>
      match chan_send (s_recv s) ev with
      | Ok ch => Some (set_handler c HRead (log_push c ev (set_recv ch s)))
      | Blocks => None
      | Panics => Some (set_handler c HUnregister (log_recovered c ev s))
      end
  | LCtxDone _, HSelect _ => if s_ctx_done s then Some (set_handler c HUnregister s) else None
  | LUnregister _, HUnregister =>
      if read_locked s then None else Some (set_handler c HHangup (set_conns (s_conns s ∖ {[c]}) s))
  | LHangup _, HHangup => Some (set_handler c HDone (close_sock c s))
  | _, _ => None
  end.

(** A step of the broadcaster. *)
Definition broadcaster_step (s : server) (l : label) : option server :=
  match l, s_bc s with
  | LTake, BSelect =>
      match chan_recv (s_text s) with
      | Ok (Some cmd, ch) => Some (set_bc (BVisit cmd ∅ (s_conns s)) (log_taken cmd (set_text ch s)))
      | _ => None
      end
  | LVisit c ok, BVisit cmd seen must =>
      if decide (c ∈ s_conns s /\ c ∉ seen) then
        k ← s_socks s !! c;
        if ok then
          if k_open k then Some (set_bc (BVisit cmd ({[c]} ∪ seen) must) (set_sock c (sock_write cmd k) s))
          else None
        else Some (set_bc (BDelete cmd c ({[c]} ∪ seen) must) (close_sock c s))
      else None
  | LDelete, BDelete cmd c seen must =>
      Some (set_bc (BRelock cmd seen must) (set_conns (s_conns s ∖ {[c]}) s))
  | LRelock, BRelock cmd seen must => Some (set_bc (BVisit cmd seen must) s)
  | LFinish, BVisit cmd seen must =>
      if decide (may_finish seen must s) then Some (set_bc BSelect s) else None
  | LTick, BSelect => Some (set_bc (BPing ∅ (s_conns s)) s)
  | LPing c, BPing seen must =>
      if decide (c ∈ s_conns s /\ c ∉ seen) then Some (set_bc (BPing ({[c]} ∪ seen) must) s) else None
  | LPingFinish, BPing seen must =>
      if decide (may_finish seen must s) then Some (set_bc BSelect s) else None
  | LBroadcasterDone, BSelect => if s_ctx_done s then Some (set_bc BDone s) else None
  | _, _ => None
  end.

(** A step of the program that owns the server, or of [Close]. *)
Definition owner_step (s : server) (l : label) : option server :=
  match l with
  | LCommand cmd =>
      match chan_send (s_text s) cmd with Ok ch => Some (set_text ch s) | _ => None end
  | LConsume =>
      match chan_recv (s_recv s) with
      | Ok (Some ev, ch) => Some (log_out ev (set_recv ch s))
      | _ => None
      end
  | LServeFail => if s_listening s then Some (set_listening false (set_ctx_done s)) else None
  | LClose => if decide (s_closer s = CIdle) then Some (set_closer CShutdown (set_ctx_done s)) else None
  | LShutdown =>
      if decide (s_closer s = CShutdown) then Some (set_closer CCloseRecv (set_listening false s)) else None
  | LCloseRecv =>
      if decide (s_closer s = CCloseRecv) then
        match chan_close (s_recv s) with
        | Ok ch => Some (set_closer CIdle (set_recv ch s))
        | _ => Some (set_panicked s)
        end
      else None
  | LAccept c =>
      if decide (s_listening s = true /\ s_handlers s !! c = None) then
        Some (set_handler c HRegister (set_sock c (mkSock true [] []) s))
      else None
  | _ => None
  end.

Definition label_conn (l : label) : option conn :=
  match l with
  | LRegister c | LReadError c | LRead c _ _ | LPush c | LCtxDone c | LUnregister c | LHangup c => Some c
  | _ => None
  end.

(** One step; the process may have ended with a panic. *)
Definition step (s : server) (l : label) : option server :=
  if s_panicked s then None
  else match label_conn l with
  | Some c => pc ← s_handlers s !! c; handler_step s l c pc
  | None =>
      match l with
      | LTake | LVisit _ _ | LDelete | LRelock | LFinish | LTick | LPing _ | LPingFinish
      | LBroadcasterDone => broadcaster_step s l
      | _ => owner_step s l
      end
  end.

End handleWS.

(** Take a successful step [H] with label [l] apart into its cases. *)
Ltac step_cases H l :=
  unfold step in H;
  let E := fresh "Hpanic" in
  match type of H with (if s_panicked ?s then _ else _) = _ => destruct (s_panicked s) eqn:E; [discriminate H|] end;
  destruct l; cbn [label_conn] in H; unfold handler_step, broadcaster_step, owner_step in H;
  split_option H; subst.

(** ** The registry invariant *)

(** The handler is past its registration and before its removal. *)
Definition registered_pc (pc : handler_pc) : Prop :=
  match pc with HRead | HSelect _ | HUnregister => True | _ => False end.
Definition serving_pc (pc : handler_pc) : Prop :=
  match pc with HRead | HSelect _ => True | _ => False end.

(** What the invariant allows of one connection: is it in [h.conns], where is its handler,
    is its socket open (if there is one), and is the broadcaster about to delete it.
    - before [Lock] in [handleWS] and after the deferred [delete], it is not in [h.conns];
    - while it is served, it is in [h.conns] or its socket has been closed;
    - when the handler is done, its socket is closed;
    - the broadcaster only deletes connections it has closed. *)
Definition exists_sock (open : option bool) : bool := match open with Some _ => true | None => false end.
Definition closed_sock (open : option bool) : bool := match open with Some false => true | _ => false end.

Definition conn_ok (member : bool) (pc : option handler_pc) (open : option bool) (deleting : bool) : bool :=
  implb deleting (closed_sock open) &&
  match pc with
  | None => negb member && negb (exists_sock open)
  | Some HRegister | Some HHangup => negb member && exists_sock open
  | Some HRead | Some (HSelect _) => exists_sock open && (member || closed_sock open)
  | Some HUnregister => exists_sock open
  | Some HDone => negb member && closed_sock open
  end.

Definition member_of (s : server) (c : conn) : bool := bool_decide (c ∈ s_conns s).
Definition open_of (s : server) (c : conn) : option bool := k_open <$> s_socks s !! c.
Definition deleting (bc : broadcaster_pc) (c : conn) : bool :=
  match bc with BDelete _ d _ _ => bool_decide (c = d) | _ => false end.

Definition registry_inv (s : server) : Prop :=
  forall c, conn_ok (member_of s c) (s_handlers s !! c) (open_of s c) (deleting (s_bc s) c) = true.

Lemma registry_init buf : registry_inv (server_init buf).
Proof. intros c. unfold member_of, open_of. simpl. rewrite bool_decide_eq_false_2 by set_solver. done. Qed.

(** Split the lookups in updated maps. *)
Ltac split_lookups :=
  repeat match goal with
  | H : context [<[?i := _]> _ !! ?j] |- _ =>
      rewrite (lookup_insert _ i j) in H; destruct (decide (i = j)); [subst|]; simplify_eq/=
  | |- context [<[?i := _]> _ !! ?j] =>
      rewrite (lookup_insert _ i j); destruct (decide (i = j)); [subst|]; simplify_eq/=
  end.

Lemma member_add (c d : conn) (X : gset conn) :
  bool_decide (d ∈ {[c]} ∪ X) = if decide (c = d) then true else bool_decide (d ∈ X).
Proof. case_decide; [apply bool_decide_eq_true_2; set_solver|apply bool_decide_ext; set_solver]. Qed.

Lemma member_del (c d : conn) (X : gset conn) :
  bool_decide (d ∈ X ∖ {[c]}) = if decide (c = d) then false else bool_decide (d ∈ X).
Proof. case_decide; [apply bool_decide_eq_false_2; set_solver|apply bool_decide_ext; set_solver]. Qed.

Lemma close_sock_socks c s : s_socks (close_sock c s) = alter sock_close c (s_socks s).
Proof.
  unfold close_sock. apply map_eq. intros d. rewrite lookup_alter.
  destruct (s_socks s !! c) as [k|] eqn:E; simpl; [rewrite lookup_insert|];
    case_decide; subst; by rewrite ?E.
Qed.

Lemma close_sock_rest c s :
  s_handlers (close_sock c s) = s_handlers s /\ s_conns (close_sock c s) = s_conns s /\
  s_bc (close_sock c s) = s_bc s /\ s_recv (close_sock c s) = s_recv s /\ s_out (close_sock c s) = s_out s /\
  s_pushed (close_sock c s) = s_pushed s /\ s_ctx_done (close_sock c s) = s_ctx_done s /\
  s_panicked (close_sock c s) = s_panicked s /\ s_closer (close_sock c s) = s_closer s /\
  s_text (close_sock c s) = s_text s /\ s_taken (close_sock c s) = s_taken s /\
  s_recovered (close_sock c s) = s_recovered s.
Proof. unfold close_sock. by destruct (s_socks s !! c). Qed.

(** Rewrite every projection of [close_sock c s]. *)
Ltac simpl_close_sock :=
  repeat match goal with
  | |- context [s_socks (close_sock ?c ?s)] => rewrite (close_sock_socks c s)
  | |- context [close_sock ?c ?s] =>
      destruct (close_sock_rest c s) as (R1 & R2 & R3 & R4 & R5 & R6 & R7 & R8 & R9 & R10 & R11 & R12);
      rewrite ?R1, ?R2, ?R3, ?R4, ?R5, ?R6, ?R7, ?R8, ?R9, ?R10, ?R11, ?R12;
      clear R1 R2 R3 R4 R5 R6 R7 R8 R9 R10 R11 R12
  end.

(** The pointwise goals of an invariant over connections: one case for the connection the
    step is about, one for the others. *)
Ltac pointwise HI :=
  simpl_close_sock;
  rewrite ?member_add, ?member_del, ?lookup_insert, ?lookup_alter;
  repeat case_decide; subst; try exact HI;
  repeat match goal with
  | E : s_handlers _ !! _ = _ |- _ => rewrite E in *; clear E
  | E : s_socks _ !! _ = _ |- _ => rewrite E in *; clear E
  | E : s_bc _ = _ |- _ => rewrite E in *; clear E
  end; simpl in *; try exact HI.

Lemma registry_step ptr s l s' : registry_inv s -> step ptr s l = Some s' -> registry_inv s'.
Proof.
  intros HI Hs. step_cases Hs l.
  all: try exact HI.
  all: intros d; specialize (HI d); unfold member_of, open_of in *; simpl in *.
  all: pointwise HI; try congruence.
  all: repeat case_bool_decide; try congruence; try (destruct (deleting (s_bc s) d)).
  all: destruct (s_socks s !! d) as [[[] ? ?]|]; try (destruct (s_handlers s !! d) as [[]|]); try done.
Qed.

Lemma registry_reachable ptr buf ls s : run (step ptr) (server_init buf) ls = Some s -> registry_inv s.
Proof. apply (run_invariant (step ptr)); [apply registry_step|apply registry_init]. Qed.

(** ** The traffic invariant *)

Section traffic.
Context (ptr : nat).

(** The events among the messages read from [c], and the events of [c] sent on [h.Recv]. *)
Definition events_read (k : option sock) : list ACEvent :=
  match k with Some k => omap (fun p => accept_message ptr p.1 p.2) (k_read k) | None => [] end.

Definition pushed_by (c : conn) (ps : list (conn * ACEvent)) : list ACEvent :=
  (filter (fun p => p.1 = c) ps).*2.

(** Sent against read, by the handler's position: equal while it reads, one event behind in
    the [select], and a prefix once it has left. *)
Definition flow_ok (pc : option handler_pc) (pushed read : list ACEvent) : Prop :=
  match pc with
  | None | Some HRegister => pushed = [] /\ read = []
  | Some HRead => pushed = read
  | Some (HSelect ev) => pushed ++ [ev] = read
  | _ => pushed `prefix_of` read
  end.

Record traffic_inv (buf : nat) (s : server) : Prop := {
  ti_flow c : flow_ok (s_handlers s !! c) (pushed_by c (s_pushed s)) (events_read (s_socks s !! c));
  ti_queue : s_out s ++ ch_buf (s_recv s) = (s_pushed s).*2;
  ti_bound : chan_ok (s_recv s);
  ti_cap : ch_cap (s_recv s) = buf;
  ti_closed : ch_closed (s_recv s) = true -> s_ctx_done s = true;
  ti_closer : s_closer s <> CIdle -> s_ctx_done s = true;
  ti_panic : s_panicked s = true -> ch_closed (s_recv s) = true
}.

Lemma traffic_init buf : traffic_inv buf (server_init buf).
Proof using Type. by split; simpl; auto with medusa. Qed.

Lemma pushed_by_snoc c ps d ev :
  pushed_by d (ps ++ [(c, ev)]) = pushed_by d ps ++ (if decide (c = d) then [ev] else []).
Proof using Type.
  unfold pushed_by. rewrite filter_app, fmap_app. f_equal. rewrite filter_cons. simpl. by case_decide.
Qed.

Lemma events_read_snoc k mt msg :
  events_read (Some (sock_read (mt, msg) k))
  = events_read (Some k) ++ option_list (accept_message ptr mt msg).
Proof using Type.
  unfold events_read, sock_read. simpl. by rewrite omap_app.
Qed.

Lemma events_read_close k : events_read (sock_close <$> k) = events_read k.
Proof using Type. by destruct k. Qed.

Lemma flow_prefix pc p r : flow_ok (Some pc) p r -> p `prefix_of` r.
Proof using Type.
  destruct pc; simpl; try done; [by intros [-> ->]|by intros ->|by intros <-; eexists].
Qed.

Lemma flow_step s l s' :
  (forall c, flow_ok (s_handlers s !! c) (pushed_by c (s_pushed s)) (events_read (s_socks s !! c))) ->
  step ptr s l = Some s' ->
  forall c, flow_ok (s_handlers s' !! c) (pushed_by c (s_pushed s')) (events_read (s_socks s' !! c)).
Proof using Type.
  intros HI Hs. step_cases Hs l.
  all: try exact HI.
  all: intros d; specialize (HI d); simpl in *.
  all: simpl_close_sock; rewrite ?lookup_insert, ?lookup_alter, ?pushed_by_snoc;
    repeat case_decide; subst; rewrite ?events_read_snoc, ?events_read_close, ?app_nil_r; try exact HI.
  all: repeat match goal with
    | E : s_handlers _ !! _ = _ |- _ => rewrite E in *; clear E
    | E : s_socks _ !! _ = _ |- _ => rewrite E in *; clear E
    | E : accept_message _ _ _ = _ |- _ => rewrite E in *; clear E end.
  all: first [exact HI | by eapply flow_prefix | done
    | cbn [flow_ok option_list] in *; rewrite ?app_nil_r; first [by destruct HI as [-> ->] | by destruct HI as [-> _] | by rewrite HI]].
Qed.

Lemma traffic_step buf s l s' : traffic_inv buf s -> step ptr s l = Some s' -> traffic_inv buf s'.
Proof using Type.
  intros [HF HQ HB HK HC HD HP] Hs. split.
  { by eapply flow_step. }
  all: clear HF; step_cases Hs l; simpl in *; simpl_close_sock; try assumption.
  all: try first [eapply chan_send_ok; eassumption | eapply chan_recv_ok; eassumption
    | eapply chan_close_ok; eassumption]; chan_facts; simpl in *.
  all: try (intros; congruence); try (by intros; apply HD; congruence).
  all: first [ by rewrite fmap_app, <- HQ, <- app_assoc
    | by rewrite <- HQ, <- app_assoc; f_equal; simpl; congruence
    | exact HC | intros; apply HD; rewrite D; discriminate ].
Qed.

Lemma traffic_reachable buf ls s : run (step ptr) (server_init buf) ls = Some s -> traffic_inv buf s.
Proof using Type. apply (run_invariant (step ptr)); [exact (traffic_step buf)|apply traffic_init]. Qed.

End traffic.

(** ** The broadcast invariant *)

Section broadcast.
Context (ptr : nat).

(** The command the broadcaster still owes to [c]. *)
Definition owed (bc : broadcaster_pc) (c : conn) : list (list Z) :=
  match bc with
  | BVisit cmd seen _ | BDelete cmd _ seen _ | BRelock cmd seen _ =>
      if decide (c ∈ seen) then [] else [cmd]
  | _ => []
  end.

Definition in_must (bc : broadcaster_pc) (c : conn) : Prop :=
  match bc with
  | BVisit _ _ must | BDelete _ _ _ must | BRelock _ _ must => c ∈ must
  | _ => True
  end.

Definition past_register (pc : option handler_pc) : Prop :=
  match pc with None | Some HRegister => False | _ => True end.

Definition wire_of (s : server) (c : conn) : list (list Z) :=
  match s_socks s !! c with Some k => k_wire k | None => [] end.

(** From a point on where [w] was written to [c] and [n] commands were taken: [c] was
    written every command taken since, but the one it is owed.  A connection about to be
    deleted after a failed write, or deleted, is exempt. *)
Definition broadcast_inv (c : conn) (w : list (list Z)) (n : nat) (s : server) : Prop :=
  past_register (s_handlers s !! c) /\ is_Some (s_socks s !! c) /\ (n <= length (s_taken s))%nat /\
  (c ∈ s_conns s -> deleting (s_bc s) c = false ->
   in_must (s_bc s) c /\ wire_of s c ++ owed (s_bc s) c = w ++ drop n (s_taken s)).

Lemma broadcast_step c w n s l s' :
  broadcast_inv c w n s -> step ptr s l = Some s' -> broadcast_inv c w n s'.
Proof using Type.
  unfold broadcast_inv, wire_of. intros (H1 & H2 & H3 & HI) Hs. step_cases Hs l; try (by split_and!).
  all: simpl in *; simpl_close_sock; rewrite ?lookup_insert, ?lookup_alter.
  all: repeat match goal with E : s_bc _ = _ |- _ => rewrite E in *; clear E end; simpl in *.
  all: repeat case_decide; subst.
  all: repeat match goal with
    | E : s_handlers _ !! _ = _ |- _ => rewrite E in *; clear E
    | E : s_socks _ !! _ = _ |- _ => rewrite E in *; clear E end; simpl in *; try done.
  all: split_and!; try done; try (by rewrite fmap_is_Some); try (by len).
  all: try (intros Hin Hdel; specialize (HI ltac:(set_solver))); try specialize (HI eq_refl).
  all: try (specialize (HI Hdel)).
  all: destruct HI as [HM HI]; rewrite ?bool_decide_eq_false in *.
  all: repeat case_decide; try (exfalso; unfold may_finish in *; set_solver).
  all: split; [done || set_solver|]; rewrite ?app_nil_r in *; rewrite ?drop_app_le by lia.
  all: try (by rewrite <- HI); try exact HI; try (destruct (s_socks s !! c); exact HI).
  all: by rewrite (app_assoc w), <- HI.
Qed.

Lemma broadcast_start s c :
  registry_inv s -> c ∈ s_conns s -> s_bc s = BSelect ->
  broadcast_inv c (wire_of s c) (length (s_taken s)) s.
Proof using Type.
  intros HR Hc Hb. specialize (HR c). unfold conn_ok, member_of, open_of in HR.
  rewrite bool_decide_eq_true_2 in HR by done. unfold broadcast_inv. rewrite Hb in *. simpl in *.
  rewrite drop_all. split_and!; try done.
  - by destruct (s_handlers s !! c) as [[]|].
  - destruct (s_socks s !! c); [done|]. by destruct (s_handlers s !! c) as [[]|].
Qed.

Definition commands (ls : list label) : list (list Z) :=
  omap (fun l => match l with LCommand cmd => Some cmd | _ => None end) ls.

Record wires_inv (sent : list (list Z)) (s : server) : Prop := {
  wi_fifo : s_taken s ++ ch_buf (s_text s) = sent;
  wi_wires c : wire_of s c ++ owed (s_bc s) c `sublist_of` s_taken s
}.

Lemma sublist_app_right {A} (l1 l2 l : list A) : l1 ++ l2 `sublist_of` l -> l1 `sublist_of` l.
Proof using Type. intros H. etransitivity; [|exact H]. by apply sublist_inserts_r. Qed.

Lemma sublist_app_left {A} (l1 l2 l : list A) : l1 ++ l2 `sublist_of` l -> l2 `sublist_of` l.
Proof using Type. intros H. etransitivity; [|exact H]. by apply sublist_inserts_l. Qed.

Lemma wires_step sent s l s' :
  wires_inv sent s -> step ptr s l = Some s' -> wires_inv (sent ++ commands [l]) s'.
Proof using Type.
  intros [HF HW] Hs. split.
  - clear HW. step_cases Hs l; chan_facts; simpl in *; simpl_close_sock; rewrite ?app_nil_r, ?app_assoc; try done.
    all: match goal with E : ch_buf (s_text _) = _ |- _ => rewrite E in *; clear E end; by rewrite <- app_assoc.
  - clear HF. intros c. specialize (HW c). unfold wire_of in *. step_cases Hs l; simpl in *; try exact HW.
    all: simpl_close_sock; rewrite ?lookup_insert, ?lookup_alter.
    all: repeat match goal with E : s_bc _ = _ |- _ => rewrite E in *; clear E end; simpl in *.
    all: repeat case_decide; subst.
    all: repeat match goal with E : s_socks _ !! _ = _ |- _ => rewrite E in *; clear E end; simpl in *.
    all: try exact HW; repeat case_decide; try (exfalso; set_solver); rewrite ?app_nil_r in *; try exact HW.
    all: first
      [ by apply sublist_app_left in HW | by apply sublist_app_right in HW
      | by destruct (s_socks s !! c)
      | by apply sublist_inserts_r | by apply sublist_app
      ].
Qed.

Lemma wires_init buf : wires_inv [] (server_init buf).
Proof using Type. by split. Qed.

Lemma wires_run buf ls s : run (step ptr) (server_init buf) ls = Some s -> wires_inv (commands ls) s.
Proof using Type.
  intros Hr. refine (run_induction (step ptr) (fun _ => True) (fun ls => wires_inv (commands ls)) _ ls [] _ s _ (wires_init buf) Hr).
  - intros ls0 s0 l s1 _ HI Hs. unfold commands. rewrite omap_app. by eapply wires_step.
  - by apply Forall_true.
Qed.

(** Without [Close] the channel is not closed, and nothing panics, recovered or not. *)
Definition no_close_inv (s : server) : Prop :=
  ch_closed (s_recv s) = false /\ s_panicked s = false /\ s_recovered s = [].

Lemma no_close_step s l s' :
  l <> LCloseRecv -> no_close_inv s -> step ptr s l = Some s' -> no_close_inv s'.
Proof using Type.
  intros Hl (HC & HP & HR) Hs. unfold no_close_inv.
  step_cases Hs l; chan_facts; simpl in *; simpl_close_sock; by try congruence.
Qed.

(** Once [h.Recv] is closed nothing is sent any more. *)
Definition closed_inv (ps : list (conn * ACEvent)) (s : server) : Prop :=
  s_pushed s = ps /\ ch_closed (s_recv s) = true.

Lemma closed_step ps s l s' : closed_inv ps s -> step ptr s l = Some s' -> closed_inv ps s'.
Proof using Type.
  intros [HP HC] Hs. unfold closed_inv.
  step_cases Hs l; chan_facts; simpl in *; simpl_close_sock; (done || congruence).
Qed.

Lemma closed_start s ls s1 : run (step ptr) s (ls ++ [LCloseRecv]) = Some s1 -> closed_inv (s_pushed s1) s1.
Proof using Type.
  rewrite run_app. destruct (run (step ptr) s ls) as [s0|]; [|done]. cbn [mbind option_bind run].
  destruct (step ptr s0 LCloseRecv) as [s2|] eqn:E; [|done]. cbn [mbind option_bind]. intros [= <-].
  split; [done|]. unfold step in E. destruct (s_panicked s0); [done|]. simpl in E.
  split_option E; subst; chan_facts; done.
Qed.

Lemma step_handler s l c pc :
  s_panicked s = false -> label_conn l = Some c -> s_handlers s !! c = Some pc ->
  step ptr s l = handler_step ptr s l c pc.
Proof using Type. intros HP Hl Hpc. unfold step. by rewrite HP, Hl, Hpc. Qed.

(** A valid message is read; its event panics; and the deferred function runs. *)
Lemma step_read s c k msg :
  s_panicked s = false -> s_handlers s !! c = Some HRead -> s_socks s !! c = Some k -> k_open k = true ->
  length msg = evtSz ptr ->
  step ptr s (LRead c BinaryMessage msg)
  = Some (set_handler c (HSelect (copy_to_event ptr msg)) (set_sock c (sock_read (BinaryMessage, msg) k) s)).
Proof using Type.
  intros HP Hh Hk Ho Hm. rewrite (step_handler s _ c HRead) by done. unfold handler_step, accept_message.
  rewrite Hk. simpl. by rewrite Ho, decide_False by tauto.
Qed.

Lemma step_push_closed s c ev :
  s_panicked s = false -> s_handlers s !! c = Some (HSelect ev) -> ch_closed (s_recv s) = true ->
  step ptr s (LPush c) = Some (set_handler c HUnregister (log_recovered c ev s)).
Proof using Type.
  intros HP Hh HC. rewrite (step_handler s _ c (HSelect ev)) by done. unfold handler_step, chan_send. by rewrite HC.
Qed.

Lemma hang_up s c k :
  s_panicked s = false -> s_handlers s !! c = Some HUnregister -> s_socks s !! c = Some k -> read_locked s = false ->
  exists s', run (step ptr) s [LUnregister c; LHangup c] = Some s' /\ s_recovered s' = s_recovered s /\
    s_pushed s' = s_pushed s /\ s_panicked s' = false /\ s_handlers s' !! c = Some HDone /\ open_of s' c = Some false.
Proof using Type.
  intros HP Hh Hk Hl. set (s1 := set_handler c HHangup (set_conns (s_conns s ∖ {[c]}) s)).
  exists (set_handler c HDone (close_sock c s1)). cbn [run].
  rewrite (step_handler s _ c HUnregister) by done. unfold handler_step at 1. rewrite Hl. cbn [mbind option_bind].
  fold s1. rewrite (step_handler s1 _ c HHangup) by first [exact HP | reflexivity | apply lookup_insert_eq].
  split; [done|]. unfold close_sock. change (s_socks s1) with (s_socks s). rewrite Hk.
  unfold open_of. simpl. by rewrite !lookup_insert_eq.
Qed.

(** A handler of an open connection, with a valid message, after the closing. *)
Lemma drop_after_close s c k msg :
  s_panicked s = false -> ch_closed (s_recv s) = true -> s_handlers s !! c = Some HRead ->
  s_socks s !! c = Some k -> k_open k = true -> length msg = evtSz ptr -> read_locked s = false ->
  exists s', run (step ptr) s [LRead c BinaryMessage msg; LPush c; LUnregister c; LHangup c] = Some s' /\
    s_recovered s' = s_recovered s ++ [(c, copy_to_event ptr msg)] /\ s_pushed s' = s_pushed s /\
    s_panicked s' = false /\ s_handlers s' !! c = Some HDone /\ open_of s' c = Some false.
Proof using Type.
  intros HP HC Hh Hk Ho Hm Hl. generalize (copy_to_event ptr msg), (step_read s c k msg HP Hh Hk Ho Hm).
  intros ev E1. set (s1 := set_handler _ _ _) in E1.
  assert (E2 := step_push_closed s1 c ev HP (lookup_insert_eq _ _ _) HC). set (s2 := set_handler _ _ _) in E2.
  destruct (hang_up s2 c (sock_read (BinaryMessage, msg) k) HP (lookup_insert_eq _ _ _) (lookup_insert_eq _ _ _) Hl)
    as (s' & Hr & H). exists s'. split; [|exact H].
  change (run (step ptr) s ([LRead c BinaryMessage msg; LPush c] ++ [LUnregister c; LHangup c]) = Some s').
  rewrite run_app. cbn [run]. rewrite E1. cbn [mbind option_bind]. rewrite E2. exact Hr.
Qed.

Lemma second_close s :
  s_panicked s = false -> ch_closed (s_recv s) = true -> s_closer s = CIdle ->
  exists s', run (step ptr) s [LClose; LShutdown; LCloseRecv] = Some s' /\ s_panicked s' = true.
Proof using Type.
  intros HP HC Hc.
  assert (Hown : forall s0 l, s_panicked s0 = false -> l ∈ [LClose; LShutdown; LCloseRecv] -> step ptr s0 l = owner_step s0 l).
  { intros s0 l E Hl. unfold step. rewrite E. rewrite !elem_of_cons, elem_of_nil in Hl. by destruct_or! Hl; subst. }
  cbn [run]. rewrite Hown by (done || set_solver). simpl. rewrite decide_True by done.
  cbn [mbind option_bind]. rewrite Hown by (done || set_solver). cbn [owner_step].
  rewrite decide_True by done. cbn [mbind option_bind]. rewrite Hown by (done || set_solver). cbn [owner_step].
  rewrite decide_True by done. unfold chan_close. simpl. rewrite HC. by eexists.
Qed.

(** The steps of an iteration of the broadcaster, and a bound on how many are left when no
    other goroutine registers a connection. *)
Definition iteration_label (l : label) : Prop :=
  match l with
  | LVisit _ _ | LDelete | LRelock | LFinish | LPing _ | LPingFinish => True
  | _ => False
  end.

Definition iterating (bc : broadcaster_pc) : Prop :=
  match bc with BSelect | BDone => False | _ => True end.

Definition steps_left (s : server) : nat :=
  match s_bc s with
  | BVisit _ seen _ => 3 * size (s_conns s ∖ seen) + 1
  | BDelete _ _ seen _ => 3 * size (s_conns s ∖ seen) + 3
  | BRelock _ seen _ => 3 * size (s_conns s ∖ seen) + 2
  | BPing seen _ => size (s_conns s ∖ seen) + 1
  | _ => 0
  end.

Lemma size_visit (X Y : gset conn) c :
  c ∈ X /\ c ∉ Y -> size (X ∖ Y) = S (size (X ∖ ({[c]} ∪ Y))).
Proof using Type.
  intros [H1 H2]. replace (X ∖ Y) with ({[c]} ∪ X ∖ ({[c]} ∪ Y)).
  - rewrite size_union by set_solver. by rewrite size_singleton.
  - apply set_eq. intros d. destruct (decide (d = c)); set_solver.
Qed.

Lemma size_delete (X Y : gset conn) c : (size (X ∖ {[c]} ∖ Y) <= size (X ∖ Y))%nat.
Proof using Type. apply subseteq_size. set_solver. Qed.

Lemma steps_left_step s l s' :
  iteration_label l -> step ptr s l = Some s' -> (steps_left s' < steps_left s)%nat.
Proof using Type.
  intros Hl Hs. unfold steps_left. step_cases Hs l; try done; simpl; simpl_close_sock.
  all: try match goal with E : s_bc _ = _ |- _ => rewrite E in * end; try lia.
  all: first [ pose proof (size_visit _ _ _ (conj D D0)) as E'; rewrite E'
    | pose proof (size_delete (s_conns s) seen c) ]; lia.
Qed.

Lemma may_finish_or_visit seen must s :
  may_finish seen must s \/ exists c, c ∈ s_conns s /\ c ∉ seen.
Proof using Type.
  unfold may_finish. destruct (set_choose_or_empty (must ∩ s_conns s ∖ seen)) as [[c Hc]|HE].
  - right. exists c. set_solver.
  - left. set_solver.
Qed.

Lemma iteration_progress s :
  registry_inv s -> s_panicked s = false -> iterating (s_bc s) ->
  exists l s', iteration_label l /\ step ptr s l = Some s'.
Proof using Type.
  intros HR HP HI. unfold step. rewrite HP. destruct (s_bc s) as [|cmd seen must|cmd c seen must|cmd seen must|seen must|] eqn:Eb; try done.
  - destruct (may_finish_or_visit seen must s) as [Hf|(c & Hc & Hn)].
    { exists LFinish. eexists. split; [done|]. simpl. rewrite Eb. by rewrite decide_True. }
    destruct (s_socks s !! c) as [k|] eqn:Ek.
    + exists (LVisit c false). eexists. split; [done|]. simpl. rewrite Eb, decide_True, Ek by done. done.
    + exfalso. specialize (HR c). unfold conn_ok, member_of, open_of in HR. rewrite bool_decide_eq_true_2, Ek in HR by done.
      apply andb_true_iff in HR as [_ HR]. by destruct (s_handlers s !! c) as [[]|].
  - exists LDelete. eexists. split; [done|]. simpl. by rewrite Eb.
  - exists LRelock. eexists. split; [done|]. simpl. by rewrite Eb.
  - destruct (may_finish_or_visit seen must s) as [Hf|(c & Hc & Hn)].
    { exists LPingFinish. eexists. split; [done|]. simpl. rewrite Eb. by rewrite decide_True. }
    exists (LPing c). eexists. split; [done|]. simpl. rewrite Eb, decide_True by done. done.
Qed.

End broadcast.

(** ** Properties *)

(** C18: in every run, a member of [h.conns] is a connection whose handler is running, a
    connection that is served and whose socket our side has not closed is a member, and a
    handler that has returned has closed its socket and left [h.conns]. *)
Theorem registry (ptr buf : nat) (ls : list label) (s : server)
    (Hrun : run (step ptr) (server_init buf) ls = Some s) (c : conn) :
  (c ∈ s_conns s -> exists pc, s_handlers s !! c = Some pc /\ registered_pc pc) /\
  (forall pc, s_handlers s !! c = Some pc -> serving_pc pc -> open_of s c = Some true -> c ∈ s_conns s) /\
  (s_handlers s !! c = Some HDone -> c ∉ s_conns s /\ open_of s c = Some false).
Proof.
  pose proof (registry_reachable _ _ _ _ Hrun c) as HR. unfold conn_ok, member_of in HR.
  split_and!.
  - intros Hc. rewrite bool_decide_eq_true_2 in HR by done. apply andb_true_iff in HR as [_ HR].
    destruct (s_handlers s !! c) as [[]|]; try done; by eexists.
  - intros pc Hpc Hserve Ho. rewrite Hpc, Ho in HR. apply dec_stable. intros Hc.
    rewrite bool_decide_eq_false_2 in HR by done. apply andb_true_iff in HR as [_ HR]. by destruct pc.
  - intros Hpc. rewrite Hpc in HR. apply andb_true_iff in HR as [_ HR].
    apply andb_true_iff in HR as [HR1 HR2]. case_bool_decide; [done|]. split; [done|].
    by destruct (open_of s c) as [[]|].
Qed.

(** C6: in every run, the program receives from [h.Recv] the accepted messages in the order
    they were sent, at most [buf] waiting; of each connection the events sent are a prefix
    of the events among the messages read from it, and all of them whenever its handler is
    reading: messages of another type or size are skipped, nothing is lost, duplicated or
    reordered. *)
Theorem recv_fifo (ptr buf : nat) (ls : list label) (s : server)
    (Hrun : run (step ptr) (server_init buf) ls = Some s) :
  s_out s ++ ch_buf (s_recv s) = (s_pushed s).*2 /\
  (length (ch_buf (s_recv s)) <= buf)%nat /\
  forall c, pushed_by c (s_pushed s) `prefix_of` events_read ptr (s_socks s !! c) /\
    (s_handlers s !! c = Some HRead -> pushed_by c (s_pushed s) = events_read ptr (s_socks s !! c)).
Proof.
  destruct (traffic_reachable _ _ _ _ Hrun) as [HF HQ HB HC _ _ _]. split; [done|]. split.
  { rewrite <- HC. exact HB. }
  intros c. specialize (HF c). split; [|intros E; by rewrite E in HF].
  destruct (s_handlers s !! c) as [pc|] eqn:E; [by eapply flow_prefix|]. destruct HF as [-> ->]. done.
Qed.

(** C19: a connection that is registered while the broadcaster is idle, and still registered
    at a later idle moment, has been written exactly the commands the broadcaster took in
    between, each once and in order, whatever other connections were dropped, registered or
    broken during the iterations. *)
Theorem broadcast_complete (ptr buf : nat) (ls1 ls2 : list label) (s1 s2 : server) (c : conn)
    (Hrun1 : run (step ptr) (server_init buf) ls1 = Some s1) (Hrun2 : run (step ptr) s1 ls2 = Some s2)
    (Hidle1 : s_bc s1 = BSelect) (Hidle2 : s_bc s2 = BSelect)
    (Hc1 : c ∈ s_conns s1) (Hc2 : c ∈ s_conns s2) :
  wire_of s2 c = wire_of s1 c ++ drop (length (s_taken s1)) (s_taken s2).
Proof.
  pose proof (broadcast_start s1 c (registry_reachable _ _ _ _ Hrun1) Hc1 Hidle1) as HB.
  apply (run_invariant (step ptr) _ (fun s l s' => broadcast_step ptr c _ _ s l s') _ _ _ HB) in Hrun2.
  destruct Hrun2 as (_ & _ & _ & H). rewrite Hidle2 in H.
  destruct (H Hc2 eq_refl) as [_ E]. simpl in E. by rewrite app_nil_r in E.
Qed.

(** The commands taken from [h.SendText] are the commands sent, in order, and what is
    written to any socket is a subsequence of them: no command twice, none out of order. *)
Theorem commands_in_order (ptr buf : nat) (ls : list label) (s : server)
    (Hrun : run (step ptr) (server_init buf) ls = Some s) :
  s_taken s ++ ch_buf (s_text s) = commands ls /\
  forall c, wire_of s c `sublist_of` s_taken s.
Proof.
  destruct (wires_run _ _ _ _ Hrun) as [HF HW].
  split; [exact HF|]. intros c. eapply sublist_app_right, HW.
Qed.

(** Until [Close] closes [h.Recv] no goroutine of the server panics; one that ends the
    process comes after both the cancellation and the closing of [h.Recv]. *)
Theorem no_panic_before_close (ptr buf : nat) (ls : list label) (s : server)
    (Hrun : run (step ptr) (server_init buf) ls = Some s) :
  (LCloseRecv ∉ ls -> s_panicked s = false /\ s_recovered s = []) /\
  (s_panicked s = true -> ch_closed (s_recv s) = true /\ s_ctx_done s = true).
Proof.
  split; [intros Hls|destruct (traffic_reachable _ _ _ _ Hrun); auto].
  apply (run_invariant_on (step ptr) (fun l => l <> LCloseRecv) no_close_inv) with (ls := ls) (s := server_init buf).
  - intros ? ? ?. apply no_close_step.
  - apply Forall_forall. by intros l Hl ->.
  - done.
  - done.
Qed.

(** C20: once [Close] has closed [h.Recv], at any later moment: no event has been sent since;
    a handler that still reads its (hijacked) connection, which [Shutdown] does not end, may
    take a valid message and, in its [select], send on the closed channel: the event is lost
    in a panic that [net/http] recovers, and the deferred function, when it gets the lock,
    drops the connection; and another [Close] panics in the goroutine of its caller. *)
Theorem send_after_close_panics (ptr buf : nat) (ls ls' : list label) (s1 s : server)
    (Hclose : run (step ptr) (server_init buf) (ls ++ [LCloseRecv]) = Some s1)
    (Hlater : run (step ptr) s1 ls' = Some s) (Halive : s_panicked s = false) :
  s_pushed s = s_pushed s1 /\
  (forall c k msg, s_handlers s !! c = Some HRead -> s_socks s !! c = Some k -> k_open k = true ->
     length msg = evtSz ptr -> read_locked s = false ->
     exists s', run (step ptr) s [LRead c BinaryMessage msg; LPush c; LUnregister c; LHangup c] = Some s' /\
       s_recovered s' = s_recovered s ++ [(c, copy_to_event ptr msg)] /\ s_pushed s' = s_pushed s /\
       s_panicked s' = false /\ s_handlers s' !! c = Some HDone /\ open_of s' c = Some false) /\
  (s_closer s = CIdle ->
     exists s', run (step ptr) s [LClose; LShutdown; LCloseRecv] = Some s' /\ s_panicked s' = true).
Proof.
  assert (HI : closed_inv (s_pushed s1) s).
  { apply (run_invariant (step ptr) _ (closed_step ptr _) ls' s1 s); [|exact Hlater].
    exact (closed_start ptr (server_init buf) ls s1 Hclose). }
  destruct HI as [HP HC]. split_and!; [exact HP| |].
  - intros c k msg H1 H2 H3 H4 H5. by eapply drop_after_close.
  - intros H. by eapply second_close.
Qed.

(** C33: an iteration of the broadcaster, over a command or over the pings, ends: in every
    reachable state one of its steps is enabled until it is idle again, and there are at
    most [steps_left] of them, whatever the outcomes of the writes. *)
Theorem broadcast_terminates (ptr buf : nat) (ls : list label) (s : server)
    (Hrun : run (step ptr) (server_init buf) ls = Some s) (Halive : s_panicked s = false) :
  (iterating (s_bc s) -> exists l s', iteration_label l /\ step ptr s l = Some s') /\
  (forall ls' s', Forall iteration_label ls' -> run (step ptr) s ls' = Some s' ->
     (length ls' <= steps_left s)%nat).
Proof.
  pose proof (registry_reachable _ _ _ _ Hrun) as HR. split; [by apply iteration_progress|].
  intros ls' s' HF Hr.
  pose proof (run_measure (step ptr) iteration_label steps_left (steps_left_step ptr) _ _ _ HF Hr). lia.
Qed.

(** ** Witnesses *)

Definition demo (ls : list label) : server := after (step 8) (server_init 4) ls.

Lemma demo_run ls : runs (step 8) (server_init 4) ls = true -> run (step 8) (server_init 4) ls = Some (demo ls).
Proof. apply run_after. Qed.

Definition sample_message : list Z := evToBytes 8 (fun _ => 0) sample_event.

(** Two clients connect; the first sends an event, a short and a text message; a command
    reaches the first and fails on the second. *)
Definition demo_start : list label :=
  [LAccept 0%nat; LAccept 1%nat; LRegister 0%nat; LRegister 1%nat;
   LRead 0%nat BinaryMessage sample_message; LPush 0%nat; LRead 0%nat BinaryMessage [1; 2];
   LRead 0%nat TextMessage sample_message].
Definition demo_broadcast : list label :=
  [LCommand [115; 99]; LCommand [100]; LTake; LVisit 1%nat false; LDelete; LReadError 1%nat; LUnregister 1%nat;
   LRelock; LVisit 0%nat true; LFinish; LHangup 1%nat; LTake; LVisit 0%nat true; LFinish; LConsume].
Definition demo_close : list label := [LClose; LShutdown; LCloseRecv].

Lemma registry_witness :
  (0%nat ∈ s_conns (demo (demo_start ++ demo_broadcast))) /\
  (1%nat ∉ s_conns (demo (demo_start ++ demo_broadcast)) /\
   open_of (demo (demo_start ++ demo_broadcast)) 1%nat = Some false).
Proof.
  pose proof (registry 8 4 (demo_start ++ demo_broadcast) _ (demo_run (demo_start ++ demo_broadcast) ltac:(vm_compute; reflexivity))) as H.
  split.
  - apply (H 0%nat) with (pc := HRead); [vm_compute; reflexivity|exact I|vm_compute; reflexivity].
  - apply (H 1%nat). vm_compute. reflexivity.
Defined.

Lemma recv_fifo_witness :
  pushed_by 0%nat (s_pushed (demo (demo_start ++ demo_broadcast))) = [sample_event] /\
  s_out (demo (demo_start ++ demo_broadcast)) ++ ch_buf (s_recv (demo (demo_start ++ demo_broadcast)))
  = (s_pushed (demo (demo_start ++ demo_broadcast))).*2.
Proof.
  destruct (recv_fifo 8 4 (demo_start ++ demo_broadcast) _ (demo_run (demo_start ++ demo_broadcast) ltac:(vm_compute; reflexivity)))
    as (E & _ & H).
  split; [|exact E]. destruct (H 0%nat) as [_ H0]. etransitivity; [apply H0|]; vm_compute; reflexivity.
Defined.

Lemma broadcast_complete_witness :
  wire_of (demo (demo_start ++ demo_broadcast)) 0%nat = [[115; 99]; [100]].
Proof.
  etransitivity;
  [apply (broadcast_complete 8 4 demo_start demo_broadcast (demo demo_start) (demo (demo_start ++ demo_broadcast)) 0%nat)|].
  - apply demo_run. vm_compute. reflexivity.
  - apply run_after_app. vm_compute. reflexivity.
  - vm_compute. reflexivity.
  - vm_compute. reflexivity.
  - decide_vm.
  - decide_vm.
  - vm_compute. reflexivity.
Defined.

(** The first client sends an event after [Close]; a second [Close] panics. *)
Lemma send_after_close_panics_witness :
  (exists s', run (step 8) (demo (demo_start ++ demo_close))
     [LRead 0%nat BinaryMessage sample_message; LPush 0%nat; LUnregister 0%nat; LHangup 0%nat] = Some s' /\
     s_recovered s' = [(0%nat, sample_event)]) /\
  (exists s', run (step 8) (demo (demo_start ++ demo_close)) demo_close = Some s' /\ s_panicked s' = true).
Proof.
  assert (Hr : run (step 8) (server_init 4) ((demo_start ++ [LClose; LShutdown]) ++ [LCloseRecv])
    = Some (demo (demo_start ++ demo_close))).
  { rewrite <- app_assoc. apply demo_run. vm_compute. reflexivity. }
  assert (Ha : s_panicked (demo (demo_start ++ demo_close)) = false) by (vm_compute; reflexivity).
  destruct (send_after_close_panics 8 4 _ [] _ _ Hr eq_refl Ha) as (_ & H1 & H2).
  split.
  - edestruct (H1 0%nat) as (s' & E & R & _).
    6: { exists s'. split; [exact E|]. rewrite R. vm_compute. reflexivity. }
    all: vm_compute; reflexivity.
  - apply H2. vm_compute. reflexivity.
Defined.

(** In the middle of the first iteration. *)
Lemma broadcast_terminates_witness :
  exists l s', iteration_label l /\ step 8 (demo (demo_start ++ take 4 demo_broadcast)) l = Some s'.
Proof.
  apply (broadcast_terminates 8 4 (demo_start ++ take 4 demo_broadcast)).
  - apply demo_run. vm_compute. reflexivity.
  - vm_compute. reflexivity.
  - vm_compute. exact I.
Defined.
