(* ===== verification/HydraWS.v ===== *)
(** * The agent's WebSocket client

    [MedusaUserlandAgent/WebSocketWorker.go] as a labelled machine: the event pump, the
    connection loop [run] with its backoff, the three loops it starts for every connection
    ([readLoop], [writeLoop], [pingLoop]), [Close] and [SendJSON].  A generation is one turn
    of [run] that reached a connection; its loops read [h.conn] when they get to run, so a
    late loop may find no connection or that of a later generation.

    The critical sections of [h.connMu] are single steps, except that of [Close], which
    writes to the socket while it holds the lock.  A [WriteMessage] has a begin and an end,
    a callback too; one that meets another on its connection may panic, which ends the
    process, may fail or may write its frame.  The labels carry what the environment decides:
    whether a dial, a read or a write succeeds, what was read, the clock.  Log lines and
    deadlines are left out. *)

From S2P Require Import Prelude Layout ACEvent Backoff GoChan Machine.

Record wsFrame := mkFrame { mt : Z; data : list Z }.

#[global] Instance wsFrame_eq_dec : EqDecision wsFrame.
Proof. solve_decision. Defined.

(** ** The goroutines *)

Inductive pump_pc :=
  | PuSelect                 (* in the outer [select] *)
  | PuSend (ev : ACEvent)    (* in the inner [select], with the payload of [ev] *)
  | PuExit                   (* before the deferred [h.wg.Done()] *)
  | PuDone.

Inductive run_pc :=
  | RnConnect                (* at the top of the loop, entering [connect] *)
  | RnDial                   (* in [DialContext] *)
  | RnSleep                  (* in [time.Sleep] *)
  | RnSetConn (c : conn)     (* before [h.connMu.Lock(); h.conn = conn] *)
  | RnSpawn                  (* before [attempt = 0], [h.wg.Add(3)] and the [go] statements *)
  | RnWait (g : nat)         (* in the [select] on the loops of generation [g] *)
  | RnTeardown               (* before [h.connMu.Lock()]; close and forget the connection *)
  | RnCheck                  (* before [if h.ctx.Err() != nil] *)
  | RnExit | RnDone.

(** A loop of a generation, [X] being what it is busy with. *)
Inductive loop_pc (X : Type) :=
  | LpStart                  (* before reading [h.conn] *)
  | LpIdle (c : conn)        (* in [ReadMessage], or in the [select] *)
  | LpBusy (c : conn) (x : X) (* in [OnMessage(x)], or writing [x] *)
  | LpExit                   (* returned, the result on the done channel, before [wg.Done()] *)
  | LpDone.
Arguments LpStart {X}.
Arguments LpIdle {X} _.
Arguments LpBusy {X} _ _.
Arguments LpExit {X}.
Arguments LpDone {X}.

Record loops := mkLoops { lp_read : loop_pc (list Z); lp_write : loop_pc wsFrame; lp_ping : loop_pc unit }.
Inductive which := Reading | Writing | Pinging.

Definition new_loops : loops := mkLoops LpStart LpStart LpStart.

(** A call of [Close] in progress. *)
Inductive closer_pc :=
  | KIdle
  | KLock                    (* before [h.connMu.Lock()] *)
  | KWrite (c : conn)        (* holding the lock, in [WriteMessage(CloseMessage, ...)] *)
  | KWait                    (* in [h.wg.Wait()] *)
  | KCloseCh.                (* before [close(h.sendCh)] *)

(** Who writes to a connection: the write loop and the ping loop of a generation, and
    [Close]. *)
Inductive writer := FrameWriter (g : nat) | PingWriter (g : nat) | Closer.

#[global] Instance writer_eq_dec : EqDecision writer.
Proof. solve_decision. Defined.

(** What a goroutine may panic with; [ConcurrentWrite] is the panic of the library. *)
Inductive panic_cause := SendOnClosed | CloseOfClosed | NegativeWaitGroup | ConcurrentWrite.

(** What happened so far. *)
Record history := mkHistory {
  hi_events : list ACEvent;                 (* received from [extCh] by the pump *)
  hi_sent : list wsFrame;                   (* sent on [sendCh] *)
  hi_taken : list (nat * wsFrame);          (* received from [sendCh], by which generation *)
  hi_written : list (nat * conn * wsFrame); (* written, by which generation, to which connection *)
  hi_received : list (nat * list Z);        (* text and binary messages read *)
  hi_handled : list (nat * list Z);         (* passed to the callback of [WithOnMessage] *)
  hi_sleeps : list (option Z)               (* the delays slept *)
}.

Record client := mkClient {
  c_ext : chan ACEvent;         (* h.extCh *)
  c_send : chan wsFrame;        (* h.sendCh *)
  c_ctx_done : bool;            (* h.ctx *)
  c_conn : option conn;         (* h.conn *)
  c_wg : Z;                     (* h.wg *)
  c_onmsg : bool;               (* h.OnMessage is the program's *)
  c_pump : pump_pc;
  c_run : run_pc;
  c_attempt : nat;              (* attempt *)
  c_loops : list loops;         (* the loops of each generation *)
  c_socks : gmap conn bool;     (* the connections made: open on our side *)
  c_closer : closer_pc;
  c_panicked : bool;
  c_met : list writer;          (* ghost: the writers that met another one in their [WriteMessage] *)
  c_cause : option panic_cause; (* ghost *)
  c_hist : history
}.

(** [NewHydraWS(url, eventCh)], the channel with room for [n] events. *)
Definition client_init (n : nat) : client :=
  {| c_ext := make_chan n; c_send := make_chan 1024; c_ctx_done := false; c_conn := None; c_wg := 2;
     c_onmsg := false; c_pump := PuSelect; c_run := RnConnect; c_attempt := 0; c_loops := [];
     c_socks := ∅; c_closer := KIdle; c_panicked := false; c_met := []; c_cause := None;
     c_hist := mkHistory [] [] [] [] [] [] [] |}.

(** ** Updates of one component *)

Definition set_ext x s := mkClient x (c_send s) (c_ctx_done s) (c_conn s) (c_wg s) (c_onmsg s) (c_pump s)
  (c_run s) (c_attempt s) (c_loops s) (c_socks s) (c_closer s) (c_panicked s) (c_met s) (c_cause s) (c_hist s).
Definition set_send x s := mkClient (c_ext s) x (c_ctx_done s) (c_conn s) (c_wg s) (c_onmsg s) (c_pump s)
  (c_run s) (c_attempt s) (c_loops s) (c_socks s) (c_closer s) (c_panicked s) (c_met s) (c_cause s) (c_hist s).
Definition set_ctx_done s := mkClient (c_ext s) (c_send s) true (c_conn s) (c_wg s) (c_onmsg s) (c_pump s)
  (c_run s) (c_attempt s) (c_loops s) (c_socks s) (c_closer s) (c_panicked s) (c_met s) (c_cause s) (c_hist s).
Definition set_conn x s := mkClient (c_ext s) (c_send s) (c_ctx_done s) x (c_wg s) (c_onmsg s) (c_pump s)
  (c_run s) (c_attempt s) (c_loops s) (c_socks s) (c_closer s) (c_panicked s) (c_met s) (c_cause s) (c_hist s).
Definition set_wg x s := mkClient (c_ext s) (c_send s) (c_ctx_done s) (c_conn s) x (c_onmsg s) (c_pump s)
  (c_run s) (c_attempt s) (c_loops s) (c_socks s) (c_closer s) (c_panicked s) (c_met s) (c_cause s) (c_hist s).
Definition set_onmsg s := mkClient (c_ext s) (c_send s) (c_ctx_done s) (c_conn s) (c_wg s) true (c_pump s)
  (c_run s) (c_attempt s) (c_loops s) (c_socks s) (c_closer s) (c_panicked s) (c_met s) (c_cause s) (c_hist s).
Definition set_pump x s := mkClient (c_ext s) (c_send s) (c_ctx_done s) (c_conn s) (c_wg s) (c_onmsg s) x
  (c_run s) (c_attempt s) (c_loops s) (c_socks s) (c_closer s) (c_panicked s) (c_met s) (c_cause s) (c_hist s).
Definition set_run x s := mkClient (c_ext s) (c_send s) (c_ctx_done s) (c_conn s) (c_wg s) (c_onmsg s)
  (c_pump s) x (c_attempt s) (c_loops s) (c_socks s) (c_closer s) (c_panicked s) (c_met s) (c_cause s) (c_hist s).
Definition set_attempt x s := mkClient (c_ext s) (c_send s) (c_ctx_done s) (c_conn s) (c_wg s) (c_onmsg s)
  (c_pump s) (c_run s) x (c_loops s) (c_socks s) (c_closer s) (c_panicked s) (c_met s) (c_cause s) (c_hist s).
Definition set_loops x s := mkClient (c_ext s) (c_send s) (c_ctx_done s) (c_conn s) (c_wg s) (c_onmsg s)
  (c_pump s) (c_run s) (c_attempt s) x (c_socks s) (c_closer s) (c_panicked s) (c_met s) (c_cause s) (c_hist s).
Definition set_socks x s := mkClient (c_ext s) (c_send s) (c_ctx_done s) (c_conn s) (c_wg s) (c_onmsg s)
  (c_pump s) (c_run s) (c_attempt s) (c_loops s) x (c_closer s) (c_panicked s) (c_met s) (c_cause s) (c_hist s).
Definition set_closer x s := mkClient (c_ext s) (c_send s) (c_ctx_done s) (c_conn s) (c_wg s) (c_onmsg s)
  (c_pump s) (c_run s) (c_attempt s) (c_loops s) (c_socks s) x (c_panicked s) (c_met s) (c_cause s) (c_hist s).
Definition set_panicked x s := mkClient (c_ext s) (c_send s) (c_ctx_done s) (c_conn s) (c_wg s) (c_onmsg s)
  (c_pump s) (c_run s) (c_attempt s) (c_loops s) (c_socks s) (c_closer s) true (c_met s) (Some x) (c_hist s).
Definition set_met x s := mkClient (c_ext s) (c_send s) (c_ctx_done s) (c_conn s) (c_wg s) (c_onmsg s)
  (c_pump s) (c_run s) (c_attempt s) (c_loops s) (c_socks s) (c_closer s) (c_panicked s) x (c_cause s) (c_hist s).
Definition set_hist x s := mkClient (c_ext s) (c_send s) (c_ctx_done s) (c_conn s) (c_wg s) (c_onmsg s)
  (c_pump s) (c_run s) (c_attempt s) (c_loops s) (c_socks s) (c_closer s) (c_panicked s) (c_met s) (c_cause s) x.

Definition log_events x s := let h := c_hist s in set_hist (mkHistory (hi_events h ++ [x]) (hi_sent h)
  (hi_taken h) (hi_written h) (hi_received h) (hi_handled h) (hi_sleeps h)) s.
Definition log_sent x s := let h := c_hist s in set_hist (mkHistory (hi_events h) (hi_sent h ++ [x])
  (hi_taken h) (hi_written h) (hi_received h) (hi_handled h) (hi_sleeps h)) s.
Definition log_taken x s := let h := c_hist s in set_hist (mkHistory (hi_events h) (hi_sent h) (hi_taken h
  ++ [x]) (hi_written h) (hi_received h) (hi_handled h) (hi_sleeps h)) s.
Definition log_written x s := let h := c_hist s in set_hist (mkHistory (hi_events h) (hi_sent h) (hi_taken
  h) (hi_written h ++ [x]) (hi_received h) (hi_handled h) (hi_sleeps h)) s.
Definition log_received x s := let h := c_hist s in set_hist (mkHistory (hi_events h) (hi_sent h) (hi_taken
  h) (hi_written h) (hi_received h ++ [x]) (hi_handled h) (hi_sleeps h)) s.
Definition log_handled x s := let h := c_hist s in set_hist (mkHistory (hi_events h) (hi_sent h) (hi_taken
  h) (hi_written h) (hi_received h) (hi_handled h ++ [x]) (hi_sleeps h)) s.
Definition log_sleeps x s := let h := c_hist s in set_hist (mkHistory (hi_events h) (hi_sent h) (hi_taken h)
  (hi_written h) (hi_received h) (hi_handled h) (hi_sleeps h ++ [x])) s.

(** [c.Close()] *)
Definition close_conn (c : conn) (s : client) : client := set_socks (alter (fun _ => false) c (c_socks s)) s.

(** [h.wg.Done()]: a negative counter panics. *)
Definition wg_done (s : client) : client :=
  if decide (c_wg s <= 0) then set_panicked NegativeWaitGroup s else set_wg (c_wg s - 1) s.

Definition set_read g pc lps s := set_loops (<[g := mkLoops pc (lp_write lps) (lp_ping lps)]> (c_loops s)) s.
Definition set_write g pc lps s := set_loops (<[g := mkLoops (lp_read lps) pc (lp_ping lps)]> (c_loops s)) s.
Definition set_ping g pc lps s := set_loops (<[g := mkLoops (lp_read lps) (lp_write lps) pc]> (c_loops s)) s.

(** The connection a goroutine is writing to. *)
Definition busy_conn {X} (pc : option (loop_pc X)) : option conn :=
  match pc with Some (LpBusy c _) => Some c | _ => None end.
Definition in_write (s : client) (w : writer) : option conn :=
  match w with
  | FrameWriter g => busy_conn (lp_write <$> c_loops s !! g)
  | PingWriter g => busy_conn (lp_ping <$> c_loops s !! g)
  | Closer => match c_closer s with KWrite c => Some c | _ => None end
  end.

(** The goroutines inside a [WriteMessage] on [c]. *)
Definition writing (c : conn) (s : client) : list writer :=
  let gs := seq 0 (length (c_loops s)) in
  filter (fun w => in_write s w = Some c) (Closer :: (FrameWriter <$> gs) ++ (PingWriter <$> gs)).

(** [w] enters and leaves its [conn.WriteMessage]. *)
Definition begin_write (w : writer) (c : conn) (s : client) : client :=
  set_met (match writing c s with [] => c_met s | ws => w :: ws ++ c_met s end) s.
Definition end_write (w : writer) (s : client) : client := set_met (filter (fun v => v <> w) (c_met s)) s.

#[global] Instance closer_pc_eq_dec : EqDecision closer_pc.
Proof. solve_decision. Defined.

(** ** Steps *)

Inductive label :=
  (* the program *)
  | LEvent (ev : ACEvent)            (* sends on the event channel *)
  | LExtClose                        (* closes it *)
  | LWithOnMessage
  | LSendJSON (b : list Z)           (* the case [h.sendCh <- ...] of SendJSON *)
  | LSendJSONClosed (b : list Z)     (* its case [<-h.ctx.Done()] *)
  | LClose | LCloseLock | LCloseWrite | LClosePanic | LWgWait | LCloseSend
  (* the event pump *)
  | LPumpRecv | LPumpSend | LPumpCtx | LPumpDone
  (* the connection loop *)
  | LConnect
  | LDialFail (canceled : bool) (now : Z)
  | LWake
  | LDialOk (c : conn)
  | LSetConn
  | LSpawn
  | LSelect (w : which)              (* [<-readDone], [<-writeDone] or [<-pingDone] *)
  | LSelectCtx
  | LTeardown | LCheck | LRunDone
  (* the loops of generation [g] *)
  | LStart (g : nat) (w : which)
  | LRead (g : nat) (mt : Z) (msg : list Z)
  | LReadErr (g : nat)
  | LCallback (g : nat)              (* [OnMessage] returns *)
  | LTake (g : nat)
  | LWrite (g : nat) (ok : bool)
  | LWritePanic (g : nat)            (* [WriteMessage] panics *)
  | LWriteCtx (g : nat)
  | LPing (g : nat)                  (* the ticker fires *)
  | LPinged (g : nat) (ok : bool)
  | LPingPanic (g : nat)
  | LPingCtx (g : nat)
  | LLoopDone (g : nat) (w : which).

(** [Close] holds [h.connMu] while it writes. *)
Definition locked (s : client) : bool := match c_closer s with KWrite _ => true | _ => false end.

Definition is_open (s : client) (c : conn) : bool := default false (c_socks s !! c).

(** A loop that has put its result on its done channel. *)
Definition returned {X} (pc : loop_pc X) : bool := match pc with LpExit | LpDone => true | _ => false end.
Definition loop_returned (w : which) (lps : loops) : bool :=
  match w with Reading => returned (lp_read lps) | Writing => returned (lp_write lps) | Pinging => returned (lp_ping lps) end.

(** The beginning of a loop: [conn := h.conn], and [errors.New("no conn")] without one. *)
Definition start_loop {X} (c : option conn) : loop_pc X :=
  match c with Some c => LpIdle c | None => LpExit end.

Section code.
(** The padding bytes of the events' memory. *)
Context (pad : nat -> Z).

Definition event_frame (ev : ACEvent) : wsFrame := mkFrame BinaryMessage (evToBytes agent_ptr pad ev).

(** The library's [WriteMessage] panics, when it notices another one on its connection. *)
Definition concurrent_write (w : writer) (s : client) : option client :=
  if decide (w ∈ c_met s) then Some (set_panicked ConcurrentWrite s) else None.

(** The program, [SendJSON] (after [json.Marshal] returned [b]) and [Close]. *)
Definition owner_step (s : client) (l : label) : option client :=
  match l with
  | LEvent ev => match chan_send (c_ext s) ev with Ok ch => Some (set_ext ch s) | _ => None end
  | LExtClose => match chan_close (c_ext s) with Ok ch => Some (set_ext ch s) | _ => None end
  | LWithOnMessage => Some (set_onmsg s)
  | LSendJSON b =>
      let fr := mkFrame TextMessage b in
      match chan_send (c_send s) fr with
      | Ok ch => Some (log_sent fr (set_send ch s))
      | Blocks => None
      | Panics => Some (set_panicked SendOnClosed s)
      end
  | LSendJSONClosed _ => if c_ctx_done s then Some s else None
  | LClose => if decide (c_closer s = KIdle) then Some (set_closer KLock (set_ctx_done s)) else None
  | LCloseLock =>
      if decide (c_closer s = KLock) then
        match c_conn s with
        | Some c => Some (set_closer (KWrite c) (begin_write Closer c s))
        | None => Some (set_closer KWait s)
        end
      else None
  | LCloseWrite =>
      match c_closer s with
      | KWrite c => Some (set_closer KWait (set_conn None (close_conn c (end_write Closer s))))
      | _ => None
      end
  | LClosePanic =>
      match c_closer s with KWrite _ => concurrent_write Closer s | _ => None end
  | LWgWait =>
      if decide (c_closer s = KWait /\ c_wg s = 0) then Some (set_closer KCloseCh s) else None
  | LCloseSend =>
      if decide (c_closer s = KCloseCh) then
        match chan_close (c_send s) with
        | Ok ch => Some (set_closer KIdle (set_send ch s))
        | _ => Some (set_panicked CloseOfClosed s)
        end
      else None
  | _ => None
  end.

(** [eventPump] *)
Definition pump_step (s : client) (l : label) : option client :=
  match l, c_pump s with
  | LPumpRecv, PuSelect =>
      match chan_recv (c_ext s) with
      | Ok (Some ev, ch) => Some (set_pump (PuSend ev) (log_events ev (set_ext ch s)))
      | Ok (None, _) => Some (set_pump PuExit s)
      | _ => None
      end
  | LPumpSend, PuSend ev =>
      match chan_send (c_send s) (event_frame ev) with
      | Ok ch => Some (set_pump PuSelect (log_sent (event_frame ev) (set_send ch s)))
      | Blocks => None
      | Panics => Some (set_panicked SendOnClosed s)
      end
  | LPumpCtx, PuSelect | LPumpCtx, PuSend _ => if c_ctx_done s then Some (set_pump PuExit s) else None
  | LPumpDone, PuExit => Some (wg_done (set_pump PuDone s))
  | _, _ => None
  end.

(** [run] and [connect].  [DialContext] fails with [context.Canceled] only after the
    cancellation. *)
Definition run_step (s : client) (l : label) : option client :=
  match l, c_run s with
  | LConnect, RnConnect => Some (set_run (if c_ctx_done s then RnExit else RnDial) s)
  | LDialFail canceled now, RnDial =>
      if canceled then if c_ctx_done s then Some (set_run RnExit s) else None
      else Some (set_run RnSleep (log_sleeps (nextBackoff default_backoff (c_attempt s) now) s))
  | LWake, RnSleep => Some (set_run RnConnect (set_attempt (S (c_attempt s)) s))
  | LDialOk c, RnDial =>
      if decide (c_socks s !! c = None) then Some (set_run (RnSetConn c) (set_socks (<[c := true]> (c_socks s)) s))
      else None
  | LSetConn, RnSetConn c => if locked s then None else Some (set_run RnSpawn (set_conn (Some c) s))
  | LSpawn, RnSpawn =>
      Some (set_run (RnWait (length (c_loops s)))
        (set_loops (c_loops s ++ [new_loops]) (set_wg (c_wg s + 3) (set_attempt 0%nat s))))
  | LSelect w, RnWait g =>
      lps ← c_loops s !! g; if loop_returned w lps then Some (set_run RnTeardown s) else None
  | LSelectCtx, RnWait _ => if c_ctx_done s then Some (set_run RnTeardown s) else None
  | LTeardown, RnTeardown =>
      if locked s then None
      else match c_conn s with
      | Some c => Some (set_run RnCheck (set_conn None (close_conn c s)))
      | None => Some (set_run RnCheck s)
      end
  | LCheck, RnCheck => Some (set_run (if c_ctx_done s then RnExit else RnConnect) s)
  | LRunDone, RnExit => Some (wg_done (set_run RnDone s))
  | _, _ => None
  end.

(** The loops of generation [g], which are [lps]. *)
Definition read_step (s : client) (g : nat) (lps : loops) (l : label) : option client :=
  match l, lp_read lps with
  | LStart _ _, LpStart => if locked s then None else Some (set_read g (start_loop (c_conn s)) lps s)
  | LRead _ mt msg, LpIdle c =>
      if is_open s c then
        if decide (mt = TextMessage \/ mt = BinaryMessage) then
          let s := if c_onmsg s then log_handled (g, msg) s else s in
          Some (set_read g (LpBusy c msg) lps (log_received (g, msg) s))
        else Some s
      else None
  | LReadErr _, LpIdle c => Some (set_read g LpExit lps s)
  | LCallback _, LpBusy c _ => Some (set_read g (LpIdle c) lps s)
  | LLoopDone _ _, LpExit => Some (wg_done (set_read g LpDone lps s))
  | _, _ => None
  end.

Definition write_step (s : client) (g : nat) (lps : loops) (l : label) : option client :=
  match l, lp_write lps with
  | LStart _ _, LpStart => if locked s then None else Some (set_write g (start_loop (c_conn s)) lps s)
  | LTake _, LpIdle c =>
      match chan_recv (c_send s) with
      | Ok (Some fr, ch) =>
          Some (set_write g (LpBusy c fr) lps (log_taken (g, fr) (set_send ch (begin_write (FrameWriter g) c s))))
      | Ok (None, _) => Some (set_write g LpExit lps s)
      | _ => None
      end
  | LWrite _ ok, LpBusy c fr =>
      let s := end_write (FrameWriter g) s in
      if ok then
        if is_open s c then Some (set_write g (LpIdle c) lps (log_written (g, c, fr) s)) else None
      else Some (set_write g LpExit lps s)
  | LWritePanic _, LpBusy _ _ => concurrent_write (FrameWriter g) s
  | LWriteCtx _, LpIdle c => if c_ctx_done s then Some (set_write g LpExit lps s) else None
  | LLoopDone _ _, LpExit => Some (wg_done (set_write g LpDone lps s))
  | _, _ => None
  end.

Definition ping_step (s : client) (g : nat) (lps : loops) (l : label) : option client :=
  match l, lp_ping lps with
  | LStart _ _, LpStart => if locked s then None else Some (set_ping g (start_loop (c_conn s)) lps s)
  | LPing _, LpIdle c => Some (set_ping g (LpBusy c tt) lps (begin_write (PingWriter g) c s))
  | LPinged _ ok, LpBusy c _ =>
      let s := end_write (PingWriter g) s in
      if ok then if is_open s c then Some (set_ping g (LpIdle c) lps s) else None
      else Some (set_ping g LpExit lps s)
  | LPingPanic _, LpBusy _ _ => concurrent_write (PingWriter g) s
  | LPingCtx _, LpIdle c => if c_ctx_done s then Some (set_ping g LpExit lps s) else None
  | LLoopDone _ _, LpExit => Some (wg_done (set_ping g LpDone lps s))
  | _, _ => None
  end.

(** One step; a panic ends the process. *)
Definition step (s : client) (l : label) : option client :=
  if c_panicked s then None
  else match l with
  | LStart g Reading | LRead g _ _ | LReadErr g | LCallback g | LLoopDone g Reading =>
      lps ← c_loops s !! g; read_step s g lps l
  | LStart g Writing | LTake g | LWrite g _ | LWritePanic g | LWriteCtx g | LLoopDone g Writing =>
      lps ← c_loops s !! g; write_step s g lps l
  | LStart g Pinging | LPing g | LPinged g _ | LPingPanic g | LPingCtx g | LLoopDone g Pinging =>
      lps ← c_loops s !! g; ping_step s g lps l
  | LPumpRecv | LPumpSend | LPumpCtx | LPumpDone => pump_step s l
  | LConnect | LDialFail _ _ | LWake | LDialOk _ | LSetConn | LSpawn | LSelect _ | LSelectCtx
  | LTeardown | LCheck | LRunDone => run_step s l
  | _ => owner_step s l
  end.
End code.

(** Take a successful step [H] with label [l] apart into its cases. *)
Ltac step_cases H l :=
  unfold step in H;
  let E := fresh "Hpanic" in
  match type of H with (if c_panicked ?s then _ else _) = _ => destruct (c_panicked s) eqn:E; [discriminate H|] end;
  destruct l; repeat match type of H with context [match ?w with Reading => _ | Writing => _ | Pinging => _ end] => is_var w; destruct w end;
  unfold owner_step, pump_step, run_step, read_step, write_step, ping_step, concurrent_write in H;
  split_option H; subst.

(** ** The wait group *)

Section wait_group.
Context (pad : nat -> Z).

Definition live_pump (pc : pump_pc) : Z := match pc with PuDone => 0 | _ => 1 end.
Definition live_run (pc : run_pc) : Z := match pc with RnDone => 0 | _ => 1 end.
Definition live_loop {X} (pc : loop_pc X) : Z := match pc with LpDone => 0 | _ => 1 end.
Definition live_loops (lps : loops) : Z := live_loop (lp_read lps) + live_loop (lp_write lps) + live_loop (lp_ping lps).
Definition live_all (ls : list loops) : Z := total live_loops ls.

(** The goroutines that have not yet called [wg.Done()]. *)
Definition live (s : client) : Z := live_pump (c_pump s) + live_run (c_run s) + live_all (c_loops s).

Lemma live_pump_nonneg pc : 0 <= live_pump pc.
Proof using Type. by destruct pc. Qed.

Lemma live_run_nonneg pc : 0 <= live_run pc.
Proof using Type. by destruct pc. Qed.

Lemma live_loop_nonneg {X} (pc : loop_pc X) : 0 <= live_loop pc.
Proof using Type. by destruct pc. Qed.

Lemma live_start {X} c : live_loop (start_loop (X := X) c) = 1.
Proof using Type. by destruct c. Qed.

Lemma live_loops_nonneg lps : 0 <= live_loops lps.
Proof using Type. unfold live_loops. pose proof (live_loop_nonneg (lp_read lps)). pose proof (live_loop_nonneg (lp_write lps)). pose proof (live_loop_nonneg (lp_ping lps)). lia. Qed.

Lemma live_all_nonneg ls : 0 <= live_all ls.
Proof using Type. apply total_nonneg, live_loops_nonneg. Qed.

Lemma live_all_app l1 l2 : live_all (l1 ++ l2) = live_all l1 + live_all l2.
Proof using Type. apply total_app. Qed.

Lemma live_all_insert ls g lps lps' :
  ls !! g = Some lps -> live_all (<[g := lps']> ls) = live_all ls - live_loops lps + live_loops lps'.
Proof using Type. apply total_insert. Qed.

Lemma live_all_lookup ls g lps : ls !! g = Some lps -> live_loops lps <= live_all ls.
Proof using Type. apply total_lookup, live_loops_nonneg. Qed.

(** The counter is the number of live goroutines; it is zero once [Close] waits no more; and
    what panics is two writers that met, or a send on [sendCh], or its closing, after [Close]
    closed it. *)
Definition cause_ok (s : client) : Prop :=
  c_cause s = Some ConcurrentWrite \/
  ((c_cause s = Some SendOnClosed \/ c_cause s = Some CloseOfClosed) /\ ch_closed (c_send s) = true).

Record wg_inv (s : client) : Prop := {
  wi_count : c_wg s = live s;
  wi_zero : c_closer s = KCloseCh \/ ch_closed (c_send s) = true -> c_wg s = 0;
  wi_panic : c_panicked s = true -> cause_ok s
}.

Lemma wg_init n : wg_inv (client_init n).
Proof using Type. split; [done|by intros [|]|done]. Qed.

Lemma wg_done_pos s : 0 < c_wg s -> wg_done s = set_wg (c_wg s - 1) s.
Proof using Type. intros H. unfold wg_done. by rewrite decide_False by lia. Qed.

Lemma wg_step s l s' : wg_inv s -> step pad s l = Some s' -> wg_inv s'.
Proof using Type.
  intros [HC HZ HP] Hs.
  pose proof (live_all_nonneg (c_loops s)) as HN. pose proof (live_pump_nonneg (c_pump s)) as HNp.
  pose proof (live_run_nonneg (c_run s)) as HNr. unfold live in HC. step_cases Hs l.
  all: try match goal with |- context [c_onmsg ?s] => destruct (c_onmsg s) end.
  all: try match goal with E : c_loops _ !! _ = Some ?lps |- _ =>
    pose proof (live_all_lookup _ _ _ E);
    pose proof (live_loop_nonneg (lp_read lps)); pose proof (live_loop_nonneg (lp_write lps));
    pose proof (live_loop_nonneg (lp_ping lps)); unfold live_loops in * end.
  all: repeat match goal with
    | E : c_pump _ = _ |- _ => apply (f_equal live_pump) in E
    | E : c_run _ = _ |- _ => apply (f_equal live_run) in E
    | E : lp_read _ = _ |- _ => apply (f_equal live_loop) in E
    | E : lp_write _ = _ |- _ => apply (f_equal live_loop) in E
    | E : lp_ping _ = _ |- _ => apply (f_equal live_loop) in E end; cbn [live_pump live_run live_loop] in *.
  all: try rewrite wg_done_pos by (simpl; lia).
  all: chan_facts; split; unfold live; simpl; try done; try (intros; congruence).
  all: rewrite ?live_all_app; try erewrite live_all_insert by eassumption; cbn [live_all total foldr]; unfold live_loops; simpl;
    unfold new_loops; cbn [live_loop lp_read lp_write lp_ping]; rewrite ?live_start; try (case_match; simpl); try lia.
  all: try (unfold cause_ok; simpl; by auto).
  all: try (intros HZ'; first [specialize (HZ HZ'); lia | idtac]).
  all: try (destruct HZ' as [HZ'|HZ']; try discriminate HZ'; by apply HZ; auto).
  all: try (match goal with E : c_closer _ = _ |- _ => rewrite E in HZ'; by auto end).
  all: unfold live_loops; simpl; lia.
Qed.

Lemma wg_reachable n ls s : run (step pad) (client_init n) ls = Some s -> wg_inv s.
Proof using Type. apply (run_invariant (step pad)); [apply wg_step|apply wg_init]. Qed.

(** What a zero counter means. *)
Definition quiet (s : client) : Prop :=
  c_pump s = PuDone /\ c_run s = RnDone /\ Forall (fun lps => lps = mkLoops LpDone LpDone LpDone) (c_loops s).

Lemma live_all_zero ls : live_all ls = 0 -> Forall (fun lps => lps = mkLoops LpDone LpDone LpDone) ls.
Proof using Type.
  induction ls as [|[r w p] ls IH]; simpl; intros H; constructor.
  - pose proof (live_all_nonneg ls). unfold live_loops in H. simpl in H.
    pose proof (live_loop_nonneg r). pose proof (live_loop_nonneg w). pose proof (live_loop_nonneg p).
    destruct r, w, p; try done; simpl in H; lia.
  - apply IH. pose proof (live_all_nonneg ls). pose proof (live_loops_nonneg (mkLoops r w p)). lia.
Qed.

Lemma live_zero s : live s = 0 -> quiet s.
Proof using Type.
  unfold live. intros H. pose proof (live_all_nonneg (c_loops s)).
  pose proof (live_pump_nonneg (c_pump s)). pose proof (live_run_nonneg (c_run s)).
  split_and!; [destruct (c_pump s); simpl in *; (done || lia)|destruct (c_run s); simpl in *; (done || lia)|].
  apply live_all_zero. lia.
Qed.

(** ** Connections *)

Definition holds_conn (pc : run_pc) : Prop :=
  match pc with RnSpawn | RnWait _ | RnTeardown => True | _ => False end.

(** An open connection is [h.conn], or about to be; [run] forgets the connection before it
    makes another; [Close] writes to [h.conn]. *)
Record conn_inv (s : client) : Prop := {
  ci_open c : is_open s c = true -> c_conn s = Some c \/ c_run s = RnSetConn c;
  ci_held : c_conn s <> None -> holds_conn (c_run s);
  ci_close c : c_closer s = KWrite c -> c_conn s = Some c;
  ci_ctx : c_closer s <> KIdle \/ ch_closed (c_send s) = true -> c_ctx_done s = true
}.

Lemma conn_init n : conn_inv (client_init n).
Proof using Type. split; simpl; try done. by intros [|]. Qed.

Lemma conn_step s l s' : conn_inv s -> step pad s l = Some s' -> conn_inv s'.
Proof using Type.
  intros [HO HH HK HX] Hs. unfold is_open in HO. step_cases Hs l.
  all: try match goal with |- context [c_onmsg ?s] => destruct (c_onmsg s) end.
  all: try (unfold wg_done; case_decide).
  all: chan_facts; split; unfold is_open; simpl in *; try done; try (intros; congruence).
  all: try (intros [?|?]; first [congruence | apply HX; first [by auto | left; congruence]]).
  all: repeat match goal with
    | E : c_run _ = _ |- _ => rewrite E in *; clear E
    | E : c_closer _ = _ |- _ => rewrite E in *; clear E
    | E : c_conn _ = _ |- _ => rewrite E in *; clear E
    end; simpl in *.
  all: try (by apply HH); intros c0 Hc.
  all: try (exfalso; match goal with E : locked _ = false |- _ => unfold locked in E; rewrite Hc in E; discriminate E end).
  all: rewrite ?lookup_alter, ?lookup_insert in Hc; try case_decide; subst; simpl in Hc; try (by auto).
  all: try (match type of Hc with context [?m !! ?x] => by destruct (m !! x) end); destruct (HO _ Hc) as [E'|E']; try congruence; try (by auto).
  all: first [ left; congruence | by case_match | exfalso; apply HH; congruence
    | specialize (HK _ eq_refl); congruence ].
Qed.

Lemma conn_reachable n ls s : run (step pad) (client_init n) ls = Some s -> conn_inv s.
Proof using Type. apply (run_invariant (step pad)); [apply conn_step|apply conn_init]. Qed.

End wait_group.

(** ** Writers that meet *)

Section overlap.
Context (pad : nat -> Z).

(** Another goroutine is inside a [WriteMessage] on the connection of [w]. *)
Definition overlap (w : writer) (s : client) : Prop :=
  exists v c, v <> w /\ in_write s w = Some c /\ in_write s v = Some c.

Lemma elem_of_writing w c s : w ∈ writing c s <-> in_write s w = Some c.
Proof using Type.
  unfold writing. rewrite list_elem_of_filter. split; [by intros [? _]|]. intros Hw. split; [done|].
  rewrite elem_of_cons, elem_of_app, !list_elem_of_fmap. setoid_rewrite elem_of_seq.
  destruct w as [g|g|]; [right; left|right; right|by left]; exists g; (split; [done|]); simpl in Hw.
  all: destruct (c_loops s !! g) eqn:E; [|done]; apply lookup_lt_Some in E; lia.
Qed.

(** The writers after the loops of one generation changed. *)
Lemma in_write_update s s' g lps lps' :
  c_loops s !! g = Some lps -> c_loops s' = <[g := lps']> (c_loops s) -> c_closer s' = c_closer s ->
  forall v, in_write s' v =
    if decide (v = FrameWriter g) then busy_conn (Some (lp_write lps'))
    else if decide (v = PingWriter g) then busy_conn (Some (lp_ping lps')) else in_write s v.
Proof using Type.
  intros Hg Hl Hc v. destruct v as [h|h|]; simpl; rewrite ?Hl, ?Hc; [| |by repeat case_decide].
  all: rewrite (lookup_update _ _ _ _ _ Hg); repeat case_decide; by simplify_eq.
Qed.

(** What a step does to the writers: nothing, or one begins to write, or one ends. *)
Definition write_move (s s' : client) : Prop :=
  ((forall v, in_write s' v = in_write s v) /\ c_met s' = c_met s) \/
  (exists w c, in_write s w = None /\ in_write s' w = Some c /\
     (forall v, v <> w -> in_write s' v = in_write s v) /\ c_met s' = c_met (begin_write w c s)) \/
  (exists w, in_write s' w = None /\
     (forall v, v <> w -> in_write s' v = in_write s v) /\ c_met s' = c_met (end_write w s)).

(** The writers of [s'], given what [in_write_update] or the closer says of them. *)
Ltac writers_of :=
  intros;
  first [ erewrite in_write_update by first [eassumption | reflexivity]
        | match goal with |- in_write _ ?v = _ => is_var v; destruct v end | idtac ];
  repeat case_decide; subst; simpl;
  repeat match goal with
  | E : c_loops _ !! _ = _ |- _ => rewrite E; clear E; simpl
  | E : lp_write _ = _ |- _ => rewrite E; clear E; simpl
  | E : lp_ping _ = _ |- _ => rewrite E; clear E; simpl
  | E : c_closer _ = _ |- _ => rewrite E; clear E; simpl
  | |- context [start_loop ?c] => destruct c; simpl
  end; try done.

Lemma new_loops_lookup ls g :
  (ls ++ [new_loops]) !! g = ls !! g \/ (ls ++ [new_loops]) !! g = Some new_loops /\ ls !! g = None.
Proof using Type.
  destruct (decide (g < length ls)%nat); [left; by rewrite lookup_app_l|].
  rewrite lookup_app_r by lia. rewrite (lookup_ge_None_2 ls g) by lia.
  destruct (g - length ls)%nat as [|[|k]]; [by right|by left|by left].
Qed.

Lemma write_move_step s l s' : step pad s l = Some s' -> write_move s s'.
Proof using Type.
  intros Hs. step_cases Hs l.
  all: try match goal with |- context [c_onmsg ?s] => destruct (c_onmsg s) end.
  all: try (unfold wg_done; case_decide).
  all: try (left; split; [by intros []|done]).
  all: try (left; split; [writers_of; fail|done]).
  all: try (match goal with |- write_move _ ?s' =>
    match s' with
    | context [begin_write ?w ?c _] => right; left; exists w, c
    | context [end_write ?w _] => right; right; exists w
    end end; split_and!; writers_of; fail).
  left. split; [|done]. intros [g|g|]; simpl; [| |done].
  all: by destruct (new_loops_lookup (c_loops s) g) as [->|[-> ->]].
Qed.

(** Who met another is busy on the connection of some other, and the other way round. *)
Lemma met_step s l s' w : step pad s l = Some s' -> w ∈ c_met s' -> w ∈ c_met s \/ overlap w s'.
Proof using Type.
  intros Hs Hw. destruct (write_move_step _ _ _ Hs) as [[_ E]|[(v & c & Hv & Hv' & Ho & E)|(v & _ & _ & E)]]; rewrite E in Hw.
  - by left.
  - cbn [begin_write set_met c_met] in Hw. destruct (writing c s) as [|u us] eqn:Eu; [by left|].
    assert (Hin : forall x, x ∈ u :: us -> x <> v /\ in_write s' x = Some c).
    { intros x Hx. rewrite <- Eu, elem_of_writing in Hx. assert (x <> v) by congruence. split; [done|]. by rewrite Ho. }
    apply elem_of_cons in Hw as [->|[Hw|Hw]%elem_of_app]; [..|by left]; right.
    + destruct (Hin u ltac:(left)) as [Hu Hu']. by exists u, c.
    + destruct (Hin w Hw) as [Hn Hw']. exists v, c. by split_and!.
  - left. simpl in Hw. by apply list_elem_of_filter in Hw as [_ Hw].
Qed.

Definition meets (s : client) : Prop := forall w, overlap w s -> w ∈ c_met s.

Lemma meets_step s l s' : meets s -> step pad s l = Some s' -> meets s'.
Proof using Type.
  intros HM Hs w (u & d & Hne & Hw & Hu).
  destruct (write_move_step _ _ _ Hs) as [[Ho E]|[(v & c & Hv & Hv' & Ho & E)|(v & Hv' & Ho & E)]]; rewrite E.
  - rewrite Ho in Hw, Hu. apply HM. by exists u, d.
  - simpl. assert (Hother : forall x, x <> v -> in_write s' x = Some d -> in_write s x = Some d) by (intros x Hx <-; by rewrite Ho).
    destruct (decide (w = v)) as [->|Hwv].
    + assert (Hin : u ∈ writing c s) by (apply elem_of_writing; rewrite Hother by done; congruence).
      destruct (writing c s); [by apply not_elem_of_nil in Hin|left].
    + destruct (decide (u = v)) as [->|Huv].
      * assert (Hin : w ∈ writing c s) by (apply elem_of_writing; rewrite Hother by done; congruence).
        destruct (writing c s); set_solver.
      * assert (Hin : w ∈ c_met s) by (apply HM; exists u, d; auto).
        destruct (writing c s); set_solver.
  - simpl. apply list_elem_of_filter. split; [congruence|]. apply HM. exists u, d.
    split_and!; [done|rewrite <- Ho; congruence|rewrite <- Ho; congruence].
Qed.

Lemma meets_reachable n ls s : run (step pad) (client_init n) ls = Some s -> meets s.
Proof using Type.
  apply (run_invariant (step pad)); [apply meets_step|]. intros [g|g|] (u & d & _ & H & _); done.
Qed.

(** Some moment of the run [ls] had [w] and another writer on the same connection. *)
Definition overlapped (n : nat) (ls : list label) (w : writer) : Prop :=
  exists ls1 ls2 s1, ls = ls1 ++ ls2 /\ run (step pad) (client_init n) ls1 = Some s1 /\ overlap w s1.

Lemma overlapped_more n ls ls' w : overlapped n ls w -> overlapped n (ls ++ ls') w.
Proof using Type. intros (ls1 & ls2 & s1 & -> & H). exists ls1, (ls2 ++ ls'), s1. by rewrite app_assoc. Qed.

Record met_inv (n : nat) (ls : list label) (s : client) : Prop := {
  me_run : run (step pad) (client_init n) ls = Some s;
  me_met w : w ∈ c_met s -> overlapped n ls w;
  me_cause : c_cause s = Some ConcurrentWrite -> exists w, overlapped n ls w
}.

Lemma cause_step s l s' :
  step pad s l = Some s' -> c_cause s' = Some ConcurrentWrite -> c_cause s = Some ConcurrentWrite \/ exists w, w ∈ c_met s.
Proof using Type.
  intros Hs. step_cases Hs l; try match goal with |- context [c_onmsg ?s] => destruct (c_onmsg s) end.
  all: try (unfold wg_done; case_decide); simpl; eauto; done.
Qed.

Lemma met_run n ls s : run (step pad) (client_init n) ls = Some s -> met_inv n ls s.
Proof using Type.
  intros Hr. refine (run_induction (step pad) (fun _ => True) (met_inv n) _ ls [] _ s _ _ Hr).
  - intros ls0 s0 l s1 _ [HR HM HC] Hs.
    assert (HR' : run (step pad) (client_init n) (ls0 ++ [l]) = Some s1) by (rewrite run_app, HR; simpl; by rewrite Hs).
    split; [done| |].
    + intros w [Hw|Hw]%(met_step _ _ _ _ Hs); [by apply overlapped_more, HM|].
      exists (ls0 ++ [l]), [], s1. by rewrite app_nil_r.
    + intros [H|[w Hw]]%(cause_step _ _ _ Hs); [destruct (HC H) as [w Hw]; by exists w; apply overlapped_more|].
      exists w. by apply overlapped_more, HM.
  - by apply Forall_true.
  - split; simpl; [done|by intros w ?%elem_of_nil|done].
Qed.

(** A writer that meets another may panic. *)
Lemma overlap_panics s w :
  meets s -> c_panicked s = false -> overlap w s ->
  exists l s', step pad s l = Some s' /\ c_cause s' = Some ConcurrentWrite.
Proof using Type.
  intros HM HP Hw. specialize (HM w Hw). destruct Hw as (_ & c & _ & Hw & _).
  destruct w as [g|g|]; simpl in Hw.
  - destruct (c_loops s !! g) as [[r [| |d x| |] p]|] eqn:E; try done.
    exists (LWritePanic g). eexists. unfold step. rewrite HP, E. simpl. unfold concurrent_write. by rewrite decide_True.
  - destruct (c_loops s !! g) as [[r w [| |d x| |]]|] eqn:E; try done.
    exists (LPingPanic g). eexists. unfold step. rewrite HP, E. simpl. unfold concurrent_write. by rewrite decide_True.
  - destruct (c_closer s) eqn:E; try done.
    exists LClosePanic. eexists. unfold step. rewrite HP. simpl. rewrite E. unfold concurrent_write. by rewrite decide_True.
Qed.

End overlap.

(** ** Frames *)

Section frames.
Context (pad : nat -> Z).

(** The frames generation [g] took from [sendCh] and wrote, and what was written to [c]. *)
Definition taken_by (g : nat) (h : history) : list wsFrame := (filter (fun p => p.1 = g) (hi_taken h)).*2.
Definition written_by (g : nat) (h : history) : list wsFrame := (filter (fun p => p.1.1 = g) (hi_written h)).*2.
Definition written_to (c : conn) (h : history) : list wsFrame := (filter (fun p => p.1.2 = c) (hi_written h)).*2.

(** Taken against written, by the position of the [writeLoop]. *)
Definition write_flow (pc : option (loop_pc wsFrame)) (tk wr : list wsFrame) : Prop :=
  match pc with
  | None | Some LpStart => tk = [] /\ wr = []
  | Some (LpIdle _) => tk = wr
  | Some (LpBusy _ fr) => tk = wr ++ [fr]
  | Some LpExit | Some LpDone => all_but_one tk wr
  end.

(** The events received against the binary frames sent, by the position of the pump; only
    after the cancellation may it leave with an event in its hands. *)
Definition pump_flow (pc : pump_pc) (cancelled : bool) (evs : list ACEvent) (sent : list wsFrame) : Prop :=
  match pc with
  | PuSelect => event_frame pad <$> evs = sent
  | PuSend ev => event_frame pad <$> evs = sent ++ [event_frame pad ev]
  | PuExit | PuDone =>
      all_but_one (event_frame pad <$> evs) sent /\ (cancelled = false -> event_frame pad <$> evs = sent)
  end.

Definition binary (frs : list wsFrame) : list wsFrame := filter (fun fr => mt fr = BinaryMessage) frs.

Record frames_inv (s : client) : Prop := {
  fi_queue : (hi_taken (c_hist s)).*2 ++ ch_buf (c_send s) = hi_sent (c_hist s);
  fi_bound : chan_ok (c_send s);
  fi_cap : ch_cap (c_send s) = 1024%nat;
  fi_pump : pump_flow (c_pump s) (c_ctx_done s) (hi_events (c_hist s)) (binary (hi_sent (c_hist s)));
  fi_write g : write_flow (lp_write <$> c_loops s !! g) (taken_by g (c_hist s)) (written_by g (c_hist s))
}.

Lemma frames_init n : frames_inv (client_init n).
Proof using Type. split; simpl; auto with medusa. Qed.

Lemma taken_by_snoc g fr h d (p := (g, fr)) :
  (filter (fun p => p.1 = d) (hi_taken h ++ [p])).*2 = taken_by d h ++ (if decide (g = d) then [fr] else []).
Proof using Type. unfold taken_by, p. rewrite filter_app, fmap_app, filter_cons. simpl. by case_decide. Qed.

Lemma written_by_snoc g c fr h d (p := (g, c, fr)) :
  (filter (fun p => p.1.1 = d) (hi_written h ++ [p])).*2 = written_by d h ++ (if decide (g = d) then [fr] else []).
Proof using Type. unfold written_by, p. rewrite filter_app, fmap_app, filter_cons. simpl. by case_decide. Qed.

Lemma binary_snoc frs fr : binary (frs ++ [fr]) = binary frs ++ (if decide (mt fr = BinaryMessage) then [fr] else []).
Proof using Type. unfold binary. rewrite filter_app, filter_cons. by case_decide. Qed.

Lemma write_flow_any pc tk wr : write_flow pc tk wr -> all_but_one tk wr.
Proof using Type.
  destruct pc as [[]|]; simpl; try done.
  - intros [-> ->]. apply all_but_one_refl.
  - intros ->. apply all_but_one_refl.
  - intros ->. apply all_but_one_snoc.
  - intros [-> ->]. apply all_but_one_refl.
Qed.

(** The queue and the pump. *)
Lemma queue_step s l s' :
  frames_inv s -> step pad s l = Some s' ->
  (hi_taken (c_hist s')).*2 ++ ch_buf (c_send s') = hi_sent (c_hist s') /\
  chan_ok (c_send s') /\ ch_cap (c_send s') = 1024%nat /\
  pump_flow (c_pump s') (c_ctx_done s') (hi_events (c_hist s')) (binary (hi_sent (c_hist s'))).
Proof using Type.
  intros [HQ HB HK HP _] Hs. step_cases Hs l; try (by split_and!).
  all: try match goal with |- context [c_onmsg ?s] => destruct (c_onmsg s) end.
  all: try (unfold wg_done; case_decide); simpl in *.
  all: split_and!; try done;
    try first [eapply chan_send_ok; eassumption | eapply chan_recv_ok; eassumption | eapply chan_close_ok; eassumption].
  all: try (rewrite HP; first [apply all_but_one_refl | apply all_but_one_snoc]); chan_facts; simpl in *; try done.
  all: try match goal with E : c_pump _ = _ |- _ => rewrite E in *; clear E end; simpl in *.
  all: rewrite ?binary_snoc, ?fmap_app; simpl.
  all: rewrite ?app_nil_r; try done; try by rewrite HP.
  all: try (rewrite <- HQ, <- ?app_assoc; done || (simpl; congruence)).
  all: try (by apply HP); destruct (c_pump s); try exact HP; (split; [apply HP|done]).
Qed.

Lemma writers_step s l s' :
  (forall g, write_flow (lp_write <$> c_loops s !! g) (taken_by g (c_hist s)) (written_by g (c_hist s))) ->
  step pad s l = Some s' ->
  forall g, write_flow (lp_write <$> c_loops s' !! g) (taken_by g (c_hist s')) (written_by g (c_hist s')).
Proof using Type.
  intros HW Hs. step_cases Hs l; try exact HW.
  all: try match goal with |- context [c_onmsg ?s] => destruct (c_onmsg s) end.
  all: try (unfold wg_done; case_decide); try exact HW.
  all: intros g'; specialize (HW g'); unfold taken_by, written_by in *; simpl in *.
  all: rewrite ?taken_by_snoc, ?written_by_snoc; unfold taken_by, written_by.
  all: try (match goal with |- context [(c_loops ?s ++ [new_loops]) !! ?g] =>
    destruct (new_loops_lookup (c_loops s) g) as [->|[-> E']]; [exact HW|rewrite E' in HW; exact HW] end).
  all: try (erewrite lookup_update by eassumption); try case_decide; subst; rewrite ?app_nil_r; try exact HW.
  all: match goal with E : c_loops _ !! _ = Some _ |- _ => rewrite E in HW end; simpl in *; try exact HW.
  all: match goal with E : lp_write _ = _ |- _ => rewrite E in HW end; try exact HW.
  all: simpl in *; first
    [ destruct HW as [-> ->]; destruct (c_conn _); simpl; [done|apply all_but_one_refl]
    | by rewrite HW
    | rewrite HW; first [apply all_but_one_refl | apply all_but_one_snoc] ].
Qed.

Lemma frames_step s l s' : frames_inv s -> step pad s l = Some s' -> frames_inv s'.
Proof using Type.
  intros HI Hs. destruct (queue_step _ _ _ HI Hs) as (H1 & H2 & H3 & H4). split; try done.
  eapply writers_step; [apply HI|done].
Qed.

Lemma frames_reachable n ls s : run (step pad) (client_init n) ls = Some s -> frames_inv s.
Proof using Type. apply (run_invariant (step pad)); [apply frames_step|apply frames_init]. Qed.

(** The connections generation [g] wrote to: one, by the position of its write loop. *)
Definition conns_of (g : nat) (h : history) : list conn := (filter (fun p => p.1.1 = g) (hi_written h)).*1.*2.

Definition conn_flow (pc : option (loop_pc wsFrame)) (cs : list conn) : Prop :=
  match pc with
  | None | Some LpStart => cs = []
  | Some (LpIdle d) | Some (LpBusy d _) => Forall (fun c => c = d) cs
  | Some LpExit | Some LpDone => exists d, Forall (fun c => c = d) cs
  end.

Lemma conns_of_snoc g c fr h d (p := (g, c, fr)) :
  (filter (fun p => p.1.1 = d) (hi_written h ++ [p])).*1.*2 = conns_of d h ++ (if decide (g = d) then [c] else []).
Proof using Type. unfold conns_of, p. rewrite filter_app, !fmap_app, filter_cons. simpl. by case_decide. Qed.

Lemma conn_flow_any pc cs : conn_flow pc cs -> exists d, Forall (fun c => c = d) cs.
Proof using Type. destruct pc as [[|d|d| |]|]; simpl; try done; [intros ->; by exists 0%nat|by exists d|by exists d|intros ->; by exists 0%nat]. Qed.

Lemma conns_step s l s' :
  (forall g, conn_flow (lp_write <$> c_loops s !! g) (conns_of g (c_hist s))) -> step pad s l = Some s' ->
  forall g, conn_flow (lp_write <$> c_loops s' !! g) (conns_of g (c_hist s')).
Proof using Type.
  intros HW Hs. step_cases Hs l; try exact HW.
  all: try match goal with |- context [c_onmsg ?s] => destruct (c_onmsg s) end.
  all: try (unfold wg_done; case_decide); try exact HW.
  all: intros g'; specialize (HW g'); unfold conns_of in *; simpl in *.
  all: rewrite ?conns_of_snoc; unfold conns_of.
  all: try (erewrite lookup_update by eassumption); try case_decide; subst; rewrite ?app_nil_r; try exact HW.
  all: try (match goal with |- context [(c_loops ?s ++ [new_loops]) !! ?g] =>
    destruct (new_loops_lookup (c_loops s) g) as [->|[-> E']]; [exact HW|rewrite E' in HW; exact HW] end).
  all: match goal with E : c_loops _ !! _ = Some _ |- _ => rewrite E in HW end; simpl in *; try exact HW.
  all: match goal with E : lp_write _ = _ |- _ => rewrite E in HW end; try exact HW; simpl in *.
  all: first
    [ rewrite HW; destruct (c_conn _); simpl; [done|by exists 0%nat]
    | by eexists
    | by apply Forall_app; split; [|by constructor] ].
Qed.

Lemma conns_reachable n ls s :
  run (step pad) (client_init n) ls = Some s -> forall g, conn_flow (lp_write <$> c_loops s !! g) (conns_of g (c_hist s)).
Proof using Type.
  intros Hr. apply (run_invariant (step pad)
    (fun s => forall g, conn_flow (lp_write <$> c_loops s !! g) (conns_of g (c_hist s))) conns_step ls (client_init n) s); [|done].
  by intros g.
Qed.

(** The program's events are those the pump received and those still in the channel. *)
Definition events (ls : list label) : list ACEvent :=
  omap (fun l => match l with LEvent ev => Some ev | _ => None end) ls.

Definition ext_inv (n : nat) (evs : list ACEvent) (s : client) : Prop :=
  hi_events (c_hist s) ++ ch_buf (c_ext s) = evs.

Lemma ext_step n evs s l s' :
  ext_inv n evs s -> step pad s l = Some s' -> ext_inv n (evs ++ events [l]) s'.
Proof using Type.
  unfold ext_inv. intros HE Hs. step_cases Hs l.
  all: try match goal with |- context [c_onmsg ?s] => destruct (c_onmsg s) end.
  all: try (unfold wg_done; case_decide); chan_facts; simpl in *; rewrite ?app_nil_r, ?app_assoc; try done.
  rewrite H. by rewrite <- app_assoc.
Qed.

Lemma ext_run n ls s :
  run (step pad) (client_init n) ls = Some s -> ext_inv n (events ls) s.
Proof using Type.
  intros Hr. refine (run_induction (step pad) (fun _ => True) (fun ls => ext_inv n (events ls)) _ ls [] _ s _ _ Hr).
  - intros ls0 s0 l s1 _ HI Hs. unfold events. rewrite omap_app. by eapply ext_step.
  - by apply Forall_true.
  - done.
Qed.

Lemma taken_by_key g h : filter (fun p => p.1 = g) (hi_taken h) = pair g <$> taken_by g h.
Proof using Type. apply filter_key. Qed.

Lemma written_by_key g h :
  filter (fun p => p.1 = g) ((fun p => (p.1.1, p.2)) <$> hi_written h) = pair g <$> written_by g h.
Proof using Type.
  unfold written_by. induction (hi_written h) as [|[[d c] fr] l IH]; [done|].
  rewrite fmap_cons, !filter_cons. simpl. case_decide; [subst; simpl; by f_equal|done].
Qed.

(** The written frames are among the taken ones, each at most as often. *)
Lemma written_submseteq s : frames_inv s -> (hi_written (c_hist s)).*2 ⊆+ (hi_taken (c_hist s)).*2.
Proof using Type.
  intros [_ _ _ _ HW].
  enough (H : (fun p => (p.1.1, p.2)) <$> hi_written (c_hist s) ⊆+ hi_taken (c_hist s)).
  { apply (fmap_submseteq snd) in H. by rewrite <- list_fmap_compose in H. }
  apply submseteq_by_key. intros g. destruct (write_flow_any _ _ _ (HW g)) as (lost & _ & E).
  rewrite taken_by_key, written_by_key, E, fmap_app. by apply submseteq_inserts_r.
Qed.

End frames.

(** ** A writer left behind on a closed connection *)

Section stale.
Context (pad : nat -> Z).

(** The frame taken by generation [g] is [fr], its connection [c] is closed, and nothing
    but [w] was or will be written by it. *)
Definition stale_pc (c : conn) (pc : option (loop_pc wsFrame)) : Prop :=
  match pc with Some (LpBusy d _) => d = c | Some LpExit | Some LpDone => True | _ => False end.

Definition stale_inv (g : nat) (c : conn) (w : list wsFrame) (s : client) : Prop :=
  stale_pc c (lp_write <$> c_loops s !! g) /\ c_socks s !! c = Some false /\ written_by g (c_hist s) = w.

Lemma stale_step g c w s l s' : stale_inv g c w s -> step pad s l = Some s' -> stale_inv g c w s'.
Proof using Type.
  unfold stale_inv, written_by. intros (Hw & Hc & HW) Hs. step_cases Hs l; try (by split_and!).
  all: try match goal with |- context [c_onmsg ?s] => destruct (c_onmsg s) end.
  all: try (unfold wg_done; case_decide); try (by split_and!).
  all: simpl; rewrite ?written_by_snoc.
  all: try match goal with E : c_loops _ !! _ = Some _ |- _ => rewrite (lookup_update _ _ _ _ _ E) end.
  all: rewrite ?lookup_alter, ?lookup_insert; repeat case_decide; subst; rewrite ?Hc, ?app_nil_r; try (by split_and!).
  all: try match goal with E : c_loops ?s !! ?g = Some _, H : context [c_loops ?s !! ?g] |- _ => rewrite E in Hw end; simpl in *.
  all: try (by split_and!); try congruence.
  { split; [|done]. destruct (c_loops s !! g) as [lps|] eqn:Eg; [|done]. by rewrite (lookup_app_l_Some _ _ _ _ Eg). }
  all: match goal with E : lp_write _ = _ |- _ => rewrite E in Hw end; try done; subst.
  match goal with E : is_open _ _ = true |- _ => unfold is_open in E; simpl in E; by rewrite Hc in E end.
Qed.

End stale.

(** ** Shutdown *)

Section shutdown.
Context (pad : nat -> Z).

(** A bound on the steps to the end, once the context is cancelled. *)
Definition rank_closer (pc : closer_pc) : Z := match pc with KLock => 2 | KWrite _ => 1 | _ => 0 end.
Definition rank_pump (pc : pump_pc) : Z := match pc with PuSelect | PuSend _ => 2 | PuExit => 1 | PuDone => 0 end.
Definition rank_run (pc : run_pc) : Z :=
  match pc with
  | RnSetConn _ => 15 | RnSpawn => 14 | RnWait _ => 4 | RnTeardown => 3 | RnSleep => 3
  | RnConnect | RnDial | RnCheck => 2 | RnExit => 1 | RnDone => 0
  end.
Definition rank_loop {X} (pc : loop_pc X) : Z :=
  match pc with LpStart | LpBusy _ _ => 3 | LpIdle _ => 2 | LpExit => 1 | LpDone => 0 end.
Definition rank_loops (lps : loops) : Z := rank_loop (lp_read lps) + rank_loop (lp_write lps) + rank_loop (lp_ping lps).
Definition shutdown_rank (s : client) : Z :=
  rank_closer (c_closer s) + rank_pump (c_pump s) + rank_run (c_run s) + total rank_loops (c_loops s).

Lemma rank_loop_nonneg {X} (pc : loop_pc X) : 0 <= rank_loop pc.
Proof using Type. destruct pc; simpl; lia. Qed.

Lemma rank_loops_nonneg lps : 0 <= rank_loops lps.
Proof using Type.
  unfold rank_loops. pose proof (rank_loop_nonneg (lp_read lps)). pose proof (rank_loop_nonneg (lp_write lps)).
  pose proof (rank_loop_nonneg (lp_ping lps)). lia.
Qed.

Lemma shutdown_rank_nonneg s : 0 <= shutdown_rank s.
Proof using Type.
  unfold shutdown_rank. pose proof (total_nonneg rank_loops (c_loops s) rank_loops_nonneg).
  destruct (c_closer s), (c_pump s), (c_run s); simpl; lia.
Qed.

Lemma rank_start {X} c : rank_loop (start_loop (X := X) c) <= 2.
Proof using Type. destruct c; simpl; lia. Qed.

(** The invariant of the way down. *)
Record down (s : client) : Prop := {
  dn_wg : wg_inv s;
  dn_conn : conn_inv s;
  dn_ctx : c_ctx_done s = true;
  dn_alive : c_panicked s = false
}.

Lemma ctx_step s l s' : c_ctx_done s = true -> step pad s l = Some s' -> c_ctx_done s' = true.
Proof using Type.
  intros HC Hs. step_cases Hs l; try done.
  all: try match goal with |- context [c_onmsg ?s] => destruct (c_onmsg s) end.
  all: try (unfold wg_done; case_decide); done.
Qed.

(** A step without a panic stays on the way. *)
Lemma down_step s l s' : down s -> step pad s l = Some s' -> c_panicked s' = false -> down s'.
Proof using Type.
  intros [HW HC HX HP] Hs HP'. split; [by eapply wg_step|by eapply conn_step|by eapply ctx_step|done].
Qed.

Definition down_to (s s' : client) : Prop :=
  shutdown_rank s' < shutdown_rank s /\ c_panicked s' = false.

(** Take the enabled step [l]. *)
Ltac go_down l :=
  exists l; eexists; split;
  [ unfold step; repeat match goal with E : c_panicked _ = false |- _ => rewrite E end; simpl;
  try match goal with E : c_loops _ !! _ = Some _ |- _ => rewrite E; simpl end;
  repeat match goal with E : ?x = _ |- context [match ?x with _ => _ end] => rewrite E; simpl end;
  rewrite ?wg_done_pos by done; reflexivity
  | split; [unfold shutdown_rank; simpl | done] ].

Lemma live_pos s : down s -> live_pump (c_pump s) + live_run (c_run s) + live_all (c_loops s) = c_wg s.
Proof using Type. intros [HW _ _ _]. by rewrite (wi_count _ HW). Qed.

Lemma pump_progress s :
  down s -> 0 < c_wg s -> c_pump s <> PuDone -> exists l s', step pad s l = Some s' /\ down_to s s'.
Proof using Type.
  intros [HW HC HX HP] Hpos Hpc. destruct (c_pump s) eqn:E; try done.
  - go_down LPumpCtx. rewrite E. simpl. lia.
  - go_down LPumpCtx. rewrite E. simpl. lia.
  - go_down LPumpDone. rewrite E. simpl. lia.
Qed.

Lemma loop_progress s :
  down s -> 0 < c_wg s -> c_run s <> RnDone -> locked s = false ->
  exists l s', step pad s l = Some s' /\ down_to s s'.
Proof using Type.
  intros [HW HC HX HP] Hpos Hpc HL. destruct (c_run s) eqn:E; try done.
  - go_down LConnect. rewrite E. simpl. lia.
  - go_down (LDialFail true 0). rewrite E. simpl. lia.
  - go_down LWake. rewrite E. simpl. lia.
  - go_down LSetConn. rewrite E. simpl. lia.
  - go_down LSpawn. rewrite E, total_app. unfold rank_loops. simpl. lia.
  - go_down LSelectCtx. rewrite E. simpl. lia.
  - destruct (c_conn s) eqn:Ec.
    + go_down LTeardown. rewrite E. simpl. lia.
    + go_down LTeardown. rewrite E. simpl. lia.
  - go_down LCheck. rewrite E. simpl. lia.
  - go_down LRunDone. rewrite E. simpl. lia.
Qed.

(** The rank when the loops of one generation change. *)
Ltac rank_update Hg :=
  rewrite (total_insert _ _ _ _ _ Hg); unfold rank_loops; simpl.

Lemma generation_progress s g lps :
  down s -> 0 < c_wg s -> c_loops s !! g = Some lps -> 0 < live_loops lps -> locked s = false ->
  exists l s', step pad s l = Some s' /\ down_to s s'.
Proof using Type.
  intros [HW HC HX HP] Hpos Hg Hlive HL. destruct lps as [r w p].
  destruct r as [|c|c msg| |] eqn:Er.
  - go_down (LStart g Reading). rank_update Hg.
    pose proof (rank_start (X := list Z) (c_conn s)). lia.
  - go_down (LReadErr g). rank_update Hg. lia.
  - go_down (LCallback g). rank_update Hg. lia.
  - go_down (LLoopDone g Reading). rank_update Hg. lia.
  - destruct w as [|c|c fr| |] eqn:Ew.
    + go_down (LStart g Writing). rank_update Hg.
      pose proof (rank_start (X := wsFrame) (c_conn s)). lia.
    + go_down (LWriteCtx g). rank_update Hg. lia.
    + go_down (LWrite g false). rank_update Hg. lia.
    + go_down (LLoopDone g Writing). rank_update Hg. lia.
    + destruct p as [|c|c x| |] eqn:Ep; [..|unfold live_loops in Hlive; simpl in Hlive; lia].
      * go_down (LStart g Pinging). rank_update Hg. pose proof (rank_start (X := unit) (c_conn s)). lia.
      * go_down (LPingCtx g). rank_update Hg. lia.
      * go_down (LPinged g false). rank_update Hg. lia.
      * go_down (LLoopDone g Pinging). rank_update Hg. lia.
Qed.

Lemma shutdown_progress s :
  down s -> c_wg s <> 0 -> exists l s', step pad s l = Some s' /\ down s' /\ shutdown_rank s' < shutdown_rank s.
Proof using Type.
  intros HD Hwg. pose proof (live_pos s HD) as HL. pose proof (live_all_nonneg (c_loops s)).
  pose proof (live_pump_nonneg (c_pump s)). pose proof (live_run_nonneg (c_run s)).
  assert (Hpos : 0 < c_wg s) by lia.
  enough (exists l s', step pad s l = Some s' /\ down_to s s') as (l & s' & Hs & Hr & Hsend).
  { exists l, s'. split_and!; [done|by eapply down_step|done]. }
  destruct (locked s) eqn:Hlock.
  - unfold locked in Hlock. destruct (c_closer s) eqn:E; try done.
    destruct HD as [HW HC HX HP]. go_down LCloseWrite. rewrite E. simpl. lia.
  - destruct (decide (live_pump (c_pump s) = 0)) as [Hp|Hp];
      [|apply pump_progress; [done|done|intros E; by rewrite E in Hp]].
    destruct (decide (live_run (c_run s) = 0)) as [Hr|Hr];
      [|apply loop_progress; [done|done|intros E; by rewrite E in Hr|done]].
    destruct (total_pos live_loops (c_loops s) live_loops_nonneg ltac:(unfold live_all in *; lia)) as (g & lps & Hg & Hlive).
    by eapply generation_progress.
Qed.

End shutdown.

(** ** Delays and callbacks *)

Section delays.
Context (pad : nat -> Z).

(** The consecutive failures to connect, and the delays they call for. *)
Fixpoint failures (n : nat) (ls : list label) : nat :=
  match ls with
  | [] => n
  | LDialFail false _ :: ls' => failures (S n) ls'
  | LSpawn :: ls' => failures 0 ls'
  | _ :: ls' => failures n ls'
  end.

Fixpoint delays (n : nat) (ls : list label) : list (option Z) :=
  match ls with
  | [] => []
  | LDialFail false now :: ls' => Some (wrap_s 64 (base_delay n + Z.rem now (250 * Millisecond))) :: delays (S n) ls'
  | LSpawn :: ls' => delays 0 ls'
  | _ :: ls' => delays n ls'
  end.

Lemma failures_app n ls1 ls2 : failures n (ls1 ++ ls2) = failures (failures n ls1) ls2.
Proof using Type. revert n. induction ls1 as [|[] ls1 IH]; intros n; simpl; try case_match; auto. Qed.

Lemma delays_app n ls1 ls2 : delays n (ls1 ++ ls2) = delays n ls1 ++ delays (failures n ls1) ls2.
Proof using Type.
  revert n. induction ls1 as [|[] ls1 IH]; intros n; simpl; try case_match; auto. simpl. by f_equal.
Qed.

Definition delay_inv (ls : list label) (s : client) : Prop :=
  hi_sleeps (c_hist s) = delays 0 ls /\
    failures 0 ls = match c_run s with RnSleep => S (c_attempt s) | _ => c_attempt s end.

Lemma delay_step ls s l s' : delay_inv ls s -> step pad s l = Some s' -> delay_inv (ls ++ [l]) s'.
Proof using Type.
  unfold delay_inv. rewrite delays_app, failures_app. intros [HS HF] Hs. step_cases Hs l.
  all: try match goal with |- context [c_onmsg ?s] => destruct (c_onmsg s) end.
  all: try (unfold wg_done; case_decide).
  all: simpl; rewrite ?HS, ?app_nil_r, ?HF; try done.
  all: try match goal with E : c_run _ = _ |- _ => rewrite E in *; simpl in * end; try done.
  - by destruct (c_ctx_done s).
  - split; [|done]. by rewrite nextBackoff_default_eq.
  - by destruct (c_ctx_done s).
Qed.

Lemma delay_run n ls s : run (step pad) (client_init n) ls = Some s -> delay_inv ls s.
Proof using Type.
  intros Hr. refine (run_induction (step pad) (fun _ => True) delay_inv _ ls [] _ s _ _ Hr).
  - intros ls0 s0 l s1 _. apply delay_step.
  - by apply Forall_true.
  - done.
Qed.

(** The callback of [WithOnMessage] gets what is read from then on. *)
Definition callback_inv (s : client) : Prop :=
  hi_handled (c_hist s) `suffix_of` hi_received (c_hist s) /\
  (c_onmsg s = false -> hi_handled (c_hist s) = []).

Lemma callback_step s l s' : callback_inv s -> step pad s l = Some s' -> callback_inv s'.
Proof using Type.
  intros [HS HO] Hs. unfold callback_inv. step_cases Hs l.
  all: try match goal with |- context [if c_onmsg ?s then _ else _] => destruct (c_onmsg s) eqn:Eo end.
  all: try (unfold wg_done; case_decide); simpl in *; split; try done.
  - destruct HS as [k ->]. exists k. by rewrite app_assoc.
  - intros. congruence.
  - rewrite HO by done. apply suffix_nil.
  - intros _. by apply HO.
Qed.

Lemma handled_received n ls s :
  run (step pad) (client_init n) ls = Some s -> hi_handled (c_hist s) `suffix_of` hi_received (c_hist s).
Proof using Type.
  intros Hr. apply (run_invariant (step pad) callback_inv callback_step ls (client_init n)); done.
Qed.

Lemma received_step s l s' :
  step pad s l = Some s' ->
  hi_received (c_hist s') = hi_received (c_hist s) \/
  exists g mt msg, l = LRead g mt msg /\ hi_received (c_hist s') = hi_received (c_hist s) ++ [(g, msg)].
Proof using Type.
  intros Hs. step_cases Hs l; try match goal with |- context [c_onmsg ?s] => destruct (c_onmsg s) end.
  all: try (unfold wg_done; case_decide); simpl; eauto 10.
Qed.

(** With the callback in place, it gets every message. *)
Definition callback_all (s : client) : Prop :=
  c_onmsg s = true /\ hi_handled (c_hist s) = hi_received (c_hist s).

Lemma callback_all_step s l s' : callback_all s -> step pad s l = Some s' -> callback_all s'.
Proof using Type.
  intros [HO HE] Hs. unfold callback_all. step_cases Hs l; rewrite ?HO.
  all: try (unfold wg_done; case_decide); simpl in *; split; try done; by f_equal.
Qed.

End delays.

(** ** Properties *)

(** C13: what the write loops take from [sendCh] is what was sent on it, in order, and at most
    1024 frames wait.  No frame is written more often than it was taken, to whatever
    connection; and each generation's write loop writes what it takes, in order, all but at
    most its last frame (in flight, or lost with the failing write that ends the loop). *)
Theorem frames_at_most_once (pad : nat -> Z) (n : nat) (ls : list label) (s : client)
    (Hrun : run (step pad) (client_init n) ls = Some s) :
  (hi_taken (c_hist s)).*2 ++ ch_buf (c_send s) = hi_sent (c_hist s) /\
  (length (ch_buf (c_send s)) <= 1024)%nat /\
  (hi_written (c_hist s)).*2 ⊆+ (hi_taken (c_hist s)).*2 /\
  forall g, all_but_one (taken_by g (c_hist s)) (written_by g (c_hist s)).
Proof.
  pose proof (frames_reachable _ _ _ _ Hrun) as HI. split; [apply HI|]. split.
  - rewrite <- (fi_cap _ _ HI). apply (fi_bound _ _ HI).
  - split; [by eapply written_submseteq|]. intros g. eapply write_flow_any, (fi_write _ _ HI).
Qed.

(** C17: the pump receives the program's events in order, and sends each of them once, in
    order, as a binary frame with its image, all but at most the last one.  Without a
    cancellation it has sent all it received, but the one it is sending; it drops none. *)
Theorem pump_forwards_events (pad : nat -> Z) (n : nat) (ls : list label) (s : client)
    (Hrun : run (step pad) (client_init n) ls = Some s) :
  hi_events (c_hist s) ++ ch_buf (c_ext s) = events ls /\
  all_but_one (event_frame pad <$> hi_events (c_hist s)) (binary (hi_sent (c_hist s))) /\
  (c_pump s = PuSelect -> event_frame pad <$> hi_events (c_hist s) = binary (hi_sent (c_hist s))) /\
  (c_ctx_done s = false ->
     event_frame pad <$> hi_events (c_hist s)
     = binary (hi_sent (c_hist s)) ++ match c_pump s with PuSend ev => [event_frame pad ev] | _ => [] end).
Proof.
  pose proof (fi_pump _ _ (frames_reachable _ _ _ _ Hrun)) as HP. split; [by eapply ext_run|].
  split_and!; [|intros E; by rewrite E in HP|].
  - destruct (c_pump s); simpl in HP; [| |apply HP..]; rewrite HP; [apply all_but_one_refl|apply all_but_one_snoc].
  - intros Hctx. rewrite Hctx in HP. destruct (c_pump s); simpl in HP; rewrite ?app_nil_r; by try apply HP.
Qed.

(** C14: there is never more than one open connection.  When [Close] gets past its [Wait],
    every goroutine the client ever started has returned, every connection it ever made is
    closed, and the counter of the wait group is zero. *)
Theorem close_joins (pad : nat -> Z) (n : nat) (ls : list label) (s : client)
    (Hrun : run (step pad) (client_init n) ls = Some s) :
  (forall c d, is_open s c = true -> is_open s d = true -> c = d) /\
  c_wg s = live s /\
  (c_closer s = KCloseCh \/ ch_closed (c_send s) = true ->
   quiet s /\ c_conn s = None /\ forall c, is_open s c = false).
Proof.
  pose proof (wg_reachable _ _ _ _ Hrun) as [HC HZ _].
  pose proof (conn_reachable _ _ _ _ Hrun) as [HO HH _ _].
  split_and!; [|done|].
  - intros c d Hc Hd. destruct (HO c Hc) as [E1|E1], (HO d Hd) as [E2|E2]; try congruence.
    + exfalso. rewrite E2 in HH. by apply HH; rewrite E1.
    + exfalso. rewrite E1 in HH. by apply HH; rewrite E2.
  - intros Hcl. specialize (HZ Hcl). assert (HQ : quiet s) by (apply live_zero; lia).
    destruct HQ as (Hp & Hr & Hl). rewrite Hr in HH.
    assert (Hn : c_conn s = None) by (destruct (c_conn s); [exfalso; by apply HH|done]).
    split_and!; [by split|done|]. intros c. apply not_true_is_false. intros Hc.
    destruct (HO c Hc); congruence.
Qed.

(** C16: [Close] can complete: once the context is cancelled, every reachable state has a
    run of at most [shutdown_rank] steps, in which callbacks return and pending calls fail,
    to a state where the counter is zero and nothing has panicked. *)
Theorem close_completes (pad : nat -> Z) (n : nat) (ls : list label) (s : client)
    (Hrun : run (step pad) (client_init n) ls = Some s)
    (Hctx : c_ctx_done s = true) (Halive : c_panicked s = false) :
  exists ls' s', run (step pad) s ls' = Some s' /\ c_wg s' = 0 /\ c_panicked s' = false /\
    (length ls' <= Z.to_nat (shutdown_rank s))%nat.
Proof.
  destruct (run_progress (step pad) down (fun s => c_wg s = 0) (fun s => Z.to_nat (shutdown_rank s)))
    with (s := s) as (ls' & s' & Hr & HD & Hz & Hlen).
  - intros s0 HD. destruct (decide (c_wg s0 = 0)) as [|Hn]; [by left|right].
    destruct (shutdown_progress pad s0 HD Hn) as (l & s1 & Hs & HD1 & Hlt).
    exists l, s1. pose proof (shutdown_rank_nonneg s1). split_and!; [done|done|lia].
  - split; [by eapply wg_reachable|by eapply conn_reachable|done|done].
  - exists ls', s'. split_and!; [done|done|apply HD|done].
Qed.

(** The write loop and the ping loop of one connection write at the same time. *)
Definition colliding_run : list label :=
  [LConnect; LDialOk 0%nat; LSetConn; LSpawn; LStart 0%nat Writing; LStart 0%nat Pinging; LSendJSON [1];
   LTake 0%nat; LPing 0%nat; LPingPanic 0%nat].

(** C34: what panics in the client, and it is one of two things.  (1) The library's
    [WriteMessage], when it notices another one on its connection: some moment of the run
    had two goroutines in it on one connection.  Nothing keeps them apart: wherever there
    are two, a next step is the panic, and a run with a single connection gets there before
    [Close] is called.  (2) After [Close] closed [sendCh], when every goroutine of the client
    has returned, the send of a [SendJSON], or another [Close]: the [select] of [SendJSON]
    may take the send on the closed channel instead of returning its error. *)
Theorem client_panics (pad : nat -> Z) (n : nat) (ls : list label) (s : client)
    (Hrun : run (step pad) (client_init n) ls = Some s) :
  (c_panicked s = true ->
     (c_cause s = Some ConcurrentWrite /\
      exists ls1 ls2 s1 w, ls = ls1 ++ ls2 /\ run (step pad) (client_init n) ls1 = Some s1 /\ overlap w s1) \/
     ((c_cause s = Some SendOnClosed \/ c_cause s = Some CloseOfClosed) /\ ch_closed (c_send s) = true /\ quiet s)) /\
  (c_panicked s = false -> forall w, overlap w s ->
     exists l s', step pad s l = Some s' /\ c_cause s' = Some ConcurrentWrite) /\
  (exists s0, run (step pad) (client_init n) colliding_run = Some s0 /\
     c_cause s0 = Some ConcurrentWrite /\ c_ctx_done s0 = false) /\
  (ch_closed (c_send s) = true -> c_panicked s = false -> forall b,
     exists s', step pad s (LSendJSON b) = Some s' /\ c_cause s' = Some SendOnClosed).
Proof.
  pose proof (wg_reachable _ _ _ _ Hrun) as [HC HZ HP]. split_and!.
  - intros Hp. destruct (HP Hp) as [Hw|[Hcause Hcl]].
    + left. split; [done|]. destruct (me_cause _ _ _ _ (met_run _ _ _ _ Hrun) Hw) as (w & ls1 & ls2 & s1 & H).
      by exists ls1, ls2, s1, w.
    + right. split_and!; [done|done|]. apply live_zero. rewrite <- HC. auto.
  - intros Hp w. apply overlap_panics; [by eapply meets_reachable|done].
  - eexists. split; [vm_compute; reflexivity|]. split; reflexivity.
  - intros Hcl Hp b. eexists. unfold step. rewrite Hp. simpl. unfold chan_send. rewrite Hcl. by split.
Qed.

(** C15: nobody tells a write loop that its connection is gone.  Whenever one still waits on a
    closed connection, it may take the next frame, and then this frame is lost: no later run
    writes it, whatever connections are open. *)
Theorem stale_writer_loses_frame (pad : nat -> Z) (n : nat) (ls : list label) (s : client)
    (g : nat) (lps : loops) (c : conn) (fr : wsFrame) (rest : list wsFrame)
    (Hrun : run (step pad) (client_init n) ls = Some s) (Halive : c_panicked s = false)
    (Hg : c_loops s !! g = Some lps) (Hidle : lp_write lps = LpIdle c) (Hclosed : c_socks s !! c = Some false)
    (Hqueue : ch_buf (c_send s) = fr :: rest) :
  exists s1, step pad s (LTake g) = Some s1 /\
    taken_by g (c_hist s1) = taken_by g (c_hist s) ++ [fr] /\
    forall ls' s2, run (step pad) s1 ls' = Some s2 -> written_by g (c_hist s2) = taken_by g (c_hist s).
Proof.
  pose proof (fi_write _ _ (frames_reachable _ _ _ _ Hrun) g) as HW. rewrite Hg in HW. simpl in HW.
  rewrite Hidle in HW. simpl in HW.
  eexists. split.
  { unfold step. rewrite Halive. simpl. rewrite Hg. simpl. rewrite Hidle. unfold chan_recv. by rewrite Hqueue. }
  split.
  - unfold taken_by. simpl. rewrite taken_by_snoc. by rewrite decide_True.
  - intros ls' s2 Hr. rewrite HW.
    apply (run_invariant (step pad) _ (stale_step pad g c (written_by g (c_hist s))) ls' _ s2) in Hr; [apply Hr|].
    split_and!; [|done|done]. simpl. by rewrite (lookup_update _ _ _ _ _ Hg), decide_True.
Qed.

(** C36: the client sleeps exactly after failed dials, the delay being that of the number of
    consecutive failures before it: it starts over at 500ms after every connection. *)
Theorem backoff_schedule (pad : nat -> Z) (n : nat) (ls : list label) (s : client)
    (Hrun : run (step pad) (client_init n) ls = Some s) :
  hi_sleeps (c_hist s) = delays 0 ls.
Proof. by destruct (delay_run _ _ _ _ Hrun). Qed.

(** The callback of [WithOnMessage] gets the text and binary messages read since it was
    set, each once, in the order they were read; those read before are dropped.  When it is
    set before anything else happens it gets all. *)
Theorem callback_messages (pad : nat -> Z) (n : nat) (ls : list label) (s : client)
    (Hrun : run (step pad) (client_init n) ls = Some s) :
  hi_handled (c_hist s) `suffix_of` hi_received (c_hist s) /\
  (head ls = Some LWithOnMessage -> hi_handled (c_hist s) = hi_received (c_hist s)).
Proof.
  split.
  - apply (run_invariant (step pad) callback_inv (callback_step pad) ls (client_init n)); done.
  - destruct ls as [|l ls]; [done|]. intros E. injection E as ->. simpl in Hrun.
    by apply (run_invariant (step pad) callback_all (callback_all_step pad) ls _ s) in Hrun as [_ ?].
Qed.

(** The goroutines inside a [WriteMessage] on [c]. *)
Definition busy_on {X} (c : conn) (pc : loop_pc X) : bool :=
  match pc with LpBusy d _ => bool_decide (d = c) | _ => false end.
Definition writers (c : conn) (s : client) : nat :=
  length (filter (fun lps => busy_on c (lp_write lps) = true) (c_loops s)) +
  length (filter (fun lps => busy_on c (lp_ping lps) = true) (c_loops s)) +
  match c_closer s with KWrite d => if decide (d = c) then 1 else 0 | _ => 0 end.

(** A connection breaks while its write loop has not yet run; the loop then picks up the
    next connection, on which both write loops, the ping loop and [Close] write at once. *)
Definition racing_run : list label :=
  [LConnect; LDialOk 0%nat; LSetConn; LSpawn; LStart 0%nat Reading; LReadErr 0%nat; LSelect Reading; LTeardown; LCheck;
   LConnect; LDialOk 1%nat; LSetConn; LSpawn; LStart 0%nat Writing; LStart 1%nat Writing; LStart 1%nat Pinging;
   LSendJSON [1]; LSendJSON [2]; LTake 0%nat; LTake 1%nat; LPing 1%nat; LClose; LCloseLock].

(** C35: nothing keeps the goroutines from writing to one connection at the same time, which
    the WebSocket library forbids: a run reaches a state with four of them inside
    [WriteMessage] on the same open connection. *)
Theorem concurrent_writers_reachable (pad : nat -> Z) (n : nat) :
  exists ls s, run (step pad) (client_init n) ls = Some s /\ is_open s 1%nat = true /\ writers 1%nat s = 4%nat.
Proof. exists racing_run. eexists. split; [vm_compute; reflexivity|]. split; vm_compute; reflexivity. Qed.

(** ** Witnesses *)

(** A failed dial, a connection on which an event and a message travel, its loss, a second
    connection while the first write loop still waits, and a frame to send. *)
Definition demo_lost : list label :=
  [LWithOnMessage; LEvent sample_event; LConnect; LDialFail false 7; LWake; LConnect; LDialOk 0%nat; LSetConn; LSpawn;
   LStart 0%nat Reading; LStart 0%nat Writing; LStart 0%nat Pinging; LPumpRecv; LPumpSend; LTake 0%nat;
   LWrite 0%nat true; LRead 0%nat TextMessage [115]; LCallback 0%nat; LReadErr 0%nat; LSelect Reading; LTeardown; LCheck;
   LConnect; LDialOk 1%nat; LSetConn; LSpawn; LSendJSON [9]].
Definition demo_shutdown : list label :=
  [LClose; LCloseLock; LCloseWrite; LPumpCtx; LPumpDone; LStart 1%nat Reading; LStart 1%nat Writing; LStart 1%nat Pinging;
   LLoopDone 0%nat Reading; LWriteCtx 0%nat; LPingCtx 0%nat; LLoopDone 0%nat Writing; LLoopDone 0%nat Pinging;
   LLoopDone 1%nat Reading; LLoopDone 1%nat Writing; LLoopDone 1%nat Pinging;
   LSelectCtx; LTeardown; LCheck; LRunDone; LWgWait; LCloseSend].

Definition zero_pad : nat -> Z := fun _ => 0.
Definition demo (ls : list label) : client := after (step zero_pad) (client_init 4) ls.

Lemma demo_runs ls :
  runs (step zero_pad) (client_init 4) ls = true -> run (step zero_pad) (client_init 4) ls = Some (demo ls).
Proof. apply run_after. Qed.

Lemma frames_at_most_once_witness :
  (hi_taken (c_hist (demo demo_lost))).*2 ++ ch_buf (c_send (demo demo_lost)) = hi_sent (c_hist (demo demo_lost)) /\
  all_but_one (taken_by 0 (c_hist (demo demo_lost))) (written_by 0 (c_hist (demo demo_lost))).
Proof.
  destruct (frames_at_most_once zero_pad 4 demo_lost (demo demo_lost)) as (E & _ & _ & H).
  - apply demo_runs. vm_compute. reflexivity.
  - split; [exact E|exact (H 0%nat)].
Defined.

Lemma pump_forwards_events_witness :
  event_frame zero_pad <$> hi_events (c_hist (demo demo_lost)) = binary (hi_sent (c_hist (demo demo_lost))).
Proof.
  destruct (pump_forwards_events zero_pad 4 demo_lost (demo demo_lost)) as (_ & _ & H & _).
  - apply demo_runs. vm_compute. reflexivity.
  - apply H. vm_compute. reflexivity.
Defined.

Lemma close_joins_witness : quiet (demo (demo_lost ++ demo_shutdown)).
Proof.
  destruct (close_joins zero_pad 4 (demo_lost ++ demo_shutdown) (demo (demo_lost ++ demo_shutdown))) as (_ & _ & H).
  - apply demo_runs. vm_compute. reflexivity.
  - apply H. right. vm_compute. reflexivity.
Defined.

Lemma close_completes_witness :
  exists ls' s', run (step zero_pad) (demo (demo_lost ++ [LClose])) ls' = Some s' /\ c_wg s' = 0 /\ c_panicked s' = false /\
    (length ls' <= Z.to_nat (shutdown_rank (demo (demo_lost ++ [LClose]))))%nat.
Proof.
  apply (close_completes zero_pad 4 (demo_lost ++ [LClose])).
  - apply demo_runs. vm_compute. reflexivity.
  - vm_compute. reflexivity.
  - vm_compute. reflexivity.
Defined.

Lemma client_panics_witness :
  (exists s', step zero_pad (demo (demo_lost ++ demo_shutdown)) (LSendJSON [9]) = Some s' /\ c_cause s' = Some SendOnClosed) /\
  (exists l s', step zero_pad (demo racing_run) l = Some s' /\ c_cause s' = Some ConcurrentWrite).
Proof.
  split.
  - destruct (client_panics zero_pad 4 (demo_lost ++ demo_shutdown) (demo (demo_lost ++ demo_shutdown))) as (_ & _ & _ & H).
    + apply demo_runs. vm_compute. reflexivity.
    + apply H; vm_compute; reflexivity.
  - destruct (client_panics zero_pad 4 racing_run (demo racing_run)) as (_ & H & _).
    + apply demo_runs. vm_compute. reflexivity.
    + apply (H ltac:(vm_compute; reflexivity) Closer). exists (PingWriter 1), 1%nat.
      split_and!; [discriminate|vm_compute; reflexivity|vm_compute; reflexivity].
Defined.

(** The second connection is open, and the frame is lost. *)
Lemma stale_writer_loses_frame_witness :
  is_open (demo demo_lost) 1%nat = true /\
  exists s1, step zero_pad (demo demo_lost) (LTake 0) = Some s1 /\
    taken_by 0 (c_hist s1) = taken_by 0 (c_hist (demo demo_lost)) ++ [mkFrame TextMessage [9]] /\
    forall ls' s2, run (step zero_pad) s1 ls' = Some s2 -> written_by 0 (c_hist s2) = taken_by 0 (c_hist (demo demo_lost)).
Proof.
  split; [vm_compute; reflexivity|].
  apply (stale_writer_loses_frame zero_pad 4 demo_lost (demo demo_lost) 0 (mkLoops LpExit (LpIdle 0%nat) (LpIdle 0%nat))
    0%nat (mkFrame TextMessage [9]) []).
  - apply demo_runs. vm_compute. reflexivity.
  - vm_compute. reflexivity.
  - vm_compute. reflexivity.
  - reflexivity.
  - vm_compute. reflexivity.
  - vm_compute. reflexivity.
Defined.

Lemma backoff_schedule_witness : hi_sleeps (c_hist (demo demo_lost)) = [Some (500 * Millisecond + 7)].
Proof.
  etransitivity; [apply (backoff_schedule zero_pad 4 demo_lost)|].
  - apply demo_runs. vm_compute. reflexivity.
  - vm_compute. reflexivity.
Defined.

