(* ===== verification/Injector.v ===== *)
(** * DLL injection

    [injectDLLIntoPID] of [MedusaUserlandAgent/Injector.go] as an interaction tree over the
    Windows calls it makes.  [windows.UTF16FromString] is a parameter. *)

From S2P Require Import Prelude Layout GoText Windows.

(** The calls, with their answers. *)
Inductive injectE : Type -> Type :=
  | OpenProcess (access : Z) (inherit : bool) (pid : Z) : injectE (handle + werr)
  | CloseHandle (h : handle) : injectE unit
  | VirtualAllocEx (h : handle) (addr size alloc protect : Z) : injectE (Z * werr)
  | WriteProcessMemory (h : handle) (addr : Z) (data : list Z) : injectE (option werr)
  | GetProcAddress (name : string) : injectE (Z + werr)
  | CreateRemoteThread (h : handle) (start param : Z) : injectE (handle * werr)
  | WaitForSingleObject (h : handle) (timeout : Z) : injectE (Z * option werr)
  | GetExitCodeThread (h : handle) : injectE (Z * Z).

#[global] Instance inject_handles : Handles injectE := {|
  uses X e :=
    match e with
    | VirtualAllocEx h _ _ _ _ | WriteProcessMemory h _ _ | CreateRemoteThread h _ _
    | WaitForSingleObject h _ | GetExitCodeThread h => [h]
    | _ => []
    end;
  opens X e :=
    match e in injectE X return X -> option handle with
    | OpenProcess _ _ _ => fun a => match a with inl h => Some h | inr _ => None end
    | CreateRemoteThread _ _ _ => fun a => if decide (a.1 = 0) then None else Some a.1
    | _ => fun _ => None
    end;
  closes X e := match e with CloseHandle h => Some h | _ => None end
|}.

Definition PROCESS_CREATE_THREAD : Z := 0x2.
Definition PROCESS_VM_OPERATION : Z := 0x8.
Definition PROCESS_VM_READ : Z := 0x10.
Definition PROCESS_VM_WRITE : Z := 0x20.
Definition PROCESS_QUERY_INFORMATION : Z := 0x400.
Definition MEM_COMMIT : Z := 0x1000.
Definition MEM_RESERVE : Z := 0x2000.
Definition PAGE_READWRITE : Z := 0x4.
Definition INFINITE : Z := 0xFFFFFFFF.

Definition inject_access : Z :=
  Z.lor (Z.lor (Z.lor (Z.lor PROCESS_CREATE_THREAD PROCESS_QUERY_INFORMATION) PROCESS_VM_OPERATION)
    PROCESS_VM_WRITE) PROCESS_VM_READ.

(** The error returned, [None] being [nil]. *)
Inductive inject_error := Err (e : werr) | LoadLibraryFailed (exitcode : Z).

(** The memory of a [[]uint16]. *)
Definition units_bytes (us : list Z) : list Z := mjoin (le_bytes 2 <$> us).

Section code.
Context (UTF16FromString : list Z -> list Z + werr).

(** [injectDLLIntoPID(pid, dllPath)] *)
Definition injectDLLIntoPID (pid : Z) (dllPath : list Z) : itree injectE (option inject_error) :=
  let* p := call* (OpenProcess inject_access false (wrap_u 32 pid)) in
  match p with
  | inr err => Ret (Some (Err err))
  | inl hProc =>
      deferring (call* (CloseHandle hProc))
        match UTF16FromString dllPath with
        | inr err => Ret (Some (Err err))
        | inl pathW =>
            let nbytes := wrap_u 64 (Z.of_nat (length pathW) * 2) in
            let* r := call* (VirtualAllocEx hProc 0 nbytes (Z.lor MEM_RESERVE MEM_COMMIT) PAGE_READWRITE) in
            let '(r1, e) := r in
            if decide (r1 = 0) then Ret (Some (Err e))
            else
              let remoteBuf := r1 in
              let* w := call* (WriteProcessMemory hProc remoteBuf (take (Z.to_nat nbytes) (units_bytes pathW))) in
              match w with
              | Some err => Ret (Some (Err err))
              | None =>
                  let* l := call* (GetProcAddress "LoadLibraryW") in
                  match l with
                  | inr err => Ret (Some (Err err))
                  | inl loadlibW =>
                      let* t := call* (CreateRemoteThread hProc loadlibW remoteBuf) in
                      let '(th, e) := t in
                      if decide (th = 0) then Ret (Some (Err e))
                      else
                        let hThread := th in
                        deferring (call* (CloseHandle hThread))
                          (let* _ := call* (WaitForSingleObject hThread INFINITE) in
                          let* x := call* (GetExitCodeThread hThread) in
                          let '(ok, exitcode) := x in
                          if decide (ok = 0 \/ exitcode = 0) then Ret (Some (LoadLibraryFailed exitcode))
                          else Ret None)
                  end
              end
        end
  end.
End code.

(** The NUL-terminated UTF-16 of a text. *)
Definition wide (path : list Z) : list Z := utf16_encode (runes_of_string path) ++ [0].

Lemma units_bytes_length us : length (units_bytes us) = (2 * length us)%nat.
Proof. unfold units_bytes. induction us as [|u us IH]; [done|]. rewrite fmap_cons, mjoin_cons. len. Qed.

(** C10: in every execution of [injectDLLIntoPID], whatever the path and its conversion, the
    process and thread handles that were opened are closed, each once, and used only before.
    For a path that converts it returns [nil] exactly when a thread was started at
    [LoadLibraryW] in the process [uint32(pid)], on a buffer of just the size of the path's
    NUL-terminated UTF-16 that was filled with it, was waited for, whatever the wait answered,
    and had an exit code other than 0 then; [STILL_ACTIVE], of a thread that runs on after a
    failed wait, is one. *)
Theorem inject_calls (UTF16FromString : list Z -> list Z + werr) (pid : Z) (path : list Z) :
  (forall tr r, does (injectDLLIntoPID UTF16FromString pid path) tr r -> balanced [] tr) /\
  (UTF16FromString path = inl (wide path) -> Z.of_nat (length (wide path)) < 2 ^ 62 ->
   forall tr, does (injectDLLIntoPID UTF16FromString pid path) tr None <->
     exists hProc buf e1 loadlibW hThread e2 waited ok exitcode,
     buf <> 0 /\ hThread <> 0 /\ ok <> 0 /\ exitcode <> 0 /\
     tr = [Call (OpenProcess inject_access false (wrap_u 32 pid)) (inl hProc);
           Call (VirtualAllocEx hProc 0 (2 * Z.of_nat (length (wide path))) (Z.lor MEM_RESERVE MEM_COMMIT) PAGE_READWRITE) (buf, e1);
           Call (WriteProcessMemory hProc buf (units_bytes (wide path))) None;
           Call (GetProcAddress "LoadLibraryW") (inl loadlibW);
           Call (CreateRemoteThread hProc loadlibW buf) (hThread, e2);
           Call (WaitForSingleObject hThread INFINITE) waited;
           Call (GetExitCodeThread hThread) (ok, exitcode);
           Call (CloseHandle hThread) tt;
           Call (CloseHandle hProc) tt]).
Proof.
  unfold injectDLLIntoPID. cbv zeta. split; [intros tr r H; run_calls H; subst; balance|].
  intros -> Hlen tr.
  rewrite (wrap_u_small 64) by (lia || (unfold in_u; lia)).
  rewrite take_ge by (rewrite units_bytes_length; lia).
  rewrite (Z.mul_comm (Z.of_nat _)). split.
  - intros H. run_calls H; subst.
    eexists _, _, _, _, _, _, _, _, _. split_and!; [| | | |reflexivity]; first [assumption | intros ?; match goal with D : ~ (_ \/ _) |- _ => apply D; by auto end].
  - intros (hProc & buf & e1 & loadlibW & hThread & e2 & waited & ok & exitcode & Hb & Ht & Hok & Hex & ->). make_calls.
Qed.

(** ** Witness *)

(** The wait fails, and the thread is still active. *)
Definition STILL_ACTIVE : Z := 259.

Lemma inject_calls_witness :
  does (injectDLLIntoPID (fun s => inl (wide s)) (-1) [67; 58; 92; 97])
    [Call (OpenProcess inject_access false 0xFFFFFFFF) (inl 8);
     Call (VirtualAllocEx 8 0 10 (Z.lor MEM_RESERVE MEM_COMMIT) PAGE_READWRITE) (4096, OtherError);
     Call (WriteProcessMemory 8 4096 [67; 0; 58; 0; 92; 0; 97; 0; 0; 0]) None;
     Call (GetProcAddress "LoadLibraryW") (inl 77);
     Call (CreateRemoteThread 8 77 4096) (12, OtherError);
     Call (WaitForSingleObject 12 INFINITE) (0xFFFFFFFF, Some (Errno 6));
     Call (GetExitCodeThread 12) (1, STILL_ACTIVE);
     Call (CloseHandle 12) tt;
     Call (CloseHandle 8) tt] None.
Proof.
  refine (proj2 (proj2 (inject_calls (fun s => inl (wide s)) (-1) [67; 58; 92; 97]) _ _ _) _).
  - reflexivity.
  - vm_compute. reflexivity.
  - exists 8, 4096, OtherError, 77, 12, OtherError, (0xFFFFFFFF, Some (Errno 6)), 1, STILL_ACTIVE. split_and!; (lia || reflexivity || discriminate).
Defined.
