(* ===== verification/DLLScanner.v ===== *)
(** * The DLL scanner

    [MedusaUserlandAgent/DLLScanner.go]: [enableSeDebugPrivilege], [GetProcessModules] and
    [executeDLLScan] as interaction trees.  The loop over the snapshot is [ITree.iter], so
    it has no bound of its own.  [windows.UTF16ToString] is a parameter. *)

From S2P Require Import Prelude Layout GoText ACEvent EventText Windows.

Record ModuleInfo := mkModuleInfo { Name : list Z; Path : list Z; Base : Z; Size : Z }.

Definition TH32CS_SNAPMODULE : Z := 0x8.
Definition TH32CS_SNAPMODULE32 : Z := 0x10.
Definition SE_DEBUG_NAME : string := "SeDebugPrivilege".
Definition TOKEN_ADJUST_PRIVILEGES : Z := 0x20.
Definition TOKEN_QUERY : Z := 0x8.
Definition SE_PRIVILEGE_ENABLED : Z := 0x2.

Record moduleEntry32W := mkModuleEntry {
  me_Size : Z; me_ModuleID : Z; me_ProcessID : Z; me_GlblcntUsage : Z; me_ProccntUsage : Z;
  me_ModBaseAddr : Z; me_ModBaseSize : Z; me_hModule : Z;
  me_SzModule : list Z; me_SzExePath : list Z
}.

(** The declaration, field by field, on amd64. *)
Definition moduleEntry32W_fields : list field :=
  [ Field u32 1; Field u32 1; Field u32 1; Field u32 1; Field u32 1; Field u64 1; Field u32 1; Field u64 1;
    Field u16 256; Field u16 260 ].

Definition zero_entry : moduleEntry32W :=
  mkModuleEntry 0 0 0 0 0 0 0 0 (replicate 256 0) (replicate 260 0).

(** [me.Size = uint32(unsafe.Sizeof(me))] *)
Definition set_size (me : moduleEntry32W) : moduleEntry32W :=
  mkModuleEntry (wrap_u 32 (Z.of_nat (sizeof moduleEntry32W_fields))) (me_ModuleID me) (me_ProcessID me)
    (me_GlblcntUsage me) (me_ProccntUsage me) (me_ModBaseAddr me) (me_ModBaseSize me) (me_hModule me)
    (me_SzModule me) (me_SzExePath me).

(** The calls, with their answers.  A LUID is a number; [Module32FirstW] and
    [Module32NextW] answer with the result, the new contents of the entry and the last
    error; [Send ev] is [EventChannel <- ev]; [Println] prints an error. *)
Inductive scan_error := Snapshot (e : option werr) | First (e : werr).

Inductive scanE : Type -> Type :=
  | OpenProcessToken (access : Z) : scanE (handle + werr)
  | LookupPrivilegeValue (name : string) : scanE (Z + werr)
  | AdjustTokenPrivileges (tok : handle) (luid attributes : Z) : scanE (option werr)
  | CreateToolhelp32Snapshot (flags pid : Z) : scanE (handle * option werr)
  | Module32FirstW (snap : handle) (me : moduleEntry32W) : scanE (Z * moduleEntry32W * werr)
  | Module32NextW (snap : handle) (me : moduleEntry32W) : scanE (Z * moduleEntry32W)
  | CloseHandle (h : handle) : scanE unit
  | Send (ev : ACEvent) : scanE unit
  | Println (err : scan_error) : scanE unit.

#[global] Instance scan_handles : Handles scanE := {|
  uses X e :=
    match e with
    | AdjustTokenPrivileges h _ _ | Module32FirstW h _ | Module32NextW h _ => [h]
    | _ => []
    end;
  opens X e :=
    match e in scanE X return X -> option handle with
    | OpenProcessToken _ => fun a => match a with inl h => Some h | inr _ => None end
    | CreateToolhelp32Snapshot _ _ => fun a => if decide (a.1 = InvalidHandle) then None else Some a.1
    | _ => fun _ => None
    end;
  closes X e := match e with CloseHandle h => Some h | _ => None end
|}.

Definition enableSeDebugPrivilege : itree scanE (option werr) :=
  let* t := call* (OpenProcessToken (Z.lor TOKEN_ADJUST_PRIVILEGES TOKEN_QUERY)) in
  match t with
  | inr err => Ret (Some err)
  | inl hTok =>
      deferring (call* (CloseHandle hTok))
        (let* l := call* (LookupPrivilegeValue SE_DEBUG_NAME) in
         match l with
         | inr err => Ret (Some err)
         | inl luid =>
             let* r := call* (AdjustTokenPrivileges hTok luid SE_PRIVILEGE_ENABLED) in Ret r
         end)
  end.

Section code.
Context (UTF16ToString : list Z -> list Z).

Definition module_info (me : moduleEntry32W) : ModuleInfo :=
  {| Name := UTF16ToString (me_SzModule me); Path := UTF16ToString (me_SzExePath me);
     Base := me_ModBaseAddr me; Size := me_ModBaseSize me |}.

(** One turn of the loop of [GetProcessModules]: append, and ask for the next entry. *)
Definition next_module (snap : handle) (st : list ModuleInfo * moduleEntry32W) :
    itree scanE ((list ModuleInfo * moduleEntry32W) + list ModuleInfo) :=
  let '(out, me) := st in
  let out := out ++ [module_info me] in
  let* r := call* (Module32NextW snap (set_size me)) in
  let '(ok, me) := r in
  if decide (ok = 0) then Ret (inr out) else Ret (inl (out, me)).

(** [GetProcessModules(pid)] *)
Definition GetProcessModules (pid : Z) : itree scanE (list ModuleInfo + scan_error) :=
  let* _ := enableSeDebugPrivilege in
  let* s := call* (CreateToolhelp32Snapshot (Z.lor TH32CS_SNAPMODULE TH32CS_SNAPMODULE32) pid) in
  let '(snap, err) := s in
  if decide (snap = InvalidHandle) then Ret (inr (Snapshot err))
  else
    deferring (call* (CloseHandle snap))
      (let* f := call* (Module32FirstW snap (set_size zero_entry)) in
      let '(ok, me, e1) := f in
      if decide (ok = 0) then Ret (inr (First e1))
      else let* out := ITree.iter (next_module snap) ([], me) in Ret (inl out)).

(** The event for a module. *)
Definition dll_event (m : ModuleInfo) : ACEvent :=
  {| Src := 1; EventType := StringZ260U16 (lit "DLLScan"); CallerPID := 0; TargetPID := 0; ThreadID := 0;
     ImageFileName := StringZ260I32 (Path m); CommandLine := StringZ1024U16 []; IsCreate := 0;
     ImageBase := Base m; ImageSize := Size m |}.

(** [for _, m := range mods { ...; EventChannel <- dllEvent }] *)
Fixpoint send_all (mods : list ModuleInfo) : itree scanE unit :=
  match mods with
  | [] => Ret tt
  | m :: mods' => let* _ := call* (Send (dll_event m)) in send_all mods'
  end.

(** [executeDLLScan(pid)] *)
Definition executeDLLScan (pid : Z) : itree scanE unit :=
  let* r := GetProcessModules (wrap_u 32 pid) in
  match r with
  | inr err => let* _ := call* (Println err) in Ret tt
  | inl mods => send_all mods
  end.
End code.

(** ** What a trace shows *)

(** The entries Windows answered with. *)
Definition entry_of {X} (e : scanE X) : X -> list moduleEntry32W :=
  match e in scanE X return X -> list moduleEntry32W with
  | Module32FirstW _ _ => fun a => let '(ok, me, _) := a in if decide (ok = 0) then [] else [me]
  | Module32NextW _ _ => fun a => let '(ok, me) := a in if decide (ok = 0) then [] else [me]
  | _ => fun _ => []
  end.

Definition sent_by {X} (e : scanE X) (_ : X) : list ACEvent := match e with Send ev => [ev] | _ => [] end.

Notation entries := (collect (@entry_of)).
Notation sent := (collect (@sent_by)).

(** The processes of which a snapshot was taken. *)
Definition snapshot_of {X} (e : scanE X) (_ : X) : list Z :=
  match e with CreateToolhelp32Snapshot _ pid => [pid] | _ => [] end.
Notation snapshots := (collect (@snapshot_of)).

Section facts.
Context (UTF16ToString : list Z -> list Z).

(** A part of a trace that neither sends nor leaves handles open. *)
Definition silent (hs : list handle) (tr : list (call scanE)) : Prop := sent tr = [] /\ balanced hs tr.

Lemma privilege_silent tr r : does enableSeDebugPrivilege tr r -> silent [] tr /\ entries tr = [].
Proof using Type.
  unfold enableSeDebugPrivilege. intros H. run_calls H; subst; (split; [split; [done|balance]|done]).
Qed.

Lemma loop_modules snap out me tr mods :
  does (ITree.iter (next_module UTF16ToString snap) (out, me)) tr mods ->
  mods = out ++ (module_info UTF16ToString <$> me :: entries tr) /\ silent [snap] tr.
Proof using Type.
  apply (does_iter_ind _ (fun st tr mods =>
    mods = st.1 ++ (module_info UTF16ToString <$> st.2 :: entries tr) /\ silent [snap] tr)); clear.
  - intros [out me] tr1 st' ([ok me'] & tr1' & -> & H1)%does_call.
    destruct (decide (ok = 0)) as [Hok|Hok]; apply does_ret in H1 as [-> [= ->]].
    split; [done|]. intros tr2 r [-> [Hs Hb]]. split; [|split; [exact Hs|by apply balanced_use; [..|repeat constructor|]]].
    rewrite collect_app. unfold collect at 2. simpl. rewrite decide_False by done. by rewrite <- app_assoc.
  - intros [out me] tr1 r ([ok me'] & tr1' & -> & H1)%does_call.
    destruct (decide (ok = 0)) as [Hok|Hok]; apply does_ret in H1 as [-> [= ->]].
    split; [|split; [done|balance]]. unfold collect. simpl. by rewrite decide_True.
Qed.

Lemma modules_facts pid tr r :
  does (GetProcessModules UTF16ToString pid) tr r ->
  silent [] tr /\ (default [] (match r with inl mods => Some mods | inr _ => None end)) = module_info UTF16ToString <$> entries tr.
Proof using Type.
  unfold GetProcessModules. intros H. apply does_bind in H as (tr1 & x & tr2 & -> & H1 & H).
  apply privilege_silent in H1 as [[HS1 HB1] HE1].
  unfold silent. rewrite collect_app, collect_app, HS1, HE1. simpl.
  enough (silent [] tr2 /\ default [] (match r with inl mods => Some mods | inr _ => None end)
    = module_info UTF16ToString <$> entries tr2) as [[HS2 HB2] HE2].
  { split; [split; [done|by apply balanced_app]|done]. }
  clear tr1 HS1 HB1 HE1 x. run_calls H; subst.
  - split; [split; [done|balance]|done].
  - split; [split; [done|balance]|]. done.
  - apply does_bind in H as (tr1 & mods & tr2 & -> & H1 & H2). apply does_ret in H2 as [-> ->].
    apply loop_modules in H1 as [-> [HS HB]]. rewrite app_nil_r. unfold silent.
    split; [split|].
    + rewrite collect_cons, collect_app, collect_cons, HS. done.
    + eapply balanced_bracket; [simpl; by rewrite decide_False|done|constructor|done|done|].
      simpl. apply balanced_use; [done|done|repeat constructor|exact HB].
    + rewrite collect_cons, collect_app, collect_cons. simpl. by rewrite decide_False, app_nil_r.
Qed.

Lemma send_all_trace mods tr :
  does (send_all mods) tr tt -> sent tr = dll_event <$> mods /\ entries tr = [] /\ balanced [] tr.
Proof using Type.
  revert tr. induction mods as [|m mods IH]; intros tr H; simpl in H.
  - apply does_ret in H as [-> _]. done.
  - apply does_call in H as ([] & tr' & -> & H). apply IH in H as (E1 & E2 & E3).
    split_and!; [|done|by apply balanced_use].
    by rewrite collect_cons, E1.
Qed.

(** The calls of a scan of a snapshot with the entries [me :: mes]. *)
Definition more_calls (snap : handle) (me : moduleEntry32W) (mes : list moduleEntry32W) : list (call scanE) :=
  let prevs := me :: mes in
  zip_with (fun prev next => Call (Module32NextW snap (set_size prev)) (1, next)) prevs mes ++
    [Call (Module32NextW snap (set_size (default me (last mes)))) (0, default me (last mes))].

Lemma loop_completes snap out me mes :
  does (ITree.iter (next_module UTF16ToString snap) (out, me)) (more_calls snap me mes)
    (out ++ (module_info UTF16ToString <$> me :: mes)).
Proof using Type.
  revert out me. induction mes as [|me' mes IH]; intros out me.
  - apply does_iter. exists (more_calls snap me []), (inr (out ++ [module_info UTF16ToString me])), [].
    split_and!; [done| |done|done]. simpl. make_calls.
  - apply does_iter. exists [Call (Module32NextW snap (set_size me)) (1, me')],
      (inl (out ++ [module_info UTF16ToString me], me')), (more_calls snap me' mes).
    split_and!.
    + unfold more_calls. simpl. do 3 f_equal. destruct mes as [|me2 mes]; [done|].
      rewrite last_cons_cons. by destruct (last (me2 :: mes)) eqn:El; [|apply last_None in El].
    + simpl. make_calls.
    + specialize (IH (out ++ [module_info UTF16ToString me]) me'). by rewrite <- app_assoc in IH.
Qed.

Lemma entries_more snap me mes : entries (more_calls snap me mes) = mes.
Proof using Type.
  unfold more_calls. rewrite collect_app. replace (entries [_]) with (@nil moduleEntry32W) by done.
  rewrite app_nil_r. revert me. induction mes as [|me' mes IH]; intros me; [done|].
  simpl. rewrite collect_cons. simpl. f_equal. apply IH.
Qed.

Definition scan_calls (pid : Z) (snap : handle) (me : moduleEntry32W) (mes : list moduleEntry32W) : list (call scanE) :=
  Call (OpenProcessToken (Z.lor TOKEN_ADJUST_PRIVILEGES TOKEN_QUERY)) (inr OtherError) ::
  Call (CreateToolhelp32Snapshot (Z.lor TH32CS_SNAPMODULE TH32CS_SNAPMODULE32) pid) (snap, None) ::
  (Call (Module32FirstW snap (set_size zero_entry)) (1, me, OtherError) :: more_calls snap me mes) ++
  [Call (CloseHandle snap) tt].

Lemma scan_completes pid snap me mes :
  snap <> InvalidHandle ->
  does (GetProcessModules UTF16ToString pid) (scan_calls pid snap me mes) (inl (module_info UTF16ToString <$> me :: mes)).
Proof using Type.
  intros Hs. unfold GetProcessModules, scan_calls. apply does_bind.
  eexists [_], (Some OtherError), _. split_and!; [reflexivity|unfold enableSeDebugPrivilege; make_calls|].
  apply does_call. eexists _, _. split; [reflexivity|]. cbv beta iota. rewrite decide_False by done.
  apply does_deferring. eexists. split; [reflexivity|].
  apply does_call. eexists _, _. split; [reflexivity|]. cbv beta iota. rewrite decide_False by done.
  apply does_bind. eexists _, _, []. split_and!; [by rewrite app_nil_r|apply loop_completes|by apply does_ret].
Qed.

Lemma entries_scan pid snap me mes : entries (scan_calls pid snap me mes) = me :: mes.
Proof using Type.
  unfold scan_calls. rewrite !collect_cons, collect_app, collect_cons, entries_more. simpl. by rewrite app_nil_r.
Qed.

Lemma send_all_completes mods : does (send_all mods) ((fun m => Call (Send (dll_event m)) tt) <$> mods) tt.
Proof using Type.
  induction mods as [|m mods IH]; simpl; [by apply does_ret|]. apply does_call. by exists tt, ((fun m => Call (Send (dll_event m)) tt) <$> mods).
Qed.

End facts.

Lemma scan_trace UTF16ToString pid tr :
  does (executeDLLScan UTF16ToString pid) tr tt ->
  sent tr = (fun me => dll_event (module_info UTF16ToString me)) <$> entries tr /\ balanced [] tr.
Proof.
  unfold executeDLLScan. intros (tr1 & r & tr2 & -> & H1 & H2)%does_bind.
  apply modules_facts in H1 as [[HS HB] HE]. rewrite collect_app, collect_app, HS, fmap_app.
  destruct r as [mods|err].
  - simpl in HE. subst mods. apply send_all_trace in H2 as (-> & -> & HB2). split; [|by apply balanced_app].
    simpl. by rewrite app_nil_r, <- list_fmap_compose.
  - apply does_call in H2 as ([] & tr2' & -> & H2). apply does_ret in H2 as [-> _]. simpl in HE.
    destruct (entries tr1); [|done]. split; [done|apply balanced_app; [done|balance]].
Qed.

Lemma loop_snapshots UTF16ToString snap st tr mods :
  does (ITree.iter (next_module UTF16ToString snap) st) tr mods -> snapshots tr = [].
Proof.
  apply (does_iter_ind _ (fun _ tr _ => snapshots tr = [])); clear.
  - intros [out me] tr1 st' ([ok me'] & tr1' & -> & H1)%does_call.
    case_decide; apply does_ret in H1 as [-> [= ->]]. split; [done|]. intros tr2 _ IH. by rewrite collect_app, IH.
  - intros [out me] tr1 r ([ok me'] & tr1' & -> & H1)%does_call. case_decide; by apply does_ret in H1 as [-> _].
Qed.

Lemma send_all_snapshots mods tr : does (send_all mods) tr tt -> snapshots tr = [].
Proof.
  revert tr. induction mods as [|m mods IH]; intros tr H; simpl in H; [by apply does_ret in H as [-> _]|].
  apply does_call in H as ([] & tr' & -> & H). rewrite collect_cons. by apply IH.
Qed.

(** A scan takes one snapshot, of [uint32(pid)]. *)
Lemma scan_snapshots UTF16ToString pid tr :
  does (executeDLLScan UTF16ToString pid) tr tt -> snapshots tr = [wrap_u 32 pid].
Proof.
  unfold executeDLLScan, GetProcessModules. intros (tr1 & r & tr2 & -> & H1 & H2)%does_bind.
  assert (HS2 : snapshots tr2 = []).
  { destruct r as [mods|err]; [by eapply send_all_snapshots|]. by run_calls H2. }
  rewrite collect_app, HS2, app_nil_r. clear H2 HS2.
  apply does_bind in H1 as (tr3 & x & tr4 & -> & H1 & H). rewrite collect_app.
  assert (snapshots tr3 = []) as -> by (unfold enableSeDebugPrivilege in H1; run_calls H1; subst; done).
  clear H1. run_calls H; subst; [done|done|].
  apply does_bind in H as (tr5 & mods & tr6 & -> & H1 & H2). apply does_ret in H2 as [-> _].
  rewrite app_nil_r, !collect_cons, collect_app, collect_cons, (loop_snapshots _ _ _ _ _ H1). done.
Qed.

(** ** Properties *)

(** C8: in every execution, [executeDLLScan] sends exactly one event for every module entry
    Windows answered with, in order (none when the snapshot or its first entry fails), and
    closes every handle it opened, once.  And on a snapshot of any modules it ends, having
    asked for each. *)
Theorem scan_reports_modules (UTF16ToString : list Z -> list Z) (pid : Z) :
  (forall tr, does (executeDLLScan UTF16ToString pid) tr tt ->
     sent tr = (fun me => dll_event (module_info UTF16ToString me)) <$> entries tr /\ balanced [] tr) /\
  (forall snap me mes, snap <> InvalidHandle ->
     exists tr, does (executeDLLScan UTF16ToString pid) tr tt /\ entries tr = me :: mes).
Proof.
  split.
  - intros tr. apply scan_trace.
  - intros snap me mes Hsnap.
    set (mods := module_info UTF16ToString <$> me :: mes).
    exists (scan_calls (wrap_u 32 pid) snap me mes ++ ((fun m => Call (Send (dll_event m)) tt) <$> mods)).
    split.
    + unfold executeDLLScan. apply does_bind. eexists _, (inl mods), _.
      split_and!; [reflexivity|by apply scan_completes|apply send_all_completes].
    + pose proof (send_all_trace mods _ (send_all_completes mods)) as (_ & E & _).
      by rewrite collect_app, entries_scan, E, app_nil_r.
Qed.

(** C38: the event of a module is a well-formed [ACEvent] of type DLLScan with the module's
    base and size, whatever its path.  A path that is a text shorter than 260 characters is
    what the backend reads back exactly when all its characters are in the basic plane, and
    then the agent's reader gets it too. *)
Theorem dll_event_readable (m : ModuleInfo) (Hbase : in_u 64 (Base m)) (Hsize : in_u 32 (Size m)) :
  wf_event agent_ptr (dll_event m) /\
  Src (dll_event m) = UM /\ ImageBase (dll_event m) = Base m /\ ImageSize (dll_event m) = Size m /\
  Backend.utf16ToString (EventType (dll_event m)) = lit "DLLScan" /\
  (text (Path m) -> (length (runes_of_string (Path m)) < 260)%nat ->
   (Backend.int32ToString (ImageFileName (dll_event m)) = Path m <-> Forall bmp_rune (runes_of_string (Path m))) /\
   (Forall bmp_rune (runes_of_string (Path m)) -> Agent.int32ToString (ImageFileName (dll_event m)) = Path m)).
Proof.
  split_and!; [|done|done|done|by vm_compute|].
  - pose proof (StringZInto_cells T_int32 (replicate 260 0) (Path m)) as [HI1 HI2].
    pose proof (StringZInto_cells T_uint16 (replicate 260 0) (lit "DLLScan")) as [HE1 HE2].
    pose proof (StringZInto_cells T_uint16 (replicate 1024 0) []) as [HC1 HC2].
    unfold wf_event, acevent_fields, dll_event, to_vals. cbn [Src EventType CallerPID TargetPID ThreadID ImageFileName CommandLine IsCreate ImageBase ImageSize].
    repeat (apply Forall2_cons; split); try apply Forall2_nil; try (split; [done|by repeat constructor]).
    all: first [done | split; [done|by apply Forall_singleton]].
  - intros Ht Hfit. apply (bmp_faithful (replicate 260 0)); [done|rewrite length_replicate; lia|rewrite length_replicate; lia].
Qed.

(** ** Witness *)

(** A path that reads back, and one that does not. *)
Lemma dll_event_readable_witness :
  Backend.int32ToString (ImageFileName (dll_event (mkModuleInfo [] (lit "C:\x.dll") 4096 512))) = lit "C:\x.dll" /\
  Backend.int32ToString (ImageFileName (dll_event (mkModuleInfo [] sample_supp 4096 512))) <> sample_supp.
Proof.
  split.
  - apply (dll_event_readable (mkModuleInfo [] (lit "C:\x.dll") 4096 512)); [decide_vm|decide_vm|decide_vm|vm_compute; lia|decide_vm].
  - intros E. apply (dll_event_readable (mkModuleInfo [] sample_supp 4096 512)) in E; [|decide_vm|decide_vm|decide_vm|vm_compute; lia].
    revert E. apply (bool_decide_eq_false_1 _). vm_compute. reflexivity.
Defined.
