(* ===== verification/ETWConsumer.v ===== *)
(** * Enabling an ETW channel

    [ensureETWEnabled] of [MedusaUserlandAgent/ETWConsumer.go] as an interaction tree over
    the registry calls, and its effect on a registry. *)

From S2P Require Import Prelude Machine Windows.

(** [registry.CreateKey(registry.LOCAL_MACHINE, path, access)] and the methods of the key. *)
Inductive registryE : Type -> Type :=
  | CreateKey (path : string) (access : Z) : registryE (handle + werr)
  | CloseKey (k : handle) : registryE unit
  | GetIntegerValue (k : handle) (name : string) : registryE (Z + werr)
  | SetDWordValue (k : handle) (name : string) (v : Z) : registryE (option werr).

#[global] Instance registry_handles : Handles registryE := {|
  uses X e := match e with GetIntegerValue k _ | SetDWordValue k _ _ => [k] | _ => [] end;
  opens X e :=
    match e in registryE X return X -> option handle with
    | CreateKey _ _ => fun a => match a with inl k => Some k | inr _ => None end
    | _ => fun _ => None
    end;
  closes X e := match e with CloseKey k => Some k | _ => None end
|}.

Definition QUERY_VALUE : Z := 0x1.
Definition SET_VALUE : Z := 0x2.

Definition base : string := "SOFTWARE\Microsoft\Windows\CurrentVersion\WINEVT\Channels\".

(** The error returned, [None] being [nil]. *)
Inductive etw_error := OpenFailed (e : werr) | SetFailed (e : werr).

(** [ensureETWEnabled(channel)] *)
Definition ensureETWEnabled (channel : string) : itree registryE (option etw_error) :=
  let* k := call* (CreateKey (base ++ channel) (Z.lor SET_VALUE QUERY_VALUE)) in
  match k with
  | inr err => Ret (Some (OpenFailed err))
  | inl k =>
      deferring (call* (CloseKey k))
        (let* v := call* (GetIntegerValue k "Enabled") in
         if decide (v = inl 1) then Ret None
         else
           let* r := call* (SetDWordValue k "Enabled" 1) in
           match r with
           | Some err => Ret (Some (SetFailed err))
           | None => Ret None
           end)
  end.

(** ** A registry

    Its values by path and name, the paths of its open keys, and its answer to each call;
    writes may fail, and a value that is not there cannot be read. *)

Record reg := mkReg { r_values : gmap (string * string) Z; r_keys : gmap handle string }.

Definition reg_answer {X} (rg : reg) (e : registryE X) : X -> option reg :=
  match e in registryE X return X -> option reg with
  | CreateKey path _ => fun a =>
      match a with
      | inl k => if decide (r_keys rg !! k = None) then Some (mkReg (r_values rg) (<[k := path]> (r_keys rg))) else None
      | inr _ => Some rg
      end
  | CloseKey k => fun _ => Some (mkReg (r_values rg) (delete k (r_keys rg)))
  | GetIntegerValue k name => fun a =>
      path ← r_keys rg !! k;
      match a, r_values rg !! (path, name) with
      | inl v, Some w => if decide (v = w) then Some rg else None
      | inr _, None => Some rg
      | _, _ => None
      end
  | SetDWordValue k name v => fun a =>
      path ← r_keys rg !! k;
      match a with
      | None => Some (mkReg (<[(path, name) := v]> (r_values rg)) (r_keys rg))
      | Some _ => Some rg
      end
  end.

Definition reg_step (rg : reg) (c : call registryE) : option reg := match c with Call e x => reg_answer rg e x end.

(** ** Property *)

(** C39: in every execution the key is closed once.  On any registry, [nil] means that the
    channel's Enabled value is 1 afterwards; an error, that no value has changed; a channel
    that was enabled is left as it is, and no other value is ever touched. *)
Theorem ensure_enabled (channel : string) (tr : list (call registryE)) (r : option etw_error) (rg rg' : reg)
    (Hdoes : does (ensureETWEnabled channel) tr r) (Hreg : run reg_step rg tr = Some rg') :
  let p := ((base ++ channel)%string, "Enabled"%string) in
  balanced [] tr /\
  (r = None -> r_values rg' !! p = Some 1) /\
  (r <> None \/ r_values rg !! p = Some 1 -> r_values rg' = r_values rg) /\
  (forall q, q <> p -> r_values rg' !! q = r_values rg !! q).
Proof.
  unfold ensureETWEnabled in Hdoes. run_calls Hdoes; subst; (split; [balance|]).
  all: cbn [run reg_step reg_answer mbind option_bind r_keys r_values app] in Hreg; split_option Hreg; subst.
  all: cbn [run reg_step reg_answer mbind option_bind r_keys r_values app] in *; rewrite ?lookup_insert_eq in *; simplify_eq/=.
  all: split_and!; try done; try (by rewrite lookup_insert_eq); try (intros [?|?]; simplify_eq/=; done).
  all: intros q Hq; by rewrite lookup_insert_ne.
Qed.

(** ** Witness: a channel that was disabled *)

Definition demo_registry : reg := mkReg {[ ((base ++ "X")%string, "Enabled"%string) := 0 ]} ∅.

Definition demo_calls : list (call registryE) :=
  [Call (CreateKey (base ++ "X") (Z.lor SET_VALUE QUERY_VALUE)) (inl 4);
   Call (GetIntegerValue 4 "Enabled") (inl 0);
   Call (SetDWordValue 4 "Enabled" 1) None;
   Call (CloseKey 4) tt].

Lemma ensure_enabled_witness :
  r_values (after reg_step demo_registry demo_calls) !! ((base ++ "X")%string, "Enabled"%string) = Some 1.
Proof.
  apply (ensure_enabled "X" demo_calls None demo_registry (after reg_step demo_registry demo_calls)); [| |reflexivity].
  - unfold ensureETWEnabled, demo_calls. make_calls.
  - apply run_after. vm_compute. reflexivity.
Defined.
