(* ===== verification/Receiver.v ===== *)
(** * The receiver of the driver's messages

    [Receiver] of [MedusaUserlandAgent/structs.go] ([Connect], [Close], [hresultText]) and
    its [Loop] of [main.go], as interaction trees over the Windows calls.  [Loop] does not
    end, so its theorems are about the calls an execution begins with.  The functions of
    [golang.org/x/sys/windows] that convert strings are parameters. *)

From S2P Require Import Prelude Layout ACEvent Windows.

Definition S_OK : Z := 0.
Definition FMT_FROM_SYSTEM : Z := 0x1000.
Definition FMT_IGNORE_INSERTS : Z := 0x200.

(** [filterMessageHeader] and [ConnectCtxV1], field by field. *)
Definition filterMessageHeader_fields : list field := [Field u32 1; Field u64 1].
Definition ConnectCtxV1_fields : list field := [Field u32 1; Field i32 1; Field i32 1].

Record Receiver := mkReceiver { hPort : handle; name : list Z }.

Definition NewReceiver (portName : list Z) : Receiver := mkReceiver 0 portName.

(** The calls, with their answers.  [FilterConnectCommunicationPort] answers with the result
    and the handle stored, [FilterGetMessage] with the result and the bytes stored at the
    start of the buffer, [FormatMessageW] with its result and the text buffer; [Send ev] is
    [EventChannel <- ev], [PrintConnected] and [PrintError] are the messages of [Connect] and
    [Loop]. *)
Inductive receiverE : Type -> Type :=
  | LoadFltlib : receiverE (option werr)
  | Getpid : receiverE Z
  | FilterConnectCommunicationPort (port : list Z) (options : Z) (ctx : list Z) (size : Z) : receiverE (Z * handle)
  | FilterGetMessage (h : handle) (size : Z) : receiverE (Z * list Z)
  | CloseHandle (h : handle) : receiverE unit
  | FormatMessageW (flags code size : Z) : receiverE (Z * list Z)
  | PrintConnected (name : list Z) (target agent : Z) : receiverE unit
  | PrintError (code : Z) (text : list Z) : receiverE unit
  | Send (ev : ACEvent) : receiverE unit.

(** The error of [Connect], [None] being [nil]. *)
Inductive connect_error := Err (e : werr) | ConnectFailed (code : Z) (text : list Z).

(** The code [hresultText] looks up: [(hr & 0xFFFF0000) == 0x80070000] selects the low half. *)
Definition hresult_code (hr : Z) : Z :=
  if decide (Z.land hr 0xFFFF0000 = 0x80070000) then wrap_u 32 (Z.land hr 0xFFFF) else wrap_u 32 hr.

Section code.
Context (UTF16FromString : list Z -> list Z + werr) (UTF16ToString : list Z -> list Z).

Definition hresultText (hr : Z) : itree receiverE (list Z) :=
  let* r := call* (FormatMessageW (Z.lor FMT_FROM_SYSTEM FMT_IGNORE_INSERTS) (hresult_code hr) 512) in
  let '(r0, buf) := r in
  if decide (r0 = 0) then Ret [] else Ret (UTF16ToString buf).

(** [r.Connect()]; [ToProtectPID] is the global.  The receiver is returned with the error. *)
Definition Connect (ToProtectPID : Z) (r : Receiver) : itree receiverE (option connect_error * Receiver) :=
  let* l := call* LoadFltlib in
  match l with
  | Some err => Ret (Some (Err err), r)
  | None =>
      match UTF16FromString (name r) with
      | inr err => Ret (Some (Err err), r)
      | inl u16 =>
          let* pid := call* Getpid in
          let ctx := enc_struct (fun _ => 0) ConnectCtxV1_fields [[1]; [wrap_s 32 ToProtectPID]; [wrap_s 32 pid]] in
          let* c := call* (FilterConnectCommunicationPort u16 0 ctx (Z.of_nat (sizeof ConnectCtxV1_fields))) in
          let '(ret, h) := c in
          if decide (ret <> S_OK) then
            let* text := hresultText ret in Ret (Some (ConnectFailed (wrap_u 32 ret) text), r)
          else
            let* _ := call* (PrintConnected (name r) (wrap_s 32 ToProtectPID) (wrap_s 32 pid)) in
            Ret (None, mkReceiver h (name r))
      end
  end.

(** [r.Close()] *)
Definition Close (r : Receiver) : itree receiverE Receiver :=
  if decide (hPort r <> 0) then let* _ := call* (CloseHandle (hPort r)) in Ret (mkReceiver 0 (name r))
  else Ret r.

Definition hdrSz : nat := sizeof filterMessageHeader_fields.
Definition eventSz : nat := evtSz agent_ptr.

(** What the loop makes of the buffer after a message: the header is not used. *)
Definition parse_message (buf : list Z) : ACEvent :=
  let payload := take eventSz (drop hdrSz buf) in copy_to_event agent_ptr payload.

(** One turn of [Loop] with the buffer [buf]. *)
Definition loop_turn (r : Receiver) (buf : list Z) : itree receiverE (list Z) :=
  let* m := call* (FilterGetMessage (hPort r) (wrap_u 32 (Z.of_nat (length buf)))) in
  let '(ret, stored) := m in
  let buf := go_copy buf stored in
  if decide (ret <> S_OK) then
    let* text := hresultText ret in
    let* _ := call* (PrintError (wrap_u 32 ret) text) in
    Ret buf
  else
    let* _ := call* (Send (parse_message buf)) in
    Ret buf.

Definition Loop (r : Receiver) : itree receiverE void :=
  ITree.iter (fun buf => let* buf := loop_turn r buf in Ret (inl buf)) (replicate (hdrSz + eventSz) 0).
End code.

(** ** What a trace shows *)

Definition reply_of {X} (e : receiverE X) : X -> list (Z * list Z) :=
  match e in receiverE X return X -> list (Z * list Z) with FilterGetMessage _ _ => fun a => [a] | _ => fun _ => [] end.

Definition sent_by {X} (e : receiverE X) (_ : X) : list ACEvent := match e with Send ev => [ev] | _ => [] end.

(** The answers of [FilterGetMessage], and the events sent. *)
Notation replies := (collect (@reply_of)).
Notation sent := (collect (@sent_by)).

(** The contexts passed to the driver. *)
Definition context_of {X} (e : receiverE X) (_ : X) : list (list Z) :=
  match e with FilterConnectCommunicationPort _ _ ctx _ => [ctx] | _ => [] end.
Notation contexts := (collect (@context_of)).

(** What the loop is to send: one event per successful answer, the payload being overlaid on
    what the buffer held. *)
Fixpoint receive (buf : list Z) (rs : list (Z * list Z)) : list ACEvent :=
  match rs with
  | [] => []
  | (ret, stored) :: rs' =>
      let buf := go_copy buf stored in
      if decide (ret = S_OK) then parse_message buf :: receive buf rs' else receive buf rs'
  end.

Section facts.
Context (UTF16ToString : list Z -> list Z).

(** One complete turn. *)
Lemma turn_trace r buf tr buf' :
  does (loop_turn UTF16ToString r buf) tr buf' ->
  exists ret stored, replies tr = [(ret, stored)] /\ buf' = go_copy buf stored /\
    sent tr = (if decide (ret = S_OK) then [parse_message buf'] else []) /\ (0 < length tr)%nat.
Proof using Type.
  unfold loop_turn, hresultText. intros H. apply does_call in H as ([ret stored] & tr' & -> & H). cbv beta iota in H.
  exists ret, stored. destruct (decide (ret = S_OK)) as [Hok|Hok].
  - rewrite decide_False in H by tauto. apply does_call in H as ([] & tr2 & -> & H).
    apply does_ret in H as [-> ->]. rewrite !collect_cons. split_and!; (done || simpl; lia).
  - rewrite decide_True in H by done. apply does_bind in H as (tr1 & text & tr2 & -> & H1 & H2).
    apply does_call in H2 as ([] & tr3 & -> & H2). apply does_ret in H2 as [-> ->].
    apply does_call in H1 as ([r0 b] & tr4 & -> & H1).
    assert (tr4 = []) as -> by (cbv beta iota in H1; case_decide; by apply does_ret in H1 as [-> _]).
    split_and!; (done || simpl; lia).
Qed.

Lemma text_begins code tr : begins (hresultText UTF16ToString code) tr -> replies tr = [] /\ sent tr = [].
Proof using Type.
  unfold hresultText. intros [->|([r0 b] & tr' & -> & H)]%begins_call; [done|].
  assert (tr' = []) as -> by (cbv beta iota in H; case_decide; by apply begins_ret in H). done.
Qed.

(** A turn cut short: it may have got its message without having sent the event. *)
Lemma turn_begins r buf tr :
  begins (loop_turn UTF16ToString r buf) tr -> all_but_one (receive buf (replies tr)) (sent tr).
Proof using Type.
  unfold loop_turn. intros [->|([ret stored] & tr' & -> & H)]%begins_call.
  { exists []. split; [simpl; lia|done]. }
  cbv beta iota in H. rewrite collect_cons, collect_cons. simpl.
  destruct (decide (ret = S_OK)) as [Hok|Hok].
  - rewrite decide_False in H by tauto. apply begins_call in H as [->|([] & tr2 & -> & H)].
    + exists [parse_message (go_copy buf stored)]. split; [simpl; lia|done].
    + apply begins_ret in H as ->. exists []. split; [simpl; lia|done].
  - rewrite decide_True in H by done. exists []. split; [simpl; lia|].
    apply begins_bind in H as [H|(tr1 & text & tr2 & -> & H1 & H2)].
    + apply text_begins in H as [-> ->]. done.
    + apply does_call in H1 as ([r0 b] & tr4 & -> & H1).
      assert (tr4 = []) as -> by (cbv beta iota in H1; case_decide; by apply does_ret in H1 as [-> _]).
      apply begins_call in H2 as [->|([] & tr3 & -> & H2)]; [done|]. by apply begins_ret in H2 as ->.
Qed.

Lemma loop_begins r buf tr :
  begins (ITree.iter (fun buf => let* b := loop_turn UTF16ToString r buf in Ret (inl (B := void) b)) buf) tr ->
  all_but_one (receive buf (replies tr)) (sent tr).
Proof using Type.
  revert buf tr. apply begins_iter_ind.
  - intros buf tr [H|(tr1 & b & tr2 & -> & H1 & H2)]%begins_bind; [by eapply turn_begins|].
    apply begins_ret in H2 as ->. rewrite app_nil_r.
    apply turn_trace in H1 as (ret & stored & -> & -> & -> & _). simpl. case_decide; apply all_but_one_refl.
  - intros buf tr1 buf' (tr3 & b & tr4 & -> & H1 & H3)%does_bind. apply does_ret in H3 as [-> [= ->]].
    rewrite app_nil_r. apply turn_trace in H1 as (ret & stored & E1 & -> & E2 & Hlen).
    split; [by destruct tr3; [simpl in Hlen; lia|]|]. intros tr2 H.
    rewrite !collect_app, E1, E2. simpl. case_decide; [by apply (all_but_one_app [_])|done].
Qed.

Definition loop_from (r : Receiver) (buf : list Z) : itree receiverE void :=
  ITree.iter (fun buf => let* b := loop_turn UTF16ToString r buf in Ret (inl b)) buf.

Lemma loop_after r buf tr1 buf' tr2 :
  does (loop_turn UTF16ToString r buf) tr1 buf' -> begins (loop_from r buf') tr2 -> begins (loop_from r buf) (tr1 ++ tr2).
Proof using Type.
  intros H1 H2. apply begins_iter_after with (i' := buf'); [|exact H2].
  apply does_bind. exists tr1, buf', []. split_and!; [by rewrite app_nil_r|done|by apply does_ret].
Qed.
End facts.

(** A message of the driver: a header, and the memory of the C struct of [ev]. *)
Definition driver_message (stored : list Z) (ev : ACEvent) : Prop :=
  wf_event agent_ptr ev /\
  exists hdr pad, length hdr = hdrSz /\ stored = hdr ++ enc_struct pad c_acevent_fields (to_vals ev).

(** The successful answers. *)
Definition messages (rs : list (Z * list Z)) : list (list Z) :=
  omap (fun '(ret, stored) => if decide (ret = S_OK) then Some stored else None) rs.

Lemma parse_driver_message buf stored ev :
  length buf = (hdrSz + eventSz)%nat -> driver_message stored ev -> parse_message (go_copy buf stored) = ev.
Proof.
  intros Hb (Hwf & hdr & pad & Hh & ->). unfold parse_message.
  assert (HI : evToBytes agent_ptr pad ev = enc_struct pad c_acevent_fields (to_vals ev)) by (by apply evToBytes_image).
  rewrite <- HI. pose proof (evToBytes_length agent_ptr pad ev) as HL. fold eventSz in HL.
  rewrite go_copy_full by (rewrite length_app; lia).
  rewrite <- Hh, drop_app_length, take_ge by lia. by apply copy_evToBytes.
Qed.

Lemma receive_messages rs evs buf :
  length buf = (hdrSz + eventSz)%nat -> Forall2 driver_message (messages rs) evs -> receive buf rs = evs.
Proof.
  revert evs buf. induction rs as [|[ret stored] rs IH]; intros evs buf Hb HM; simpl in *.
  { by inv HM. }
  assert (Hb' : length (go_copy buf stored) = (hdrSz + eventSz)%nat) by (by rewrite go_copy_length).
  case_decide as Hok.
  - inv HM. f_equal; [by apply parse_driver_message|by apply IH].
  - by apply IH.
Qed.

Lemma Loop_sends UTF16ToString r tr :
  begins (Loop UTF16ToString r) tr ->
  all_but_one (receive (replicate (hdrSz + eventSz) 0) (replies tr)) (sent tr) /\
  forall evs, Forall2 driver_message (messages (replies tr)) evs -> all_but_one evs (sent tr).
Proof.
  intros H%loop_begins. split; [done|]. intros evs HM.
  by rewrite (receive_messages (replies tr) evs) in H by (done || apply length_replicate).
Qed.

Lemma le_bytes_wrap_s z : le_bytes 4 (wrap_s 32 z) = le_bytes 4 z.
Proof.
  rewrite <- (le_bytes_mod 4 (wrap_s 32 z)), <- (le_bytes_mod 4 z). by rewrite wrap_u_wrap_s by done.
Qed.

(** The two masks of [hresultText], as arithmetic. *)
Lemma land_high hr : Z.land hr 0xFFFF0000 = (hr / 2 ^ 16) mod 2 ^ 16 * 2 ^ 16.
Proof.
  change 0xFFFF0000 with (Z.shiftl (Z.ones 16) 16).
  rewrite <- Z.land_ones, <- Z.shiftr_div_pow2, <- Z.shiftl_mul_pow2 by lia.
  apply Z.bits_inj'. intros n Hn. rewrite Z.land_spec, !Z.shiftl_spec by lia.
  destruct (decide (n < 16)).
  - rewrite !(Z.testbit_neg_r _ (n - 16)) by lia. apply andb_false_r.
  - rewrite Z.land_spec, Z.shiftr_spec by lia. by replace (n - 16 + 16) with n by lia.
Qed.

Lemma hresult_code_arith hr :
  hresult_code hr = if decide ((hr / 2 ^ 16) mod 2 ^ 16 = 0x8007) then hr mod 2 ^ 16 else hr mod 2 ^ 32.
Proof.
  unfold hresult_code, wrap_u. rewrite land_high. change 0xFFFF with (Z.ones 16). rewrite Z.land_ones by lia.
  destruct (decide (_ = 0x80070000)), (decide (_ = 0x8007)); try done; [|lia|lia].
  apply Z.mod_small. pose proof (Z.mod_pos_bound hr (2 ^ 16)). lia.
Qed.

(** The context for the target process [target] and the own process [self]. *)
Definition connect_context (target self : Z) : list Z := le_bytes 4 1 ++ le_bytes 4 target ++ le_bytes 4 self.

Lemma connect_context_bytes target self :
  enc_struct (fun _ => 0) ConnectCtxV1_fields [[1]; [wrap_s 32 target]; [wrap_s 32 self]] = connect_context target self.
Proof.
  transitivity (le_bytes 4 1 ++ le_bytes 4 (wrap_s 32 target) ++ le_bytes 4 (wrap_s 32 self)); [reflexivity|].
  by rewrite !le_bytes_wrap_s.
Qed.

(** The calls of a successful [Connect]. *)
Lemma Connect_success UTF16FromString UTF16ToString target r tr r' :
  does (Connect UTF16FromString UTF16ToString target r) tr (None, r') <->
  exists u16 pid h, UTF16FromString (name r) = inl u16 /\ r' = mkReceiver h (name r) /\
    tr = [Call LoadFltlib None; Call Getpid pid;
          Call (FilterConnectCommunicationPort u16 0 (connect_context target pid) 12) (S_OK, h);
          Call (PrintConnected (name r) (wrap_s 32 target) (wrap_s 32 pid)) tt].
Proof.
  unfold Connect. split.
  - intros H. run_calls H; subst; try (by apply does_bind in H as (? & ? & ? & _ & _ & H); run_calls H).
    injection Hr as ->. exists l, a0, h. rewrite connect_context_bytes. split_and!; [done|done|].
    replace z with S_OK by (symmetry; by apply dec_stable). by destruct a2.
  - intros (u16 & pid & h & Hu & -> & ->). rewrite Hu.
    do 3 (apply does_call; eexists _, _; split; [try reflexivity; by rewrite connect_context_bytes|cbv beta iota zeta]).
    rewrite decide_False by tauto. make_calls.
Qed.

(** The calls of a [Connect] that fails with [e]. *)
Definition failed_calls (UTF16FromString : list Z -> list Z + werr) (UTF16ToString : list Z -> list Z)
    (target : Z) (r : Receiver) (tr : list (call receiverE)) (e : connect_error) : Prop :=
  match e with
  | Err err => tr = [Call LoadFltlib (Some err)] \/ (tr = [Call LoadFltlib None] /\ UTF16FromString (name r) = inr err)
  | ConnectFailed code text => exists u16 pid ret h r0 buf, UTF16FromString (name r) = inl u16 /\ ret <> S_OK /\
      tr = [Call LoadFltlib None; Call Getpid pid;
            Call (FilterConnectCommunicationPort u16 0 (connect_context target pid) 12) (ret, h);
            Call (FormatMessageW 0x1200
              (if decide ((ret / 2 ^ 16) mod 2 ^ 16 = 0x8007) then ret mod 2 ^ 16 else ret mod 2 ^ 32) 512) (r0, buf)] /\
      code = ret mod 2 ^ 32 /\ text = if decide (r0 = 0) then [] else UTF16ToString buf
  end.

Lemma hresultText_calls UTF16ToString hr tr text :
  does (hresultText UTF16ToString hr) tr text -> exists r0 buf,
    tr = [Call (FormatMessageW 0x1200
      (if decide ((hr / 2 ^ 16) mod 2 ^ 16 = 0x8007) then hr mod 2 ^ 16 else hr mod 2 ^ 32) 512) (r0, buf)] /\
    text = if decide (r0 = 0) then [] else UTF16ToString buf.
Proof.
  unfold hresultText. intros H. apply does_call in H as ([r0 buf] & tr' & -> & H). rewrite <- hresult_code_arith.
  exists r0, buf. cbv beta iota in H. case_decide; by apply does_ret in H as [-> ->].
Qed.

Lemma Connect_failure UTF16FromString UTF16ToString target r tr e r' :
  does (Connect UTF16FromString UTF16ToString target r) tr (Some e, r') ->
  r' = r /\ failed_calls UTF16FromString UTF16ToString target r tr e.
Proof.
  unfold Connect. intros H. run_calls H; subst; try discriminate.
  - injection Hr as -> ->. split; [done|by left].
  - apply does_bind in H as (tr1 & text & tr2 & -> & H1 & H2). apply does_ret in H2 as [-> [= -> ->]].
    apply hresultText_calls in H1 as (r0 & buf & -> & Ht). split; [done|]. rewrite connect_context_bytes.
    eexists _, _, _, _, _, _. split_and!; [done|done|reflexivity|done|exact Ht].
  - injection Hr as -> ->. split; [done|by right].
Qed.

Lemma text_contexts UTF16ToString code tr : begins (hresultText UTF16ToString code) tr -> contexts tr = [].
Proof.
  unfold hresultText. intros [->|([r0 b] & tr' & -> & H)]%begins_call; [done|].
  assert (tr' = []) as -> by (cbv beta iota in H; case_decide; by apply begins_ret in H). done.
Qed.

Lemma Connect_contexts UTF16FromString UTF16ToString target r tr :
  begins (Connect UTF16FromString UTF16ToString target r) tr ->
  contexts tr = [] \/ exists self, contexts tr = [connect_context target self].
Proof.
  unfold Connect. intros [->|([err|] & tr1 & -> & H)]%begins_call; [by left|by apply begins_ret in H as ->; left|].
  cbv beta iota in H. destruct (UTF16FromString (name r)); [|by apply begins_ret in H as ->; left].
  apply begins_call in H as [->|(self & tr2 & -> & H)]; [by left|].
  cbv beta zeta in H. apply begins_call in H as [->|([ret h] & tr3 & -> & H)]; [by left|].
  right. exists self. rewrite connect_context_bytes, !collect_cons. simpl.
  enough (contexts tr3 = []) as -> by done. cbv beta iota in H. case_decide; [|by run_begins H].
  apply begins_bind in H as [H|(tr4 & text & tr5 & -> & H1 & H2)]; [by eapply text_contexts|].
  apply begins_ret in H2 as ->. rewrite app_nil_r. by eapply text_contexts, does_begins.
Qed.

Lemma turn_contexts UTF16ToString r buf tr : begins (loop_turn UTF16ToString r buf) tr -> contexts tr = [].
Proof.
  unfold loop_turn. intros [->|([ret stored] & tr1 & -> & H)]%begins_call; [done|].
  rewrite collect_cons. simpl. cbv beta iota zeta in H. case_decide.
  - apply begins_bind in H as [H|(tr4 & text & tr5 & -> & H1 & H2)]; [by eapply text_contexts|].
    rewrite collect_app. rewrite (text_contexts _ _ _ (does_begins _ _ _ H1)). by run_begins H2.
  - by run_begins H.
Qed.

Lemma Loop_contexts UTF16ToString r tr : begins (Loop UTF16ToString r) tr -> contexts tr = [].
Proof.
  unfold Loop. generalize (replicate (hdrSz + eventSz) 0). intros buf. revert buf tr. apply begins_iter_ind.
  - intros buf tr [H|(tr1 & b & tr2 & -> & H1 & H2)]%begins_bind; [by eapply turn_contexts|].
    apply begins_ret in H2 as ->. rewrite app_nil_r. by eapply turn_contexts, does_begins.
  - intros buf tr1 buf' (tr3 & b & tr4 & -> & H1 & H3)%does_bind. apply does_ret in H3 as [-> _]. rewrite app_nil_r.
    split; [by apply turn_trace in H1 as (? & ? & _ & _ & _ & Hl); destruct tr3; [simpl in Hl; lia|]|].
    intros tr2 H. by rewrite collect_app, H, (turn_contexts _ _ _ _ (does_begins _ _ _ H1)).
Qed.

(** ** Properties *)

(** C7: [Loop] turns every successful answer of [FilterGetMessage] into one event on
    [EventChannel], in order, and skips the failed ones; at most the last event is still to
    be sent.  When the messages are those of the driver, a header and the C struct, the
    events sent are the driver's, whatever the padding and the headers. *)
Theorem Loop_delivers (UTF16ToString : list Z -> list Z) (r : Receiver) (tr : list (call receiverE))
    (Hbegins : begins (Loop UTF16ToString r) tr) :
  all_but_one (receive (replicate (hdrSz + eventSz) 0) (replies tr)) (sent tr) /\
  (forall evs, Forall2 driver_message (messages (replies tr)) evs -> all_but_one evs (sent tr)).
Proof. by eapply Loop_sends. Qed.

(** C37: [Connect] returns [nil] exactly when the library loads, the port name converts and
    [FilterConnectCommunicationPort] answers [S_OK]; it has then passed the 12 bytes of
    version 1, the target's and its own process id, and keeps the handle, which [Close]
    closes, once however often it is called.  A failure leaves the receiver as it was: the
    error is that of the library or of the conversion, and nothing else was called, or it
    carries the result of [FilterConnectCommunicationPort], and a text that the system was
    asked for under the Win32 code of an HRESULT 0x8007xxxx, else under the HRESULT. *)
Theorem Connect_Close (UTF16FromString : list Z -> list Z + werr) (UTF16ToString : list Z -> list Z)
    (target : Z) (r : Receiver) :
  (forall tr r', does (Connect UTF16FromString UTF16ToString target r) tr (None, r') <->
     exists u16 pid h, UTF16FromString (name r) = inl u16 /\ r' = mkReceiver h (name r) /\
       tr = [Call LoadFltlib None; Call Getpid pid;
             Call (FilterConnectCommunicationPort u16 0 (connect_context target pid) 12) (S_OK, h);
             Call (PrintConnected (name r) (wrap_s 32 target) (wrap_s 32 pid)) tt]) /\
  (forall tr e r', does (Connect UTF16FromString UTF16ToString target r) tr (Some e, r') ->
     r' = r /\ failed_calls UTF16FromString UTF16ToString target r tr e) /\
  (forall tr r', does (let* r := Close r in Close r) tr r' ->
     hPort r' = 0 /\ tr = if decide (hPort r = 0) then [] else [Call (CloseHandle (hPort r)) tt]).
Proof.
  split_and!; [apply Connect_success|apply Connect_failure|].
  intros tr r'. unfold Close. intros H. apply does_bind in H as (tr1 & r1 & tr2 & -> & H1 & H2).
  destruct (decide (hPort r = 0)) as [Hz|Hz].
  - rewrite decide_False in H1 by tauto. apply does_ret in H1 as [-> ->].
    rewrite decide_False in H2 by tauto. by apply does_ret in H2 as [-> ->].
  - rewrite decide_True in H1 by done. apply does_call in H1 as ([] & tr3 & -> & H1).
    apply does_ret in H1 as [-> ->]. simpl in H2. by apply does_ret in H2 as [-> ->].
Qed.

(** ** Witness: a failed answer, a message, and another one cut short *)

Definition demo_message : list Z := replicate 16 7 ++ enc_struct (fun _ => 0) c_acevent_fields (to_vals sample_event).

Definition demo_trace : list (call receiverE) :=
  [Call (FilterGetMessage 5 3664) (0x800705B4, []);
   Call (FormatMessageW (Z.lor FMT_FROM_SYSTEM FMT_IGNORE_INSERTS) 0x5B4 512) (0, []);
   Call (PrintError 0x800705B4 []) tt;
   Call (FilterGetMessage 5 3664) (S_OK, demo_message);
   Call (Send sample_event) tt;
   Call (FilterGetMessage 5 3664) (S_OK, demo_message)].

Lemma demo_trace_begins : begins (Loop (fun us => us) (mkReceiver 5 [])) demo_trace.
Proof.
  unfold demo_trace. eapply (loop_after _ _ _ [_; _; _]); [|eapply (loop_after _ _ _ [_; _])].
  - unfold loop_turn, hresultText. apply does_call. eexists _, _. split; [reflexivity|]. cbv beta iota.
    rewrite decide_True by done. apply does_bind. eexists [_], [], [_]. split_and!; [reflexivity| |].
    + apply does_call. eexists _, _. split; [reflexivity|]. by apply does_ret.
    + apply does_call. eexists _, _. split; [reflexivity|]. by apply does_ret.
  - unfold loop_turn. apply does_call. eexists _, _. split; [reflexivity|]. cbv beta iota.
    rewrite decide_False by tauto. apply does_call. exists tt, []. split.
    + do 3 f_equal.
    + by apply does_ret.
  - apply begins_iter_within, begins_bind_within. apply begins_call_after, begins_nil.
Qed.

Lemma demo_trace_messages : Forall2 driver_message (messages (replies demo_trace)) [sample_event; sample_event].
Proof.
  assert (Hm : driver_message demo_message sample_event).
  { split; [exact sample_event_wf|]. exists (replicate 16 7), (fun _ => 0). by split. }
  change (messages (replies demo_trace)) with [demo_message; demo_message].
  constructor; [exact Hm|constructor; [exact Hm|constructor]].
Qed.

Lemma Loop_delivers_witness :
  all_but_one [sample_event; sample_event] (sent demo_trace).
Proof. apply (Loop_delivers (fun us => us) (mkReceiver 5 []) demo_trace demo_trace_begins), demo_trace_messages. Defined.

Lemma Connect_Close_witness :
  does (Connect inl (fun us => us) 1234 (NewReceiver [77]))
    [Call LoadFltlib None; Call Getpid 300;
     Call (FilterConnectCommunicationPort [77] 0 [1; 0; 0; 0; 210; 4; 0; 0; 44; 1; 0; 0] 12) (S_OK, 9);
     Call (PrintConnected [77] 1234 300) tt]
    (None, mkReceiver 9 [77]).
Proof.
  apply (Connect_Close inl (fun us => us) 1234 (NewReceiver [77])). exists [77], 300, 9. by split_and!.
Defined.
