(* ===== verification/EndToEnd.v ===== *)
(** * From the agent to the backend

    The agent's client and the backend's server as one machine: on a connection, which has
    the same number on both sides, each of the two reads what the other wrote, in order.
    Seen from outside, the machine refines a lossy bag of events, and a lossy queue as long
    as the client is on its first connection; the text messages the client reads are the
    backend's commands. *)

From S2P Require Import Prelude Layout ACEvent GoChan Machine WSServer HydraWS.

Section net.
Context (pad : nat -> Z).

(** A frame as a message. *)
Definition frame_msg (fr : wsFrame) : Z * list Z := (mt fr, data fr).

(** The event the backend makes of a frame. *)
Definition event_in (fr : wsFrame) : option ACEvent := accept_message agent_ptr (mt fr) (data fr).

(** The messages read on each connection are a prefix of those written to it. *)
Definition delivered (h : history) (srv : server) : Prop :=
  forall c k, s_socks srv !! c = Some k -> k_read k `prefix_of` frame_msg <$> written_to c h.

Lemma omap_cons {A B} (f : A -> option B) x l : omap f (x :: l) = option_list (f x) ++ omap f l.
Proof using Type. simpl. by destruct (f x). Qed.

Lemma event_in_frame ev : wf_event agent_ptr ev -> event_in (event_frame pad ev) = Some ev.
Proof using Type.
  intros Hwf. unfold event_in, accept_message, event_frame. cbn [mt data]. rewrite decide_False.
  - by rewrite copy_evToBytes.
  - intros [H|H]; apply H; [reflexivity|apply evToBytes_length].
Qed.

Lemma events_in_frames evs : Forall (wf_event agent_ptr) evs -> omap event_in (event_frame pad <$> evs) = evs.
Proof using Type. induction 1 as [|ev evs Hev _ IH]; [done|].
  rewrite fmap_cons, omap_cons, event_in_frame by done. simpl. by f_equal.
  Qed.

Lemma event_in_binary frs : omap event_in (binary frs) = omap event_in frs.
Proof using Type.
  unfold binary. induction frs as [|fr frs IH]; [done|]. rewrite filter_cons, omap_cons.
  case_decide as Hm; [by rewrite omap_cons, IH|].
  unfold event_in at 2, accept_message. by rewrite decide_True by auto.
Qed.

Lemma omap_prefix {A B} (f : A -> option B) l1 l2 : l1 `prefix_of` l2 -> omap f l1 `prefix_of` omap f l2.
Proof using Type. intros [k ->]. exists (omap f k). apply omap_app. Qed.

Lemma omap_submseteq {A B} (f : A -> option B) l1 l2 : l1 ⊆+ l2 -> omap f l1 ⊆+ omap f l2.
Proof using Type.
  intros [k Hk]%submseteq_Permutation. rewrite Hk, omap_app. by apply submseteq_inserts_r.
Qed.

(** The events in the frames sent are the program's first events. *)
Lemma sent_events n ls s :
  run (HydraWS.step pad) (client_init n) ls = Some s -> Forall (wf_event agent_ptr) (events ls) ->
  omap event_in (hi_sent (c_hist s)) `prefix_of` events ls.
Proof using Type.
  intros Hr Hwf. pose proof (ext_run _ _ _ _ Hr) as HE. unfold ext_inv in HE. rewrite <- HE in Hwf |- *.
  apply Forall_app in Hwf as [Hwf _].
  pose proof (fi_pump _ _ (frames_reachable _ _ _ _ Hr)) as HP.
  rewrite <- event_in_binary. apply prefix_app_r. rewrite <- (events_in_frames (hi_events (c_hist s))) by done.
  apply omap_prefix. destruct (c_pump s); simpl in HP.
  - by rewrite HP.
  - rewrite HP. by apply prefix_app_r.
  - destruct HP as [(lost & _ & ->) _]. by apply prefix_app_r.
  - destruct HP as [(lost & _ & ->) _]. by apply prefix_app_r.
Qed.

(** What the server pushes from [c] are the first events in the frames written to [c]. *)
Lemma pushed_events buf ls srv h c :
  run (WSServer.step agent_ptr) (server_init buf) ls = Some srv -> delivered h srv ->
  pushed_by c (s_pushed srv) `prefix_of` omap event_in (written_to c h).
Proof using Type.
  intros Hr Hd. pose proof (ti_flow _ _ _ (traffic_reachable _ _ _ _ Hr) c) as HF.
  assert (HP : pushed_by c (s_pushed srv) `prefix_of` events_read agent_ptr (s_socks srv !! c)).
  { destruct (s_handlers srv !! c) as [pc|]; [by eapply flow_prefix|]. destruct HF as [-> ->]. done. }
  etransitivity; [exact HP|]. unfold events_read. destruct (s_socks srv !! c) as [k|] eqn:Ek; [|apply prefix_nil].
  specialize (Hd c k Ek). apply (omap_prefix (fun p => accept_message agent_ptr p.1 p.2)) in Hd.
  etransitivity; [exact Hd|]. clear. induction (written_to c h) as [|fr l IH]; [done|].
  rewrite fmap_cons, !omap_cons. by apply prefix_app.
Qed.

(** The events in all frames written, by connection. *)
Definition events_written (h : history) : list (conn * ACEvent) :=
  omap (fun p => pair p.1.2 <$> event_in p.2) (hi_written h).

Lemma events_written_key h c : filter (fun p => p.1 = c) (events_written h) = pair c <$> omap event_in (written_to c h).
Proof using Type.
  unfold events_written, written_to. induction (hi_written h) as [|[[g d] fr] l IH]; [done|].
  rewrite omap_cons, filter_app, IH, filter_cons. simpl. case_decide as Hd; subst.
  - rewrite fmap_cons, omap_cons, fmap_app. f_equal. simpl. destruct (event_in fr); [|done].
    simpl. by rewrite filter_cons_True.
  - destruct (event_in fr); [|done]. simpl. by rewrite filter_cons_False.
Qed.

Lemma events_written_snd h : (events_written h).*2 = omap event_in (hi_written h).*2.
Proof using Type.
  unfold events_written. induction (hi_written h) as [|[[g d] fr] l IH]; [done|].
  rewrite omap_cons, fmap_cons, omap_cons, fmap_app, IH. f_equal. simpl. by destruct (event_in fr).
Qed.

Lemma pushed_submseteq buf ls srv h :
  run (WSServer.step agent_ptr) (server_init buf) ls = Some srv -> delivered h srv ->
  (s_pushed srv).*2 ⊆+ omap event_in (hi_written h).*2.
Proof using Type.
  intros Hr Hd. rewrite <- events_written_snd. apply fmap_submseteq, submseteq_by_key. intros c.
  rewrite events_written_key, filter_key. apply fmap_submseteq, sublist_submseteq.
  destruct (pushed_events buf ls srv h c Hr Hd) as [k ->]. by apply sublist_inserts_r.
Qed.

Lemma out_prefix buf ls srv :
  run (WSServer.step agent_ptr) (server_init buf) ls = Some srv -> s_out srv `prefix_of` (s_pushed srv).*2.
Proof using Type. intros Hr. rewrite <- (ti_queue _ _ _ (traffic_reachable _ _ _ _ Hr)). by apply prefix_app_r. Qed.

(** With one generation, there is one connection, and its frames are the first ones sent. *)
Lemma single_generation n ls s :
  run (HydraWS.step pad) (client_init n) ls = Some s -> (length (c_loops s) <= 1)%nat ->
  (hi_written (c_hist s)).*2 `prefix_of` hi_sent (c_hist s) /\
  exists d, forall c, written_to c (c_hist s) = if decide (c = d) then (hi_written (c_hist s)).*2 else [].
Proof using Type.
  intros Hr Hl. pose proof (frames_reachable _ _ _ _ Hr) as [HQ _ _ _ HW].
  destruct (conn_flow_any _ _ (conns_reachable _ _ _ _ Hr 0%nat)) as [d Hd].
  assert (Hnone : forall g, g <> 0%nat -> taken_by g (c_hist s) = [] /\ written_by g (c_hist s) = []).
  { intros g Hg. specialize (HW g). rewrite lookup_ge_None_2 in HW by lia. exact HW. }
  assert (Hw : forall p, p ∈ hi_written (c_hist s) -> p.1.1 = 0%nat).
  { intros p Hp. apply dec_stable. intros Hg. apply (in_filter_key (fun p => p.1.1) snd _ p) in Hp.
    by apply Hp, Hnone. }
  assert (Ht : forall p, p ∈ hi_taken (c_hist s) -> p.1 = 0%nat).
  { intros p Hp. apply dec_stable. intros Hg. apply (in_filter_key fst snd _ p) in Hp. by apply Hp, Hnone. }
  split.
  - rewrite <- HQ. apply prefix_app_r. destruct (write_flow_any _ _ _ (HW 0%nat)) as (lost & _ & E).
    unfold taken_by, written_by in E. rewrite (filter_only fst), (filter_only (fun p => p.1.1)) in E by done.
    rewrite E. by apply prefix_app_r.
  - exists d. intros c. unfold written_to. unfold conns_of in Hd. rewrite (filter_only (fun p => p.1.1)) in Hd by done.
    rewrite !Forall_fmap, Forall_forall in Hd. case_decide as Hc; subst.
    + by rewrite (filter_only (fun p => p.1.2)).
    + destruct (filter (fun p => p.1.2 = c) (hi_written (c_hist s))) as [|p l] eqn:E; [done|].
      assert (Hp : p ∈ filter (fun p => p.1.2 = c) (hi_written (c_hist s))) by (rewrite E; apply list_elem_of_here).
      apply list_elem_of_filter in Hp as [Hpc Hp]. specialize (Hd p Hp). simpl in Hd. congruence.
Qed.
End net.

(** The backend receives only events that the agent sent, each at most as often; with one
    generation, their first ones, in order. *)
Lemma backend_gets_agent_events pad n buf ls ls' agent backend :
  run (HydraWS.step pad) (client_init n) ls = Some agent ->
  run (WSServer.step agent_ptr) (server_init buf) ls' = Some backend ->
  delivered (c_hist agent) backend -> Forall (wf_event agent_ptr) (events ls) ->
  s_out backend ⊆+ events ls /\
  ((length (c_loops agent) <= 1)%nat -> s_out backend `prefix_of` events ls).
Proof.
  intros Hagent Hbackend Hnet Hwf.
  pose proof (out_prefix _ _ _ Hbackend) as Hout. pose proof (sent_events _ _ _ _ Hagent Hwf) as Hsent. split.
  - destruct (frames_reachable _ _ _ _ Hagent) as [HQ _ _ _ _]. rewrite <- HQ, omap_app in Hsent.
    transitivity ((s_pushed backend).*2); [destruct Hout as [k ->]; by apply submseteq_inserts_r|].
    rewrite (pushed_submseteq _ _ _ _ Hbackend Hnet).
    rewrite (omap_submseteq _ _ _ (written_submseteq pad agent ltac:(by eapply frames_reachable))).
    destruct Hsent as [k ->]. rewrite <- app_assoc. by apply submseteq_inserts_r.
  - intros Hl. destruct (single_generation _ _ _ _ Hagent Hl) as [Hpre [d Hd]].
    etransitivity; [exact Hout|]. etransitivity; [|exact Hsent]. etransitivity; [|by apply omap_prefix].
    assert (Hone : forall p, p ∈ s_pushed backend -> p.1 = d).
    { intros p Hp. apply dec_stable. intros Hne. apply (in_filter_key fst snd _ p) in Hp. apply Hp.
      pose proof (pushed_events _ _ _ _ p.1 Hbackend Hnet) as HP. rewrite Hd, decide_False in HP by done.
      by apply prefix_nil_inv in HP. }
    pose proof (pushed_events _ _ _ _ d Hbackend Hnet) as HP. rewrite Hd, decide_True in HP by done.
    unfold pushed_by in HP. by rewrite (filter_only fst) in HP.
Qed.
(** ** The pipeline

    One agent and the backend. *)

Record pipeline := mkPipeline {
  p_agent : client;
  p_backend : server;
  p_heard : gmap conn (list (list Z))   (* what the agent read, by connection *)
}.

Inductive pipeline_label := Agent (l : HydraWS.label) | Backend (l : WSServer.label).

Definition pipeline_init (n buf : nat) : pipeline := mkPipeline (client_init n) (server_init buf) ∅.

Definition heard (s : pipeline) (c : conn) : list (list Z) := default [] (p_heard s !! c).

(** The connection the read loop of generation [g] reads. *)
Definition reading (s : client) (g : nat) : option conn :=
  lps ← c_loops s !! g; match lp_read lps with LpIdle c => Some c | _ => None end.

(** The next message from the agent, and the next one from the backend. *)
Definition next_to_backend (s : pipeline) (c : conn) : option (Z * list Z) :=
  k ← s_socks (p_backend s) !! c; (frame_msg <$> written_to c (c_hist (p_agent s))) !! length (k_read k).
Definition next_to_agent (s : pipeline) (c : conn) : option (Z * list Z) :=
  pair TextMessage <$> wire_of (p_backend s) c !! length (heard s c).

Section pipeline.
Context (pad : nat -> Z).

Definition pipeline_step (s : pipeline) (l : pipeline_label) : option pipeline :=
  match l with
  | Agent l =>
      agent ← HydraWS.step pad (p_agent s) l;
      match l with
      | HydraWS.LRead g mt msg =>
          c ← reading (p_agent s) g;
          if decide (next_to_agent s c = Some (mt, msg))
            then Some (mkPipeline agent (p_backend s) (<[c := heard s c ++ [msg]]> (p_heard s)))
          else None
      | _ => Some (mkPipeline agent (p_backend s) (p_heard s))
      end
  | Backend l =>
      backend ← WSServer.step agent_ptr (p_backend s) l;
      match l with
      | WSServer.LRead c mt msg =>
          if decide (next_to_backend s c = Some (mt, msg))
            then Some (mkPipeline (p_agent s) backend (p_heard s))
          else None
      | _ => Some (mkPipeline (p_agent s) backend (p_heard s))
      end
  end.

Definition agent_labels (ls : list pipeline_label) : list HydraWS.label :=
  omap (fun l => match l with Agent l => Some l | Backend _ => None end) ls.
Definition backend_labels (ls : list pipeline_label) : list WSServer.label :=
  omap (fun l => match l with Backend l => Some l | Agent _ => None end) ls.

(** What the two programs see of a step: an event put in, an event got out. *)
Inductive action := Put (ev : ACEvent) | Get (ev : ACEvent).

Definition action_of (s : pipeline) (l : pipeline_label) : list action :=
  match l with
  | Agent (LEvent ev) => [Put ev]
  | Backend LConsume => match ch_buf (s_recv (p_backend s)) with ev :: _ => [Get ev] | [] => [] end
  | _ => []
  end.

Fixpoint actions (s : pipeline) (ls : list pipeline_label) : list action :=
  match ls with
  | [] => []
  | l :: ls' => action_of s l ++ match pipeline_step s l with Some s' => actions s' ls' | None => [] end
  end.

Definition puts (tr : list action) : list ACEvent := omap (fun a => match a with Put ev => Some ev | Get _ => None end) tr.
Definition gets (tr : list action) : list ACEvent := omap (fun a => match a with Get ev => Some ev | Put _ => None end) tr.
End pipeline.

(** ** The specifications: a lossy bag and a lossy queue

    What is never got out is lost. *)

Inductive bag_step : list ACEvent -> action -> list ACEvent -> Prop :=
  | bag_put l ev : bag_step l (Put ev) (ev :: l)
  | bag_get l ev l' : l ≡ₚ ev :: l' -> bag_step l (Get ev) l'.

Inductive queue_step : list ACEvent -> action -> list ACEvent -> Prop :=
  | queue_put l ev : queue_step l (Put ev) (l ++ [ev])
  | queue_get ev l : queue_step (ev :: l) (Get ev) l.

Inductive accepts (spec : list ACEvent -> action -> list ACEvent -> Prop) : list action -> list ACEvent -> Prop :=
  | accepts_nil : accepts spec [] []
  | accepts_snoc tr a l l' : accepts spec tr l -> spec l a l' -> accepts spec (tr ++ [a]) l'.

Lemma puts_snoc tr a : puts (tr ++ [a]) = puts tr ++ puts [a].
Proof. apply omap_app. Qed.
Lemma gets_snoc tr a : gets (tr ++ [a]) = gets tr ++ gets [a].
Proof. apply omap_app. Qed.

(** An action is allowed when all that was got out had been put in. *)
Lemma bag_extend tr a b :
  accepts bag_step tr b -> puts tr ≡ₚ gets tr ++ b -> gets (tr ++ [a]) ⊆+ puts (tr ++ [a]) ->
  exists b', accepts bag_step (tr ++ [a]) b' /\ puts (tr ++ [a]) ≡ₚ gets (tr ++ [a]) ++ b'.
Proof.
  intros Hb E H. rewrite puts_snoc, gets_snoc in *. destruct a as [ev|ev]; simpl in *.
  - exists (ev :: b). split; [econstructor; [done|constructor]|]. rewrite E, app_nil_r, Permutation_app_comm. simpl.
    by rewrite Permutation_middle.
  - rewrite app_nil_r, E in H. apply submseteq_app_inv_l, singleton_submseteq_l in H.
    apply elem_of_Permutation in H as [b' Hb']. exists b'. split; [by econstructor; [|constructor]|].
    by rewrite app_nil_r, E, Hb', <- app_assoc.
Qed.

Lemma queue_extend tr a q :
  accepts queue_step tr q -> puts tr = gets tr ++ q -> gets (tr ++ [a]) `prefix_of` puts (tr ++ [a]) ->
  exists q', accepts queue_step (tr ++ [a]) q' /\ puts (tr ++ [a]) = gets (tr ++ [a]) ++ q'.
Proof.
  intros Hq E H. rewrite puts_snoc, gets_snoc in *. destruct a as [ev|ev]; simpl in *.
  - exists (q ++ [ev]). split; [econstructor; [done|constructor]|]. by rewrite E, app_nil_r, app_assoc.
  - rewrite app_nil_r, E in H. apply prefix_app_inv in H as [q' ->]. exists q'.
    split; [by econstructor; [|constructor]|]. by rewrite app_nil_r, E, <- app_assoc.
Qed.

Section pipeline_facts.
Context (pad : nat -> Z).

Lemma pipeline_step_inv s l s' :
  pipeline_step pad s l = Some s' ->
  match l with
  | Agent l => HydraWS.step pad (p_agent s) l = Some (p_agent s') /\ p_backend s' = p_backend s
  | Backend l => WSServer.step agent_ptr (p_backend s) l = Some (p_backend s') /\ p_agent s' = p_agent s /\
      p_heard s' = p_heard s
  end.
Proof using Type.
  destruct l as [l|l]; simpl; intros (x & -> & H)%bind_Some; destruct l; split_option H; by subst.
Qed.

Lemma pipeline_runs n buf ls s :
  run (pipeline_step pad) (pipeline_init n buf) ls = Some s ->
  run (HydraWS.step pad) (client_init n) (agent_labels ls) = Some (p_agent s) /\
  run (WSServer.step agent_ptr) (server_init buf) (backend_labels ls) = Some (p_backend s).
Proof using Type.
  intros Hr. refine (run_induction (pipeline_step pad) (fun _ => True) (fun ls s =>
    run (HydraWS.step pad) (client_init n) (agent_labels ls) = Some (p_agent s) /\
    run (WSServer.step agent_ptr) (server_init buf) (backend_labels ls) = Some (p_backend s)) _ ls [] _ s _ _ Hr).
  - intros ls0 s0 l s1 _ [HA HB] Hs%pipeline_step_inv. unfold agent_labels, backend_labels in *. rewrite !omap_app, !run_app, HA, HB.
    destruct l as [l|l]; simpl; [destruct Hs as [-> ->]|destruct Hs as (-> & -> & _)]; done.
  - by apply Forall_true.
  - done.
Qed.

(** Frames written and messages read only grow. *)
Lemma written_grows s l s' c : HydraWS.step pad s l = Some s' -> written_to c (c_hist s) `prefix_of` written_to c (c_hist s').
Proof using Type.
  intros Hs. unfold written_to.
  assert (H : hi_written (c_hist s) `prefix_of` hi_written (c_hist s')).
  { HydraWS.step_cases Hs l; try match goal with |- context [c_onmsg ?s] => destruct (c_onmsg s) end.
    all: try (unfold wg_done; case_decide); simpl; try done; by apply prefix_app_r. }
  destruct H as [k ->]. rewrite filter_app, fmap_app. by apply prefix_app_r.
Qed.

(** A step of the server reads the message of its label, and nothing else. *)
Lemma reads_step s l s' c k' :
  WSServer.step agent_ptr s l = Some s' -> s_socks s' !! c = Some k' ->
  k_read k' = [] \/
  exists k, s_socks s !! c = Some k /\
    (k_read k' = k_read k \/ exists mt msg, l = WSServer.LRead c mt msg /\ k_read k' = k_read k ++ [(mt, msg)]).
Proof using Type.
  intros Hs Hk'. WSServer.step_cases Hs l; simpl in Hk'; rewrite ?close_sock_socks, ?lookup_alter in Hk'.
  all: try (right; exists k'; by auto).
  all: try (rewrite lookup_insert in Hk'; case_decide; simplify_eq/=; [|right; exists k'; by auto]).
  all: try (by left); try (right; eexists; split; [eassumption|]; simpl; by eauto).
  all: case_decide; [subst|right; exists k'; by auto].
  all: apply fmap_Some in Hk' as (k & Hk & ->); right; exists k; by auto.
Qed.

Lemma delivered_step s l s' :
  pipeline_step pad s l = Some s' -> delivered (c_hist (p_agent s)) (p_backend s) ->
  delivered (c_hist (p_agent s')) (p_backend s').
Proof using Type.
  intros Hs HD c k' Hk'. destruct l as [l|l]; pose proof (pipeline_step_inv _ _ _ Hs) as Hi.
  - destruct Hi as [Ha E]. rewrite E in Hk'. destruct (written_grows _ _ _ c Ha) as [w ->].
    rewrite fmap_app. apply prefix_app_r. by apply HD.
  - destruct Hi as (Hb & -> & _). destruct (reads_step _ _ _ _ _ Hb Hk') as [->|(k & Hk & [->|(m & msg & -> & ->)])].
    + apply prefix_nil.
    + by apply HD.
    + simpl in Hs. rewrite Hb in Hs. simpl in Hs. case_decide as Hn; [|done].
      unfold next_to_backend in Hn. rewrite Hk in Hn. simpl in Hn.
      destruct (HD c k Hk) as [w Hw]. rewrite Hw in Hn. rewrite lookup_app_r, Nat.sub_diag in Hn by done.
      destruct w as [|x w]; simplify_eq/=. rewrite Hw. exists w. by rewrite <- app_assoc.
Qed.

Lemma delivered_reachable n buf ls s :
  run (pipeline_step pad) (pipeline_init n buf) ls = Some s -> delivered (c_hist (p_agent s)) (p_backend s).
Proof using Type.
  intros Hr. refine (run_invariant (pipeline_step pad) (fun s => delivered (c_hist (p_agent s)) (p_backend s)) _ _ _ _ _ Hr).
  - intros s0 l s1 HD Hs. by eapply delivered_step.
  - intros c k Hk. simpl in Hk. by rewrite lookup_empty in Hk.
Qed.

(** The connections are never forgotten. *)
Lemma loops_grow s l s' : HydraWS.step pad s l = Some s' -> (length (c_loops s) <= length (c_loops s'))%nat.
Proof using Type.
  intros Hs. HydraWS.step_cases Hs l; try match goal with |- context [c_onmsg ?s] => destruct (c_onmsg s) end.
  all: try (unfold wg_done; case_decide); simpl; rewrite ?length_app, ?length_insert; lia.
Qed.

(** What the backend's program gets of a step. *)
Lemma out_step s l s' :
  WSServer.step agent_ptr s l = Some s' ->
  s_out s' = s_out s ++ match l with LConsume => take 1 (ch_buf (s_recv s)) | _ => [] end.
Proof using Type.
  intros Hs. WSServer.step_cases Hs l; chan_facts; simpl in *; simpl_close_sock; rewrite ?app_nil_r; try done.
  by rewrite H.
Qed.

Lemma action_puts s l : puts (action_of s l) = events (agent_labels [l]).
Proof using Type. by destruct l as [[]|[]]; simpl; repeat case_match. Qed.

Lemma action_gets s l s' :
  pipeline_step pad s l = Some s' -> s_out (p_backend s') = s_out (p_backend s) ++ gets (action_of s l).
Proof using Type.
  intros Hs%pipeline_step_inv. destruct l as [l|l].
  - destruct Hs as [_ ->]. destruct l; simpl; by rewrite app_nil_r.
  - destruct Hs as (Hs & _). apply out_step in Hs as ->. f_equal. destruct l; simpl; by repeat case_match.
Qed.

Lemma actions_snoc s ls s1 l :
  run (pipeline_step pad) s ls = Some s1 -> actions pad s (ls ++ [l]) = actions pad s ls ++ action_of s1 l.
Proof using Type.
  revert s. induction ls as [|l' ls IH]; intros s Hr; simpl in *.
  - injection Hr as ->. case_match; by rewrite app_nil_r.
  - destruct (pipeline_step pad s l') as [s2|]; [|done]. simpl in Hr. by rewrite (IH s2 Hr), app_assoc.
Qed.

Lemma io_reachable n buf ls s :
  run (pipeline_step pad) (pipeline_init n buf) ls = Some s ->
  puts (actions pad (pipeline_init n buf) ls) = events (agent_labels ls) /\
  gets (actions pad (pipeline_init n buf) ls) = s_out (p_backend s).
Proof using Type.
  revert s. induction ls as [|l ls IH] using rev_ind; intros s Hr; [by injection Hr as <-|].
  rewrite run_app in Hr. apply bind_Some in Hr as (s1 & Hr & (s2 & Hs & [= ->])%bind_Some).
  destruct (IH s1 Hr) as [HP HG]. rewrite (actions_snoc _ _ _ _ Hr). unfold puts, gets, events, agent_labels in *.
  rewrite !omap_app, HP, HG. split; [f_equal; apply action_puts|]. by rewrite (action_gets _ _ _ Hs).
Qed.

(** The two ends of a run. *)
Lemma pipeline_events n buf ls s :
  run (pipeline_step pad) (pipeline_init n buf) ls = Some s -> Forall (wf_event agent_ptr) (events (agent_labels ls)) ->
  s_out (p_backend s) ⊆+ events (agent_labels ls) /\
  ((length (c_loops (p_agent s)) <= 1)%nat -> s_out (p_backend s) `prefix_of` events (agent_labels ls)).
Proof using Type.
  intros Hr Hwf. destruct (pipeline_runs _ _ _ _ Hr) as [HA HB].
  exact (backend_gets_agent_events _ _ _ _ _ _ _ HA HB (delivered_reachable _ _ _ _ Hr) Hwf).
Qed.

(** Every action of a run is allowed by the bag, and by the queue with one generation. *)
Lemma pipeline_accepted n buf ls s :
  run (pipeline_step pad) (pipeline_init n buf) ls = Some s ->
  Forall (wf_event agent_ptr) (events (agent_labels ls)) ->
  let tr := actions pad (pipeline_init n buf) ls in
  (exists b, accepts bag_step tr b /\ puts tr ≡ₚ gets tr ++ b) /\
  ((length (c_loops (p_agent s)) <= 1)%nat -> exists q, accepts queue_step tr q /\ puts tr = gets tr ++ q).
Proof using Type.
  cbv zeta. revert s. induction ls as [|l ls IH] using rev_ind; intros s Hr Hwf.
  { split; [|intros _]; exists []; (split; [constructor|done]). }
  destruct (io_reachable _ _ _ _ Hr) as [HP HG]. destruct (pipeline_events _ _ _ _ Hr Hwf) as [Hbag Hqueue].
  rewrite <- HP, <- HG in Hbag, Hqueue. clear HP HG.
  rewrite run_app in Hr. apply bind_Some in Hr as (s1 & Hr & (s2 & Hs & [= ->])%bind_Some).
  assert (Hwf1 : Forall (wf_event agent_ptr) (events (agent_labels ls))).
  { unfold agent_labels, events in *. rewrite !omap_app in Hwf. by apply Forall_app in Hwf as [? _]. }
  destruct (IH s1 Hr Hwf1) as [(b & Hb & Eb) Hq]. rewrite (actions_snoc _ _ _ _ Hr) in *. clear IH Hr Hwf Hwf1.
  assert (Hl : (length (c_loops (p_agent s1)) <= length (c_loops (p_agent s)))%nat).
  { apply pipeline_step_inv in Hs. destruct l; [by eapply loops_grow, Hs|by destruct Hs as (_ & -> & _)]. }
  assert (Hone : action_of s1 l = [] \/ exists a, action_of s1 l = [a]).
  { clear. destruct l as [[]|[]]; simpl; repeat case_match; eauto. }
  destruct Hone as [E|[a E]]; rewrite E, ?app_nil_r in *.
  - split; [by exists b|]. intros H1. apply Hq. lia.
  - split; [by eapply bag_extend|]. intros H1. destruct Hq as (q & Hq & Eq); [lia|]. by eapply queue_extend; auto.
Qed.

(** The agent reads what the backend wrote. *)
Lemma wire_grows s l s' c buf ls :
  run (WSServer.step agent_ptr) (server_init buf) ls = Some s -> WSServer.step agent_ptr s l = Some s' ->
  wire_of s c `prefix_of` wire_of s' c.
Proof using Type.
  intros Hr Hs. pose proof (registry_reachable _ _ _ _ Hr c) as HR. unfold conn_ok, open_of in HR. unfold wire_of.
  WSServer.step_cases Hs l; simpl in *; rewrite ?close_sock_socks; simpl; rewrite ?lookup_insert, ?lookup_alter; try done.
  all: case_decide; subst; try done.
  all: repeat match goal with E : s_socks _ !! _ = _ |- _ => rewrite E in *; clear E | H : _ /\ _ |- _ => destruct H end; simpl in *; try done.
  all: try (by apply prefix_app_r); try (by destruct (s_socks s !! c)).
  all: match goal with E : s_handlers _ !! _ = None |- _ => rewrite E in HR end.
  all: destruct (s_socks s !! c); [|apply prefix_nil]; by rewrite !andb_false_r in HR.
Qed.

Definition heard_ok (s : pipeline) : Prop := forall c, heard s c `prefix_of` wire_of (p_backend s) c.

Lemma heard_reachable n buf ls s : run (pipeline_step pad) (pipeline_init n buf) ls = Some s -> heard_ok s.
Proof using Type.
  revert s. induction ls as [|l ls IH] using rev_ind; intros s Hr.
  { injection Hr as <-. intros c. apply prefix_nil. }
  rewrite run_app in Hr. apply bind_Some in Hr as (s1 & Hr & (s2 & Hs & [= ->])%bind_Some).
  specialize (IH s1 Hr). pose proof (pipeline_step_inv _ _ _ Hs) as Hi. intros c. specialize (IH c).
  destruct l as [l|l].
  - destruct Hi as [Ha E]. rewrite E. simpl in Hs. rewrite Ha in Hs. simpl in Hs.
    destruct l; split_option Hs; rewrite <- Hs; try exact IH. unfold heard. simpl. rewrite lookup_insert. case_decide; [|exact IH].
    subst. unfold next_to_agent in *. destruct IH as [w Hw].
    match goal with D : pair _ <$> _ = Some _ |- _ => apply fmap_Some in D as (m & Hm & [= -> ->]) end.
    rewrite Hw in Hm |- *. rewrite lookup_app_r, Nat.sub_diag in Hm by done. destruct w as [|x w]; simplify_eq/=.
    exists w. by rewrite <- app_assoc.
  - destruct Hi as (Hb & _ & E). unfold heard. rewrite E. etransitivity; [exact IH|].
    eapply wire_grows; [|exact Hb]. by apply (pipeline_runs n buf ls).
Qed.

(** What was handed to the callback was read on a connection. *)
Lemma received_heard n buf ls s :
  run (pipeline_step pad) (pipeline_init n buf) ls = Some s ->
  Forall (fun m => exists c, m ∈ heard s c) (hi_received (c_hist (p_agent s))).*2.
Proof using Type.
  revert s. induction ls as [|l ls IH] using rev_ind; intros s Hr.
  { injection Hr as <-. constructor. }
  rewrite run_app in Hr. apply bind_Some in Hr as (s1 & Hr & (s2 & Hs & [= ->])%bind_Some).
  specialize (IH s1 Hr). pose proof (pipeline_step_inv _ _ _ Hs) as Hi. destruct l as [l|l].
  2:{ destruct Hi as (_ & -> & E). unfold heard in *. by rewrite E. }
  destruct Hi as [Ha _]. simpl in Hs. rewrite Ha in Hs. simpl in Hs.
  destruct (received_step _ _ _ _ Ha) as [E|(g & m & msg & -> & E)]; rewrite E.
  - eapply Forall_impl; [exact IH|]. intros x [c Hc]. exists c.
    destruct l; split_option Hs; rewrite <- Hs; try exact Hc.
    unfold heard in *. simpl. rewrite lookup_insert. case_decide; [subst|exact Hc]. simpl. set_solver.
  - split_option Hs. rewrite <- Hs, fmap_app. apply Forall_app. split.
    + eapply Forall_impl; [exact IH|]. intros y [c Hc]. exists c.
      unfold heard in *. simpl. rewrite lookup_insert. case_decide; [subst|exact Hc]. simpl. set_solver.
    + apply Forall_singleton. exists x. unfold heard. simpl. rewrite lookup_insert_eq. simpl. set_solver.
Qed.

Lemma heard_commands n buf ls s c :
  run (pipeline_step pad) (pipeline_init n buf) ls = Some s -> heard s c `sublist_of` commands (backend_labels ls).
Proof using Type.
  intros Hr. destruct (wires_run _ _ _ _ (proj2 (pipeline_runs _ _ _ _ Hr))) as [HF HW].
  rewrite <- HF. apply sublist_inserts_r. etransitivity; [|by eapply sublist_app_right, HW].
  destruct (heard_reachable _ _ _ _ Hr c) as [k ->]. by apply sublist_inserts_r.
Qed.

Lemma handled_heard n buf ls s :
  run (pipeline_step pad) (pipeline_init n buf) ls = Some s ->
  Forall (fun m => exists c, m ∈ heard s c) (hi_handled (c_hist (p_agent s))).*2.
Proof using Type.
  intros Hr. pose proof (received_heard _ _ _ _ Hr) as HR.
  destruct (handled_received _ _ _ _ (proj1 (pipeline_runs _ _ _ _ Hr))) as [k E].
  rewrite E, fmap_app in HR. by apply Forall_app in HR as [_ ?].
Qed.
End pipeline_facts.

(** ** Properties *)

(** C2: joined by the network, the agent's client and the backend's server behave, for the
    programs that use them, as a lossy bag: every event the backend receives was put in by
    the agent's program and is received at most as often, whatever connections break, dials
    fail and loops race.  While the client is on its first connection they behave as a
    queue: the events come out in order and without gaps, up to a lost end. *)
Theorem pipeline_refines (pad : nat -> Z) (n buf : nat) (ls : list pipeline_label) (s : pipeline)
    (Hrun : run (pipeline_step pad) (pipeline_init n buf) ls = Some s)
    (Hwf : Forall (wf_event agent_ptr) (events (agent_labels ls))) :
  (exists b, accepts bag_step (actions pad (pipeline_init n buf) ls) b) /\
  ((length (c_loops (p_agent s)) <= 1)%nat -> exists q, accepts queue_step (actions pad (pipeline_init n buf) ls) q).
Proof.
  destruct (pipeline_accepted _ _ _ _ _ Hrun Hwf) as [(b & Hb & _) Hq]. split; [by exists b|].
  intros H. destruct (Hq H) as (q & Hq' & _). by exists q.
Qed.

(** C9: what the agent reads on a connection is a subsequence of the commands the backend's
    program sent: each at most once and in order; and the callback of the agent's program is
    only called with messages read on a connection. *)
Theorem commands_reach_callback (pad : nat -> Z) (n buf : nat) (ls : list pipeline_label) (s : pipeline)
    (Hrun : run (pipeline_step pad) (pipeline_init n buf) ls = Some s) :
  (forall c, heard s c `sublist_of` commands (backend_labels ls)) /\
  Forall (fun m => exists c, m ∈ heard s c) (hi_handled (c_hist (p_agent s))).*2.
Proof. split; [intros c; by eapply heard_commands|by eapply handled_heard]. Qed.

(** ** Witness: an event to the backend, and a command back *)

Definition demo_pipeline_run : list pipeline_label :=
  [Agent LWithOnMessage; Agent (LEvent sample_event); Agent LConnect; Agent (LDialOk 0%nat); Backend (LAccept 0%nat);
   Backend (LRegister 0%nat); Agent LSetConn; Agent LSpawn; Agent (LStart 0%nat Reading); Agent (LStart 0%nat Writing);
   Agent LPumpRecv; Agent LPumpSend; Agent (LTake 0%nat); Agent (LWrite 0%nat true);
   Backend (WSServer.LRead 0%nat BinaryMessage (evToBytes agent_ptr (fun _ => 0) sample_event)); Backend (LPush 0%nat);
   Backend LConsume; Backend (LCommand (lit "scanDLL")); Backend WSServer.LTake; Backend (LVisit 0%nat true);
   Backend LFinish; Agent (HydraWS.LRead 0%nat TextMessage (lit "scanDLL")); Agent (LCallback 0%nat)].

Definition demo_pipeline : pipeline := after (pipeline_step (fun _ => 0)) (pipeline_init 1 1024) demo_pipeline_run.

Lemma demo_pipeline_runs :
  run (pipeline_step (fun _ => 0)) (pipeline_init 1 1024) demo_pipeline_run = Some demo_pipeline.
Proof. unfold demo_pipeline. apply run_after. vm_compute. reflexivity. Qed.

Lemma demo_pipeline_wf : Forall (wf_event agent_ptr) (events (agent_labels demo_pipeline_run)).
Proof. constructor; [exact sample_event_wf|constructor]. Qed.

Lemma pipeline_refines_witness : exists q, accepts queue_step [Put sample_event; Get sample_event] q.
Proof.
  assert (E : actions (fun _ => 0) (pipeline_init 1 1024) demo_pipeline_run = [Put sample_event; Get sample_event])
    by (vm_compute; reflexivity).
  rewrite <- E. apply (pipeline_refines _ _ _ _ _ demo_pipeline_runs demo_pipeline_wf). vm_compute. apply le_n.
Defined.

Lemma commands_reach_callback_witness : [lit "scanDLL"] `sublist_of` commands (backend_labels demo_pipeline_run).
Proof.
  assert (E : heard demo_pipeline 0%nat = [lit "scanDLL"]) by (vm_compute; reflexivity).
  rewrite <- E. apply (commands_reach_callback _ _ _ _ _ demo_pipeline_runs).
Defined.
