(* ===== verification/BackendMain.v ===== *)
(** * The backend's main program

    [main] of [MedusaBackend/Main.go] and the consumer it starts, as interaction trees over
    the calls they make: the server's methods and channels, the log, the clock.  The calls
    on the server are joined with its machine in [System]. *)

From S2P Require Import Prelude ACEvent Json Windows.

(** The calls of [main]; [Fatal], which exits, has no answer.  [Go] is the [go] statement
    with the consumer. *)
Inductive mainE : Type -> Type :=
  | Start (addr path : string) (buf : Z) : mainE (option werr)
  | Fatal (err : werr) : mainE void
  | LogPrintln (line : string) : mainE unit
  | Go : mainE unit
  | SendText (cmd : list Z) : mainE unit
  | Sleep (ns : Z) : mainE unit
  | Println (line : string) : mainE unit
  | Notify : mainE unit
  | WaitSignal : mainE unit
  | Close : mainE unit.

Definition Second : Z := 1000000000.

(** One turn of the loop of [main]. *)
Definition main_turn : itree mainE (unit + void) :=
  let* _ := call* (SendText (lit "scanDLL")) in
  let* _ := call* (Sleep (5 * Second)) in
  let* _ := call* (Println "AAAAAAAAAAAAAAAAAAAAAAAAAAAA") in
  Ret (inl tt).

Definition main : itree mainE unit :=
  let* r := call* (Start "0.0.0.0:8080" "/" 1024) in
  match r with
  | Some err => let* x := call* (Fatal err) in match x : void with end
  | None =>
      let* _ := call* (LogPrintln "listening on :8080 / (binary ACEvent)") in
      let* _ := call* Go in
      let* _ := ITree.iter (fun _ => main_turn) tt in
      let* _ := call* Notify in
      let* _ := call* WaitSignal in
      let* _ := call* Close in
      Ret tt
  end.

(** The calls of the consumer: [Recv] is the receive of the [range], [None] meaning that the
    channel is closed and empty. *)
Inductive consumerE : Type -> Type :=
  | Recv : consumerE (option ACEvent)
  | PrintLine (js : list Z) : consumerE unit.

(** [if js, err := ev.ToJSON(); err == nil { fmt.Println(js) }] *)
Definition print_event (ev : ACEvent) : itree consumerE (unit + unit) :=
  match BackendJSON.ToJSON ev with
  | Some js => let* _ := call* (PrintLine js) in Ret (inl tt)
  | None => Ret (inl tt)
  end.

Definition consumer_turn : itree consumerE (unit + unit) :=
  let* r := call* Recv in
  match r with Some ev => print_event ev | None => Ret (inr tt) end.

(** [for ev := range s.Recv] *)
Definition consumer : itree consumerE unit := ITree.iter (fun _ => consumer_turn) tt.

(** ** What a trace shows *)

(** A call that the server sees: a command, or [Close]. *)
Definition server_call {X} (e : mainE X) (_ : X) : list (option (list Z)) :=
  match e with SendText cmd => [Some cmd] | Close => [None] | _ => [] end.

Definition received_event {X} (e : consumerE X) : X -> list ACEvent :=
  match e in consumerE X return X -> list ACEvent with Recv => fun r => option_list r | PrintLine _ => fun _ => [] end.
Definition printed_line {X} (e : consumerE X) (_ : X) : list (list Z) :=
  match e with PrintLine js => [js] | _ => [] end.

Notation server_calls := (collect (@server_call)).
Notation received := (collect (@received_event)).
Notation printed := (collect (@printed_line)).

Definition prologue : list (call mainE) :=
  [Call (Start "0.0.0.0:8080" "/" 1024) None; Call (LogPrintln "listening on :8080 / (binary ACEvent)") tt; Call Go tt].
Definition turn_calls : list (call mainE) :=
  [Call (SendText (lit "scanDLL")) tt; Call (Sleep (5 * Second)) tt; Call (Println "AAAAAAAAAAAAAAAAAAAAAAAAAAAA") tt].
Definition turns (k : nat) : list (call mainE) := mjoin (replicate k turn_calls).

Lemma main_turn_does tr ir : does main_turn tr ir -> tr = turn_calls.
Proof. unfold main_turn. intros H. run_calls H. by destruct a, a0, a1. Qed.

Lemma main_turn_begins tr : begins main_turn tr -> tr `prefix_of` turn_calls.
Proof.
  unfold main_turn. intros H. run_begins H; repeat match goal with a : unit |- _ => destruct a end.
  all: by eexists.
Qed.

Lemma main_loop_begins tr :
  begins (ITree.iter (fun _ : unit => main_turn) tt) tr -> exists k, tr `prefix_of` turns k.
Proof.
  apply (begins_iter_ind _ (fun _ tr => exists k, tr `prefix_of` turns k)); clear.
  - intros [] tr H%main_turn_begins. by exists 1%nat.
  - intros [] tr1 [] ->%main_turn_does. split; [done|]. intros tr2 [k Hk]. exists (S k). by apply prefix_app.
Qed.

Lemma main_loop_goes_on k : begins (ITree.iter (fun _ : unit => main_turn) tt) (turns k).
Proof.
  induction k as [|k IH]; [apply begins_nil|]. apply begins_iter_after with (i' := tt); [|exact IH].
  unfold main_turn, turn_calls. make_calls.
Qed.

Lemma server_calls_turns k : Forall (eq (Some (lit "scanDLL"))) (server_calls (turns k)).
Proof.
  induction k as [|k IH]; [constructor|]. change (turns (S k)) with (turn_calls ++ turns k). rewrite collect_app.
  apply Forall_app. split; [by repeat constructor|exact IH].
Qed.

Lemma main_begins tr :
  begins main tr ->
  (exists err, tr = [Call (Start "0.0.0.0:8080" "/" 1024) (Some err)]) \/ exists k, tr `prefix_of` prologue ++ turns k.
Proof.
  unfold main. intros H. apply begins_call in H as [->|([err|] & tr1 & -> & H)].
  - right. exists 0%nat. apply prefix_nil.
  - left. exists err. apply begins_call in H as [->|([] & _)]. done.
  - right. run_begins H; repeat match goal with a : unit |- _ => destruct a end; try (exists 0%nat; by eexists).
    apply begins_bind in H as [H|(tr2 & [] & _)].
    apply main_loop_begins in H as [k Hk]. exists k. by apply (prefix_app prologue).
Qed.

Lemma server_calls_main tr : begins main tr -> Forall (eq (Some (lit "scanDLL"))) (server_calls tr).
Proof.
  intros [[err ->]|[k Hk]]%main_begins; [constructor|]. destruct Hk as [l Hl].
  apply (f_equal (collect (@server_call))) in Hl. rewrite !collect_app in Hl.
  pose proof (server_calls_turns k) as HF. simpl in Hl. rewrite Hl in HF. by apply Forall_app in HF as [? _].
Qed.

(** ** The consumer *)

(** [ToJSON] does not fail. *)
Lemma ToJSON_some ev : exists js, BackendJSON.ToJSON ev = Some js.
Proof. by eexists. Qed.

Lemma consumer_turn_does tr ir :
  does consumer_turn tr ir ->
  tr <> [] /\ BackendJSON.ToJSON <$> received tr = Some <$> printed tr /\
  (ir = inr tt <-> exists tr', tr = tr' ++ [Call Recv None]).
Proof.
  unfold consumer_turn, print_event. intros ([ev|] & tr1 & -> & H)%does_call.
  - destruct (ToJSON_some ev) as [js E]. rewrite E in H. run_calls H. destruct a.
    split; [done|]. split; [by apply (f_equal (fun x => [x]))|].
    split; [done|]. intros ([|c1 [|c2 [|c3 l]]] & E'); simplify_list_eq.
  - apply does_ret in H as [-> ->]. split; [done|]. split; [done|]. split; [by exists []|done].
Qed.

Lemma consumer_turn_begins tr :
  begins consumer_turn tr -> all_but_one (BackendJSON.ToJSON <$> received tr) (Some <$> printed tr).
Proof.
  unfold consumer_turn, print_event. intros [->|([ev|] & tr1 & -> & H)]%begins_call.
  - apply all_but_one_refl.
  - destruct (ToJSON_some ev) as [js E]. rewrite E in H. run_begins H.
    + apply (all_but_one_snoc []).
    + replace (BackendJSON.ToJSON <$> _) with [Some js] by (by apply (f_equal (fun x => [x]))). apply all_but_one_refl.
  - apply begins_ret in H as ->. apply all_but_one_refl.
Qed.

Lemma consumer_begins tr :
  begins consumer tr -> all_but_one (BackendJSON.ToJSON <$> received tr) (Some <$> printed tr).
Proof.
  unfold consumer.
  apply (begins_iter_ind _ (fun _ tr => all_but_one (BackendJSON.ToJSON <$> received tr) (Some <$> printed tr))); clear.
  - intros _. apply consumer_turn_begins.
  - intros _ tr1 _ (Hne & E & _)%consumer_turn_does. split; [done|]. intros tr2 H.
    rewrite !collect_app, !fmap_app, E. by apply all_but_one_app.
Qed.

(** The lines printed are those of the first events received. *)
Lemma printed_events tr :
  begins consumer tr ->
  exists logged, BackendJSON.ToJSON <$> logged = Some <$> printed tr /\ logged `prefix_of` received tr.
Proof.
  intros (lost & _ & E)%consumer_begins. exists (take (length (printed tr)) (received tr)). split.
  - rewrite fmap_take, E. by rewrite <- (length_fmap Some (printed tr)), take_app_length.
  - eexists. by rewrite take_drop.
Qed.

Lemma consumer_does tr :
  does consumer tr tt ->
  BackendJSON.ToJSON <$> received tr = Some <$> printed tr /\ exists tr', tr = tr' ++ [Call Recv None].
Proof.
  unfold consumer. generalize tt at 1 2 as r. intros r.
  apply (does_iter_ind _ (fun _ tr _ => BackendJSON.ToJSON <$> received tr = Some <$> printed tr /\
    exists tr', tr = tr' ++ [Call Recv None])); clear.
  - intros _ tr1 _ (Hne & E & _)%consumer_turn_does. split; [done|]. intros tr2 _ [E2 [tr' ->]].
    rewrite !collect_app, !fmap_app, E in *. split; [by f_equal|]. exists (tr1 ++ tr'). by rewrite app_assoc.
  - intros _ tr [] (_ & E & Hlast)%consumer_turn_does. split; [done|]. by apply Hlast.
Qed.

(** ** Properties *)

(** C40: unless the server does not start, in which case the process exits, [main] never
    returns: it sends "scanDLL" on the server's text channel, sleeps five seconds, prints a
    line, and starts over, for as long as the calls return.  It never calls [Close]: what
    follows the loop (the signal handling, the shutdown) is not reached. *)
Theorem main_runs_forever :
  (forall tr, begins main tr ->
     (exists err, tr = [Call (Start "0.0.0.0:8080" "/" 1024) (Some err)]) \/
     (exists k, tr `prefix_of` prologue ++ turns k)) /\
  (forall tr, begins main tr -> Forall (eq (Some (lit "scanDLL"))) (server_calls tr)) /\
  (forall k, begins main (prologue ++ turns k)) /\
  (forall tr r, ~ does main tr r).
Proof.
  split; [exact main_begins|]. split; [exact server_calls_main|]. split.
  - intros k. unfold main, prologue. repeat apply begins_call_after. apply begins_bind_within, main_loop_goes_on.
  - intros tr r H. unfold main in H. apply does_call in H as ([err|] & tr1 & -> & H).
    + by apply does_call in H as ([] & _).
    + do 2 apply does_call in H as (_ & ? & -> & H). by apply does_bind in H as (? & [] & _).
Qed.

(** The consumer prints the JSON of every event it receives, one line each and in the
    order received; at most the last line is still to be printed.  It returns only when the
    channel is closed and empty, and has then printed them all. *)
Theorem consumer_prints :
  (forall tr, begins consumer tr -> all_but_one (BackendJSON.ToJSON <$> received tr) (Some <$> printed tr)) /\
  (forall tr, does consumer tr tt ->
     BackendJSON.ToJSON <$> received tr = Some <$> printed tr /\ exists tr', tr = tr' ++ [Call Recv None]).
Proof. split; [exact consumer_begins|exact consumer_does]. Qed.
