(* ===== verification/AgentMain.v ===== *)
(** * The agent's main program

    [main] of [MedusaUserlandAgent/main.go] and its callback of the WebSocket client, as
    interaction trees: the receiver and the scanner are their parts, the pipe server and the
    client are calls, since they are goroutines of their own ([IPC], [HydraWS]). *)

From S2P Require Import Prelude Layout GoText GoNum ACEvent Windows.
From S2P Require DLLScanner Receiver.
Import DLLScanner Receiver.

(** The calls; [StartPipe] is [Start(pipe)], [IndexPanic] the panic of an index out of
    range, [Part] and [Scan] are the calls of the receiver and of the scanner. *)
Inductive agentE : Type -> Type :=
  | StartPipe (pipe : string) : agentE unit
  | IndexPanic : agentE void
  | PrintInvalidPID : agentE unit
  | PrintLine (s : list Z) : agentE unit
  | PrintError (err : connect_error) : agentE unit
  | NewHydraWS (url : list Z) : agentE unit
  | WithOnMessage : agentE unit
  | CloseClient : agentE unit
  | Part X (e : receiverE X) : agentE X
  | Scan X (e : scanE X) : agentE X.

Definition panic {R} : itree agentE R := let* x := call* IndexPanic in match x : void with end.

Section code.
Context (UTF16FromString : list Z -> list Z + werr) (UTF16ToString : list Z -> list Z).

(** [main], from the creation of the client on; [r] is the receiver. *)
Definition serve (args : list (list Z)) (r : Receiver) : itree agentE unit :=
  match args !! 2%nat with
  | None => panic
  | Some url =>
      let* _ := call* (NewHydraWS url) in
      let* _ := call* WithOnMessage in
      deferring (call* CloseClient)
        (let* v := translate Part (Loop UTF16ToString r) in match v : void with end)
  end.

(** [main] with the command line [args], the program's name first. *)
Definition main (args : list (list Z)) : itree agentE unit :=
  let* _ := call* (StartPipe "") in
  match args !! 1%nat with
  | None => panic
  | Some arg1 =>
      match Sscanf_d arg1 with
      | None => let* _ := call* PrintInvalidPID in Ret tt
      | Some pid =>
          let ToProtectPID := wrap_s 32 pid in
          match args !! 3%nat with
          | None => panic
          | Some toInjectDLL =>
              let* _ := call* (PrintLine toInjectDLL) in
              let* c := translate Part (Connect UTF16FromString UTF16ToString ToProtectPID (NewReceiver (lit "\MedusaComPort"))) in
              match c with
              | (Some err, _) => let* _ := call* (PrintError err) in Ret tt
              | (None, r) => deferring (let* _ := translate Part (Close r) in Ret tt) (serve args r)
              end
          end
      end
  end.

(** The callback of the client, on the message [b]. *)
Definition on_message (ToProtectPID : Z) (b : list Z) : itree agentE unit :=
  if decide (b = lit "scanDLL") then
    let* _ := translate Scan (executeDLLScan UTF16ToString ToProtectPID) in
    let* _ := call* (PrintLine b) in
    Ret tt
  else Ret tt.
End code.

(** ** What a trace shows *)

Definition agent_context {X} (e : agentE X) : X -> list (list Z) :=
  match e in agentE X return X -> list (list Z) with Part _ e => context_of e | _ => fun _ => [] end.
Definition client_of {X} (e : agentE X) (_ : X) : list (list Z) := match e with NewHydraWS url => [url] | _ => [] end.
Definition agent_snapshot {X} (e : agentE X) : X -> list Z :=
  match e in agentE X return X -> list Z with Scan _ e => snapshot_of e | _ => fun _ => [] end.

(** The contexts passed to the driver, the clients created, the processes scanned. *)
Notation agent_contexts := (collect (@agent_context)).
Notation clients := (collect (@client_of)).
Notation scanned := (collect (@agent_snapshot)).

(** The calls of [main] up to a connected receiver, and those of the client's creation. *)
Definition connect_calls (dll u16 : list Z) (pid self : Z) (h : handle) : list (call agentE) :=
  [Call (StartPipe "") tt; Call (PrintLine dll) tt; Call (Part _ LoadFltlib) None; Call (Part _ Getpid) self;
   Call (Part _ (FilterConnectCommunicationPort u16 0 (connect_context (wrap_s 32 pid) self) 12)) (S_OK, h);
   Call (Part _ (PrintConnected (lit "\MedusaComPort") (wrap_s 32 (wrap_s 32 pid)) (wrap_s 32 self))) tt].

Section facts.
Context (UTF16FromString : list Z -> list Z + werr) (UTF16ToString : list Z -> list Z).

Notation Connect target := (Connect UTF16FromString UTF16ToString target (NewReceiver (lit "\MedusaComPort"))).

Lemma part_contexts tr : agent_contexts (map_call Part <$> tr) = contexts tr.
Proof using Type. exact (collect_map Part (@agent_context) tr). Qed.

Lemma part_clients (tr : list (call receiverE)) : clients (map_call Part <$> tr) = [].
Proof using Type. induction tr as [|[X e x] tr IH]; [done|]. rewrite fmap_cons. simpl map_call. by rewrite collect_cons, IH. Qed.

Lemma panic_begins {R} tr : begins (@panic R) tr -> tr = [].
Proof using Type. unfold panic. by intros [->|([] & _)]%begins_call. Qed.

Lemma panic_does {R} tr (r : R) : ~ does panic tr r.
Proof using Type. unfold panic. by intros ([] & _)%does_call. Qed.

(** The client's part, cut short or not: it does not return. *)
Lemma serve_begins args r tr :
  begins (serve UTF16ToString args r) tr ->
  tr = [] \/ exists url, args !! 2%nat = Some url /\
    (tr = [Call (NewHydraWS url) tt] \/ exists trl, begins (Loop UTF16ToString r) trl /\
       tr = Call (NewHydraWS url) tt :: Call WithOnMessage tt :: (map_call Part <$> trl)).
Proof using Type.
  unfold serve. destruct (args !! 2%nat) as [url|] eqn:E; [|intros H%panic_begins; by left].
  intros [->|([] & tr1 & -> & H)]%begins_call; [by left|]. right. exists url. split; [done|].
  apply begins_call in H as [->|([] & tr2 & -> & (trl & -> & H)%begins_endless)]; [by left|].
  right. by exists trl.
Qed.

Lemma serve_does args r tr x : ~ does (serve UTF16ToString args r) tr x.
Proof using Type.
  unfold serve. destruct (args !! 2%nat) as [url|]; [|apply panic_does].
  intros (_ & tr1 & -> & (_ & tr2 & -> & H)%does_call)%does_call. by apply does_endless in H.
Qed.

(** The beginnings of [main], by how far it gets. *)
Inductive started (args : list (list Z)) : list (call agentE) -> Prop :=
  | Started_early tr : agent_contexts tr = [] -> clients tr = [] -> started args tr
  | Started_connecting tr arg1 pid self : args !! 1%nat = Some arg1 -> Sscanf_d arg1 = Some pid ->
  agent_contexts tr = [connect_context (wrap_s 32 pid) self] -> clients tr = [] -> started args tr
  | Started_serving arg1 pid dll u16 self h tr : args !! 1%nat = Some arg1 -> Sscanf_d arg1 = Some pid ->
  args !! 3%nat = Some dll -> UTF16FromString (lit "\MedusaComPort") = inl u16 ->
  begins (serve UTF16ToString args (mkReceiver h (lit "\MedusaComPort"))) tr ->
  started args (connect_calls dll u16 pid self h ++ tr).

Lemma agent_main_begins args tr : begins (main UTF16FromString UTF16ToString args) tr -> started args tr.
Proof using Type.
  unfold main. intros [->|([] & tr1 & -> & H)]%begins_call; [by apply Started_early|].
  destruct (args !! 1%nat) as [arg1|] eqn:E1; [|apply panic_begins in H as ->; by apply Started_early].
  destruct (Sscanf_d arg1) as [pid|] eqn:Es.
  2:{ run_begins H; by apply Started_early. }
  cbv zeta in H. destruct (args !! 3%nat) as [dll|] eqn:E3; [|apply panic_begins in H as ->; by apply Started_early].
  apply begins_call in H as [->|([] & tr2 & -> & H)]; [by apply Started_early|].
  apply begins_bind in H as [(tr3 & -> & H)%begins_translate|(tr3 & [[err|] r] & tr4 & -> & H1 & H2)].
  - pose proof (part_contexts tr3) as HC. pose proof (part_clients tr3) as HL.
    apply Connect_contexts in H as [H|[self H]]; rewrite H in HC.
    + by apply Started_early.
    + by eapply Started_connecting.
  - apply does_translate in H1 as (tr5 & -> & H1). apply does_begins, Connect_contexts in H1.
    pose proof (part_contexts tr5) as HC. pose proof (part_clients tr5) as HL.
    assert (agent_contexts tr4 = [] /\ clients tr4 = []) as [HC4 HL4] by (by run_begins H2).
    destruct H1 as [H|[self H]]; rewrite H in HC.
    + apply Started_early; rewrite !collect_cons, collect_app, ?HC, ?HC4, ?HL, ?HL4; done.
    + eapply Started_connecting; [done|done| |]; rewrite !collect_cons, collect_app, ?HC, ?HC4, ?HL, ?HL4; done.
  - apply does_translate in H1 as (tr5 & -> & H1).
    apply Connect_success in H1 as (u16 & self & h & Hu & -> & ->).
    eapply Started_serving; [done..|]. unfold deferring in H2.
    apply begins_bind in H2 as [H2|(? & ? & ? & _ & H2 & _)]; [done|]. by apply serve_does in H2.
Qed.
End facts.

Lemma context_wrap z self : connect_context (wrap_s 32 z) self = connect_context z self.
Proof. unfold connect_context. by rewrite le_bytes_wrap_s. Qed.

(** ** Properties *)

(** C11: [main] creates a client only after the first argument was read as a number and the
    receiver connected, then for the URL of the second argument, once, and from then on its
    calls are those of [Loop] on the connected port: it never returns, so that the deferred
    calls of [Close] are not reached.  It returns only without having created a client; and
    with three arguments, a number first, it does get there when Windows lets it. *)
Theorem main_serves (UTF16FromString : list Z -> list Z + werr) (UTF16ToString : list Z -> list Z) (args : list (list Z)) :
  (forall tr, begins (main UTF16FromString UTF16ToString args) tr ->
     clients tr = [] \/
     exists arg1 url dll pid u16 self h tr', args !! 1%nat = Some arg1 /\ args !! 2%nat = Some url /\
       args !! 3%nat = Some dll /\ Sscanf_d arg1 = Some pid /\
       tr = connect_calls dll u16 pid self h ++ Call (NewHydraWS url) tt :: tr' /\
       (tr' = [] \/ exists trl, begins (Loop UTF16ToString (mkReceiver h (lit "\MedusaComPort"))) trl /\
          tr' = Call WithOnMessage tt :: (map_call Part <$> trl))) /\
  (forall tr, does (main UTF16FromString UTF16ToString args) tr tt -> clients tr = []) /\
  (forall arg1 url dll pid u16 self h trl, args !! 1%nat = Some arg1 -> args !! 2%nat = Some url ->
     args !! 3%nat = Some dll -> Sscanf_d arg1 = Some pid -> UTF16FromString (lit "\MedusaComPort") = inl u16 ->
     begins (Loop UTF16ToString (mkReceiver h (lit "\MedusaComPort"))) trl ->
     begins (main UTF16FromString UTF16ToString args)
       (connect_calls dll u16 pid self h ++ Call (NewHydraWS url) tt :: Call WithOnMessage tt :: (map_call Part <$> trl))).
Proof.
  split; [|split].
  - intros tr [tr1 _ HL|tr1 arg1 pid self _ _ _ HL|arg1 pid dll u16 self h tr1 E1 Es E3 Hu H]%agent_main_begins; [by left..|].
    apply serve_begins in H as [->|(url & E2 & H)]; [by left|right].
    destruct H as [->|(trl & Hl & ->)]; do 7 eexists; eexists; split_and!; try done; [by left|].
    right. by exists trl.
  - intros tr H. unfold main in H. apply does_call in H as ([] & tr1 & -> & H).
    destruct (args !! 1%nat) as [arg1|]; [|by apply panic_does in H].
    destruct (Sscanf_d arg1) as [pid|]; [|by run_calls H]. cbv zeta in H.
    destruct (args !! 3%nat) as [dll|]; [|by apply panic_does in H].
    apply does_call in H as ([] & tr2 & -> & H).
    apply does_bind in H as (tr3 & [[err|] r] & tr4 & -> & H1 & H2).
    + apply does_translate in H1 as (tr5 & -> & _). rewrite !collect_cons, collect_app, part_clients. by run_calls H2.
    + unfold deferring in H2. apply does_bind in H2 as (? & ? & ? & _ & H2 & _). by apply serve_does in H2.
  - intros arg1 url dll pid u16 self h trl E1 E2 E3 Es Hu Hl. unfold main, connect_calls.
    apply begins_call_after. rewrite E1, Es. cbv zeta. rewrite E3. apply begins_call_after.
    apply (begins_bind_after _ _ [_; _; _; _] (None, mkReceiver h (lit "\MedusaComPort"))).
    + apply does_translate. exists [Call LoadFltlib None; Call Getpid self;
        Call (FilterConnectCommunicationPort u16 0 (connect_context (wrap_s 32 pid) self) 12) (S_OK, h);
        Call (PrintConnected (lit "\MedusaComPort") (wrap_s 32 (wrap_s 32 pid)) (wrap_s 32 self)) tt].
      split; [reflexivity|]. apply Connect_success. by exists u16, self, h.
    + cbv beta iota. unfold deferring at 1. apply begins_bind_within. unfold serve. rewrite E2.
      do 2 apply begins_call_after. unfold deferring. do 2 apply begins_bind_within.
      apply begins_translate. by exists trl.
Qed.

(** C12: when the first argument starts with the decimal digits of a number, the driver is
    told its low 32 bits as the process to protect, and nothing when it does not fit an
    [int]; though the agent keeps it in an [int32], a process id of 32 bits is the one of
    which the callback takes a snapshot, one for every message "scanDLL" and none for
    others. *)
Theorem pid_argument (UTF16FromString : list Z -> list Z + werr) (UTF16ToString : list Z -> list Z)
    (args : list (list Z)) (arg1 rest : list Z) (z : Z)
    (Harg : args !! 1%nat = Some arg1) (Hnum : runes_of_string arg1 = decimal z ++ rest) (Hrest : no_digit rest) :
  (forall tr, begins (main UTF16FromString UTF16ToString args) tr ->
     Forall (fun ctx => exists self, ctx = connect_context (wrap_u 32 z) self) (agent_contexts tr) /\
     (~ in_s 64 z -> agent_contexts tr = [])) /\
  (in_u 32 z -> forall b tr, does (on_message UTF16ToString (wrap_s 32 z) b) tr tt ->
     scanned tr = if decide (b = lit "scanDLL") then [z] else []).
Proof.
  pose proof (Sscanf_d_decimal arg1 z rest Hnum Hrest) as HS. split.
  - assert (HC : forall self, connect_context (wrap_s 32 z) self = connect_context (wrap_u 32 z) self).
    { intros self. rewrite context_wrap. unfold connect_context. by rewrite <- (le_bytes_mod 4 z). }
    intros tr [tr1 E _|tr1 a1 pid self E1 Es E _|a1 pid dll u16 self h tr1 E1 Es E3 Hu H]%agent_main_begins.
    + rewrite E. by split; [constructor|].
    + assert (a1 = arg1) as -> by congruence. rewrite HS in Es. case_decide; [|done]. injection Es as <-.
      rewrite E, HC. split; [|done]. constructor; [by exists self|constructor].
    + assert (a1 = arg1) as -> by congruence. rewrite HS in Es. case_decide; [|done]. injection Es as <-.
      assert (agent_contexts tr1 = []) as E.
      { apply serve_begins in H as [->|(url & _ & [->|(trl & Hl & ->)])]; [done|done|].
        rewrite !collect_cons, part_contexts. by eapply Loop_contexts. }
      rewrite collect_app, E, app_nil_r. split; [|done]. unfold connect_calls, collect. simpl. rewrite HC.
      constructor; [by exists self|constructor].
  - intros Hz b tr. unfold on_message. destruct (decide (b = lit "scanDLL")); [|by intros [-> _]%does_ret].
    intros (tr1 & [] & tr2 & -> & (tr3 & -> & H1)%does_translate & H2)%does_bind.
    rewrite collect_app. rewrite (collect_map Scan (@agent_snapshot)). apply scan_snapshots in H1.
    change (collect (fun X e => agent_snapshot (Scan X e)) tr3) with (snapshots tr3). rewrite H1.
    run_calls H2. by rewrite wrap_u_wrap_s, wrap_u_small.
Qed.

(** ** Witness: a scan of which Windows refuses the snapshot *)

Definition refused_scan : list (call scanE) :=
  [Call (OpenProcessToken (Z.lor TOKEN_ADJUST_PRIVILEGES TOKEN_QUERY)) (inr OtherError);
   Call (CreateToolhelp32Snapshot (Z.lor TH32CS_SNAPMODULE TH32CS_SNAPMODULE32) 4000000000) (InvalidHandle, Some OtherError);
   Call (Println (Snapshot (Some OtherError))) tt].
Definition demo_scan : list (call agentE) := (map_call Scan <$> refused_scan) ++ [Call (PrintLine (lit "scanDLL")) tt].

Lemma pid_argument_witness : scanned demo_scan = [4000000000].
Proof.
  apply (pid_argument inl (fun us => us) [lit "agent"; lit "4000000000 x"] (lit "4000000000 x") [32; 120] 4000000000
    eq_refl ltac:(by vm_compute) ltac:(simpl; lia)) with (b := lit "scanDLL").
  - decide_vm.
  - unfold on_message. rewrite decide_True by done. apply does_bind.
    eexists _, tt, _. split_and!; [reflexivity| |make_calls].
    apply does_translate. exists refused_scan. split; [reflexivity|]. unfold executeDLLScan, GetProcessModules.
    apply does_bind. eexists [_; _], (inr (Snapshot (Some OtherError))), [_]. split_and!; [reflexivity| |make_calls].
    apply does_bind. eexists [_], (Some OtherError), [_]. split_and!; [reflexivity|unfold enableSeDebugPrivilege; make_calls|].
    apply does_call. eexists _, _. split; [reflexivity|]. cbv beta iota. rewrite decide_True by done. make_calls.
Defined.
