(* ===== verification/System.v ===== *)
(** * The whole path

    The two programs around the pipeline of [EndToEnd]: the agent's [Loop], which puts the
    driver's events in, the backend's consumer, which prints what comes out, and the
    backend's [main], which owns the server. *)

From S2P Require Import Prelude Layout ACEvent Json GoChan Machine Windows WSServer HydraWS EndToEnd.
From S2P Require BackendMain Receiver DLLScanner.

(** The calls on the server among its steps: a command, or [Close]. *)
Definition owner_calls (ls : list WSServer.label) : list (option (list Z)) :=
  omap (fun l => match l with LCommand cmd => Some (Some cmd) | WSServer.LClose => Some None | _ => None end) ls.

Definition open_inv (s : server) : Prop := s_closer s = CIdle /\ no_close_inv s.

Lemma open_step s l s' :
  l <> WSServer.LClose -> open_inv s -> WSServer.step agent_ptr s l = Some s' -> open_inv s'.
Proof.
  intros Hl [HC HN] Hs.
  assert (Hr : l <> LCloseRecv).
  { intros ->. unfold WSServer.step in Hs. rewrite (proj1 (proj2 HN)) in Hs. simpl in Hs. by rewrite HC in Hs. }
  split; [|by eapply no_close_step].
  clear HN Hr. WSServer.step_cases Hs l; simpl in *; simpl_close_sock; congruence.
Qed.

(** A server that is never told to close. *)
Lemma open_run buf ls s :
  run (WSServer.step agent_ptr) (server_init buf) ls = Some s -> WSServer.LClose ∉ ls -> open_inv s.
Proof.
  intros Hr Hls. apply (run_invariant_on (WSServer.step agent_ptr) (fun l => l <> WSServer.LClose) open_inv) with (ls := ls) (s := server_init buf).
  - intros ? ? ?. apply open_step.
  - apply Forall_forall. by intros l Hl ->.
  - done.
  - done.
Qed.

Lemma commands_calls ls : commands ls = omap (fun x => x) (owner_calls ls).
Proof.
  induction ls as [|l ls IH]; [done|]. unfold commands, owner_calls in *. rewrite !omap_cons, omap_app, IH.
  by destruct l.
Qed.

(** The server's steps when its owner is [main]. *)
Lemma main_commands ls tr :
  begins BackendMain.main tr -> owner_calls ls = BackendMain.server_calls tr ->
  WSServer.LClose ∉ ls /\ Forall (eq (lit "scanDLL")) (commands ls).
Proof.
  intros HF%BackendMain.server_calls_main E. rewrite <- E in HF. clear E. split.
  - intros Hin. assert (Hn : None ∈ owner_calls ls) by (apply list_elem_of_omap; by exists WSServer.LClose).
    rewrite Forall_forall in HF. by specialize (HF _ Hn).
  - rewrite commands_calls. induction HF as [|x l <- _ IH]; [constructor|]. simpl. by constructor.
Qed.

(** [lines] are JSON texts of [evs]. *)
Definition as_json (evs : list ACEvent) (lines : list (list Z)) : Prop := BackendJSON.ToJSON <$> evs = Some <$> lines.

(** ** Properties *)

(** C1: what the backend logs.  The agent's program puts on the event channel what [Loop]
    sends and the events of others (the pipe, the scanner), in any interleaving; the backend's
    consumer receives what comes out.  When the driver's messages are headers followed by the
    C struct of [evs], the lines printed are the JSON of events of [evs] and of the others,
    each at most as often as it was reported.  While the agent is on its first connection,
    the lines keep both orders and have no gaps: they are the JSON of the first of [evs]
    interleaved with the first of the others. *)
Theorem driver_to_log (pad : nat -> Z) (UTF16ToString : list Z -> list Z) (r : Receiver.Receiver)
    (n buf : nat) (ls : list pipeline_label) (s : pipeline)
    (loop : list (call Receiver.receiverE)) (consumer : list (call BackendMain.consumerE)) (evs others : list ACEvent)
    (Hloop : begins (Receiver.Loop UTF16ToString r) loop)
    (Hmessages : Forall2 Receiver.driver_message (Receiver.messages (Receiver.replies loop)) evs)
    (Hothers : Forall (wf_event agent_ptr) others)
    (Hrun : run (pipeline_step pad) (pipeline_init n buf) ls = Some s)
    (Hputs : interleaving (Receiver.sent loop) others (events (agent_labels ls)))
    (Hconsumer : begins BackendMain.consumer consumer)
    (Hgets : BackendMain.received consumer = s_out (p_backend s)) :
  exists logged, as_json logged (BackendMain.printed consumer) /\ logged ⊆+ evs ++ others /\
    ((length (c_loops (p_agent s)) <= 1)%nat ->
     exists evs' others', interleaving evs' others' logged /\ evs' `prefix_of` evs /\ others' `prefix_of` others).
Proof.
  destruct (Receiver.Loop_sends _ _ _ Hloop) as [_ HS]. specialize (HS _ Hmessages). apply all_but_one_prefix in HS.
  assert (Hevs : Forall (wf_event agent_ptr) evs) by (clear -Hmessages; induction Hmessages as [|m ev ms evs [H _] _ IH]; auto).
  pose proof (interleaving_perm _ _ _ Hputs) as Hperm.
  assert (Hwf : Forall (wf_event agent_ptr) (events (agent_labels ls))).
  { rewrite Hperm. apply Forall_app. split; [|done]. destruct HS as [k ->]. by apply Forall_app in Hevs as [? _]. }
  destruct (pipeline_events _ _ _ _ _ Hrun Hwf) as [Hbag Hqueue].
  destruct (BackendMain.printed_events _ Hconsumer) as (logged & Hjson & Hpre). rewrite Hgets in Hpre.
  exists logged. split_and!; [exact Hjson| |].
  - transitivity (s_out (p_backend s)); [destruct Hpre as [k ->]; by apply submseteq_inserts_r|].
    rewrite Hbag, Hperm. apply submseteq_app; [|done]. destruct HS as [k ->]. by apply submseteq_inserts_r.
  - intros H1. destruct (interleaving_prefix _ _ _ logged Hputs) as (k1 & k2 & HI & Hk1 & Hk2).
    + etransitivity; [exact Hpre|by apply Hqueue].
    + exists k1, k2. split_and!; [done|by etransitivity|done].
Qed.

(** C3: the backend's process, [main] and its server: it never closes the server, and so
    nothing in it panics, recovered or not, and [Recv] stays open; and the agent is only ever told "scanDLL": that is
    every message it reads and every message its callback gets. *)
Theorem main_only_scans (pad : nat -> Z) (n : nat) (ls : list pipeline_label) (s : pipeline) (tr : list (call BackendMain.mainE))
    (Hmain : begins BackendMain.main tr)
    (Hrun : run (pipeline_step pad) (pipeline_init n 1024) ls = Some s)
    (Howner : owner_calls (backend_labels ls) = BackendMain.server_calls tr) :
  s_panicked (p_backend s) = false /\ s_recovered (p_backend s) = [] /\
  ch_closed (s_recv (p_backend s)) = false /\
  (forall c, Forall (eq (lit "scanDLL")) (heard s c)) /\
  (forall c, length (heard s c) <= length (BackendMain.server_calls tr))%nat /\
  Forall (eq (lit "scanDLL")) (hi_handled (c_hist (p_agent s))).*2.
Proof.
  destruct (main_commands _ _ Hmain Howner) as [HL HC].
  pose proof (open_run _ _ _ (proj2 (pipeline_runs _ _ _ _ _ Hrun)) HL) as (_ & Hopen & Hp & Hrec).
  assert (Hheard : forall c, Forall (eq (lit "scanDLL")) (heard s c)).
  { intros c. pose proof (heard_commands _ _ _ _ _ c Hrun) as Hsub. apply Forall_forall. intros m Hm.
    rewrite Forall_forall in HC. apply HC. eapply elem_of_submseteq; [exact Hm|]. by apply sublist_submseteq. }
  split_and!; [done|done|done|exact Hheard| |].
  - intros c. rewrite <- Howner. etransitivity; [eapply sublist_length, (heard_commands _ _ _ _ _ c Hrun)|].
    rewrite commands_calls. clear. induction (owner_calls _) as [|x l IH]; [done|].
    rewrite omap_cons, length_app. destruct x; simpl length in *; lia.
  - eapply Forall_impl; [by eapply handled_heard|]. intros m [c Hc]. specialize (Hheard c).
    rewrite Forall_forall in Hheard. by apply Hheard.
Qed.

(** ** Witnesses: a module and the driver's first event are logged; the agent hears one command *)

Definition scan_event : ACEvent := DLLScanner.dll_event (DLLScanner.mkModuleInfo [] (lit "C:\x.dll") 4096 512).

(** The whole way of one event. *)
Definition way_of (ev : ACEvent) : list pipeline_label :=
  [Agent (LEvent ev); Agent LPumpRecv; Agent LPumpSend; Agent (LTake 0%nat); Agent (LWrite 0%nat true);
   Backend (WSServer.LRead 0%nat BinaryMessage (evToBytes agent_ptr (fun _ => 0) ev)); Backend (LPush 0%nat);
   Backend LConsume].

Definition mixed_run : list pipeline_label :=
  [Agent LConnect; Agent (LDialOk 0%nat); Backend (LAccept 0%nat); Backend (LRegister 0%nat); Agent LSetConn; Agent LSpawn;
   Agent (LStart 0%nat Writing)] ++ way_of scan_event ++ way_of sample_event.

Definition mixed : pipeline := after (pipeline_step (fun _ => 0)) (pipeline_init 1 1024) mixed_run.

(** A consumer that gets the events [evs]. *)
Definition prints (evs : list ACEvent) : list (call BackendMain.consumerE) :=
  mjoin ((fun ev => [Call BackendMain.Recv (Some ev);
    Call (BackendMain.PrintLine (default [] (BackendJSON.ToJSON ev))) tt]) <$> evs).

Lemma prints_begins evs : begins BackendMain.consumer (prints evs).
Proof.
  induction evs as [|ev evs IH]; [apply begins_nil|]. unfold prints. rewrite fmap_cons, mjoin_cons.
  eapply begins_iter_after; [|exact IH]. unfold BackendMain.consumer_turn, BackendMain.print_event.
  apply does_call. eexists _, _. split; [reflexivity|]. cbv beta iota.
  destruct (BackendMain.ToJSON_some ev) as [js ->]. make_calls.
Qed.

Definition demo_consumer : list (call BackendMain.consumerE) := prints [scan_event; sample_event].

(** The two lines are those of the module and of the driver's event. *)
Lemma driver_to_log_witness :
  exists logged, as_json logged (BackendMain.printed demo_consumer) /\ logged ⊆+ [sample_event; sample_event; scan_event] /\
    exists evs' others', interleaving evs' others' logged /\ evs' `prefix_of` [sample_event; sample_event] /\
      others' `prefix_of` [scan_event].
Proof.
  destruct (driver_to_log (fun _ => 0) (fun us => us) (Receiver.mkReceiver 5 []) 1 1024 mixed_run mixed
    Receiver.demo_trace demo_consumer [sample_event; sample_event] [scan_event]) as (logged & H1 & H2 & H3).
  - exact Receiver.demo_trace_begins.
  - exact Receiver.demo_trace_messages.
  - constructor; [decide_vm|constructor].
  - unfold mixed. apply run_after. vm_compute. reflexivity.
  - change (interleaving [sample_event] [scan_event] [scan_event; sample_event]). auto with medusa.
  - apply prints_begins.
  - vm_compute. reflexivity.
  - exists logged. split_and!; [exact H1|exact H2|]. apply H3. vm_compute. apply le_n.
Defined.

Lemma main_only_scans_witness :
  Forall (eq (lit "scanDLL")) (hi_handled (c_hist (p_agent demo_pipeline))).*2 /\
  s_panicked (p_backend demo_pipeline) = false.
Proof.
  destruct (main_only_scans (fun _ => 0) 1 demo_pipeline_run demo_pipeline (BackendMain.prologue ++ BackendMain.turns 1))
    as (Hp & _ & _ & _ & _ & Hh).
  - unfold BackendMain.main, BackendMain.prologue. repeat apply begins_call_after.
    apply begins_bind_within, BackendMain.main_loop_goes_on.
  - exact demo_pipeline_runs.
  - vm_compute. reflexivity.
  - split; [exact Hh|exact Hp].
Defined.
